(** * Google Calendar Sync: the reconciliation engine

    A shallow embedding of the bidirectional calendar reconciliation engine
    of [google-calendar-sync] (event-utils.ts, google-calendar.ts,
    sheets.ts, sync-core.ts) and the properties its specification states.
    The engine is the one with the batched ledger writes; the earlier
    per-event version of sync-core.ts, which the repository also holds, is
    embedded in the module [Legacy] below.

    Conventions of the embedding
    - JavaScript strings are [string]s (sequences of bytes, UTF-8 for the
      non-ASCII literals of the source); [includes], [join] and template
      literals are written out on them.
    - An optional field [f?: T] is an [option T]; [x ?? d] is [default d x];
      the truthiness test [if (x)] of an optional string is [truthy].
    - Two TypeScript interfaces that share a field name get a prefix on the
      clashing fields ([ev_id], [rec_id], [ins_], [upd_], [body_]). *)

From Stdlib Require Import String Ascii Arith Lia Bool.
From stdpp Require Import base option list strings pretty gmap sorting.

Open Scope string_scope.
Open Scope list_scope.
Open Scope nat_scope.

(** ** JavaScript string primitives *)

Module Js.

(** [s.includes(sub)]: does [sub] occur in [s] as a contiguous run. *)
Fixpoint includes (s sub : string) : bool :=
  String.prefix sub s ||
  match s with
  | EmptyString => false
  | String _ s' => includes s' sub
  end.

(** [parts.join(sep)]. *)
Definition join (sep : string) (parts : list string) : string :=
  String.concat sep parts.

(** [if (x)] for an optional string: [undefined] and the empty string are
    falsy, every other string is truthy. *)
Definition truthy (x : option string) : bool :=
  match x with
  | Some s => negb (String.eqb s "")
  | None => false
  end.

Definition dquote : ascii := ascii_of_nat 34.
Definition backslash : ascii := ascii_of_nat 92.

Definition hexDigit (n : nat) : ascii :=
  match String.get n "0123456789abcdef" with
  | Some c => c
  | None => "0"%char
  end.

(** One character of [QuoteJSONString]: the two-character escapes, the
    [\u00xx] form for the other control characters, everything else
    verbatim. *)
Definition quoteChar (c : ascii) : string :=
  let n := nat_of_ascii c in
  if Nat.eqb n 34 then String backslash (String dquote EmptyString)
  else if Nat.eqb n 92 then String backslash (String backslash EmptyString)
  else if Nat.eqb n 8 then String backslash "b"
  else if Nat.eqb n 9 then String backslash "t"
  else if Nat.eqb n 10 then String backslash "n"
  else if Nat.eqb n 12 then String backslash "f"
  else if Nat.eqb n 13 then String backslash "r"
  else if Nat.ltb n 32 then
    String backslash
      (String "u" (String "0" (String "0"
         (String (hexDigit (n / 16)) (String (hexDigit (n mod 16)) EmptyString)))))
  else String c EmptyString.

Fixpoint quoteBody (s : string) : string :=
  match s with
  | EmptyString => EmptyString
  | String c s' => quoteChar c +:+ quoteBody s'
  end.

(** [JSON.stringify(s)] for a string [s]. *)
Definition stringifyString (s : string) : string :=
  String dquote (quoteBody s +:+ String dquote EmptyString).

End Js.

(** ** Data model (types.ts) *)

(** Union type for Google Calendar start/end datetime. *)
Inductive EventDateTime : Type :=
| DateTime (dateTime : string) (timeZone : option string)
| DateOnly (date : string).

Record Attendee : Type := {
  email : string;
  displayName : option string;
  resource : option bool;
  responseStatus : option string;
  self : option bool
}.

(** Shape of events from the Google Calendar API. *)
Record GoogleCalendarEvent : Type := {
  ev_id : string;
  summary : option string;
  start : option EventDateTime;
  end_ : option EventDateTime;
  location : option string;
  description : option string;
  attendees : option (list Attendee);
  hangoutLink : option string;
  transparency : option string;
  status : option string;
  recurringEventId : option string
}.

(** Row from the synced_events table; [rec_id] is the 1-based sheet row. *)
Record SyncedEventRecord : Type := {
  rec_id : nat;
  primary_calendar : string;
  primary_event_id : string;
  secondary_calendar : string;
  secondary_event_id : string;
  event_summary : string;
  event_start : string;
  event_end : string;
  event_signature : string;
  created_at : string;
  last_updated : string;
  last_checked : string
}.

(** Result of analyzing events for sync. *)
Record SyncAnalysis : Type := {
  toCreate : list GoogleCalendarEvent;
  toUpdate : list (GoogleCalendarEvent * SyncedEventRecord);
  unchanged : nat;
  skippedDuplicate : nat
}.

(** The request body built for the target calendar
    ([Record<string, unknown>] in the source; [body_location] is only set
    when a location was resolved). *)
Record EventBody : Type := {
  body_summary : string;
  body_description : string;
  body_start : option EventDateTime;
  body_end : option EventDateTime;
  body_transparency : string;
  body_location : option string
}.

(** ** Event utilities (event-utils.ts) *)

Definition SYNC_TAG : string := "🔄 SYNCED FROM:".

(** [JSON.stringify] of a start/end value, as it lands in a template
    literal: [undefined] prints as the word, an object prints its own keys
    in declaration order, an absent [timeZone] is left out. *)
Definition stringifyDateTime (dt : option EventDateTime) : string :=
  match dt with
  | None => "undefined"
  | Some (DateOnly d) =>
      "{" +:+ Js.stringifyString "date" +:+ ":" +:+ Js.stringifyString d +:+ "}"
  | Some (DateTime t None) =>
      "{" +:+ Js.stringifyString "dateTime" +:+ ":" +:+ Js.stringifyString t +:+ "}"
  | Some (DateTime t (Some z)) =>
      "{" +:+ Js.stringifyString "dateTime" +:+ ":" +:+ Js.stringifyString t +:+ ","
          +:+ Js.stringifyString "timeZone" +:+ ":" +:+ Js.stringifyString z +:+ "}"
  end.

(** Compute a signature string from key event fields for change detection. *)
Definition computeSignature (event : GoogleCalendarEvent) : string :=
  default "" (summary event) +:+ "|" +:+
  stringifyDateTime (start event) +:+ "|" +:+
  stringifyDateTime (end_ event) +:+ "|" +:+
  default "" (location event) +:+ "|" +:+
  default "" (transparency event) +:+ "|" +:+
  default "" (hangoutLink event) +:+ "|" +:+
  default "" (description event).

(** Normalize a Google Calendar datetime to a consistent format. *)
Definition normalizeDateTime (dt : option EventDateTime) : option EventDateTime :=
  match dt with
  | None => None
  | Some (DateOnly d) => Some (DateOnly d)
  | Some (DateTime t z) =>
      if Js.truthy z then Some (DateTime t z) else Some (DateTime t None)
  end.

(** Check if an event is a synced copy (has the sync metadata tag). *)
Definition isSyncedCopy (event : GoogleCalendarEvent) : bool :=
  Js.includes (default "" (description event)) SYNC_TAG.

(** Check if the target calendar appears in the event's attendees. *)
Definition isTargetCalendarInAttendees
    (event : GoogleCalendarEvent) (targetCalendarId : string) : bool :=
  match attendees event with
  | None => false
  | Some l => existsb (fun attendee => String.eqb (email attendee) targetCalendarId) l
  end.

Definition isRoom (a : Attendee) : bool :=
  match resource a with Some true => true | _ => false end.

Definition roomLabel (r : Attendee) : string := default (email r) (displayName r).

(** Build the description for a synced event copy. *)
Definition buildSyncedDescription
    (event : GoogleCalendarEvent) (prefix sourceCalendarId : string) : string :=
  let rooms := filter (fun a => isRoom a = true) (default [] (attendees event)) in
  let parts1 :=
    match rooms with
    | [] => []
    | _ => ["📍 Room: " +:+ Js.join ", " (map roomLabel rooms)]
    end in
  let parts2 :=
    if Js.truthy (hangoutLink event)
    then parts1 ++ ["🔗 Meeting: " +:+ default "" (hangoutLink event)]
    else parts1 in
  let parts3 :=
    if Js.truthy (description event)
    then parts2 ++ [String (ascii_of_nat 10) (default "" (description event))]
    else parts2 in
  let parts4 :=
    parts3 ++ [String (ascii_of_nat 10)
                 (SYNC_TAG +:+ " " +:+ prefix +:+ " (" +:+ sourceCalendarId +:+ ")")] in
  Js.join (String (ascii_of_nat 10) EmptyString) parts4.

(** Build the full event body for creating/updating on the target calendar. *)
Definition buildSyncedEventBody
    (event : GoogleCalendarEvent) (prefix sourceCalendarId : string) : EventBody :=
  let description := buildSyncedDescription event prefix sourceCalendarId in
  let rooms := filter (fun a => isRoom a = true) (default [] (attendees event)) in
  let roomName :=
    match rooms with
    | [] => None
    | _ => Some (Js.join ", " (map roomLabel rooms))
    end in
  let location :=
    if Js.truthy (location event) then location event
    else if Js.truthy roomName then roomName
    else None in
  {| body_summary := prefix +:+ " " +:+ default "" (summary event);
     body_description := description;
     body_start := normalizeDateTime (start event);
     body_end := normalizeDateTime (end_ event);
     body_transparency := default "opaque" (transparency event);
     body_location := if Js.truthy location then location else None |}.

(** The key of the record map: [`${primary_event_id}:${primary_calendar}`]. *)
Definition recordKey (eventId calendarId : string) : string :=
  eventId +:+ ":" +:+ calendarId.

(** [new Map()] filled by [recordMap.set(key, record)] in ledger order: a
    later record with the same key replaces an earlier one. *)
Definition buildRecordMap (syncedRecords : list SyncedEventRecord)
  : gmap string SyncedEventRecord :=
  foldl (fun m record =>
           <[recordKey (primary_event_id record) (primary_calendar record) := record]> m)
        ∅ syncedRecords.

Definition emptyAnalysis : SyncAnalysis :=
  {| toCreate := []; toUpdate := []; unchanged := 0; skippedDuplicate := 0 |}.

(** One turn of the [for (const event of events)] loop. *)
Definition analyzeOne
    (recordMap : gmap string SyncedEventRecord)
    (sourceCalendarId targetCalendarId : string)
    (acc : SyncAnalysis) (event : GoogleCalendarEvent) : SyncAnalysis :=
  if String.eqb (ev_id event) "" then acc
  else if isSyncedCopy event then
    {| toCreate := toCreate acc; toUpdate := toUpdate acc;
       unchanged := unchanged acc; skippedDuplicate := S (skippedDuplicate acc) |}
  else if isTargetCalendarInAttendees event targetCalendarId then
    {| toCreate := toCreate acc; toUpdate := toUpdate acc;
       unchanged := unchanged acc; skippedDuplicate := S (skippedDuplicate acc) |}
  else
    match recordMap !! recordKey (ev_id event) sourceCalendarId with
    | Some dbRecord =>
        if String.eqb (event_signature dbRecord) (computeSignature event) then
          {| toCreate := toCreate acc; toUpdate := toUpdate acc;
             unchanged := S (unchanged acc); skippedDuplicate := skippedDuplicate acc |}
        else
          {| toCreate := toCreate acc; toUpdate := toUpdate acc ++ [(event, dbRecord)];
             unchanged := unchanged acc; skippedDuplicate := skippedDuplicate acc |}
    | None =>
        {| toCreate := toCreate acc ++ [event]; toUpdate := toUpdate acc;
           unchanged := unchanged acc; skippedDuplicate := skippedDuplicate acc |}
    end.

(** Analyze events from a source calendar against synced records. *)
Definition analyzeEvents
    (events : list GoogleCalendarEvent) (syncedRecords : list SyncedEventRecord)
    (sourceCalendarId targetCalendarId : string) : SyncAnalysis :=
  foldl (analyzeOne (buildRecordMap syncedRecords) sourceCalendarId targetCalendarId)
        emptyAnalysis events.

(** ** Pending ledger mutations and results (types.ts, as sync-core.ts uses them) *)

Record PendingSheetInsert : Type := {
  ins_primary_calendar : string;
  ins_primary_event_id : string;
  ins_secondary_calendar : string;
  ins_secondary_event_id : string;
  ins_event_summary : string;
  ins_event_start : string;
  ins_event_end : string;
  ins_event_signature : string
}.

Record PendingSheetUpdate : Type := {
  upd_rowId : nat;
  upd_primary_calendar : string;
  upd_primary_event_id : string;
  upd_secondary_calendar : string;
  upd_secondary_event_id : string;
  upd_event_summary : string;
  upd_event_start : string;
  upd_event_end : string;
  upd_event_signature : string;
  upd_created_at : string
}.

Record PendingSheetDelete : Type := { del_rowId : nat }.

(** Summary counters for sync operations. *)
Record SyncStats : Type := {
  created : nat;
  updated : nat;
  deleted : nat;
  errors : nat
}.

Record SyncDirectionResult : Type := {
  stats : SyncStats;
  pendingInserts : list PendingSheetInsert;
  pendingUpdates : list PendingSheetUpdate
}.

Record OrphanDetectionResult : Type := {
  orphans_deleted : nat;
  orphans_errors : nat;
  pendingDeletes : list PendingSheetDelete
}.

Record SyncOutput : Type := {
  aToBStats : SyncStats;
  bToAStats : SyncStats;
  deletionStats : nat * nat;
  out_eventsA : nat;
  out_eventsB : nat;
  sheetRecords : nat
}.

(** [process.env]: every variable may be unset. [MAX_EVENTS] and
    [DAYS_AHEAD] are kept as the numbers [parseInt] reads from them. *)
Record Env : Type := {
  GCAL_OAUTH_TOKEN : option string;
  GSHEET_OAUTH_TOKEN : option string;
  SPREADSHEET_ID : option string;
  CALENDAR_A_ID : option string;
  CALENDAR_B_ID : option string;
  CALENDAR_A_PREFIX : option string;
  CALENDAR_B_PREFIX : option string;
  MAX_EVENTS : option nat;
  DAYS_AHEAD : option nat;
  TELEGRAM_BOT_TOKEN : option string;
  TELEGRAM_CHAT_ID : option string;
  workflowID : string
}.

(** ** Promises over the external services

    The calendar, the spreadsheet, the clock and the alerting endpoint are
    outside the engine. They are a record of handlers over an arbitrary
    world [W]; a promise is a function of the state that either never
    settles ([None]) or settles, fulfilled or rejected, in a new state.
    Every request the engine issues is appended to a trace with its
    outcome, so that theorems can speak about which requests were made.

    [SolidActions.runStep(fn, {name})] runs [fn] once and yields its result;
    logger calls have no bearing on any result and are left out. *)

Record JsError : Type := { err_code : option nat; err_message : string }.

Inductive Settled (A : Type) : Type :=
| Fulfilled (value : A)
| Rejected (reason : JsError).
Arguments Fulfilled {A} value.
Arguments Rejected {A} reason.

Definition isFulfilled {A} (r : Settled A) : bool :=
  match r with Fulfilled _ => true | Rejected _ => false end.

Definition isRejected {A} (r : Settled A) : bool := negb (isFulfilled r).

(** One [deleteDimension] request over rows [startIndex, endIndex). *)
Record DeleteDimension : Type := {
  dd_sheetId : nat;
  dd_startIndex : nat;
  dd_endIndex : nat
}.

Inductive Call : Type :=
| CEventsList (calendarId : string) (maxResults daysAhead : nat)
| CEventsInsert (calendarId : string) (requestBody : EventBody)
| CEventsUpdate (calendarId eventId : string) (requestBody : EventBody)
| CEventsDelete (calendarId eventId : string)
| CValuesGet (spreadsheetId : string)
| CValuesAppend (spreadsheetId : string) (values : list (list string))
| CValuesBatchUpdate (spreadsheetId : string) (data : list (nat * list string))
| CValuesUpdate (spreadsheetId : string) (rowId : nat) (row : list string)
| CSpreadsheetsGet (spreadsheetId : string)
| CSpreadsheetsBatchUpdate (spreadsheetId : string) (requests : list DeleteDimension)
| CTelegram (botToken chatId message : string)
| CSetTimeout (ms : nat).

Record TraceEntry : Type := { te_call : Call; te_error : option JsError }.

Record Services (W : Type) : Type := {
  events_list : string -> nat -> nat -> W -> Settled (list GoogleCalendarEvent) * W;
  events_insert : string -> EventBody -> W -> Settled GoogleCalendarEvent * W;
  events_update : string -> string -> EventBody -> W -> Settled GoogleCalendarEvent * W;
  events_delete : string -> string -> W -> Settled unit * W;
  values_get : string -> W -> Settled (list (list string)) * W;
  values_append : string -> list (list string) -> W -> Settled unit * W;
  values_batchUpdate : string -> list (nat * list string) -> W -> Settled unit * W;
  values_update : string -> nat -> list string -> W -> Settled unit * W;
  spreadsheets_get : string -> W -> Settled (list (string * nat)) * W;
  spreadsheets_batchUpdate : string -> list DeleteDimension -> W -> Settled unit * W;
  telegram_post : string -> string -> string -> W -> Settled bool * W;
  set_timeout : nat -> W -> W;
  date_now : W -> string
}.
Arguments events_list {W}.
Arguments events_insert {W}.
Arguments events_update {W}.
Arguments events_delete {W}.
Arguments values_get {W}.
Arguments values_append {W}.
Arguments values_batchUpdate {W}.
Arguments values_update {W}.
Arguments spreadsheets_get {W}.
Arguments spreadsheets_batchUpdate {W}.
Arguments telegram_post {W}.
Arguments set_timeout {W}.
Arguments date_now {W}.

Record State (W : Type) : Type := { world : W; trace : list TraceEntry }.
Arguments world {W}.
Arguments trace {W}.

Definition Promise (W A : Type) : Type := State W -> option (Settled A * State W).

Definition resolve {W A} (a : A) : Promise W A := fun s => Some (Fulfilled a, s).

Definition reject {W A} (e : JsError) : Promise W A := fun s => Some (Rejected e, s).

(** A promise that never settles. *)
Definition never {W A} : Promise W A := fun _ => None.

(** [const x = await p; k x]: a rejection of [p] is thrown past [k]. *)
Definition await {W A B} (p : Promise W A) (k : A -> Promise W B) : Promise W B :=
  fun s =>
    match p s with
    | Some (Fulfilled a, s') => k a s'
    | Some (Rejected e, s') => Some (Rejected e, s')
    | None => None
    end.

Notation "'let!' x ':=' p 'in' k" := (await p (fun x => k))
  (at level 10, x pattern, p at level 100, k at level 200).

(** [try { p } catch (error) { h error }]. *)
Definition tryCatch {W A} (p : Promise W A) (h : JsError -> Promise W A) : Promise W A :=
  fun s =>
    match p s with
    | Some (Fulfilled a, s') => Some (Fulfilled a, s')
    | Some (Rejected e, s') => h e s'
    | None => None
    end.

(** The settled outcome of one promise, never a rejection itself. *)
Definition settle {W A} (p : Promise W A) : Promise W (Settled A) :=
  fun s =>
    match p s with
    | Some (r, s') => Some (Fulfilled r, s')
    | None => None
    end.

(** [Promise.allSettled(ps)]: every promise is run and its outcome kept, in
    the order of [ps]; the requests of the members reach the services in
    that order. *)
Fixpoint allSettled {W A} (ps : list (Promise W A)) : Promise W (list (Settled A)) :=
  match ps with
  | [] => resolve []
  | p :: ps' =>
      let! r := settle p in
      let! rs := allSettled ps' in
      resolve (r :: rs)
  end.

Definition allSettled2 {W A B} (p : Promise W A) (q : Promise W B)
  : Promise W (Settled A * Settled B) :=
  let! a := settle p in
  let! b := settle q in
  resolve (a, b).

(** One request to a service: the handler runs on the world and the call is
    recorded with its outcome. *)
Definition invoke {W A} (c : Call) (h : W -> Settled A * W) : Promise W A :=
  fun s =>
    let (r, w') := h (world s) in
    Some (r, {| world := w';
                trace := trace s ++
                  [{| te_call := c;
                      te_error := match r with
                                  | Rejected e => Some e
                                  | Fulfilled _ => None
                                  end |}] |}).

Definition runStep {W A} (name : string) (fn : Promise W A) : Promise W A := fn.

(** [items.slice(i, j)]. *)
Definition slice {A} (i j : nat) (items : list A) : list A :=
  take (j - i) (drop i items).

(** ** The engine over arbitrary services *)

Definition CONCURRENCY : nat := 5.
Definition BATCH_DELAY_MS : nat := 1000.
Definition SHEET_NAME : string := "synced_events".

Section Engine.

Context {W : Type} (svc : Services W).

(** [delay(ms)]: resolves after the timer fired. *)
Definition delay (ms : nat) : Promise W unit :=
  invoke (CSetTimeout ms) (fun w => (Fulfilled tt, set_timeout svc ms w)).

(** The [for (let i = 0; i < items.length; i += batchSize)] loop of
    [processInBatches], [fuel] turns of it. *)
Fixpoint batchLoop {T R} (fuel : nat) (items : list T) (batchSize : nat)
    (fn : T -> Promise W R) (i : nat) (results : list (Settled R))
  : Promise W (list (Settled R)) :=
  if Nat.ltb i (length items) then
    match fuel with
    | 0 => never
    | S fuel' =>
        let! _ := (if Nat.ltb 0 i then delay BATCH_DELAY_MS else resolve tt) in
        let batch := slice i (i + batchSize) items in
        let! batchResults := allSettled (map fn batch) in
        batchLoop fuel' items batchSize fn (i + batchSize) (results ++ batchResults)
    end
  else resolve results.

(** [processInBatches(items, batchSize, fn)]. A positive [batchSize] ends
    the loop within [length items] turns; with [batchSize = 0] and an item
    to process the index never advances and the promise never settles,
    which [S (length items)] turns of fuel detect. *)
Definition processInBatches {T R} (items : list T) (batchSize : nat)
    (fn : T -> Promise W R) : Promise W (list (Settled R)) :=
  batchLoop (S (length items)) items batchSize fn 0 [].

Definition getDateString (dt : option EventDateTime) : string :=
  match dt with
  | None => ""
  | Some (DateTime t _) => t
  | Some (DateOnly d) => d
  end.

(** *** Calendar helpers (google-calendar.ts) *)

(** Fetch events from a calendar within the sync window. *)
Definition fetchEvents (calendarId : string) (maxEvents daysAhead : nat)
  : Promise W (list GoogleCalendarEvent) :=
  invoke (CEventsList calendarId maxEvents daysAhead)
         (events_list svc calendarId maxEvents daysAhead).

(** Create an event on a calendar. Returns the created event data. *)
Definition createEvent (calendarId : string) (eventBody : EventBody)
  : Promise W GoogleCalendarEvent :=
  invoke (CEventsInsert calendarId eventBody) (events_insert svc calendarId eventBody).

(** Update an existing event on a calendar. *)
Definition updateEvent (calendarId eventId : string) (eventBody : EventBody)
  : Promise W GoogleCalendarEvent :=
  invoke (CEventsUpdate calendarId eventId eventBody)
         (events_update svc calendarId eventId eventBody).

(** Delete an event from a calendar. Handles 410 Gone gracefully. *)
Definition deleteEvent (calendarId eventId : string) : Promise W unit :=
  tryCatch
    (invoke (CEventsDelete calendarId eventId) (events_delete svc calendarId eventId))
    (fun error =>
       if decide (err_code error = Some 410) then resolve tt else reject error).

(** *** Ledger helpers (sheets.ts) *)

Definition cell (row : list string) (k : nat) : string := default "" (row !! k).

Definition parseRow (index : nat) (row : list string) : SyncedEventRecord :=
  {| rec_id := index + 2;
     primary_calendar := cell row 0;
     primary_event_id := cell row 1;
     secondary_calendar := cell row 2;
     secondary_event_id := cell row 3;
     event_summary := cell row 4;
     event_start := cell row 5;
     event_end := cell row 6;
     event_signature := cell row 7;
     created_at := cell row 8;
     last_updated := cell row 9;
     last_checked := cell row 10 |}.

(** The pure part of [loadSyncedEvents]: rows to records. *)
Definition parseRows (rows : list (list string)) : list SyncedEventRecord :=
  if Nat.leb (length rows) 1 then []
  else filter (fun record => primary_calendar record ≠ "")
              (imap parseRow (drop 1 rows)).

(** Load all synced event records from the spreadsheet. *)
Definition loadSyncedEvents (spreadsheetId : string)
  : Promise W (list SyncedEventRecord) :=
  let! rows := invoke (CValuesGet spreadsheetId) (values_get svc spreadsheetId) in
  resolve (parseRows rows).

Definition insertRow (now : string) (record : PendingSheetInsert) : list string :=
  [ins_primary_calendar record; ins_primary_event_id record;
   ins_secondary_calendar record; ins_secondary_event_id record;
   ins_event_summary record; ins_event_start record; ins_event_end record;
   ins_event_signature record; now; now; now].

Definition updateRow (now : string) (update : PendingSheetUpdate) : list string :=
  [upd_primary_calendar update; upd_primary_event_id update;
   upd_secondary_calendar update; upd_secondary_event_id update;
   upd_event_summary update; upd_event_start update; upd_event_end update;
   upd_event_signature update; upd_created_at update; now; now].

(** Modelled from the spec: [batchInsertSyncedEvents] of sheets.ts is not
    among the sources. "Three batched operations, each a no-op on an empty
    input: batchInsert(records) appends all rows in one call"; the row is
    the fixed 11-column row of the ledger schema. *)
Definition batchInsertSyncedEvents (spreadsheetId : string)
    (records : list PendingSheetInsert) : Promise W unit :=
  match records with
  | [] => resolve tt
  | _ =>
      fun s =>
        let now := date_now svc (world s) in
        invoke (CValuesAppend spreadsheetId (map (insertRow now) records))
               (values_append svc spreadsheetId (map (insertRow now) records)) s
  end.

(** Modelled from the spec: [batchUpdateSyncedEvents] of sheets.ts is not
    among the sources. "batchUpdate(updates) issues one multi-range update
    covering all changed rows (each carrying its row id)". *)
Definition batchUpdateSyncedEvents (spreadsheetId : string)
    (updates : list PendingSheetUpdate) : Promise W unit :=
  match updates with
  | [] => resolve tt
  | _ =>
      fun s =>
        let now := date_now svc (world s) in
        let data := map (fun u => (upd_rowId u, updateRow now u)) updates in
        invoke (CValuesBatchUpdate spreadsheetId data)
               (values_batchUpdate svc spreadsheetId data) s
  end.

(** [rowIds.sort((a, b) => b - a)]: insertion into a descending list. *)
Fixpoint insertDesc (x : nat) (l : list nat) : list nat :=
  match l with
  | [] => [x]
  | y :: l' => if Nat.leb y x then x :: y :: l' else y :: insertDesc x l'
  end.

Definition sortDesc (l : list nat) : list nat := foldr insertDesc [] l.

Definition deleteRowRequest (sheetId rowId : nat) : DeleteDimension :=
  {| dd_sheetId := sheetId; dd_startIndex := rowId - 1; dd_endIndex := rowId |}.

(** Modelled from the spec: [batchDeleteSyncedEventRows] of sheets.ts is
    not among the sources (only its call in sync-core.ts is).
    "batchDelete(rowIds, sheetIdentifier) issues one structural delete
    covering all target rows, with row ids processed in descending order
    within the single request"; a no-op on an empty input. *)
Definition batchDeleteSyncedEventRows (spreadsheetId : string) (sheetId : nat)
    (rowIds : list nat) : Promise W unit :=
  match rowIds with
  | [] => resolve tt
  | _ =>
      let requests := map (deleteRowRequest sheetId) (sortDesc rowIds) in
      invoke (CSpreadsheetsBatchUpdate spreadsheetId requests)
             (spreadsheets_batchUpdate svc spreadsheetId requests)
  end.

(** Modelled from the spec: [getSheetId] of sheets.ts is not among the
    sources. "The store's structural identifier (analogous to a sheet/tab
    id) is fetched once per pass and reused"; the lookup by title and the
    fallback to 0 are those of [deleteSyncedEvent]. *)
Definition getSheetId (spreadsheetId : string) : Promise W nat :=
  let! sheets := invoke (CSpreadsheetsGet spreadsheetId) (spreadsheets_get svc spreadsheetId) in
  resolve (default 0 (snd <$> find (fun s => String.eqb (fst s) SHEET_NAME) sheets)).

(** *** Alerting (telegram.ts) *)

(** Send an error notification to Telegram. Never throws. *)
Definition sendTelegramError (botToken chatId message : string) : Promise W unit :=
  tryCatch
    (let! _ := invoke (CTelegram botToken chatId message)
                      (telegram_post svc botToken chatId message) in
     resolve tt)
    (fun _ => resolve tt).

(** *** Step functions (sync-core.ts) *)

Definition fetchCalendarEvents (calendarId : string) (maxEvents daysAhead : nat)
  : Promise W (list GoogleCalendarEvent) :=
  fetchEvents calendarId maxEvents daysAhead.

Definition loadSheetRecords (spreadsheetId : string) : Promise W (list SyncedEventRecord) :=
  loadSyncedEvents spreadsheetId.

Definition zeroStats : SyncStats :=
  {| created := 0; updated := 0; deleted := 0; errors := 0 |}.

Definition incCreated (st : SyncStats) : SyncStats :=
  {| created := S (created st); updated := updated st;
     deleted := deleted st; errors := errors st |}.

Definition incUpdated (st : SyncStats) : SyncStats :=
  {| created := created st; updated := S (updated st);
     deleted := deleted st; errors := errors st |}.

Definition incErrors (st : SyncStats) : SyncStats :=
  {| created := created st; updated := updated st;
     deleted := deleted st; errors := S (errors st) |}.

Definition pendingInsertOf (sourceCalendarId targetCalendarId : string)
    (event createdEvent : GoogleCalendarEvent) : PendingSheetInsert :=
  {| ins_primary_calendar := sourceCalendarId;
     ins_primary_event_id := ev_id event;
     ins_secondary_calendar := targetCalendarId;
     ins_secondary_event_id := ev_id createdEvent;
     ins_event_summary := default "" (summary event);
     ins_event_start := getDateString (start event);
     ins_event_end := getDateString (end_ event);
     ins_event_signature := computeSignature event |}.

Definition pendingUpdateOf (event : GoogleCalendarEvent) (dbRecord : SyncedEventRecord)
  : PendingSheetUpdate :=
  {| upd_rowId := rec_id dbRecord;
     upd_primary_calendar := primary_calendar dbRecord;
     upd_primary_event_id := primary_event_id dbRecord;
     upd_secondary_calendar := secondary_calendar dbRecord;
     upd_secondary_event_id := secondary_event_id dbRecord;
     upd_event_summary := default "" (summary event);
     upd_event_start := getDateString (start event);
     upd_event_end := getDateString (end_ event);
     upd_event_signature := computeSignature event;
     upd_created_at := created_at dbRecord |}.

(** One turn of [for (const result of createResults)]. *)
Definition collectCreate (sourceCalendarId targetCalendarId : string)
    (acc : SyncStats * list PendingSheetInsert)
    (result : Settled (GoogleCalendarEvent * GoogleCalendarEvent))
  : SyncStats * list PendingSheetInsert :=
  match result with
  | Fulfilled (event, createdEvent) =>
      (incCreated (fst acc),
       snd acc ++ [pendingInsertOf sourceCalendarId targetCalendarId event createdEvent])
  | Rejected _ => (incErrors (fst acc), snd acc)
  end.

(** One turn of [for (const result of updateResults)]. *)
Definition collectUpdate
    (acc : SyncStats * list PendingSheetUpdate)
    (result : Settled (GoogleCalendarEvent * SyncedEventRecord))
  : SyncStats * list PendingSheetUpdate :=
  match result with
  | Fulfilled (event, dbRecord) =>
      (incUpdated (fst acc), snd acc ++ [pendingUpdateOf event dbRecord])
  | Rejected _ => (incErrors (fst acc), snd acc)
  end.

(** The per-item operation of the create phase. *)
Definition createOne (sourceCalendarId targetCalendarId prefix : string)
    (event : GoogleCalendarEvent)
  : Promise W (GoogleCalendarEvent * GoogleCalendarEvent) :=
  let eventBody := buildSyncedEventBody event prefix sourceCalendarId in
  let! createdEvent := createEvent targetCalendarId eventBody in
  resolve (event, createdEvent).

(** The per-item operation of the update phase. *)
Definition updateOne (sourceCalendarId targetCalendarId prefix : string)
    (item : GoogleCalendarEvent * SyncedEventRecord)
  : Promise W (GoogleCalendarEvent * SyncedEventRecord) :=
  let eventBody := buildSyncedEventBody (fst item) prefix sourceCalendarId in
  let! _ := updateEvent targetCalendarId (secondary_event_id (snd item)) eventBody in
  resolve item.

Definition syncDirection
    (sourceEvents : list GoogleCalendarEvent) (syncedRecords : list SyncedEventRecord)
    (sourceCalendarId targetCalendarId prefix : string)
  : Promise W SyncDirectionResult :=
  let analysis :=
    analyzeEvents sourceEvents syncedRecords sourceCalendarId targetCalendarId in
  let! createResults :=
    processInBatches (toCreate analysis) CONCURRENCY
      (createOne sourceCalendarId targetCalendarId prefix) in
  let afterCreates :=
    foldl (collectCreate sourceCalendarId targetCalendarId) (zeroStats, []) createResults in
  let! updateResults :=
    processInBatches (toUpdate analysis) CONCURRENCY
      (updateOne sourceCalendarId targetCalendarId prefix) in
  let afterUpdates := foldl collectUpdate (fst afterCreates, []) updateResults in
  resolve {| stats := fst afterUpdates;
             pendingInserts := snd afterCreates;
             pendingUpdates := snd afterUpdates |}.

(** The predicate of [syncedRecords.filter(...)] in [detectAndDeleteOrphans]. *)
Definition isOrphan (calAEventIds calBEventIds : gset string)
    (calendarAId calendarBId : string) (record : SyncedEventRecord) : bool :=
  if String.eqb (primary_calendar record) calendarAId
     && negb (bool_decide (primary_event_id record ∈ calAEventIds))
  then true
  else if String.eqb (primary_calendar record) calendarBId
          && negb (bool_decide (primary_event_id record ∈ calBEventIds))
  then true
  else false.

(** The per-item operation of the orphan phase. *)
Definition deleteOne (record : SyncedEventRecord) : Promise W SyncedEventRecord :=
  let! _ := deleteEvent (secondary_calendar record) (secondary_event_id record) in
  resolve record.

(** One turn of [for (const result of deleteResults)]. *)
Definition collectDelete (acc : OrphanDetectionResult) (result : Settled SyncedEventRecord)
  : OrphanDetectionResult :=
  match result with
  | Fulfilled record =>
      {| orphans_deleted := S (orphans_deleted acc);
         orphans_errors := orphans_errors acc;
         pendingDeletes := pendingDeletes acc ++ [{| del_rowId := rec_id record |}] |}
  | Rejected _ =>
      {| orphans_deleted := orphans_deleted acc;
         orphans_errors := S (orphans_errors acc);
         pendingDeletes := pendingDeletes acc |}
  end.

Definition findOrphans (evsA evsB : list GoogleCalendarEvent)
    (syncedRecords : list SyncedEventRecord) (calendarAId calendarBId : string)
  : list SyncedEventRecord :=
  let calAEventIds : gset string := list_to_set (map ev_id evsA) in
  let calBEventIds : gset string := list_to_set (map ev_id evsB) in
  filter (fun record =>
            isOrphan calAEventIds calBEventIds calendarAId calendarBId record = true)
         syncedRecords.

Definition detectAndDeleteOrphans
    (evsA evsB : list GoogleCalendarEvent) (syncedRecords : list SyncedEventRecord)
    (calendarAId calendarBId : string) : Promise W OrphanDetectionResult :=
  let orphans := findOrphans evsA evsB syncedRecords calendarAId calendarBId in
  let! deleteResults := processInBatches orphans CONCURRENCY deleteOne in
  resolve (foldl collectDelete
                 {| orphans_deleted := 0; orphans_errors := 0; pendingDeletes := [] |}
                 deleteResults).

(** *** The workflow (sync-core.ts) *)

Definition summaryLine (st : SyncStats) : string :=
  pretty (created st) +:+ " created, " +:+ pretty (updated st) +:+ " updated, "
    +:+ pretty (errors st) +:+ " errors".

Definition newline : string := String (ascii_of_nat 10) EmptyString.

Definition errorsSummaryMessage (ab ba : SyncStats) (del : nat * nat) (totalErrors : nat)
  : string :=
  "*Calendar Sync Completed with Errors*" +:+ newline +:+ newline +:+
  "A→B: " +:+ summaryLine ab +:+ newline +:+
  "B→A: " +:+ summaryLine ba +:+ newline +:+
  "Orphans: " +:+ pretty (fst del) +:+ " deleted, " +:+ pretty (snd del) +:+ " errors"
    +:+ newline +:+ newline +:+
  "Total errors: *" +:+ pretty totalErrors +:+ "*".

Definition failureMessage (wfid : string) (error : JsError) : string :=
  "*Calendar Sync Failed*" +:+ newline +:+ newline +:+
  "Workflow: `" +:+ wfid +:+ "`" +:+ newline +:+
  "Error: `" +:+ err_message error +:+ "`".

Definition valueOrEmpty {A} (r : Settled (list A)) : list A :=
  match r with
  | Fulfilled v => v
  | Rejected _ => []
  end.

(** The body of the two batch-write steps (4 and 6). *)
Definition batchWrite (spreadsheetId : string) (result : SyncDirectionResult)
  : Promise W unit :=
  let! _ := batchInsertSyncedEvents spreadsheetId (pendingInserts result) in
  batchUpdateSyncedEvents spreadsheetId (pendingUpdates result).

(** The body of the step that deletes the orphan rows (8). *)
Definition deleteOrphanRows (spreadsheetId : string) (orphanResult : OrphanDetectionResult)
  : Promise W unit :=
  let! sheetId := getSheetId spreadsheetId in
  batchDeleteSyncedEventRows spreadsheetId sheetId
    (map del_rowId (pendingDeletes orphanResult)).

(** Step 10: notify on errors. *)
Definition notifyErrors (telegramBotToken telegramChatId : string)
    (ab ba : SyncStats) (orphanResult : OrphanDetectionResult) : Promise W unit :=
  let totalErrors := errors ab + errors ba + orphans_errors orphanResult in
  if Nat.ltb 0 totalErrors
     && negb (String.eqb telegramBotToken "") && negb (String.eqb telegramChatId "")
  then
    runStep "notify-errors-summary"
      (sendTelegramError telegramBotToken telegramChatId
         (errorsSummaryMessage ab ba
            (orphans_deleted orphanResult, orphans_errors orphanResult) totalErrors))
  else resolve tt.

(** Steps 3 to 10 of the [try] block, over the events fetched in step 1
    and the ledger snapshot loaded in step 2. *)
Definition reconcile (env : Env) (evsA evsB : list GoogleCalendarEvent)
    (syncedRecords : list SyncedEventRecord) : Promise W SyncOutput :=
  let spreadsheetId := default "" (SPREADSHEET_ID env) in
  let calendarAId := default "" (CALENDAR_A_ID env) in
  let calendarBId := default "" (CALENDAR_B_ID env) in
  let calendarAPrefix := default "[A]" (CALENDAR_A_PREFIX env) in
  let calendarBPrefix := default "[B]" (CALENDAR_B_PREFIX env) in
  let telegramBotToken := default "" (TELEGRAM_BOT_TOKEN env) in
  let telegramChatId := default "" (TELEGRAM_CHAT_ID env) in
  (* Step 3: Sync A -> B (Calendar API ops only, deferred Sheet writes) *)
  let! aToBResult :=
    runStep "sync-a-to-b"
      (syncDirection evsA syncedRecords calendarAId calendarBId calendarAPrefix) in
  (* Step 4: Batch write A->B Sheet changes *)
  let! _ := runStep "batch-write-a-to-b" (batchWrite spreadsheetId aToBResult) in
  (* Step 5: Sync B -> A (same syncedRecords, no reload needed) *)
  let! bToAResult :=
    runStep "sync-b-to-a"
      (syncDirection evsB syncedRecords calendarBId calendarAId calendarBPrefix) in
  (* Step 6: Batch write B->A Sheet changes *)
  let! _ := runStep "batch-write-b-to-a" (batchWrite spreadsheetId bToAResult) in
  (* Step 7: Detect and delete orphans (Calendar API ops only) *)
  let! orphanResult :=
    runStep "detect-and-delete-orphans"
      (detectAndDeleteOrphans evsA evsB syncedRecords calendarAId calendarBId) in
  (* Step 8: Batch delete orphan rows from Sheet *)
  let! _ :=
    runStep "batch-delete-orphan-rows" (deleteOrphanRows spreadsheetId orphanResult) in
  (* Step 9: Log summary *)
  let output :=
    {| aToBStats := stats aToBResult;
       bToAStats := stats bToAResult;
       deletionStats := (orphans_deleted orphanResult, orphans_errors orphanResult);
       out_eventsA := length evsA;
       out_eventsB := length evsB;
       sheetRecords := length syncedRecords |} in
  let! _ := runStep "log-summary" (resolve output) in
  (* Step 10: Notify on errors *)
  let! _ :=
    notifyErrors telegramBotToken telegramChatId
      (stats aToBResult) (stats bToAResult) orphanResult in
  resolve output.

(** The [try] block of the workflow: one reconciliation pass. *)
Definition passBody (env : Env) : Promise W SyncOutput :=
  let spreadsheetId := default "" (SPREADSHEET_ID env) in
  let calendarAId := default "" (CALENDAR_A_ID env) in
  let calendarBId := default "" (CALENDAR_B_ID env) in
  let maxEvents := default 2500 (MAX_EVENTS env) in
  let daysAhead := default 180 (DAYS_AHEAD env) in
  (* Step 1: Parallel fetch from both calendars *)
  let! fetched :=
    allSettled2
      (runStep "fetch-calendar-a-events"
         (fetchCalendarEvents calendarAId maxEvents daysAhead))
      (runStep "fetch-calendar-b-events"
         (fetchCalendarEvents calendarBId maxEvents daysAhead)) in
  let evsA := valueOrEmpty (fst fetched) in
  let evsB := valueOrEmpty (snd fetched) in
  (* Step 2: Load synced records from sheet (single load for entire workflow) *)
  let! syncedRecords :=
    runStep "load-synced-records" (loadSheetRecords spreadsheetId) in
  reconcile env evsA evsB syncedRecords.

(** The [catch] block: a best-effort alert, then the error is rethrown. *)
Definition notifyFailure (env : Env) (error : JsError) : Promise W SyncOutput :=
  let telegramBotToken := default "" (TELEGRAM_BOT_TOKEN env) in
  let telegramChatId := default "" (TELEGRAM_CHAT_ID env) in
  let! _ :=
    (if negb (String.eqb telegramBotToken "") && negb (String.eqb telegramChatId "") then
       runStep "notify-error"
         (sendTelegramError telegramBotToken telegramChatId
            (failureMessage (workflowID env) error))
     else resolve tt) in
  reject error.

Definition syncGoogleCalendarsWorkflow (env : Env) : Promise W SyncOutput :=
  tryCatch (passBody env) (notifyFailure env).

End Engine.

(** ** The earlier, per-event orchestrator

    The copy of sync-core.ts under [google-calendar-sync/src], from before
    the ledger writes were batched, with the single-record ledger helpers
    of sheets.ts it calls: every create, update and orphan is written to
    the ledger at once, and the workflow loads the ledger again before the
    B to A direction and before the orphan detection. The calendar
    helpers, the analysis and the [catch] block are those above. *)

Module Legacy.

(** The [updates] argument of [updateSyncedEvent]. *)
Record SheetUpdates : Type := {
  new_event_signature : string;
  new_event_summary : string;
  new_event_start : string;
  new_event_end : string
}.

(** [records.find((r) => r.primary_event_id === primaryEventId &&
    r.primary_calendar === primaryCalendar)]. *)
Definition findRecord (records : list SyncedEventRecord)
    (primaryEventId primaryCalendar : string) : option SyncedEventRecord :=
  find (fun r => String.eqb (primary_event_id r) primaryEventId
                 && String.eqb (primary_calendar r) primaryCalendar) records.

Section Engine.

Context {W : Type} (svc : Services W).

(** Insert a new synced event record by appending a row. *)
Definition insertSyncedEvent (spreadsheetId : string) (record : PendingSheetInsert)
  : Promise W unit :=
  fun s =>
    let now := date_now svc (world s) in
    invoke (CValuesAppend spreadsheetId [insertRow now record])
           (values_append svc spreadsheetId [insertRow now record]) s.

(** Update an existing synced event record by finding the matching row. *)
Definition updateSyncedEvent (spreadsheetId primaryEventId primaryCalendar : string)
    (updates : SheetUpdates) : Promise W unit :=
  (* Re-scan to get current row index *)
  let! records := loadSyncedEvents svc spreadsheetId in
  match findRecord records primaryEventId primaryCalendar with
  | None => resolve tt
  | Some record =>
      fun s =>
        let now := date_now svc (world s) in
        let row :=
          [primary_calendar record; primary_event_id record;
           secondary_calendar record; secondary_event_id record;
           new_event_summary updates; new_event_start updates; new_event_end updates;
           new_event_signature updates; created_at record; now; now] in
        invoke (CValuesUpdate spreadsheetId (rec_id record) row)
               (values_update svc spreadsheetId (rec_id record) row) s
  end.

(** Delete a synced event record by finding and removing the row. *)
Definition deleteSyncedEvent (spreadsheetId primaryEventId primaryCalendar : string)
  : Promise W unit :=
  (* Re-scan to get current row index (handles prior deletions shifting rows) *)
  let! records := loadSyncedEvents svc spreadsheetId in
  match findRecord records primaryEventId primaryCalendar with
  | None => resolve tt
  | Some record =>
      let! sheets :=
        invoke (CSpreadsheetsGet spreadsheetId) (spreadsheets_get svc spreadsheetId) in
      let sheetId :=
        default 0 (snd <$> find (fun s => String.eqb (fst s) SHEET_NAME) sheets) in
      let requests := [deleteRowRequest sheetId (rec_id record)] in
      invoke (CSpreadsheetsBatchUpdate spreadsheetId requests)
             (spreadsheets_batchUpdate svc spreadsheetId requests)
  end.

(** A [for (const x of items)] loop whose body awaits. *)
Fixpoint forEach {T S} (body : S -> T -> Promise W S) (items : list T) (acc : S)
  : Promise W S :=
  match items with
  | [] => resolve acc
  | x :: rest => let! acc' := body acc x in forEach body rest acc'
  end.

(** One turn of [for (const event of analysis.toCreate)]. *)
Definition createStep (spreadsheetId sourceCalendarId targetCalendarId prefix : string)
    (stats : SyncStats) (event : GoogleCalendarEvent) : Promise W SyncStats :=
  tryCatch
    (let eventBody := buildSyncedEventBody event prefix sourceCalendarId in
     let! created := createEvent svc targetCalendarId eventBody in
     tryCatch
       (let! _ :=
          insertSyncedEvent spreadsheetId
            (pendingInsertOf sourceCalendarId targetCalendarId event created) in
        resolve (incCreated stats))
       (fun _ => resolve (incErrors stats)))
    (fun _ => resolve (incErrors stats)).

(** One turn of [for (const { event, dbRecord } of analysis.toUpdate)]. *)
Definition updateStep (spreadsheetId sourceCalendarId targetCalendarId prefix : string)
    (stats : SyncStats) (item : GoogleCalendarEvent * SyncedEventRecord)
  : Promise W SyncStats :=
  tryCatch
    (let eventBody := buildSyncedEventBody (fst item) prefix sourceCalendarId in
     let! _ :=
       updateEvent svc targetCalendarId (secondary_event_id (snd item)) eventBody in
     tryCatch
       (let! _ :=
          updateSyncedEvent spreadsheetId (ev_id (fst item)) sourceCalendarId
            {| new_event_signature := computeSignature (fst item);
               new_event_summary := default "" (summary (fst item));
               new_event_start := getDateString (start (fst item));
               new_event_end := getDateString (end_ (fst item)) |} in
        resolve (incUpdated stats))
       (fun _ => resolve (incErrors stats)))
    (fun _ => resolve (incErrors stats)).

Definition syncDirection (spreadsheetId : string)
    (sourceEvents : list GoogleCalendarEvent) (syncedRecords : list SyncedEventRecord)
    (sourceCalendarId targetCalendarId prefix : string)
  : Promise W (SyncStats * SyncAnalysis) :=
  let analysis :=
    analyzeEvents sourceEvents syncedRecords sourceCalendarId targetCalendarId in
  (* Process creates *)
  let! afterCreates :=
    forEach (createStep spreadsheetId sourceCalendarId targetCalendarId prefix)
            (toCreate analysis) zeroStats in
  (* Process updates *)
  let! afterUpdates :=
    forEach (updateStep spreadsheetId sourceCalendarId targetCalendarId prefix)
            (toUpdate analysis) afterCreates in
  resolve (afterUpdates, analysis).

(** One turn of [for (const record of syncedRecords)]; the accumulator is
    [(deleted, errors)]. *)
Definition orphanStep (spreadsheetId : string) (calAEventIds calBEventIds : gset string)
    (calendarAId calendarBId : string) (acc : nat * nat) (record : SyncedEventRecord)
  : Promise W (nat * nat) :=
  if isOrphan calAEventIds calBEventIds calendarAId calendarBId record then
    tryCatch
      (let! _ :=
         deleteEvent svc (secondary_calendar record) (secondary_event_id record) in
       let! _ :=
         deleteSyncedEvent spreadsheetId
           (primary_event_id record) (primary_calendar record) in
       resolve (S (fst acc), snd acc))
      (fun _ => resolve (fst acc, S (snd acc)))
  else resolve acc.

Definition detectAndDeleteOrphans (spreadsheetId : string)
    (evsA evsB : list GoogleCalendarEvent) (syncedRecords : list SyncedEventRecord)
    (calendarAId calendarBId : string) : Promise W (nat * nat) :=
  (* Build sets of current event IDs per calendar *)
  let calAEventIds : gset string := list_to_set (map ev_id evsA) in
  let calBEventIds : gset string := list_to_set (map ev_id evsB) in
  forEach (orphanStep spreadsheetId calAEventIds calBEventIds calendarAId calendarBId)
          syncedRecords (0, 0).

(** The [try] block of the earlier workflow. *)
Definition passBody (env : Env) : Promise W SyncOutput :=
  let spreadsheetId := default "" (SPREADSHEET_ID env) in
  let calendarAId := default "" (CALENDAR_A_ID env) in
  let calendarBId := default "" (CALENDAR_B_ID env) in
  let calendarAPrefix := default "[A]" (CALENDAR_A_PREFIX env) in
  let calendarBPrefix := default "[B]" (CALENDAR_B_PREFIX env) in
  let maxEvents := default 2500 (MAX_EVENTS env) in
  let daysAhead := default 180 (DAYS_AHEAD env) in
  (* Step 1: Parallel fetch from both calendars *)
  let! fetched :=
    allSettled2
      (runStep "fetch-calendar-a-events"
         (fetchCalendarEvents svc calendarAId maxEvents daysAhead))
      (runStep "fetch-calendar-b-events"
         (fetchCalendarEvents svc calendarBId maxEvents daysAhead)) in
  let evsA := valueOrEmpty (fst fetched) in
  let evsB := valueOrEmpty (snd fetched) in
  (* Step 2: Load synced records from sheet *)
  let! syncedRecords :=
    runStep "load-synced-records" (loadSheetRecords svc spreadsheetId) in
  (* Steps 3-4: Analyze and sync A -> B *)
  let! aToB :=
    runStep "sync-a-to-b"
      (syncDirection spreadsheetId evsA syncedRecords
         calendarAId calendarBId calendarAPrefix) in
  (* Steps 5-6: Analyze and sync B -> A *)
  (* Reload synced records to include newly created records from A->B *)
  let! updatedRecords :=
    runStep "reload-synced-records" (loadSheetRecords svc spreadsheetId) in
  let! bToA :=
    runStep "sync-b-to-a"
      (syncDirection spreadsheetId evsB updatedRecords
         calendarBId calendarAId calendarBPrefix) in
  (* Step 7: Detect and delete orphans *)
  (* Reload synced records again for accurate orphan detection *)
  let! finalRecords :=
    runStep "reload-synced-records-for-orphans" (loadSheetRecords svc spreadsheetId) in
  let! deletion :=
    runStep "detect-and-delete-orphans"
      (detectAndDeleteOrphans spreadsheetId evsA evsB finalRecords
         calendarAId calendarBId) in
  (* Step 8: Log summary *)
  let output :=
    {| aToBStats := fst aToB;
       bToAStats := fst bToA;
       deletionStats := deletion;
       out_eventsA := length evsA;
       out_eventsB := length evsB;
       sheetRecords := length finalRecords |} in
  let! _ := runStep "log-summary" (resolve output) in
  resolve output.

Definition syncGoogleCalendarsWorkflow (env : Env) : Promise W SyncOutput :=
  tryCatch (passBody env) (notifyFailure svc env).

End Engine.

End Legacy.

(** ** Helpers of the integration test (test-helpers.ts)

    The assertion helpers that need no request of their own, the two that
    load the ledger, the cleanup loop and the report builder. The event
    factories read the clock and [assertEventExists] asks the calendar for
    one event; they are left out. *)

Module TestHelpers.

(** [status: "pass" | "fail" | "skip"]. *)
Inductive TestStatus : Type := Pass | Fail | Skip.

Record TestResult : Type := {
  phase : string;
  test : string;
  test_status : TestStatus;
  details : option string
}.

Record TestReport : Type := {
  passed : nat;
  failed : nat;
  skipped : nat;
  results : list TestResult
}.

Definition pass (testName : string) : TestResult :=
  {| phase := "verify"; test := testName; test_status := Pass; details := None |}.

Definition fail (testName message : string) : TestResult :=
  {| phase := "verify"; test := testName; test_status := Fail; details := Some message |}.

(** Check that a description contains a substring. *)
Definition assertDescriptionContains (description : option string)
    (substring testName : string) : TestResult :=
  if Js.includes (default "" description) substring then pass testName
  else fail testName
         ("Description missing " +:+ String Js.dquote substring
            +:+ String Js.dquote EmptyString).

(** Verify that no new sheet records were created between before and
    after counts. *)
Definition assertNoNewSheetRecords (before after : nat) (testName : string)
  : TestResult :=
  if Nat.leb after before then pass testName
  else fail testName
         ("Sheet records grew from " +:+ pretty before +:+ " to " +:+ pretty after).

(** One turn of [for (const r of results)]; the accumulator is
    [(passed, failed, skipped)]. *)
Definition countResult (acc : nat * nat * nat) (r : TestResult) : nat * nat * nat :=
  match test_status r with
  | Pass => (S (fst (fst acc)), snd (fst acc), snd acc)
  | Fail => (fst (fst acc), S (snd (fst acc)), snd acc)
  | Skip => (fst (fst acc), snd (fst acc), S (snd acc))
  end.

(** Build a summary report from test results. *)
Definition buildReport (results : list TestResult) : TestReport :=
  let counts := foldl countResult (0, 0, 0) results in
  {| passed := fst (fst counts); failed := snd (fst counts);
     skipped := snd counts; results := results |}.

Section Engine.

Context {W : Type} (svc : Services W).

(** Verify a sheet record exists for a primary event. *)
Definition assertSheetRecordExists (spreadsheetId primaryEventId primaryCalendar
    testName : string) : Promise W TestResult :=
  let! records := loadSyncedEvents svc spreadsheetId in
  match Legacy.findRecord records primaryEventId primaryCalendar with
  | Some _ => resolve (pass testName)
  | None =>
      resolve (fail testName
                 ("No sheet record for " +:+ primaryEventId +:+ " on "
                    +:+ primaryCalendar))
  end.

(** Verify a sheet record does NOT exist for a primary event. *)
Definition assertSheetRecordMissing (spreadsheetId primaryEventId primaryCalendar
    testName : string) : Promise W TestResult :=
  let! records := loadSyncedEvents svc spreadsheetId in
  match Legacy.findRecord records primaryEventId primaryCalendar with
  | None => resolve (pass testName)
  | Some _ =>
      resolve (fail testName ("Sheet record still exists for " +:+ primaryEventId))
  end.

(** Delete a single test event, handling 410 gracefully. *)
Definition deleteTestEvent (calendarId eventId : string) : Promise W unit :=
  deleteEvent svc calendarId eventId.

(** Bulk delete test events, best-effort. *)
Fixpoint cleanupTestEvents (calendarId : string) (eventIds : list string)
  : Promise W unit :=
  match eventIds with
  | [] => resolve tt
  | eventId :: rest =>
      let! _ := tryCatch (deleteEvent svc calendarId eventId) (fun _ => resolve tt) in
      cleanupTestEvents calendarId rest
  end.

End Engine.

End TestHelpers.


(** * Specification-level definitions

    The definitions of this part follow the words of the specification;
    the theorems compare them with the embedding of the code above. *)

(** ** Event Analyzer, as the specification describes it *)

(** What the analyzer does with one source event. *)
Inductive Outcome : Type :=
| Ignored
| SkippedDuplicate
| Create
| Update (dbRecord : SyncedEventRecord)
| Unchanged.

Definition isCreate (o : Outcome) : bool :=
  match o with Create => true | _ => false end.

Definition isUnchanged (o : Outcome) : bool :=
  match o with Unchanged => true | _ => false end.

Definition isSkippedDuplicate (o : Outcome) : bool :=
  match o with SkippedDuplicate => true | _ => false end.

Definition updateOf (e : GoogleCalendarEvent) (o : Outcome)
  : option (GoogleCalendarEvent * SyncedEventRecord) :=
  match o with Update r => Some (e, r) | _ => None end.

(** "For each source event with a non-empty id: apply Duplicate Filter (skip
    if either condition true); else look up a ledger record ...; absent ->
    toCreate; present with differing signature -> toUpdate; present with
    equal signature -> unchanged", over any way [lookup] of finding the
    record of an event id. *)
Definition classifyWith (lookup : string -> option SyncedEventRecord)
    (targetCalendarId : string) (event : GoogleCalendarEvent) : Outcome :=
  if String.eqb (ev_id event) "" then Ignored
  else if isSyncedCopy event || isTargetCalendarInAttendees event targetCalendarId
  then SkippedDuplicate
  else
    match lookup (ev_id event) with
    | None => Create
    | Some r =>
        if String.eqb (event_signature r) (computeSignature event)
        then Unchanged else Update r
    end.

(** The analysis that a classification of every event amounts to. *)
Definition analysisBy (classify : GoogleCalendarEvent -> Outcome)
    (events : list GoogleCalendarEvent) : SyncAnalysis :=
  {| toCreate := filter (fun e => isCreate (classify e) = true) events;
     toUpdate := omap (fun e => updateOf e (classify e)) events;
     unchanged := length (filter (fun e => isUnchanged (classify e) = true) events);
     skippedDuplicate :=
       length (filter (fun e => isSkippedDuplicate (classify e) = true) events) |}.

(** A ledger record tracks the primary event [(calendarId, eventId)]. *)
Definition tracks (r : SyncedEventRecord) (calendarId eventId : string) : Prop :=
  primary_calendar r = calendarId ∧ primary_event_id r = eventId.

Global Instance tracks_dec r c e : Decision (tracks r c e).
Proof. unfold tracks. apply _. Defined.

(** "look up a ledger record keyed by (sourceCalendarId, event.id)". *)
Definition ledgerRecordFor (syncedRecords : list SyncedEventRecord)
    (calendarId eventId : string) : option SyncedEventRecord :=
  find (fun r => bool_decide (tracks r calendarId eventId)) syncedRecords.

Definition classify (syncedRecords : list SyncedEventRecord)
    (sourceCalendarId targetCalendarId : string) (event : GoogleCalendarEvent) : Outcome :=
  classifyWith (ledgerRecordFor syncedRecords sourceCalendarId) targetCalendarId event.

(** The classification the code computes: the lookup goes through the
    record map and its string key. *)
Definition classifyByKey (syncedRecords : list SyncedEventRecord)
    (sourceCalendarId targetCalendarId : string) (event : GoogleCalendarEvent) : Outcome :=
  classifyWith
    (fun eventId => buildRecordMap syncedRecords !! recordKey eventId sourceCalendarId)
    targetCalendarId event.

(** A string without the key separator. *)
Fixpoint colonFree (s : string) : bool :=
  match s with
  | EmptyString => true
  | String c s' => negb (Ascii.eqb c ":") && colonFree s'
  end.

(** "Invariant: exactly one live record per (primaryCalendarId,
    primaryEventId) pair at any time". *)
Definition uniqueLedgerKeys (syncedRecords : list SyncedEventRecord) : Prop :=
  NoDup (map (fun r => (primary_calendar r, primary_event_id r)) syncedRecords).

(** ** Example data *)

Definition blankEvent (eventId : string) : GoogleCalendarEvent :=
  {| ev_id := eventId; summary := None; start := None; end_ := None;
     location := None; description := None; attendees := None;
     hangoutLink := None; transparency := None; status := None;
     recurringEventId := None |}.

(** The "Standup" event of the specification's scenarios. *)
Definition standup : GoogleCalendarEvent :=
  {| ev_id := "e1"; summary := Some "Standup";
     start := Some (DateTime "2026-03-02T09:00:00Z" None);
     end_ := Some (DateTime "2026-03-02T09:30:00Z" None);
     location := None; description := None; attendees := None;
     hangoutLink := None; transparency := None; status := Some "confirmed";
     recurringEventId := None |}.

Definition guest (address : string) : Attendee :=
  {| email := address; displayName := None; resource := None;
     responseStatus := Some "accepted"; self := None |}.

(** The same event after two guests were invited. *)
Definition standupWithGuests : GoogleCalendarEvent :=
  {| ev_id := "e1"; summary := Some "Standup";
     start := Some (DateTime "2026-03-02T09:00:00Z" None);
     end_ := Some (DateTime "2026-03-02T09:30:00Z" None);
     location := None; description := None;
     attendees := Some [guest "ann@example.com"; guest "bob@example.com"];
     hangoutLink := None; transparency := None; status := Some "tentative";
     recurringEventId := Some "series1" |}.

(** An event that carries the marker but came back without an id. *)
Definition markedWithoutId : GoogleCalendarEvent :=
  {| ev_id := ""; summary := Some "Copy";
     start := None; end_ := None; location := None;
     description := Some (SYNC_TAG +:+ " [A] (a@example.com)");
     attendees := None; hangoutLink := None; transparency := None;
     status := None; recurringEventId := None |}.

Definition blankRecord (row : nat) (calendarId eventId signature : string)
  : SyncedEventRecord :=
  {| rec_id := row; primary_calendar := calendarId; primary_event_id := eventId;
     secondary_calendar := "other"; secondary_event_id := "copy";
     event_summary := ""; event_start := ""; event_end := "";
     event_signature := signature; created_at := ""; last_updated := "";
     last_checked := "" |}.

(** An event id and a ledger row whose string keys coincide although the
    pairs differ: ["e:c" +:+ ":" +:+ "d" = "e" +:+ ":" +:+ "c:d"]. *)
Definition collidingEvent : GoogleCalendarEvent := blankEvent "e:c".

Definition collidingRecord : SyncedEventRecord := blankRecord 2 "c:d" "e" "stale".

(** ** Concurrency Batcher, as the specification describes it *)

(** "partitions items into chunks of batchSize": [fuel] chunks at most. *)
Fixpoint chunksFuel {T} (fuel n : nat) (items : list T) : list (list T) :=
  match fuel with
  | 0 => []
  | S fuel' =>
      match items with
      | [] => []
      | _ => take n items :: chunksFuel fuel' n (drop n items)
      end
  end.

Definition chunks {T} (n : nat) (items : list T) : list (list T) :=
  chunksFuel (length items) n items.

(** "executes each chunk's operations concurrently, waits for all outcomes
    per chunk, then proceeds to the next chunk after a fixed pacing delay". *)
Fixpoint runBatches {W T R} (svc : Services W) (fn : T -> Promise W R)
    (first : bool) (batches : list (list T)) : Promise W (list (Settled R)) :=
  match batches with
  | [] => resolve []
  | batch :: rest =>
      let! _ := (if first then resolve tt else delay svc BATCH_DELAY_MS) in
      let! batchResults := allSettled (map fn batch) in
      let! restResults := runBatches svc fn false rest in
      resolve (batchResults ++ restResults)
  end.

Definition isTimer (c : Call) : bool :=
  match c with CSetTimeout _ => true | _ => false end.

(** The requests of a trace, the pacing timers left out. *)
Definition requests (tr : list TraceEntry) : list TraceEntry :=
  filter (fun t => isTimer (te_call t) = false) tr.

(** The timers of a trace. *)
Definition timers (tr : list TraceEntry) : list TraceEntry :=
  filter (fun t => isTimer (te_call t) = true) tr.

(** A per-item operation that never settles, and one that always fulfils. *)
Definition trivialServices : Services unit :=
  {| events_list := fun _ _ _ w => (Fulfilled [], w);
     events_insert := fun _ _ w => (Fulfilled (blankEvent "new"), w);
     events_update := fun _ eid _ w => (Fulfilled (blankEvent eid), w);
     events_delete := fun _ _ w => (Fulfilled tt, w);
     values_get := fun _ w => (Fulfilled [], w);
     values_append := fun _ _ w => (Fulfilled tt, w);
     values_batchUpdate := fun _ _ w => (Fulfilled tt, w);
     values_update := fun _ _ _ w => (Fulfilled tt, w);
     spreadsheets_get := fun _ w => (Fulfilled [], w);
     spreadsheets_batchUpdate := fun _ _ w => (Fulfilled tt, w);
     telegram_post := fun _ _ _ w => (Fulfilled true, w);
     set_timeout := fun _ w => w;
     date_now := fun _ => "2026-03-01T00:00:00.000Z" |}.

Definition idle : State unit := {| world := tt; trace := [] |}.

(** A per-item operation settles on every item in every state. *)
Definition settles {W T R} (fn : T -> Promise W R) : Prop :=
  ∀ x s, is_Some (fn x s).

(** [r] is an outcome of [fn] on [x]. *)
Definition outcomeOf {W T R} (fn : T -> Promise W R) (x : T) (r : Settled R) : Prop :=
  ∃ s1 s2, fn x s1 = Some (r, s2).

(** A per-item operation that settles after exactly one request, which is
    not a timer; [Rel] relates the item, the request as traced and the
    outcome. *)
Definition oneRequest {W T R} (fn : T -> Promise W R)
    (Rel : T -> TraceEntry -> Settled R -> Prop) : Prop :=
  ∀ x s, ∃ r s' t,
    fn x s = Some (r, s') ∧ trace s' = trace s ++ [t]
    ∧ isTimer (te_call t) = false ∧ Rel x t r.

(** ** Reading a trace *)

Definition isInsert (c : Call) : bool :=
  match c with CEventsInsert _ _ => true | _ => false end.

Definition isUpdate (c : Call) : bool :=
  match c with CEventsUpdate _ _ _ => true | _ => false end.

Definition isDelete (c : Call) : bool :=
  match c with CEventsDelete _ _ => true | _ => false end.

(** A read of the ledger rows. *)
Definition isLedgerRead (c : Call) : bool :=
  match c with CValuesGet _ => true | _ => false end.

(** A request that changes the ledger. *)
Definition isLedgerWrite (c : Call) : bool :=
  match c with
  | CValuesAppend _ _ | CValuesBatchUpdate _ _ | CValuesUpdate _ _ _
  | CSpreadsheetsBatchUpdate _ _ => true
  | _ => false
  end.

Definition callsWhere (P : Call -> bool) (tr : list TraceEntry) : list TraceEntry :=
  filter (fun t => P (te_call t) = true) tr.

(** The request was answered with an error. *)
Definition failed (t : TraceEntry) : bool :=
  match te_error t with Some _ => true | None => false end.

(** How many requests of a trace failed. *)
Definition failures (tr : list TraceEntry) : nat :=
  length (filter (fun t => failed t = true) tr).

(** A delete that succeeded or was answered 410 Gone. *)
Definition accepted (t : TraceEntry) : bool :=
  match te_error t with
  | None => true
  | Some e => bool_decide (err_code e = Some 410)
  end.

(** The items whose request, at the same position, satisfies [ok]. *)
Definition itemsWhere {T} (ok : TraceEntry -> bool) (items : list T)
    (ts : list TraceEntry) : list T :=
  map fst (filter (fun p => ok (snd p) = true) (zip items ts)).

(** Item, request and outcome of the create phase. *)
Definition RelCreate (sourceCalendarId targetCalendarId prefix : string)
    (event : GoogleCalendarEvent) (t : TraceEntry)
    (r : Settled (GoogleCalendarEvent * GoogleCalendarEvent)) : Prop :=
  te_call t = CEventsInsert targetCalendarId
                (buildSyncedEventBody event prefix sourceCalendarId)
  ∧ match r with
    | Fulfilled p => fst p = event ∧ te_error t = None
    | Rejected e => te_error t = Some e
    end.

(** Item, request and outcome of the update phase. *)
Definition RelUpdate (sourceCalendarId targetCalendarId prefix : string)
    (item : GoogleCalendarEvent * SyncedEventRecord) (t : TraceEntry)
    (r : Settled (GoogleCalendarEvent * SyncedEventRecord)) : Prop :=
  te_call t = CEventsUpdate targetCalendarId (secondary_event_id (snd item))
                (buildSyncedEventBody (fst item) prefix sourceCalendarId)
  ∧ match r with
    | Fulfilled p => p = item ∧ te_error t = None
    | Rejected e => te_error t = Some e
    end.

(** Item, request and outcome of the orphan phase. *)
Definition RelDelete (record : SyncedEventRecord) (t : TraceEntry)
    (r : Settled SyncedEventRecord) : Prop :=
  te_call t = CEventsDelete (secondary_calendar record) (secondary_event_id record)
  ∧ match r with
    | Fulfilled record' => record' = record ∧ accepted t = true
    | Rejected e => te_error t = Some e ∧ accepted t = false
    end.

(** ** Orphan Detector, as the specification describes it *)

(** "A ledger record is an orphan iff its primaryCalendarId matches a
    calendar whose current id-set does NOT contain primaryEventId". *)
Definition orphanSpec (evsA evsB : list GoogleCalendarEvent)
    (calendarAId calendarBId : string) (r : SyncedEventRecord) : Prop :=
  (primary_calendar r = calendarAId ∧ primary_event_id r ∉ map ev_id evsA)
  ∨ (primary_calendar r = calendarBId ∧ primary_event_id r ∉ map ev_id evsB).

Global Instance orphanSpec_dec evsA evsB a b r : Decision (orphanSpec evsA evsB a b r).
Proof. unfold orphanSpec. apply _. Defined.

(** The values of the fulfilled outcomes, in order. *)
Definition fulfilledValues {R} (rs : list (Settled R)) : list R :=
  omap (fun r => match r with Fulfilled v => Some v | Rejected _ => None end) rs.

(** The number of rejected outcomes. *)
Definition rejectedCount {R} (rs : list (Settled R)) : nat :=
  length (filter (fun r => isRejected r = true) rs).

(** ** Footprints *)

(** Every run of [p] settles, and every entry it adds to the trace
    satisfies [P]. *)
Definition footprint {W A} (P : TraceEntry -> Prop) (p : Promise W A) : Prop :=
  ∀ s, ∃ r s' tr, p s = Some (r, s') ∧ trace s' = trace s ++ tr ∧ Forall P tr.

(** The entry is no read of the ledger rows. *)
Definition noLedgerRead (t : TraceEntry) : Prop := isLedgerRead (te_call t) = false.

(** The entry leaves the ledger as it is. *)
Definition noLedgerWrite (t : TraceEntry) : Prop := isLedgerWrite (te_call t) = false.

(** * A model of the external services

    Modelled from the spec: the Calendar API and the Ledger Store of
    section 6 are collaborators outside the engine. This model keeps the
    calendars as lists of events and the ledger as the rows of the sheet
    (header first). A fault plan says which requests the services refuse,
    and with which error; it is the same from one pass to the next. The
    fetch window and the cap on fetched events are taken to cover the
    calendars, an event that is not on its calendar is reported 410 Gone on
    delete and 404 on update, and created events get a fresh id. *)

Record GWorld : Type := {
  calendars : gmap string (list GoogleCalendarEvent);
  sheetRows : list (list string);
  clock : nat
}.

Definition calendarOf (w : GWorld) (calendarId : string) : list GoogleCalendarEvent :=
  default [] (calendars w !! calendarId).

Definition setCalendar (calendarId : string) (evs : list GoogleCalendarEvent)
    (w : GWorld) : GWorld :=
  {| calendars := <[calendarId := evs]> (calendars w);
     sheetRows := sheetRows w; clock := clock w |}.

Definition setRows (rows : list (list string)) (w : GWorld) : GWorld :=
  {| calendars := calendars w; sheetRows := rows; clock := clock w |}.

Fixpoint maxLength (ids : list string) : nat :=
  match ids with
  | [] => 0
  | i :: rest => Nat.max (String.length i) (maxLength rest)
  end.

Fixpoint repeatChar (n : nat) (c : ascii) : string :=
  match n with
  | 0 => EmptyString
  | S n' => String c (repeatChar n' c)
  end.

(** An id longer than every id in use. *)
Definition freshId (ids : list string) : string :=
  repeatChar (S (maxLength ids)) "n".

(** The event the calendar stores for a request body. *)
Definition eventOfBody (eventId : string) (body : EventBody) : GoogleCalendarEvent :=
  {| ev_id := eventId;
     summary := Some (body_summary body);
     start := body_start body;
     end_ := body_end body;
     location := body_location body;
     description := Some (body_description body);
     attendees := None;
     hangoutLink := None;
     transparency := Some (body_transparency body);
     status := Some "confirmed";
     recurringEventId := None |}.

Definition hasId (eventId : string) (e : GoogleCalendarEvent) : bool :=
  String.eqb (ev_id e) eventId.

Definition replaceEvent (eventId : string) (body : EventBody)
    (evs : list GoogleCalendarEvent) : list GoogleCalendarEvent :=
  map (fun e => if hasId eventId e then eventOfBody eventId body else e) evs.

Definition removeEvent (eventId : string) (evs : list GoogleCalendarEvent)
  : list GoogleCalendarEvent :=
  filter (fun e => hasId eventId e = false) evs.

Definition notFound : JsError := {| err_code := Some 404; err_message := "Not Found" |}.
Definition gone : JsError :=
  {| err_code := Some 410; err_message := "Resource has been deleted" |}.

(** One [deleteDimension] request applied to the rows. *)
Definition applyDelete (rows : list (list string)) (d : DeleteDimension)
  : list (list string) :=
  take (dd_startIndex d) rows ++ drop (dd_endIndex d) rows.

(** One range of a [values.batchUpdate]: row [rowId] is rewritten. *)
Definition applyUpdate (rows : list (list string)) (u : nat * list string)
  : list (list string) :=
  <[fst u - 1 := snd u]> rows.

Definition timestamp (w : GWorld) : string := "t" +:+ pretty (clock w).

Definition gservices (faults : Call -> option JsError) : Services GWorld :=
  {| events_list := fun calendarId maxResults daysAhead w =>
       match faults (CEventsList calendarId maxResults daysAhead) with
       | Some e => (Rejected e, w)
       | None => (Fulfilled (calendarOf w calendarId), w)
       end;
     events_insert := fun calendarId body w =>
       match faults (CEventsInsert calendarId body) with
       | Some e => (Rejected e, w)
       | None =>
           let ev := eventOfBody (freshId (map ev_id (calendarOf w calendarId))) body in
           (Fulfilled ev, setCalendar calendarId (calendarOf w calendarId ++ [ev]) w)
       end;
     events_update := fun calendarId eventId body w =>
       match faults (CEventsUpdate calendarId eventId body) with
       | Some e => (Rejected e, w)
       | None =>
           if existsb (hasId eventId) (calendarOf w calendarId) then
             (Fulfilled (eventOfBody eventId body),
              setCalendar calendarId (replaceEvent eventId body (calendarOf w calendarId)) w)
           else (Rejected notFound, w)
       end;
     events_delete := fun calendarId eventId w =>
       match faults (CEventsDelete calendarId eventId) with
       | Some e => (Rejected e, w)
       | None =>
           if existsb (hasId eventId) (calendarOf w calendarId) then
             (Fulfilled tt,
              setCalendar calendarId (removeEvent eventId (calendarOf w calendarId)) w)
           else (Rejected gone, w)
       end;
     values_get := fun spreadsheetId w =>
       match faults (CValuesGet spreadsheetId) with
       | Some e => (Rejected e, w)
       | None => (Fulfilled (sheetRows w), w)
       end;
     values_append := fun spreadsheetId rows w =>
       match faults (CValuesAppend spreadsheetId rows) with
       | Some e => (Rejected e, w)
       | None => (Fulfilled tt, setRows (sheetRows w ++ rows) w)
       end;
     values_batchUpdate := fun spreadsheetId data w =>
       match faults (CValuesBatchUpdate spreadsheetId data) with
       | Some e => (Rejected e, w)
       | None => (Fulfilled tt, setRows (foldl applyUpdate (sheetRows w) data) w)
       end;
     values_update := fun spreadsheetId rowId row w =>
       match faults (CValuesUpdate spreadsheetId rowId row) with
       | Some e => (Rejected e, w)
       | None => (Fulfilled tt, setRows (applyUpdate (sheetRows w) (rowId, row)) w)
       end;
     spreadsheets_get := fun spreadsheetId w =>
       match faults (CSpreadsheetsGet spreadsheetId) with
       | Some e => (Rejected e, w)
       | None => (Fulfilled [(SHEET_NAME, 0)], w)
       end;
     spreadsheets_batchUpdate := fun spreadsheetId reqs w =>
       match faults (CSpreadsheetsBatchUpdate spreadsheetId reqs) with
       | Some e => (Rejected e, w)
       | None => (Fulfilled tt, setRows (foldl applyDelete (sheetRows w) reqs) w)
       end;
     telegram_post := fun botToken chatId message w =>
       match faults (CTelegram botToken chatId message) with
       | Some e => (Rejected e, w)
       | None => (Fulfilled true, w)
       end;
     set_timeout := fun ms w =>
       {| calendars := calendars w; sheetRows := sheetRows w; clock := clock w + ms |};
     date_now := timestamp |}.

Definition noFaults : Call -> option JsError := fun _ => None.

Definition startOf (w : GWorld) : State GWorld := {| world := w; trace := [] |}.

(** ** Example worlds *)

Definition HEADERS : list string :=
  ["primary_calendar"; "primary_event_id"; "secondary_calendar"; "secondary_event_id";
   "event_summary"; "event_start"; "event_end"; "event_signature";
   "created_at"; "last_updated"; "last_checked"].

Definition exampleEnv : Env :=
  {| GCAL_OAUTH_TOKEN := Some "cal-token"; GSHEET_OAUTH_TOKEN := Some "sheet-token";
     SPREADSHEET_ID := Some "ledger";
     CALENDAR_A_ID := Some "A"; CALENDAR_B_ID := Some "B";
     CALENDAR_A_PREFIX := None; CALENDAR_B_PREFIX := None;
     MAX_EVENTS := None; DAYS_AHEAD := None;
     TELEGRAM_BOT_TOKEN := None; TELEGRAM_CHAT_ID := None;
     workflowID := "wf-1" |}.

Definition ledgerRow (pc pid sc sid sig : string) : list string :=
  [pc; pid; sc; sid; ""; ""; ""; sig; "t0"; "t0"; "t0"].

(** A synced copy as the engine writes it. *)
Definition copyOf (eventId : string) (source : GoogleCalendarEvent)
    (prefix sourceCalendarId : string) : GoogleCalendarEvent :=
  eventOfBody eventId (buildSyncedEventBody source prefix sourceCalendarId).

(** The fresh-create scenario: "Standup" on calendar A, nothing else. *)
Definition freshWorld : GWorld :=
  {| calendars := {[ "A" := [standup] ]}; sheetRows := [HEADERS]; clock := 0 |}.

(** Calendar A holds "Standup", calendar B its copy, the ledger the row
    that tracks it. *)
Definition syncedWorld : GWorld :=
  {| calendars := {[ "A" := [standup]; "B" := [copyOf "y1" standup "[A]" "A"] ]};
     sheetRows := [HEADERS; ledgerRow "A" "e1" "B" "y1" (computeSignature standup)];
     clock := 0 |}.

(** The fetch of calendar A is refused. *)
Definition fetchAFails : Call -> option JsError :=
  fun c =>
    match c with
    | CEventsList "A" _ _ =>
        Some {| err_code := Some 503; err_message := "Service Unavailable" |}
    | _ => None
    end.

(** A ledger in which the copy [y] of a vanished event [x] is itself
    tracked as the primary of a copy [z]. *)
Definition chainedWorld : GWorld :=
  {| calendars :=
       {[ "A" := [copyOf "z" (blankEvent "y") "[B]" "B"];
          "B" := [copyOf "y" (blankEvent "x") "[A]" "A"] ]};
     sheetRows :=
       [HEADERS; ledgerRow "A" "x" "B" "y" "sx"; ledgerRow "B" "y" "A" "z" "sy"];
     clock := 0 |}.

(** ** The ledger rows after a pass *)

(** The rows left when the rows whose 1-based number is in [D] are taken
    out, all at once; [o] is the number of the first row of [rows]. *)
Fixpoint removeRowsFrom (o : nat) (D : list nat) (rows : list (list string))
  : list (list string) :=
  match rows with
  | [] => []
  | row :: rest =>
      if decide (o ∈ D) then removeRowsFrom (S o) D rest
      else row :: removeRowsFrom (S o) D rest
  end.

(** A data row that [loadSyncedEvents] keeps. *)
Definition rowTracked (row : list string) : Prop := cell row 0 ≠ "".

(** The record-map key of a data row. *)
Definition rowKey (row : list string) : string := recordKey (cell row 1) (cell row 0).

(** The records of the data rows [rows], the first of which is data row
    number [o] (sheet row [o + 2]). *)
Definition recordsFrom (o : nat) (rows : list (list string)) : list SyncedEventRecord :=
  filter (fun record => primary_calendar record ≠ "")
         (imap (fun i => parseRow (o + i)) rows).

(** ** Invariants of a run *)

(** [p] keeps the property [I] of the world. *)
Definition preserves {W A} (I : W -> Prop) (p : Promise W A) : Prop :=
  ∀ s r s', I (world s) → p s = Some (r, s') → I (world s').

(** Every event on a calendar carries the marker or was on that calendar
    in [w0], unchanged. *)
Definition copiesOrOriginals (w0 w : GWorld) : Prop :=
  ∀ c e, e ∈ calendarOf w c → isSyncedCopy e = true ∨ e ∈ calendarOf w0 c.

(** The secondary event of one of [orphans]. *)
Definition orphanCopy (orphans : list SyncedEventRecord) (c eventId : string) : Prop :=
  ∃ r, r ∈ orphans ∧ secondary_calendar r = c ∧ secondary_event_id r = eventId.

(** Every id that was on a calendar in [w0] is still there, unless it is
    the secondary event of one of [orphans]. *)
Definition idsKept (orphans : list SyncedEventRecord) (w0 w : GWorld) : Prop :=
  ∀ c i, i ∈ map ev_id (calendarOf w0 c) →
         i ∈ map ev_id (calendarOf w c) ∨ orphanCopy orphans c i.

(** What the calendar stages of a pass keep: the ledger rows are [rows],
    and the calendars hold copies or originals and keep their ids. *)
Definition calendarInvariant (orphans : list SyncedEventRecord)
    (w0 : GWorld) (rows : list (list string)) (w : GWorld) : Prop :=
  sheetRows w = rows ∧ copiesOrOriginals w0 w ∧ idsKept orphans w0 w.

(** ** A pass over the model *)

(** The events a pass is given for calendar [c] in the world [w]: none
    when the fetch is refused. *)
Definition fetched (faults : Call -> option JsError) (env : Env) (c : string)
    (w : GWorld) : list GoogleCalendarEvent :=
  valueOrEmpty
    (fst (events_list (gservices faults) c
            (default 2500 (MAX_EVENTS env)) (default 180 (DAYS_AHEAD env)) w)).

(** The trace entry of a request that changes nothing. *)
Definition readEntry (faults : Call -> option JsError) (c : Call) : TraceEntry :=
  {| te_call := c; te_error := faults c |}.

(** The state after steps 1 and 2: the world is as before. *)
Definition afterLoad (faults : Call -> option JsError) (env : Env)
    (s : State GWorld) : State GWorld :=
  {| world := world s;
     trace := trace s ++
       [readEntry faults
          (CEventsList (default "" (CALENDAR_A_ID env))
             (default 2500 (MAX_EVENTS env)) (default 180 (DAYS_AHEAD env)));
        readEntry faults
          (CEventsList (default "" (CALENDAR_B_ID env))
             (default 2500 (MAX_EVENTS env)) (default 180 (DAYS_AHEAD env)));
        readEntry faults (CValuesGet (default "" (SPREADSHEET_ID env)))] |}.

(** The ledger row appended for a created copy, and the range rewritten
    for an updated one. *)
Definition createdRow (now src tgt : string)
    (p : GoogleCalendarEvent * GoogleCalendarEvent) : list string :=
  insertRow now (pendingInsertOf src tgt (fst p) (snd p)).

Definition updatedRow (now : string) (p : GoogleCalendarEvent * SyncedEventRecord)
  : nat * list string :=
  (upd_rowId (pendingUpdateOf (fst p) (snd p)),
   updateRow now (pendingUpdateOf (fst p) (snd p))).

(** The sheet after the three ledger writes of a pass, as the service
    applies them: append and rewrite for A to B, append and rewrite for B
    to A, then the structural deletes, highest row first. *)
Definition sheetAfter (sheet insAB : list (list string)) (updAB : list (nat * list string))
    (insBA : list (list string)) (updBA : list (nat * list string))
    (sheetId : nat) (dels : list nat) : list (list string) :=
  foldl applyDelete
    (foldl applyUpdate (foldl applyUpdate (sheet ++ insAB) updAB ++ insBA) updBA)
    (map (deleteRowRequest sheetId) (sortDesc dels)).

(** The same on the data rows: rewrite in place, append, then take the
    rows numbered in [dels] out. *)
Definition rowsAfter (rows0 : list (list string)) (data : list (nat * list string))
    (ins : list (list string)) (dels : list nat) : list (list string) :=
  removeRowsFrom 2 dels
    (foldl applyUpdate rows0 (map (fun u => (fst u - 1, snd u)) data) ++ ins).

(** ** The worlds a pass is idempotent on *)

(** A request that changes a calendar or the ledger. *)
Definition isMutation (c : Call) : bool :=
  isInsert c || isUpdate c || isDelete c || isLedgerWrite c.

(** The calendars [a] and [b] and the ledger of [w] agree with each other:
    the two calendar ids differ and are given, the sheet has its header
    row, event ids are unique on each calendar, event ids and the primary
    ids of the ledger hold no key separator, and the marker tells the
    copies from the originals: no event tracked as a primary carries it,
    every event tracked as a secondary does. *)
Record wellFormed (a b : string) (w : GWorld) : Prop := {
  wf_distinct : a ≠ b;
  wf_calendar_a : a ≠ "";
  wf_calendar_b : b ≠ "";
  wf_header : sheetRows w ≠ [];
  wf_unique_a : NoDup (map ev_id (calendarOf w a));
  wf_unique_b : NoDup (map ev_id (calendarOf w b));
  wf_ids_a : Forall (fun e => colonFree (ev_id e) = true) (calendarOf w a);
  wf_ids_b : Forall (fun e => colonFree (ev_id e) = true) (calendarOf w b);
  wf_record_ids :
    Forall (fun r => colonFree (primary_event_id r) = true) (parseRows (sheetRows w));
  wf_primaries :
    Forall (fun r => Forall (fun e => ev_id e = primary_event_id r -> isSyncedCopy e = false)
                            (calendarOf w (primary_calendar r)))
           (parseRows (sheetRows w));
  wf_secondaries :
    Forall (fun r => Forall (fun e => ev_id e = secondary_event_id r -> isSyncedCopy e = true)
                            (calendarOf w (secondary_calendar r)))
           (parseRows (sheetRows w))
}.

(** An event with a title and nothing else. *)
Definition titled (eventId title : string) : GoogleCalendarEvent :=
  {| ev_id := eventId; summary := Some title; start := None; end_ := None;
     location := None; description := None; attendees := None;
     hangoutLink := None; transparency := None; status := None;
     recurringEventId := None |}.

(** A world with work of every kind for one pass: on calendar A, [e1] was
    retitled since its copy [y1] was made, [e2] is new and [e3] is
    unchanged (its row is in the ledger twice); on calendar B, [b1] is new;
    the primaries [b0] and [e7] are gone, their copies [z9] and [y7] are
    still there. The ledger also holds a row without a primary calendar
    and a row of another pair of calendars. *)
Definition busyWorld : GWorld :=
  {| calendars :=
       {[ "A" := [titled "e1" "one"; titled "e2" "two";
                  copyOf "z9" (titled "b0" "gone") "[B]" "B"; titled "e3" "three"];
          "B" := [copyOf "y1" (titled "e1" "old") "[A]" "A"; titled "b1" "bee";
                  copyOf "y3" (titled "e3" "three") "[A]" "A";
                  copyOf "y7" (titled "e7" "left") "[A]" "A"] ]};
     sheetRows :=
       [HEADERS;
        ledgerRow "A" "e1" "B" "y1" (computeSignature (titled "e1" "old"));
        ledgerRow "" "junk" "B" "y1" "stale";
        ledgerRow "C" "e1" "D" "y1" "stale";
        ledgerRow "B" "b0" "A" "z9" (computeSignature (titled "b0" "gone"));
        ledgerRow "A" "e3" "B" "y3" "early";
        ledgerRow "A" "e7" "B" "y7" (computeSignature (titled "e7" "left"));
        ledgerRow "A" "e3" "B" "y3" (computeSignature (titled "e3" "three"))];
     clock := 0 |}.

(** Worlds that miss one condition of [wellFormed] each: a sheet without
    its header row; an event tracked as a secondary that carries no marker
    (its primary [x] is gone); two events with one id. *)
Definition bareWorld : GWorld :=
  {| calendars := {[ "A" := [standup] ]}; sheetRows := []; clock := 0 |}.

Definition unmarkedCopyWorld : GWorld :=
  {| calendars := {[ "A" := [titled "e" "mine"] ]};
     sheetRows := [HEADERS; ledgerRow "B" "x" "A" "e" "sx"];
     clock := 0 |}.

Definition twinsWorld : GWorld :=
  {| calendars := {[ "A" := [titled "e" "one"; titled "e" "two"] ]};
     sheetRows := [HEADERS];
     clock := 0 |}.

(** ** The fields of a signature *)

(** The seven values that [computeSignature] joins with [|], in order. *)
Definition signatureFields (event : GoogleCalendarEvent) : list string :=
  [default "" (summary event); stringifyDateTime (start event);
   stringifyDateTime (end_ event); default "" (location event);
   default "" (transparency event); default "" (hangoutLink event);
   default "" (description event)].

(** ** Promises that cannot fail *)

(** [p] fulfils from every state. *)
Definition alwaysFulfils {W A} (p : Promise W A) : Prop :=
  ∀ s, ∃ a s', p s = Some (Fulfilled a, s').

(** ** Requests of the earlier engine *)

Definition isAppend (c : Call) : bool :=
  match c with CValuesAppend _ _ => true | _ => false end.

Definition isRowUpdate (c : Call) : bool :=
  match c with CValuesUpdate _ _ _ => true | _ => false end.

(** The requests to the service [P] that were answered without an error. *)
Definition succeeded (P : Call -> bool) (tr : list TraceEntry) : list TraceEntry :=
  filter (fun t => P (te_call t) && negb (failed t) = true) tr.

(** The requests after which the earlier engine scans the ledger again: an
    update of a copy that succeeded, a delete of a copy that was accepted. *)
Definition rescanned (tr : list TraceEntry) : list TraceEntry :=
  filter (fun t => (isUpdate (te_call t) && negb (failed t))
                   || (isDelete (te_call t) && accepted t) = true) tr.

Definition isSheetLookup (c : Call) : bool :=
  match c with CSpreadsheetsGet _ => true | _ => false end.

(** ** Rows and records *)

(** The record [r] after the sheet row [removed] has been deleted: the rows
    below it move up by one. *)
Definition renumbered (removed : nat) (r : SyncedEventRecord) : SyncedEventRecord :=
  if Nat.ltb removed (rec_id r) then
    {| rec_id := rec_id r - 1;
       primary_calendar := primary_calendar r;
       primary_event_id := primary_event_id r;
       secondary_calendar := secondary_calendar r;
       secondary_event_id := secondary_event_id r;
       event_summary := event_summary r;
       event_start := event_start r;
       event_end := event_end r;
       event_signature := event_signature r;
       created_at := created_at r;
       last_updated := last_updated r;
       last_checked := last_checked r |}
  else r.

(** The record with the key [(primaryEventId, primaryCalendar)]. *)
Definition hasKey (primaryEventId primaryCalendar : string) (r : SyncedEventRecord)
  : Prop :=
  primary_event_id r = primaryEventId ∧ primary_calendar r = primaryCalendar.

(** ** Test reports *)

#[global] Instance TestStatus_eq_dec : EqDecision TestHelpers.TestStatus.
Proof. solve_decision. Defined.

(** How many results have the status [st]. *)
Definition withStatus (st : TestHelpers.TestStatus)
    (results : list TestHelpers.TestResult) : nat :=
  length (filter (fun r => TestHelpers.test_status r = st) results).

(** ** The summary of a pass *)

(** The entry is no create, update or delete of an event. *)
Definition noCalendarWrite (t : TraceEntry) : Prop :=
  isInsert (te_call t) || isUpdate (te_call t) || isDelete (te_call t) = false.

(** The deletes of copies that succeeded or were answered 410 Gone, and
    the ones that were refused. *)
Definition acceptedDeletes (tr : list TraceEntry) : list TraceEntry :=
  filter (fun t => isDelete (te_call t) && accepted t = true) tr.

Definition refusedDeletes (tr : list TraceEntry) : list TraceEntry :=
  filter (fun t => isDelete (te_call t) && negb (accepted t) = true) tr.

(** The requests to the service [P] that were answered with an error. *)
Definition failedCalls (P : Call -> bool) (tr : list TraceEntry) : list TraceEntry :=
  filter (fun t => P (te_call t) && failed t = true) tr.

(** * Spreadsheet initialisation (initSchema of sheets.ts, init-database.ts)

    The requests of [initSchema] are not those of the sync engine; the
    module has its own request type and a plain state monad that logs
    them. No step here can fail to settle. *)

Module Schema.

(** [sheet.properties]: title and id may both be missing. *)
Record SheetProperties : Type := {
  title : option string;
  sheetId : option nat
}.

(** An entry of [spreadsheet.data.sheets]. *)
Record Sheet : Type := { properties : option SheetProperties }.

Inductive Request : Type :=
| RSpreadsheetsGet (spreadsheetId : string)
| RUpdateSheetProperties (spreadsheetId : string) (sheet : option nat) (newTitle : string)
| RAddSheet (spreadsheetId : string) (newTitle : string)
| RHeaderGet (spreadsheetId : string)
| RHeaderUpdate (spreadsheetId : string) (values : list (list string))
| RValuesGet (spreadsheetId : string).

(** The Sheets client: [spreadsheets.get] answers [data.sheets], the two
    [batchUpdate] requests rename a sheet and add one, [values.get] and
    [values.update] on the range [A1:K1] read and write the header row,
    [values.get] on [A:K] reads all rows. *)
Record Api (W : Type) : Type := {
  spreadsheets_get : string -> W -> Settled (option (list Sheet)) * W;
  updateSheetProperties : string -> option nat -> string -> W -> Settled unit * W;
  addSheet : string -> string -> W -> Settled unit * W;
  header_get : string -> W -> Settled (option (list (list string))) * W;
  header_update : string -> list (list string) -> W -> Settled unit * W;
  values_get : string -> W -> Settled (list (list string)) * W
}.

Arguments spreadsheets_get {W}.
Arguments updateSheetProperties {W}.
Arguments addSheet {W}.
Arguments header_get {W}.
Arguments header_update {W}.
Arguments values_get {W}.

(** A run: the world and the requests sent so far go in, the settled
    outcome comes out with the new world and log. *)
Definition Run (W A : Type) : Type := W * list Request -> Settled A * (W * list Request).

Definition ret {W A} (a : A) : Run W A := fun s => (Fulfilled a, s).

(** [const x = await p; k x]. *)
Definition bind {W A B} (p : Run W A) (k : A -> Run W B) : Run W B :=
  fun s =>
    match p s with
    | (Fulfilled a, s') => k a s'
    | (Rejected e, s') => (Rejected e, s')
    end.

Definition call {W A} (r : Request) (h : W -> Settled A * W) : Run W A :=
  fun s => let (x, w') := h (fst s) in (x, (w', snd s ++ [r])).

(** [s.properties?.title]. *)
Definition sheetTitle (s : Sheet) : option string :=
  match properties s with Some p => title p | None => None end.

(** [sheets?.find((s) => s.properties?.title === SHEET_NAME)]. *)
Definition findLedger (sheets : option (list Sheet)) : option Sheet :=
  match sheets with
  | Some l => find (fun s => bool_decide (sheetTitle s = Some SHEET_NAME)) l
  | None => None
  end.

(** [xs?.[0]]. *)
Definition firstOf {A} (xs : option (list A)) : option A :=
  match xs with Some l => head l | None => None end.

(** [firstSheet?.properties?.title === "Sheet1" && sheets?.length === 1]. *)
Definition isDefaultSheet (sheets : option (list Sheet)) : bool :=
  match firstOf sheets with
  | Some s => bool_decide (sheetTitle s = Some "Sheet1")
  | None => false
  end
  && match sheets with Some l => Nat.eqb (length l) 1 | None => false end.

(** [firstSheet.properties?.sheetId]. *)
Definition firstSheetId (sheets : option (list Sheet)) : option nat :=
  match firstOf sheets with
  | Some s => match properties s with Some p => sheetId p | None => None end
  | None => None
  end.

(** [existingHeaders && existingHeaders[0] === HEADERS[0]]. *)
Definition headerPresent (existingHeaders : option (list string)) : bool :=
  match existingHeaders with
  | Some row => bool_decide (row !! 0 = HEADERS !! 0)
  | None => false
  end.

Section Engine.

Context {W : Type} (api : Api W).

(** Ensure the sheet exists with the correct header row. Idempotent. *)
Definition initSchema (spreadsheetId : string) : Run W unit :=
  (* Check if the synced_events sheet already exists *)
  bind (call (RSpreadsheetsGet spreadsheetId) (spreadsheets_get api spreadsheetId))
    (fun sheets =>
  bind
    (match findLedger sheets with
     | Some _ => ret tt
     | None =>
         (* Check if there's a default Sheet1 we can rename *)
         if isDefaultSheet sheets then
           (* Rename Sheet1 to synced_events *)
           call (RUpdateSheetProperties spreadsheetId (firstSheetId sheets) SHEET_NAME)
                (updateSheetProperties api spreadsheetId (firstSheetId sheets) SHEET_NAME)
         else
           (* Create a new sheet *)
           call (RAddSheet spreadsheetId SHEET_NAME) (addSheet api spreadsheetId SHEET_NAME)
     end)
    (fun _ =>
  (* Check if headers exist *)
  bind (call (RHeaderGet spreadsheetId) (header_get api spreadsheetId))
    (fun values =>
  if headerPresent (firstOf values) then ret tt
  else
    (* Write headers *)
    call (RHeaderUpdate spreadsheetId [HEADERS])
         (header_update api spreadsheetId [HEADERS])))).

(** [InitOutput] of init-database.ts. *)
Record InitOutput : Type := {
  success : bool;
  message : string;
  rowCount : nat
}.

Definition createSchema (spreadsheetId : string) : Run W unit :=
  initSchema spreadsheetId.

Definition verifySchema (spreadsheetId : string) : Run W nat :=
  bind (call (RValuesGet spreadsheetId) (values_get api spreadsheetId))
    (fun rows => ret (length (parseRows rows))).

Definition initDatabaseWorkflow (env : Env) : Run W InitOutput :=
  let spreadsheetId := default "" (SPREADSHEET_ID env) in
  (* Step 1: Create sheet and headers *)
  bind (createSchema spreadsheetId) (fun _ =>
  (* Step 2: Verify sheet exists *)
  bind (verifySchema spreadsheetId) (fun rowCount =>
  ret {| success := true; message := "Schema initialized"; rowCount := rowCount |})).

(** What the client is expected to do, as far as [initSchema] relies on
    it: the two reads leave the spreadsheet as it is; after a rename to
    the ledger's name or an added sheet of that name, the sheet is listed;
    after the header write, the header row starts with the first header,
    and a listed sheet stays listed. *)
Definition listed (spreadsheetId : string) (w : W) : Prop :=
  ∃ sheets found,
    fst (spreadsheets_get api spreadsheetId w) = Fulfilled sheets
    ∧ findLedger sheets = Some found.

Definition headed (spreadsheetId : string) (w : W) : Prop :=
  ∃ values,
    fst (header_get api spreadsheetId w) = Fulfilled values
    ∧ headerPresent (firstOf values) = true.

Record wellBehaved (spreadsheetId : string) : Prop := {
  wb_get_reads : ∀ w, snd (spreadsheets_get api spreadsheetId w) = w;
  wb_header_reads : ∀ w, snd (header_get api spreadsheetId w) = w;
  wb_rename : ∀ sheet w w',
    updateSheetProperties api spreadsheetId sheet SHEET_NAME w = (Fulfilled tt, w') →
    listed spreadsheetId w';
  wb_add : ∀ w w',
    addSheet api spreadsheetId SHEET_NAME w = (Fulfilled tt, w') →
    listed spreadsheetId w';
  wb_header : ∀ w w',
    header_update api spreadsheetId [HEADERS] w = (Fulfilled tt, w') →
    headed spreadsheetId w' ∧ (listed spreadsheetId w → listed spreadsheetId w')
}.

End Engine.

(** A spreadsheet as a list of sheets with their rows; ids are given in
    the order of creation. *)
Record Tab : Type := { tab_title : string; tab_id : nat; tab_rows : list (list string) }.

Definition Workbook : Type := list Tab.

Definition isLedger (t : Tab) : bool := String.eqb (tab_title t) SHEET_NAME.

Definition sheetOf (t : Tab) : Sheet :=
  {| properties := Some {| title := Some (tab_title t); sheetId := Some (tab_id t) |} |}.

(** Row 1 of the ledger sheet becomes [row]. *)
Definition setHeader (row : list string) (t : Tab) : Tab :=
  if isLedger t then
    {| tab_title := tab_title t; tab_id := tab_id t;
       tab_rows := row :: drop 1 (tab_rows t) |}
  else t.

Definition rename (sheet : nat) (newTitle : string) (t : Tab) : Tab :=
  if Nat.eqb (tab_id t) sheet then
    {| tab_title := newTitle; tab_id := tab_id t; tab_rows := tab_rows t |}
  else t.

Definition badRequest : JsError :=
  {| err_code := Some 400; err_message := "Invalid requests" |}.

Definition workbookApi : Api Workbook :=
  {| spreadsheets_get := fun _ w => (Fulfilled (Some (map sheetOf w)), w);
     updateSheetProperties := fun _ sheet newTitle w =>
       match sheet with
       | Some i =>
           if existsb (fun t => Nat.eqb (tab_id t) i) w
              && negb (existsb (fun t => String.eqb (tab_title t) newTitle) w)
           then (Fulfilled tt, map (rename i newTitle) w)
           else (Rejected badRequest, w)
       | None => (Rejected badRequest, w)
       end;
     addSheet := fun _ newTitle w =>
       if existsb (fun t => String.eqb (tab_title t) newTitle) w
       then (Rejected badRequest, w)
       else (Fulfilled tt,
             w ++ [{| tab_title := newTitle; tab_id := length w; tab_rows := [] |}]);
     header_get := fun _ w =>
       match find isLedger w with
       | Some t =>
           (Fulfilled (match tab_rows t with
                       | [] => None
                       | row :: _ => Some [row]
                       end), w)
       | None => (Rejected badRequest, w)
       end;
     header_update := fun _ values w =>
       match find isLedger w with
       | Some _ => (Fulfilled tt, map (setHeader (default [] (head values))) w)
       | None => (Rejected badRequest, w)
       end;
     values_get := fun _ w =>
       match find isLedger w with
       | Some t => (Fulfilled (tab_rows t), w)
       | None => (Rejected badRequest, w)
       end |}.

(** A new spreadsheet, and one whose only sheet holds data already. *)
Definition newWorkbook : Workbook :=
  [{| tab_title := "Sheet1"; tab_id := 0; tab_rows := [] |}].

End Schema.


(** * Properties of the event utilities *)

(** ** Substrings *)

Lemma prefix_app (p s : string) : String.prefix p (p +:+ s) = true.
Proof.
  induction p as [|c p IH]; simpl; [by destruct s|].
  rewrite IH. by destruct (ascii_dec c c).
Qed.

Lemma includes_app_r (a s sub : string) :
  Js.includes s sub = true → Js.includes (a +:+ s) sub = true.
Proof.
  intros H. induction a as [|c a IH]; simpl; [done|].
  rewrite IH. apply orb_true_r.
Qed.

Lemma includes_prefix (p s : string) : Js.includes (p +:+ s) p = true.
Proof.
  destruct p as [|c p]; [destruct s; reflexivity|].
  change (String c p +:+ s) with (String c (p +:+ s)).
  unfold Js.includes; fold Js.includes.
  change (String c (p +:+ s)) with (String c p +:+ s).
  by rewrite prefix_app.
Qed.

Lemma includes_middle (a p b : string) : Js.includes (a +:+ p +:+ b) p = true.
Proof. apply includes_app_r, includes_prefix. Qed.

(** ** The analyzer loop is a classification of every event *)

Lemma analyzeOne_outcome m src tgt acc e :
  analyzeOne m src tgt acc e =
  match classifyWith (fun eventId => m !! recordKey eventId src) tgt e with
  | Ignored => acc
  | SkippedDuplicate =>
      {| toCreate := toCreate acc; toUpdate := toUpdate acc;
         unchanged := unchanged acc; skippedDuplicate := S (skippedDuplicate acc) |}
  | Create =>
      {| toCreate := toCreate acc ++ [e]; toUpdate := toUpdate acc;
         unchanged := unchanged acc; skippedDuplicate := skippedDuplicate acc |}
  | Update r =>
      {| toCreate := toCreate acc; toUpdate := toUpdate acc ++ [(e, r)];
         unchanged := unchanged acc; skippedDuplicate := skippedDuplicate acc |}
  | Unchanged =>
      {| toCreate := toCreate acc; toUpdate := toUpdate acc;
         unchanged := S (unchanged acc); skippedDuplicate := skippedDuplicate acc |}
  end.
Proof.
  unfold analyzeOne, classifyWith.
  destruct (String.eqb (ev_id e) ""); [done|].
  destruct (isSyncedCopy e); [done|].
  destruct (isTargetCalendarInAttendees e tgt); [done|]. cbn.
  destruct (m !! recordKey (ev_id e) src) as [r|]; [|done].
  by destruct (String.eqb (event_signature r) (computeSignature e)).
Qed.

Lemma analysisBy_cons c e events :
  analysisBy c (e :: events) =
  let a := analysisBy c events in
  match c e with
  | Ignored => a
  | SkippedDuplicate =>
      {| toCreate := toCreate a; toUpdate := toUpdate a;
         unchanged := unchanged a; skippedDuplicate := S (skippedDuplicate a) |}
  | Create =>
      {| toCreate := e :: toCreate a; toUpdate := toUpdate a;
         unchanged := unchanged a; skippedDuplicate := skippedDuplicate a |}
  | Update r =>
      {| toCreate := toCreate a; toUpdate := (e, r) :: toUpdate a;
         unchanged := unchanged a; skippedDuplicate := skippedDuplicate a |}
  | Unchanged =>
      {| toCreate := toCreate a; toUpdate := toUpdate a;
         unchanged := S (unchanged a); skippedDuplicate := skippedDuplicate a |}
  end.
Proof.
  unfold analysisBy. rewrite !filter_cons.
  change (omap (λ e0, updateOf e0 (c e0)) (e :: events))
    with (match updateOf e (c e) with
          | Some y => y :: omap (λ e0, updateOf e0 (c e0)) events
          | None => omap (λ e0, updateOf e0 (c e0)) events
          end).
  destruct (c e); cbn; repeat case_decide; done.
Qed.

Lemma analyzeOne_foldl m src tgt events : ∀ acc,
  foldl (analyzeOne m src tgt) acc events =
  let c := classifyWith (fun eventId => m !! recordKey eventId src) tgt in
  {| toCreate := toCreate acc ++ toCreate (analysisBy c events);
     toUpdate := toUpdate acc ++ toUpdate (analysisBy c events);
     unchanged := unchanged acc + unchanged (analysisBy c events);
     skippedDuplicate := skippedDuplicate acc + skippedDuplicate (analysisBy c events) |}.
Proof.
  induction events as [|e events IH]; intros acc.
  - simpl. rewrite !app_nil_r, !Nat.add_0_r. by destruct acc.
  - simpl foldl. rewrite IH. clear IH. cbn zeta.
    rewrite analyzeOne_outcome, analysisBy_cons. cbn zeta.
    destruct (classifyWith _ tgt e); cbn; try done;
      rewrite <- ?app_assoc, ?Nat.add_succ_r; done.
Qed.

Lemma analyzeEvents_by_key events records src tgt :
  analyzeEvents events records src tgt = analysisBy (classifyByKey records src tgt) events.
Proof.
  unfold analyzeEvents. rewrite analyzeOne_foldl. cbn. reflexivity.
Qed.

Lemma analysisBy_ext c1 c2 events :
  (∀ e, e ∈ events → c1 e = c2 e) → analysisBy c1 events = analysisBy c2 events.
Proof.
  intros H. induction events as [|e events IH]; [done|].
  rewrite !analysisBy_cons. rewrite (H e) by left.
  rewrite IH; [done|]. intros; apply H; by right.
Qed.

Lemma elem_of_toCreate_analysisBy c events e :
  e ∈ toCreate (analysisBy c events) ↔ e ∈ events ∧ c e = Create.
Proof.
  unfold analysisBy; cbn. rewrite list_elem_of_filter.
  split; intros [H1 H2]; split; try done.
  - by destruct (c e).
  - by rewrite H2.
Qed.

Lemma elem_of_toUpdate_analysisBy c events e r :
  (e, r) ∈ toUpdate (analysisBy c events) ↔ e ∈ events ∧ c e = Update r.
Proof.
  unfold analysisBy; cbn. rewrite list_elem_of_omap. split.
  - intros (e' & He' & Hu). destruct (c e') eqn:Hc; try done.
    cbn in Hu. injection Hu as -> ->. done.
  - intros [He Hc]. exists e. split; [done|]. by rewrite Hc.
Qed.

(** ** The record map and its string key *)

Lemma recordKey_inj (e1 e2 c1 c2 : string) :
  colonFree e1 = true → colonFree e2 = true →
  recordKey e1 c1 = recordKey e2 c2 → e1 = e2 ∧ c1 = c2.
Proof.
  unfold recordKey. revert e2.
  induction e1 as [|a e1 IH]; intros [|b e2] H1 H2 Hk; cbn in *.
  - injection Hk as Hk. by subst.
  - injection Hk as Hb _. subst b. done.
  - injection Hk as Ha _. subst a. done.
  - injection Hk as Hab Hk. subst b.
    apply andb_true_iff in H1 as [_ H1]. apply andb_true_iff in H2 as [_ H2].
    destruct (IH e2 H1 H2 Hk) as [-> ->]. done.
Qed.

Lemma buildRecordMap_snoc rs r :
  buildRecordMap (rs ++ [r]) =
  <[recordKey (primary_event_id r) (primary_calendar r) := r]> (buildRecordMap rs).
Proof. unfold buildRecordMap. by rewrite foldl_app. Qed.

Lemma buildRecordMap_lookup_Some rs k r :
  buildRecordMap rs !! k = Some r →
  r ∈ rs ∧ recordKey (primary_event_id r) (primary_calendar r) = k.
Proof.
  induction rs as [|r' rs IH] using rev_ind; [done|].
  rewrite buildRecordMap_snoc, lookup_insert. case_decide as Hk.
  - intros [= ->]. split; [|done]. apply elem_of_app. right. left.
  - intros H. destruct (IH H) as [Hin Hkey]. split; [|done].
    apply elem_of_app. by left.
Qed.

Lemma buildRecordMap_lookup_None rs k :
  buildRecordMap rs !! k = None ↔
  ∀ r, r ∈ rs → recordKey (primary_event_id r) (primary_calendar r) ≠ k.
Proof.
  induction rs as [|r' rs IH] using rev_ind.
  - split; [intros _ r Hr; by apply elem_of_nil in Hr | done].
  - rewrite buildRecordMap_snoc, lookup_insert. case_decide as Hk.
    + split; [done|]. intros H. exfalso. apply (H r'); [|done].
      apply elem_of_app. right. left.
    + rewrite IH. split.
      * intros H r Hr. apply elem_of_app in Hr as [Hr|Hr]; [by apply H|].
        apply list_elem_of_singleton in Hr as ->. done.
      * intros H r Hr. apply H. apply elem_of_app. by left.
Qed.

Lemma NoDup_map_inj_on {A B} (f : A → B) (l : list A) x y :
  NoDup (map f l) → x ∈ l → y ∈ l → f x = f y → x = y.
Proof.
  induction l as [|a l IH]; cbn; intros Hnd Hx Hy Hf.
  - by apply elem_of_nil in Hx.
  - apply NoDup_cons in Hnd as [Ha Hnd].
    apply elem_of_cons in Hx as [->|Hx]; apply elem_of_cons in Hy as [->|Hy].
    + done.
    + exfalso. apply Ha. rewrite Hf. apply list_elem_of_In, in_map, list_elem_of_In, Hy.
    + exfalso. apply Ha. rewrite <- Hf. apply list_elem_of_In, in_map, list_elem_of_In, Hx.
    + by apply IH.
Qed.

Lemma ledgerRecordFor_Some rs c e r :
  ledgerRecordFor rs c e = Some r → r ∈ rs ∧ tracks r c e.
Proof.
  unfold ledgerRecordFor. intros H. apply find_some in H as [Hin Ht].
  apply bool_decide_eq_true in Ht. split; [by apply list_elem_of_In | done].
Qed.

Lemma ledgerRecordFor_None rs c e :
  ledgerRecordFor rs c e = None ↔ ∀ r, r ∈ rs → ¬ tracks r c e.
Proof.
  unfold ledgerRecordFor. split.
  - intros H r Hr Ht. apply list_elem_of_In in Hr.
    pose proof (find_none _ _ H r Hr) as Hf. cbn in Hf.
    apply bool_decide_eq_false in Hf. done.
  - intros H. destruct (find _ rs) as [r|] eqn:Hf; [|done].
    apply find_some in Hf as [Hin Ht]. apply bool_decide_eq_true in Ht.
    exfalso. apply (H r); [by apply list_elem_of_In | done].
Qed.

Lemma ledgerRecordFor_unique rs c e r :
  uniqueLedgerKeys rs → r ∈ rs → tracks r c e → ledgerRecordFor rs c e = Some r.
Proof.
  intros Hnd Hr [Hc He].
  destruct (ledgerRecordFor rs c e) as [r'|] eqn:Hf.
  - apply ledgerRecordFor_Some in Hf as [Hr' [Hc' He']]. f_equal.
    apply (NoDup_map_inj_on _ _ _ _ Hnd Hr' Hr). cbn. congruence.
  - exfalso. eapply ledgerRecordFor_None; [exact Hf | exact Hr | done].
Qed.

(** With ids free of the separator and one record per primary event, the
    lookup through the string key is the lookup of the pair. *)
Lemma recordMap_lookup_pair rs src eventId :
  colonFree eventId = true →
  (∀ r, r ∈ rs → colonFree (primary_event_id r) = true) →
  uniqueLedgerKeys rs →
  buildRecordMap rs !! recordKey eventId src = ledgerRecordFor rs src eventId.
Proof.
  intros He Hrs Hnd.
  destruct (buildRecordMap rs !! recordKey eventId src) as [r|] eqn:Hm.
  - apply buildRecordMap_lookup_Some in Hm as [Hr Hk].
    apply recordKey_inj in Hk as [Hid Hc]; [|by apply Hrs|done].
    symmetry. by apply ledgerRecordFor_unique.
  - symmetry. apply ledgerRecordFor_None. intros r Hr [Hc Hid].
    rewrite buildRecordMap_lookup_None in Hm. apply (Hm r Hr). by rewrite Hc, Hid.
Qed.

Lemma classifyByKey_classify rs src tgt e :
  colonFree (ev_id e) = true →
  (∀ r, r ∈ rs → colonFree (primary_event_id r) = true) →
  uniqueLedgerKeys rs →
  classifyByKey rs src tgt e = classify rs src tgt e.
Proof.
  intros He Hrs Hnd. unfold classifyByKey, classify, classifyWith.
  by rewrite recordMap_lookup_pair.
Qed.

(** ** Signature Engine *)

(** C9. [computeSignature] reads the summary, start, end, location,
    transparency, conference link and description of an event and nothing
    else: two events that agree on these seven fields have equal signatures
    whatever their attendees, ids, status or recurrence fields are.
    Consequently the analyzer's signature test gives the same answer for
    both, and when the first event is in sync with the ledger (classified
    unchanged) the second one, with the same id, is neither created nor
    updated. *)
Theorem computeSignature_ignores_attendees (e1 e2 : GoogleCalendarEvent) :
  summary e1 = summary e2 →
  start e1 = start e2 →
  end_ e1 = end_ e2 →
  location e1 = location e2 →
  transparency e1 = transparency e2 →
  hangoutLink e1 = hangoutLink e2 →
  description e1 = description e2 →
  computeSignature e1 = computeSignature e2
  ∧ (∀ records src tgt,
       ev_id e1 = ev_id e2 →
       unchanged (analyzeEvents [e1] records src tgt) = 1 →
       toUpdate (analyzeEvents [e2] records src tgt) = []
       ∧ toCreate (analyzeEvents [e2] records src tgt) = []).
Proof.
  intros Hs Hst Hen Hl Ht Hh Hd.
  assert (Hsig : computeSignature e1 = computeSignature e2).
  { unfold computeSignature. by rewrite Hs, Hst, Hen, Hl, Ht, Hh, Hd. }
  split; [exact Hsig|].
  intros records src tgt Hid.
  unfold analyzeEvents. cbn [foldl]. unfold analyzeOne, isSyncedCopy.
  rewrite <- Hid, <- Hd, <- Hsig.
  destruct (String.eqb (ev_id e1) ""); [done|].
  destruct (Js.includes (default "" (description e1)) SYNC_TAG); [done|].
  destruct (isTargetCalendarInAttendees e1 tgt); [done|].
  destruct (buildRecordMap records !! recordKey (ev_id e1) src) as [r|]; [|done].
  destruct (String.eqb (event_signature r) (computeSignature e1)); [|done].
  intros _. by destruct (isTargetCalendarInAttendees e2 tgt).
Qed.

Lemma computeSignature_ignores_attendees_witness :
  attendees standup ≠ attendees standupWithGuests
  ∧ computeSignature standup = computeSignature standupWithGuests.
Proof.
  split; [done|].
  apply (computeSignature_ignores_attendees standup standupWithGuests);
    reflexivity.
Defined.

(** ** Duplicate Filter and Event Analyzer *)

Lemma classifyWith_Create lookup tgt e :
  classifyWith lookup tgt e = Create →
  ev_id e ≠ "" ∧ isSyncedCopy e = false ∧ isTargetCalendarInAttendees e tgt = false
  ∧ lookup (ev_id e) = None.
Proof.
  unfold classifyWith.
  destruct (String.eqb (ev_id e) "") eqn:Hid; [done|].
  apply String.eqb_neq in Hid.
  destruct (isSyncedCopy e); [done|].
  destruct (isTargetCalendarInAttendees e tgt); [done|]. cbn.
  destruct (lookup (ev_id e)) as [r|]; [|done].
  by destruct (String.eqb (event_signature r) (computeSignature e)).
Qed.

Lemma classifyWith_Update lookup tgt e r :
  classifyWith lookup tgt e = Update r →
  ev_id e ≠ "" ∧ isSyncedCopy e = false ∧ isTargetCalendarInAttendees e tgt = false
  ∧ lookup (ev_id e) = Some r ∧ event_signature r ≠ computeSignature e.
Proof.
  unfold classifyWith.
  destruct (String.eqb (ev_id e) "") eqn:Hid; [done|].
  apply String.eqb_neq in Hid.
  destruct (isSyncedCopy e); [done|].
  destruct (isTargetCalendarInAttendees e tgt); [done|]. cbn.
  destruct (lookup (ev_id e)) as [r'|]; [|done].
  destruct (String.eqb (event_signature r') (computeSignature e)) eqn:Hsig; [done|].
  apply String.eqb_neq in Hsig. intros [= ->]. done.
Qed.

Lemma classifyWith_SkippedDuplicate lookup tgt e :
  isSkippedDuplicate (classifyWith lookup tgt e) = true ↔
  ev_id e ≠ "" ∧ (isSyncedCopy e = true ∨ isTargetCalendarInAttendees e tgt = true).
Proof.
  unfold classifyWith.
  destruct (String.eqb (ev_id e) "") eqn:Hid.
  { apply String.eqb_eq in Hid. cbn. split; [done | by intros [? _]]. }
  apply String.eqb_neq in Hid.
  destruct (isSyncedCopy e); cbn; [naive_solver|].
  destruct (isTargetCalendarInAttendees e tgt); cbn; [naive_solver|].
  split; [|by intros [_ [?|?]]].
  destruct (lookup (ev_id e)) as [r|]; [|done].
  by destruct (String.eqb (event_signature r) (computeSignature e)).
Qed.

(** C2 (amended). For every input to the Event Analyzer, an event whose
    description contains the sync marker, and an event whose attendee list
    contains the target calendar, is never placed in [toCreate] or
    [toUpdate]; [skippedDuplicate] counts exactly the events with a
    non-empty id that carry the marker or list the target calendar. *)
Theorem analyzeEvents_skips_duplicates
    (events : list GoogleCalendarEvent) (records : list SyncedEventRecord)
    (src tgt : string) :
  let a := analyzeEvents events records src tgt in
  (∀ e, e ∈ toCreate a →
        isSyncedCopy e = false ∧ isTargetCalendarInAttendees e tgt = false)
  ∧ (∀ e r, (e, r) ∈ toUpdate a →
        isSyncedCopy e = false ∧ isTargetCalendarInAttendees e tgt = false)
  ∧ skippedDuplicate a =
      length (filter (λ e, ev_id e ≠ ""
                           ∧ (isSyncedCopy e = true
                              ∨ isTargetCalendarInAttendees e tgt = true)) events).
Proof.
  cbn zeta. rewrite analyzeEvents_by_key. split; [|split].
  - intros e He. apply elem_of_toCreate_analysisBy in He as [_ Hc].
    apply classifyWith_Create in Hc. tauto.
  - intros e r He. apply elem_of_toUpdate_analysisBy in He as [_ Hc].
    apply classifyWith_Update in Hc. tauto.
  - unfold analysisBy; cbn. f_equal. apply list_filter_iff.
    intros e. apply classifyWith_SkippedDuplicate.
Qed.

(** C2, as stated, fails: an event that carries the marker but has an empty
    id is dropped by the [if (!event.id) continue] guard before the filter
    and is not counted as a skipped duplicate. *)
Lemma marked_event_without_id_is_not_counted :
  isSyncedCopy markedWithoutId = true
  ∧ skippedDuplicate (analyzeEvents [markedWithoutId] [] "a@example.com" "b@example.com") = 0.
Proof. split; reflexivity. Qed.

(** C3 (amended). Let event ids and the ledger's primary event ids be free
    of [":"] and let the ledger hold at most one record per primary event.
    Then the analysis is the classification of every event by the lookup
    of [(sourceCalendarId, event.id)] in the ledger; in particular for an
    event of the input with a non-empty id that passes the Duplicate
    Filter: no record tracks it, and it is in [toCreate] (and not in
    [toUpdate]); or a record with a different signature tracks it, and it
    is in [toUpdate] paired with that record (and not in [toCreate]); or a
    record with the same signature tracks it, and it is in neither list and
    is one of the events [unchanged] counts. *)
Theorem analyzeEvents_classifies_by_ledger_lookup
    (events : list GoogleCalendarEvent) (records : list SyncedEventRecord)
    (src tgt : string) :
  (∀ e, e ∈ events → colonFree (ev_id e) = true) →
  (∀ r, r ∈ records → colonFree (primary_event_id r) = true) →
  uniqueLedgerKeys records →
  let a := analyzeEvents events records src tgt in
  a = analysisBy (classify records src tgt) events
  ∧ (∀ e, e ∈ events → ev_id e ≠ "" →
          isSyncedCopy e = false → isTargetCalendarInAttendees e tgt = false →
      ((∀ r, r ∈ records → ¬ tracks r src (ev_id e)) →
         classify records src tgt e = Create
         ∧ e ∈ toCreate a ∧ (∀ r, (e, r) ∉ toUpdate a))
      ∧ (∀ r, r ∈ records → tracks r src (ev_id e) →
              event_signature r ≠ computeSignature e →
         classify records src tgt e = Update r
         ∧ (e, r) ∈ toUpdate a ∧ e ∉ toCreate a)
      ∧ (∀ r, r ∈ records → tracks r src (ev_id e) →
              event_signature r = computeSignature e →
         classify records src tgt e = Unchanged
         ∧ (e ∉ toCreate a) ∧ (∀ r', (e, r') ∉ toUpdate a))).
Proof.
  intros Hev Hrs Hnd. cbn zeta.
  assert (Ha : analyzeEvents events records src tgt
               = analysisBy (classify records src tgt) events).
  { rewrite analyzeEvents_by_key. apply analysisBy_ext.
    intros e He. apply classifyByKey_classify; auto. }
  rewrite Ha. split; [done|].
  intros e He Hid Hs Ht.
  assert (Hcl : classify records src tgt e =
                     match ledgerRecordFor records src (ev_id e) with
                     | None => Create
                     | Some r => if String.eqb (event_signature r) (computeSignature e)
                                 then Unchanged else Update r
                     end).
  { unfold classify, classifyWith. rewrite Hs, Ht. cbn.
    apply String.eqb_neq in Hid. by rewrite Hid. }
  split; [|split].
  - intros Hno. apply ledgerRecordFor_None in Hno. rewrite Hno in Hcl.
    split; [done|]. split.
    + by apply elem_of_toCreate_analysisBy.
    + intros r Hr. apply elem_of_toUpdate_analysisBy in Hr as [_ Hr]. congruence.
  - intros r Hr Htr Hsig.
    rewrite (ledgerRecordFor_unique _ _ _ _ Hnd Hr Htr) in Hcl.
    apply String.eqb_neq in Hsig. rewrite Hsig in Hcl.
    split; [done|]. split.
    + by apply elem_of_toUpdate_analysisBy.
    + intros Hc. apply elem_of_toCreate_analysisBy in Hc as [_ Hc]. congruence.
  - intros r Hr Htr Hsig.
    rewrite (ledgerRecordFor_unique _ _ _ _ Hnd Hr Htr) in Hcl.
    apply String.eqb_eq in Hsig. rewrite Hsig in Hcl.
    split; [done|]. split.
    + intros Hc. apply elem_of_toCreate_analysisBy in Hc as [_ Hc]. congruence.
    + intros r' Hr'. apply elem_of_toUpdate_analysisBy in Hr' as [_ Hr']. congruence.
Qed.

Lemma analyzeEvents_classifies_by_ledger_lookup_witness :
  toCreate (analyzeEvents [standup] [] "a@example.com" "b@example.com") = [standup]
  ∧ analyzeEvents [standup]
      [blankRecord 2 "a@example.com" "e1" (computeSignature standup)]
      "a@example.com" "b@example.com"
    = analysisBy
        (classify [blankRecord 2 "a@example.com" "e1" (computeSignature standup)]
                  "a@example.com" "b@example.com")
        [standup].
Proof.
  split; [reflexivity|].
  apply (analyzeEvents_classifies_by_ledger_lookup [standup]
           [blankRecord 2 "a@example.com" "e1" (computeSignature standup)]
           "a@example.com" "b@example.com").
  - intros e He. apply list_elem_of_singleton in He as ->. reflexivity.
  - intros r Hr. apply list_elem_of_singleton in Hr as ->. reflexivity.
  - unfold uniqueLedgerKeys. cbn. apply NoDup_singleton.
Defined.

(** C3, as stated, fails: the record map is keyed by the string
    [`${id}:${calendar}`], so a record of another calendar whose key string
    coincides is taken for the record of the event. No record tracks
    ["e:c"] on calendar ["d"], yet the event is not put in [toCreate]: it
    is paired with the record of event ["e"] on calendar ["c:d"]. *)
Lemma key_collision_hides_create :
  ev_id collidingEvent ≠ ""
  ∧ isSyncedCopy collidingEvent = false
  ∧ isTargetCalendarInAttendees collidingEvent "t" = false
  ∧ (∀ r, r ∈ [collidingRecord] → ¬ tracks r "d" (ev_id collidingEvent))
  ∧ toCreate (analyzeEvents [collidingEvent] [collidingRecord] "d" "t") = []
  ∧ toUpdate (analyzeEvents [collidingEvent] [collidingRecord] "d" "t")
    = [(collidingEvent, collidingRecord)].
Proof.
  split; [done|]. split; [reflexivity|]. split; [reflexivity|]. split.
  - intros r Hr. apply list_elem_of_singleton in Hr as ->. by intros [? _].
  - split; vm_compute; reflexivity.
Qed.


(** * Properties of the Concurrency Batcher *)

(** ** Chunks *)

Lemma chunksFuel_enough {T} (n : nat) : 0 < n → ∀ f1 f2 (items : list T),
  length items ≤ f1 → length items ≤ f2 →
  chunksFuel f1 n items = chunksFuel f2 n items.
Proof.
  intros Hn. induction f1 as [|f1 IH]; intros f2 items H1 H2.
  - destruct items; [|cbn in H1; lia]. by destruct f2.
  - destruct items as [|x items]; [by destruct f2|].
    destruct f2 as [|f2]; [cbn in H2; lia|].
    cbn [chunksFuel]. f_equal. cbn in H1, H2.
    apply IH; rewrite length_drop; cbn; lia.
Qed.

Lemma chunks_nil {T} (n : nat) : chunks n (@nil T) = [].
Proof. reflexivity. Qed.

Lemma chunks_step {T} (n : nat) (items : list T) :
  0 < n → items ≠ [] →
  chunks n items = take n items :: chunks n (drop n items).
Proof.
  intros Hn Hne. unfold chunks.
  destruct items as [|x items]; [done|].
  cbn [length chunksFuel]. f_equal.
  apply chunksFuel_enough; [done| |done].
  rewrite length_drop. cbn. lia.
Qed.

Lemma chunks_concat {T} (n : nat) (items : list T) :
  0 < n → concat (chunks n items) = items.
Proof.
  intros Hn. unfold chunks.
  remember (length items) as f eqn:Hf.
  assert (Hle : length items ≤ f) by lia. clear Hf.
  revert items Hle. induction f as [|f IH]; intros items Hle.
  - destruct items; [done | cbn in Hle; lia].
  - destruct items as [|x items]; [done|].
    cbn [chunksFuel concat]. rewrite IH.
    + apply take_drop.
    + rewrite length_drop. cbn in *. lia.
Qed.

Lemma chunks_bounded {T} (n : nat) (items : list T) :
  0 < n → Forall (λ c, 0 < length c ≤ n) (chunks n items).
Proof.
  intros Hn. unfold chunks.
  remember (length items) as f eqn:Hf.
  assert (Hle : length items ≤ f) by lia. clear Hf.
  revert items Hle. induction f as [|f IH]; intros items Hle; [constructor|].
  destruct items as [|x items]; [constructor|].
  cbn [chunksFuel]. constructor.
  - rewrite length_take. cbn. lia.
  - apply IH. rewrite length_drop. cbn in *. lia.
Qed.

(** ** Promises *)

Lemma await_unfold {W A B} (p : Promise W A) (k : A → Promise W B) s :
  await p k s =
  match p s with
  | Some (Fulfilled a, s') => k a s'
  | Some (Rejected e, s') => Some (Rejected e, s')
  | None => None
  end.
Proof. reflexivity. Qed.

Lemma allSettled_not_rejected {W A} (ps : list (Promise W A)) : ∀ s e s',
  allSettled ps s ≠ Some (Rejected e, s').
Proof.
  induction ps as [|p ps IH]; intros s e s'; [done|].
  cbn [allSettled]. rewrite await_unfold. unfold settle at 1.
  destruct (p s) as [[r s1]|]; [|done].
  rewrite await_unfold.
  destruct (allSettled ps s1) as [[[rs|e1] s2]|] eqn:Hrs; [done| |done].
  by apply IH in Hrs.
Qed.

(** ** The index loop is the run of the chunks *)

Lemma slice_take_drop {T} (i n : nat) (items : list T) :
  slice i (i + n) items = take n (drop i items).
Proof. unfold slice. f_equal. lia. Qed.

Lemma batchLoop_runBatches {W T R} (svc : Services W) (fn : T → Promise W R)
    (items : list T) (batchSize : nat) :
  0 < batchSize → ∀ fuel i acc s,
  length items - i ≤ fuel →
  batchLoop svc fuel items batchSize fn i acc s =
  match runBatches svc fn (Nat.eqb i 0) (chunks batchSize (drop i items)) s with
  | Some (Fulfilled rest, s') => Some (Fulfilled (acc ++ rest), s')
  | Some (Rejected e, s') => Some (Rejected e, s')
  | None => None
  end.
Proof.
  intros Hbs. induction fuel as [|fuel IH]; intros i acc s Hfuel.
  - cbn [batchLoop]. destruct (Nat.ltb_spec i (length items)) as [Hlt|Hge]; [lia|].
    rewrite drop_ge by lia. cbn. by rewrite app_nil_r.
  - cbn [batchLoop]. destruct (Nat.ltb_spec i (length items)) as [Hlt|Hge].
    + rewrite chunks_step; [|done|].
      2:{ intros Hnil. apply (f_equal length) in Hnil.
          rewrite length_drop in Hnil. cbn in Hnil. lia. }
      cbn [runBatches]. rewrite !await_unfold.
      assert (Hd : (if Nat.ltb 0 i then delay svc BATCH_DELAY_MS else resolve tt) s
                   = (if Nat.eqb i 0 then resolve tt else delay svc BATCH_DELAY_MS) s).
      { destruct i; reflexivity. }
      rewrite Hd. clear Hd.
      destruct ((if Nat.eqb i 0 then resolve tt else delay svc BATCH_DELAY_MS) s)
        as [[[[] |e] s1]|]; [|done|done].
      rewrite !await_unfold, slice_take_drop.
      destruct (allSettled (map fn (take batchSize (drop i items))) s1)
        as [[[rs|e] s2]|]; [|done|done].
      rewrite IH by lia. rewrite drop_drop.
      assert (Hz : Nat.eqb (i + batchSize) 0 = false) by (apply Nat.eqb_neq; lia).
      rewrite Hz, await_unfold.
      destruct (runBatches svc fn false (chunks batchSize (drop (i + batchSize) items)) s2)
        as [[[rest|e] s3]|]; [|done|done].
      unfold resolve. by rewrite app_assoc.
    + rewrite drop_ge by lia. cbn. by rewrite app_nil_r.
Qed.

Lemma processInBatches_runBatches {W T R} (svc : Services W) (fn : T → Promise W R)
    (items : list T) (batchSize : nat) s :
  0 < batchSize →
  processInBatches svc items batchSize fn s =
  runBatches svc fn true (chunks batchSize items) s.
Proof.
  intros Hbs. unfold processInBatches.
  rewrite batchLoop_runBatches by (done || lia).
  change (drop 0 items) with items. cbn [Nat.eqb].
  by destruct (runBatches svc fn true (chunks batchSize items) s) as [[[rest|e] s']|].
Qed.

(** ** Outcomes are collected for every item *)

Lemma allSettled_outcomes {W T R} (fn : T → Promise W R) :
  settles fn → ∀ items s, ∃ rs s',
    allSettled (map fn items) s = Some (Fulfilled rs, s')
    ∧ Forall2 (outcomeOf fn) items rs.
Proof.
  intros Hfn. induction items as [|x items IH]; intros s.
  - exists [], s. split; [done | constructor].
  - destruct (Hfn x s) as [[r s1] Hx].
    destruct (IH s1) as (rs & s2 & Hrs & Hall).
    exists (r :: rs), s2. split.
    + cbn [map allSettled]. rewrite await_unfold. unfold settle at 1. rewrite Hx.
      rewrite await_unfold, Hrs. done.
    + constructor; [by exists s, s1 | done].
Qed.

Lemma delay_settles {W} (svc : Services W) ms s :
  delay svc ms s =
  Some (Fulfilled tt,
        {| world := set_timeout svc ms (world s);
           trace := trace s ++ [{| te_call := CSetTimeout ms; te_error := None |}] |}).
Proof. reflexivity. Qed.

Lemma runBatches_outcomes {W T R} (svc : Services W) (fn : T → Promise W R) :
  settles fn → ∀ batches first s, ∃ rs s',
    runBatches svc fn first batches s = Some (Fulfilled rs, s')
    ∧ Forall2 (outcomeOf fn) (concat batches) rs.
Proof.
  intros Hfn. induction batches as [|b batches IH]; intros first s.
  - exists [], s. split; [done | constructor].
  - cbn [runBatches concat]. rewrite await_unfold.
    set (s0 := if first then s
               else {| world := set_timeout svc BATCH_DELAY_MS (world s);
                       trace := trace s ++ [{| te_call := CSetTimeout BATCH_DELAY_MS;
                                               te_error := None |}] |}).
    assert (Hd : (if first then resolve tt else delay svc BATCH_DELAY_MS) s
                 = Some (Fulfilled tt, s0)) by (by destruct first).
    rewrite Hd.
    destruct (allSettled_outcomes fn Hfn b s0) as (rs1 & s1 & H1 & Hall1).
    destruct (IH false s1) as (rs2 & s2 & H2 & Hall2).
    exists (rs1 ++ rs2), s2. split.
    + rewrite await_unfold, H1, await_unfold, H2. done.
    + by apply Forall2_app.
Qed.

(** ** Operations that issue one request per item *)

Lemma requests_app tr1 tr2 : requests (tr1 ++ tr2) = requests tr1 ++ requests tr2.
Proof. apply filter_app. Qed.

Lemma timers_app tr1 tr2 : timers (tr1 ++ tr2) = timers tr1 ++ timers tr2.
Proof. apply filter_app. Qed.

Lemma allSettled_oneRequest {W T R} (fn : T → Promise W R) Rel :
  oneRequest fn Rel → ∀ items s, ∃ rs s' ts,
    allSettled (map fn items) s = Some (Fulfilled rs, s')
    ∧ trace s' = trace s ++ ts
    ∧ requests ts = ts ∧ timers ts = []
    ∧ Forall3 Rel items ts rs.
Proof.
  intros Hfn. induction items as [|x items IH]; intros s.
  - exists [], s, []. rewrite app_nil_r. repeat split; constructor.
  - destruct (Hfn x s) as (r & s1 & t & Hx & Ht & Hnt & Hrel).
    destruct (IH s1) as (rs & s2 & ts & Hrs & Htr & Hreq & Htim & Hall).
    exists (r :: rs), s2, (t :: ts). repeat split.
    + cbn [map allSettled]. rewrite await_unfold. unfold settle at 1. rewrite Hx.
      rewrite await_unfold, Hrs. done.
    + rewrite Htr, Ht, <- app_assoc. done.
    + unfold requests in *. rewrite filter_cons. case_decide; [|done]. by rewrite Hreq.
    + unfold timers in *. rewrite filter_cons. case_decide; [congruence|done].
    + by constructor.
Qed.

Lemma runBatches_oneRequest {W T R} (svc : Services W) (fn : T → Promise W R) Rel :
  oneRequest fn Rel → ∀ batches first s, ∃ rs s' tr,
    runBatches svc fn first batches s = Some (Fulfilled rs, s')
    ∧ trace s' = trace s ++ tr
    ∧ Forall3 Rel (concat batches) (requests tr) rs
    ∧ timers tr =
        replicate (length batches - (if first then 1 else 0))
                  {| te_call := CSetTimeout BATCH_DELAY_MS; te_error := None |}.
Proof.
  intros Hfn. induction batches as [|b batches IH]; intros first s.
  - exists [], s, []. rewrite app_nil_r. repeat split; constructor.
  - cbn [runBatches concat]. rewrite await_unfold.
    set (d := {| te_call := CSetTimeout BATCH_DELAY_MS; te_error := None |}).
    set (s0 := if first then s
               else {| world := set_timeout svc BATCH_DELAY_MS (world s);
                       trace := trace s ++ [d] |}).
    assert (Hd : (if first then resolve tt else delay svc BATCH_DELAY_MS) s
                 = Some (Fulfilled tt, s0)) by (by destruct first).
    rewrite Hd.
    destruct (allSettled_oneRequest fn Rel Hfn b s0)
      as (rs1 & s1 & ts1 & H1 & Ht1 & Hreq1 & Htim1 & Hall1).
    destruct (IH false s1) as (rs2 & s2 & tr2 & H2 & Ht2 & Hall2 & Htim2).
    exists (rs1 ++ rs2), s2, ((if first then [] else [d]) ++ ts1 ++ tr2).
    repeat split.
    + rewrite await_unfold, H1, await_unfold, H2. done.
    + rewrite Ht2, Ht1. subst s0. destruct first; cbn; by rewrite <- !app_assoc.
    + rewrite !requests_app, Hreq1.
      assert (Hn : requests (if first then [] else [d]) = []) by (by destruct first).
      rewrite Hn. cbn [app]. by apply Forall3_app.
    + rewrite !timers_app, Htim1, Htim2. cbn [length app].
      destruct first; cbn; [by rewrite Nat.sub_0_r|].
      rewrite Nat.sub_0_r. by destruct batches.
Qed.

Lemma processInBatches_oneRequest {W T R} (svc : Services W) (fn : T → Promise W R)
    Rel (items : list T) (batchSize : nat) s :
  0 < batchSize → oneRequest fn Rel → ∃ rs s' tr,
    processInBatches svc items batchSize fn s = Some (Fulfilled rs, s')
    ∧ trace s' = trace s ++ tr
    ∧ Forall3 Rel items (requests tr) rs
    ∧ timers tr =
        replicate (length (chunks batchSize items) - 1)
                  {| te_call := CSetTimeout BATCH_DELAY_MS; te_error := None |}.
Proof.
  intros Hbs Hfn. rewrite processInBatches_runBatches by done.
  destruct (runBatches_oneRequest svc fn Rel Hfn (chunks batchSize items) true s)
    as (rs & s' & tr & Hrun & Htr & Hall & Htim).
  exists rs, s', tr. rewrite chunks_concat in Hall by done. done.
Qed.

Lemma batchLoop_zero_never {W T R} (svc : Services W) (fn : T → Promise W R)
    (x : T) (items : list T) : ∀ fuel acc s,
  batchLoop svc fuel (x :: items) 0 fn 0 acc s = None.
Proof.
  induction fuel as [|fuel IH]; intros acc s; [done|].
  cbn [batchLoop length Nat.ltb Nat.leb]. rewrite await_unfold. cbn [resolve].
  rewrite await_unfold. unfold slice. cbn [Nat.add Nat.sub take map allSettled resolve].
  apply IH.
Qed.





(** * Properties of the Direction Syncer, the Orphan Detector and the
      Ledger Batch Writer *)

(** ** The per-item operations issue one request each *)

Lemma invoke_unfold {W A} (c : Call) (h : W → Settled A * W) s :
  invoke c h s =
  Some (fst (h (world s)),
        {| world := snd (h (world s));
           trace := trace s ++
             [{| te_call := c;
                 te_error := match fst (h (world s)) with
                             | Rejected e => Some e
                             | Fulfilled _ => None
                             end |}] |}).
Proof. unfold invoke. by destruct (h (world s)). Qed.

Lemma createOne_oneRequest {W} (svc : Services W) src tgt prefix :
  oneRequest (createOne svc src tgt prefix) (RelCreate src tgt prefix).
Proof.
  intros event s. unfold createOne, createEvent.
  rewrite await_unfold, invoke_unfold.
  destruct (events_insert svc tgt (buildSyncedEventBody event prefix src) (world s))
    as [[c|e] w'] eqn:Hh; cbn [fst snd].
  - eexists _, _, _. split; [reflexivity|]. cbn. done.
  - eexists _, _, _. split; [reflexivity|]. cbn. done.
Qed.

Lemma updateOne_oneRequest {W} (svc : Services W) src tgt prefix :
  oneRequest (updateOne svc src tgt prefix) (RelUpdate src tgt prefix).
Proof.
  intros item s. unfold updateOne, updateEvent.
  rewrite await_unfold, invoke_unfold.
  destruct (events_update svc tgt (secondary_event_id (snd item))
              (buildSyncedEventBody (fst item) prefix src) (world s))
    as [[c|e] w'] eqn:Hh; cbn [fst snd].
  - eexists _, _, _. split; [reflexivity|]. cbn. done.
  - eexists _, _, _. split; [reflexivity|]. cbn. done.
Qed.

Lemma deleteEvent_unfold {W} (svc : Services W) cal eid s :
  deleteEvent svc cal eid s =
  let t := {| te_call := CEventsDelete cal eid;
              te_error := match fst (events_delete svc cal eid (world s)) with
                          | Rejected e => Some e
                          | Fulfilled _ => None
                          end |} in
  Some (match fst (events_delete svc cal eid (world s)) with
        | Fulfilled _ => Fulfilled tt
        | Rejected e => if accepted t then Fulfilled tt else Rejected e
        end,
        {| world := snd (events_delete svc cal eid (world s));
           trace := trace s ++ [t] |}).
Proof.
  unfold deleteEvent, tryCatch. rewrite invoke_unfold.
  destruct (events_delete svc cal eid (world s)) as [[[]|e] w']; cbn; [done|].
  unfold accepted; cbn. by case_decide; case_bool_decide.
Qed.

Lemma deleteOne_oneRequest {W} (svc : Services W) :
  oneRequest (deleteOne svc) RelDelete.
Proof.
  intros record s. unfold deleteOne. rewrite await_unfold, deleteEvent_unfold.
  cbn zeta.
  destruct (events_delete svc (secondary_calendar record) (secondary_event_id record)
              (world s)) as [[[]|e] w'] eqn:Hh; cbn [fst snd].
  - eexists _, _, _. split; [reflexivity|]. cbn. done.
  - destruct (accepted _) eqn:Hacc.
    + eexists _, _, _. split; [reflexivity|]. cbn. done.
    + eexists _, _, _. split; [reflexivity|]. cbn. done.
Qed.

(** ** The loops over the settled results *)

Lemma fulfilledValues_cons {R} (r : Settled R) rs :
  fulfilledValues (r :: rs) =
  match r with
  | Fulfilled v => v :: fulfilledValues rs
  | Rejected _ => fulfilledValues rs
  end.
Proof. by destruct r. Qed.

Lemma rejectedCount_cons {R} (r : Settled R) rs :
  rejectedCount (r :: rs) =
  match r with
  | Fulfilled _ => rejectedCount rs
  | Rejected _ => S (rejectedCount rs)
  end.
Proof. unfold rejectedCount. rewrite filter_cons. by destruct r. Qed.

Lemma foldl_collectCreate src tgt rs : ∀ st pend,
  foldl (collectCreate src tgt) (st, pend) rs =
  ({| created := created st + length (fulfilledValues rs);
      updated := updated st; deleted := deleted st;
      errors := errors st + rejectedCount rs |},
   pend ++ map (λ p, pendingInsertOf src tgt (fst p) (snd p)) (fulfilledValues rs)).
Proof.
  induction rs as [|r rs IH]; intros st pend.
  - cbn. rewrite app_nil_r, !Nat.add_0_r. by destruct st.
  - cbn [foldl]. rewrite fulfilledValues_cons, rejectedCount_cons.
    destruct r as [[e c]|err]; cbn [collectCreate fst snd]; rewrite IH; cbn;
      rewrite <- ?app_assoc, ?Nat.add_succ_r; done.
Qed.

Lemma foldl_collectUpdate rs : ∀ st pend,
  foldl collectUpdate (st, pend) rs =
  ({| created := created st;
      updated := updated st + length (fulfilledValues rs); deleted := deleted st;
      errors := errors st + rejectedCount rs |},
   pend ++ map (λ p, pendingUpdateOf (fst p) (snd p)) (fulfilledValues rs)).
Proof.
  induction rs as [|r rs IH]; intros st pend.
  - cbn. rewrite app_nil_r, !Nat.add_0_r. by destruct st.
  - cbn [foldl]. rewrite fulfilledValues_cons, rejectedCount_cons.
    destruct r as [[e c]|err]; cbn [collectUpdate fst snd]; rewrite IH; cbn;
      rewrite <- ?app_assoc, ?Nat.add_succ_r; done.
Qed.

Lemma foldl_collectDelete rs : ∀ acc,
  foldl collectDelete acc rs =
  {| orphans_deleted := orphans_deleted acc + length (fulfilledValues rs);
     orphans_errors := orphans_errors acc + rejectedCount rs;
     pendingDeletes :=
       pendingDeletes acc ++ map (λ r, {| del_rowId := rec_id r |}) (fulfilledValues rs) |}.
Proof.
  induction rs as [|r rs IH]; intros acc.
  - cbn. rewrite app_nil_r, !Nat.add_0_r. by destruct acc.
  - cbn [foldl]. rewrite fulfilledValues_cons, rejectedCount_cons.
    destruct r as [v|err]; cbn [collectDelete]; rewrite IH; cbn;
      rewrite <- ?app_assoc, ?Nat.add_succ_r; done.
Qed.

(** What the outcomes of one-request operations say about the requests. *)
Lemma Forall3_outcomes {T R} (Rel : T → TraceEntry → Settled R → Prop)
    (ok : TraceEntry → bool) (proj : R → T) items ts rs :
  (∀ x t r, Rel x t r →
     match r with
     | Fulfilled v => proj v = x ∧ ok t = true
     | Rejected _ => ok t = false
     end) →
  Forall3 Rel items ts rs →
  map proj (fulfilledValues rs) = itemsWhere ok items ts
  ∧ rejectedCount rs = length (filter (λ t, ok t = false) ts)
  ∧ length (fulfilledValues rs) + rejectedCount rs = length items
  ∧ length ts = length items.
Proof.
  intros Hrel Hall. induction Hall as [|x t r items ts rs Hx Hall IH].
  - done.
  - destruct IH as (IH1 & IH2 & IH3 & IH4).
    rewrite fulfilledValues_cons, rejectedCount_cons.
    unfold itemsWhere in *. cbn [zip zip_with]. rewrite !filter_cons. cbn [snd length].
    specialize (Hrel x t r Hx). destruct r as [v|e].
    + destruct Hrel as [Hp Hok]. rewrite Hok.
      repeat case_decide; try done. cbn [map fst length]. rewrite Hp, IH1.
      repeat split; try done; lia.
    + rewrite Hrel. repeat case_decide; try done. cbn [length].
      repeat split; try done; lia.
Qed.

Lemma Forall3_calls {T R} (Rel : T → TraceEntry → Settled R → Prop)
    (call : T → Call) items ts rs :
  (∀ x t r, Rel x t r → te_call t = call x) →
  Forall3 Rel items ts rs → map te_call ts = map call items.
Proof.
  intros Hrel Hall. induction Hall as [|x t r items ts rs Hx Hall IH]; [done|].
  cbn. by rewrite IH, (Hrel x t r Hx).
Qed.

(** ** Requests by kind *)

Lemma callsWhere_app P tr1 tr2 :
  callsWhere P (tr1 ++ tr2) = callsWhere P tr1 ++ callsWhere P tr2.
Proof. apply filter_app. Qed.

Lemma callsWhere_requests P tr :
  (∀ c, P c = true → isTimer c = false) →
  callsWhere P tr = callsWhere P (requests tr).
Proof.
  intros HP. unfold callsWhere, requests. rewrite list_filter_filter.
  apply list_filter_iff. intros t. split; [|tauto]. intros H. split; [done|]. by apply HP.
Qed.

Lemma callsWhere_all P l :
  Forall (λ t, P (te_call t) = true) l → callsWhere P l = l.
Proof.
  unfold callsWhere. induction 1 as [|t l Ht Hl IH]; [done|].
  rewrite filter_cons. case_decide; [|done]. by rewrite IH.
Qed.

Lemma callsWhere_none P l :
  Forall (λ t, P (te_call t) = false) l → callsWhere P l = [].
Proof.
  unfold callsWhere. induction 1 as [|t l Ht Hl IH]; [done|].
  rewrite filter_cons. case_decide; [congruence|done].
Qed.

Lemma Forall3_Forall_requests {T R} (Rel : T → TraceEntry → Settled R → Prop)
    (Q : TraceEntry → Prop) items ts rs :
  (∀ x t r, Rel x t r → Q t) → Forall3 Rel items ts rs → Forall Q ts.
Proof.
  intros HQ. induction 1 as [|x t r items ts rs Hx Hall IH]; constructor; eauto.
Qed.

(** The requests of a phase that calls the service [P] once per item. *)
Lemma phase_calls {T R} (Rel : T → TraceEntry → Settled R → Prop)
    (P P' : Call → bool) items tr rs :
  (∀ c, P c = true → isTimer c = false) →
  (∀ c, P' c = true → isTimer c = false) →
  (∀ x t r, Rel x t r → P (te_call t) = true ∧ P' (te_call t) = false) →
  Forall3 Rel items (requests tr) rs →
  callsWhere P tr = requests tr ∧ callsWhere P' tr = [].
Proof.
  intros HP HP' Hrel Hall. split.
  - rewrite callsWhere_requests by done. apply callsWhere_all.
    eapply Forall3_Forall_requests; [|exact Hall]. intros x t r Hx.
    by destruct (Hrel x t r Hx).
  - rewrite callsWhere_requests by done. apply callsWhere_none.
    eapply Forall3_Forall_requests; [|exact Hall]. intros x t r Hx.
    by destruct (Hrel x t r Hx).
Qed.

Lemma failures_filter ts :
  length (filter (λ t, negb (failed t) = false) ts) = failures ts.
Proof.
  unfold failures. f_equal. apply list_filter_iff. intros t. by destruct (failed t).
Qed.

(** ** Direction Syncer *)

Lemma CONCURRENCY_pos : 0 < CONCURRENCY.
Proof. unfold CONCURRENCY. lia. Qed.

(** The run of [syncDirection]: the create phase, then the update phase,
    then the result assembled from the two lists of outcomes. *)
Lemma syncDirection_run {W} (svc : Services W) sourceEvents records src tgt prefix s :
  let a := analyzeEvents sourceEvents records src tgt in
  ∃ rsC rsU s1 s' trC trU,
    processInBatches svc (toCreate a) CONCURRENCY (createOne svc src tgt prefix) s
      = Some (Fulfilled rsC, s1)
    ∧ trace s1 = trace s ++ trC
    ∧ Forall3 (RelCreate src tgt prefix) (toCreate a) (requests trC) rsC
    ∧ processInBatches svc (toUpdate a) CONCURRENCY (updateOne svc src tgt prefix) s1
      = Some (Fulfilled rsU, s')
    ∧ trace s' = trace s1 ++ trU
    ∧ Forall3 (RelUpdate src tgt prefix) (toUpdate a) (requests trU) rsU
    ∧ syncDirection svc sourceEvents records src tgt prefix s =
      Some (Fulfilled
              {| stats := {| created := length (fulfilledValues rsC);
                             updated := length (fulfilledValues rsU);
                             deleted := 0;
                             errors := rejectedCount rsC + rejectedCount rsU |};
                 pendingInserts :=
                   map (λ p, pendingInsertOf src tgt (fst p) (snd p)) (fulfilledValues rsC);
                 pendingUpdates :=
                   map (λ p, pendingUpdateOf (fst p) (snd p)) (fulfilledValues rsU) |},
            s').
Proof.
  cbn zeta. set (a := analyzeEvents sourceEvents records src tgt).
  destruct (processInBatches_oneRequest svc _ _ (toCreate a) CONCURRENCY s
              CONCURRENCY_pos (createOne_oneRequest svc src tgt prefix))
    as (rsC & s1 & trC & HC & HtC & HallC & _).
  destruct (processInBatches_oneRequest svc _ _ (toUpdate a) CONCURRENCY s1
              CONCURRENCY_pos (updateOne_oneRequest svc src tgt prefix))
    as (rsU & s' & trU & HU & HtU & HallU & _).
  exists rsC, rsU, s1, s', trC, trU. repeat split; try done.
  unfold syncDirection. fold a.
  rewrite await_unfold, HC, await_unfold, HU.
  rewrite foldl_collectCreate. cbn [fst snd].
  rewrite foldl_collectUpdate. cbn. done.
Qed.


(** ** Orphan Detector *)

Lemma bool_decide_idset (x : string) (l : list string) :
  bool_decide (x ∈ (list_to_set l : gset string)) = bool_decide (x ∈ l).
Proof. apply bool_decide_ext. apply elem_of_list_to_set. Qed.

Lemma isOrphan_spec evsA evsB a b r :
  isOrphan (list_to_set (map ev_id evsA)) (list_to_set (map ev_id evsB)) a b r = true
  ↔ orphanSpec evsA evsB a b r.
Proof.
  unfold isOrphan, orphanSpec. rewrite !bool_decide_idset.
  destruct (String.eqb_spec (primary_calendar r) a) as [Ha|Ha];
    destruct (String.eqb_spec (primary_calendar r) b) as [Hb|Hb]; cbn;
    repeat case_bool_decide; cbn; intuition congruence.
Qed.

Lemma findOrphans_spec evsA evsB records a b :
  findOrphans evsA evsB records a b = filter (orphanSpec evsA evsB a b) records.
Proof.
  unfold findOrphans. apply list_filter_iff. intros r. apply isOrphan_spec.
Qed.

Lemma detectAndDeleteOrphans_run {W} (svc : Services W) evsA evsB records a b s :
  let orphans := findOrphans evsA evsB records a b in
  ∃ rs s' tr,
    processInBatches svc orphans CONCURRENCY (deleteOne svc) s = Some (Fulfilled rs, s')
    ∧ trace s' = trace s ++ tr
    ∧ Forall3 RelDelete orphans (requests tr) rs
    ∧ detectAndDeleteOrphans svc evsA evsB records a b s =
      Some (Fulfilled
              {| orphans_deleted := length (fulfilledValues rs);
                 orphans_errors := rejectedCount rs;
                 pendingDeletes :=
                   map (λ r, {| del_rowId := rec_id r |}) (fulfilledValues rs) |},
            s').
Proof.
  cbn zeta. set (orphans := findOrphans evsA evsB records a b).
  destruct (processInBatches_oneRequest svc _ _ orphans CONCURRENCY s
              CONCURRENCY_pos (deleteOne_oneRequest svc))
    as (rs & s' & tr & Hrun & Htr & Hall & _).
  exists rs, s', tr. repeat split; try done.
  unfold detectAndDeleteOrphans. fold orphans.
  rewrite await_unfold, Hrun. rewrite foldl_collectDelete. done.
Qed.

(** The requests and the pending deletes of a run of the detector. *)
Lemma detectAndDeleteOrphans_deletes_orphans_run {W} (svc : Services W)
    evsA evsB records a b s res s' :
  detectAndDeleteOrphans svc evsA evsB records a b s = Some (Fulfilled res, s') →
  let orphans := findOrphans evsA evsB records a b in
  ∃ tr,
    trace s' = trace s ++ tr
    ∧ map te_call (requests tr)
        = map (λ r, CEventsDelete (secondary_calendar r) (secondary_event_id r)) orphans
    ∧ pendingDeletes res
        = map (λ r, {| del_rowId := rec_id r |}) (itemsWhere accepted orphans (requests tr)).
Proof.
  intros Hres. cbn zeta.
  destruct (detectAndDeleteOrphans_run svc evsA evsB records a b s)
    as (rs & s1 & tr & _ & Htr & Hall & Hrun).
  rewrite Hrun in Hres. injection Hres as <- <-.
  exists tr. split; [done|]. cbn [pendingDeletes].
  destruct (Forall3_outcomes RelDelete accepted id _ _ _
              ltac:(by intros x t [v|e] [_ Hr]; [destruct Hr | destruct Hr]) Hall)
    as (Hv & _ & _ & _).
  rewrite map_id in Hv. rewrite Hv.
  split; [by eapply Forall3_calls; [|exact Hall]; intros x t r [Hc _]|done].
Qed.

(** C6. The Orphan Detector takes a ledger record for an orphan if and only
    if its primary calendar is one of the two configured calendars and the
    ids fetched from that calendar do not contain its primary event id. It
    issues one delete per orphan, of the secondary event on the secondary
    calendar, and no other request (so it never touches the ledger); the
    pending row deletes are the rows of exactly the orphans whose delete
    succeeded or was answered 410 Gone, and the other orphans are counted
    as errors. *)
Theorem detectAndDeleteOrphans_deletes_orphans {W} (svc : Services W)
    (evsA evsB : list GoogleCalendarEvent) (records : list SyncedEventRecord)
    (calendarAId calendarBId : string) (s : State W) :
  let orphans := filter (orphanSpec evsA evsB calendarAId calendarBId) records in
  findOrphans evsA evsB records calendarAId calendarBId = orphans
  ∧ ∃ res s' tr,
      detectAndDeleteOrphans svc evsA evsB records calendarAId calendarBId s
        = Some (Fulfilled res, s')
      ∧ trace s' = trace s ++ tr
      ∧ map te_call (requests tr)
          = map (λ r, CEventsDelete (secondary_calendar r) (secondary_event_id r)) orphans
      ∧ pendingDeletes res
          = map (λ r, {| del_rowId := rec_id r |})
                (itemsWhere accepted orphans (requests tr))
      ∧ orphans_deleted res = length (pendingDeletes res)
      ∧ orphans_deleted res + orphans_errors res = length orphans.
Proof.
  cbn zeta. split; [apply findOrphans_spec|].
  destruct (detectAndDeleteOrphans_run svc evsA evsB records calendarAId calendarBId s)
    as (rs & s' & tr & _ & Htr & Hall & Hrun).
  rewrite findOrphans_spec in Hall.
  eexists _, s', tr. split; [exact Hrun|]. split; [done|].
  cbn [pendingDeletes orphans_deleted orphans_errors].
  destruct (Forall3_outcomes RelDelete accepted id _ _ _
              ltac:(by intros x t [v|e] [_ Hr]; [destruct Hr | destruct Hr]) Hall)
    as (Hv & _ & Hlen & _).
  rewrite map_id in Hv. rewrite Hv, length_map.
  split; [by eapply Forall3_calls; [|exact Hall]; intros x t r [Hc _]|].
  split; [done|]. split; [done|]. by rewrite <- Hv.
Qed.

(** ** Ledger Batch Writer *)

Lemma insertDesc_perm x l : insertDesc x l ≡ₚ x :: l.
Proof.
  induction l as [|y l IH]; [done|]. cbn.
  destruct (Nat.leb y x); [done|]. rewrite IH. apply Permutation_swap.
Qed.

Lemma sortDesc_perm l : sortDesc l ≡ₚ l.
Proof.
  induction l as [|x l IH]; [done|]. cbn. rewrite insertDesc_perm. by rewrite IH.
Qed.

Lemma insertDesc_sorted x l :
  StronglySorted (λ a b, b ≤ a) l → StronglySorted (λ a b, b ≤ a) (insertDesc x l).
Proof.
  induction 1 as [|y l Hl IH Hy]; cbn; [repeat constructor|].
  destruct (Nat.leb_spec y x) as [Hle|Hgt].
  - constructor; [by constructor|]. constructor; [done|].
    eapply Forall_impl; [exact Hy|]. cbn. lia.
  - constructor; [done|].
    apply Forall_forall. intros z Hz.
    apply (elem_of_Permutation_proper _ _ _ (insertDesc_perm x l)) in Hz.
    apply elem_of_cons in Hz as [->|Hz]; [lia|].
    rewrite Forall_forall in Hy. by apply Hy.
Qed.

Lemma sortDesc_sorted l : StronglySorted (λ a b, b ≤ a) (sortDesc l).
Proof.
  induction l as [|x l IH]; cbn; [constructor|]. by apply insertDesc_sorted.
Qed.

(** C10. [batchDeleteSyncedEventRows] puts the given row ids in descending
    order (a sorted rearrangement of the input; [3, 7, 2] becomes
    [7, 3, 2]) and, for a non-empty input, issues exactly one structural
    delete request whose row deletions follow that order, the request for
    row [n] covering the 0-based rows [n - 1, n); an empty input issues no
    request. *)
Theorem batchDelete_descending {W} (svc : Services W)
    (spreadsheetId : string) (sheetId : nat) (rowIds : list nat) (s : State W) :
  let ordered := sortDesc rowIds in
  StronglySorted (λ a b, b ≤ a) ordered
  ∧ ordered ≡ₚ rowIds
  ∧ sortDesc [3; 7; 2] = [7; 3; 2]
  ∧ (rowIds = [] →
       batchDeleteSyncedEventRows svc spreadsheetId sheetId rowIds s
       = Some (Fulfilled tt, s))
  ∧ (rowIds ≠ [] →
       ∃ r s' err reqs,
         batchDeleteSyncedEventRows svc spreadsheetId sheetId rowIds s = Some (r, s')
         ∧ trace s' = trace s ++
             [{| te_call := CSpreadsheetsBatchUpdate spreadsheetId reqs;
                 te_error := err |}]
         ∧ map dd_endIndex reqs = ordered
         ∧ reqs = map (deleteRowRequest sheetId) ordered).
Proof.
  cbn zeta. split; [apply sortDesc_sorted|]. split; [apply sortDesc_perm|].
  split; [reflexivity|]. split.
  - by intros ->.
  - intros Hne. destruct rowIds as [|x rowIds]; [done|].
    unfold batchDeleteSyncedEventRows. rewrite invoke_unfold.
    eexists _, _, _, _. split; [reflexivity|]. split; [reflexivity|].
    split; [|reflexivity]. rewrite map_map. apply map_id.
Qed.

Lemma batchDelete_descending_witness :
  [3; 7; 2] ≠ []
  ∧ ∃ s',
      batchDeleteSyncedEventRows trivialServices "sheet" 0 [3; 7; 2] idle
        = Some (Fulfilled tt, s')
      ∧ map te_call (trace s')
        = [CSpreadsheetsBatchUpdate "sheet"
             [deleteRowRequest 0 7; deleteRowRequest 0 3; deleteRowRequest 0 2]].
Proof.
  split; [done|].
  destruct (batchDelete_descending trivialServices "sheet" 0 [3; 7; 2] idle)
    as (_ & _ & _ & _ & H).
  destruct (H ltac:(done)) as (r & s' & err & reqs & Hrun & Htr & _ & Hreqs).
  exists s'. split.
  - rewrite Hrun. f_equal. f_equal.
    assert (Hr : batchDeleteSyncedEventRows trivialServices "sheet" 0 [3; 7; 2] idle
                 = Some (Fulfilled tt, {| world := tt; trace :=
                     [{| te_call := CSpreadsheetsBatchUpdate "sheet"
                           (map (deleteRowRequest 0) (sortDesc [3; 7; 2]));
                         te_error := None |}] |})) by reflexivity.
    rewrite Hrun in Hr. by injection Hr as -> _.
  - rewrite Htr, Hreqs. reflexivity.
Defined.


(** * Properties of the Sync Orchestrator *)

(** ** Footprints of the promise combinators *)

Lemma footprint_resolve {W A} P (a : A) : footprint (W:=W) P (resolve a).
Proof. intros s. exists (Fulfilled a), s, []. by rewrite app_nil_r. Qed.

Lemma footprint_reject {W A} P e : footprint (W:=W) (A:=A) P (reject e).
Proof. intros s. exists (Rejected e), s, []. by rewrite app_nil_r. Qed.

Lemma footprint_await {W A B} P (p : Promise W A) (k : A → Promise W B) :
  footprint P p → (∀ a, footprint P (k a)) → footprint P (await p k).
Proof.
  intros Hp Hk s. destruct (Hp s) as (r & s1 & tr1 & Hrun & Htr & HP).
  rewrite await_unfold, Hrun. destruct r as [a|e].
  - destruct (Hk a s1) as (r2 & s2 & tr2 & Hrun2 & Htr2 & HP2).
    exists r2, s2, (tr1 ++ tr2). split; [done|]. split.
    + by rewrite Htr2, Htr, app_assoc.
    + by apply Forall_app.
  - by exists (Rejected e), s1, tr1.
Qed.

Lemma footprint_tryCatch {W A} P (p : Promise W A) (h : JsError → Promise W A) :
  footprint P p → (∀ e, footprint P (h e)) → footprint P (tryCatch p h).
Proof.
  intros Hp Hh s. destruct (Hp s) as (r & s1 & tr1 & Hrun & Htr & HP).
  unfold tryCatch. rewrite Hrun. destruct r as [a|e].
  - by exists (Fulfilled a), s1, tr1.
  - destruct (Hh e s1) as (r2 & s2 & tr2 & Hrun2 & Htr2 & HP2).
    exists r2, s2, (tr1 ++ tr2). split; [done|]. split.
    + by rewrite Htr2, Htr, app_assoc.
    + by apply Forall_app.
Qed.

Lemma footprint_settle {W A} P (p : Promise W A) :
  footprint P p → footprint P (settle p).
Proof.
  intros Hp s. destruct (Hp s) as (r & s1 & tr1 & Hrun & Htr & HP).
  exists (Fulfilled r), s1, tr1. unfold settle. by rewrite Hrun.
Qed.

Lemma footprint_invoke {W A} (P : TraceEntry → Prop) c (h : W → Settled A * W) :
  (∀ err, P {| te_call := c; te_error := err |}) → footprint P (invoke c h).
Proof.
  intros HP s. rewrite invoke_unfold. eexists _, _, [_].
  split; [reflexivity|]. split; [reflexivity|]. constructor; [apply HP | constructor].
Qed.

Lemma footprint_runStep {W A} P name (p : Promise W A) :
  footprint P p → footprint P (runStep name p).
Proof. done. Qed.

Lemma footprint_allSettled {W A} P (ps : list (Promise W A)) :
  Forall (footprint P) ps → footprint P (allSettled ps).
Proof.
  induction 1 as [|p ps Hp Hps IH]; cbn [allSettled].
  - apply footprint_resolve.
  - apply footprint_await; [by apply footprint_settle|]. intros r.
    apply footprint_await; [done|]. intros rs. apply footprint_resolve.
Qed.

Lemma footprint_if {W A} P (b : bool) (p q : Promise W A) :
  footprint P p → footprint P q → footprint P (if b then p else q).
Proof. by destruct b. Qed.

Lemma footprint_delay {W} (svc : Services W) (P : TraceEntry → Prop) ms :
  (∀ err, P {| te_call := CSetTimeout ms; te_error := err |}) →
  footprint P (delay svc ms).
Proof. intros HP. by apply footprint_invoke. Qed.

Lemma footprint_runBatches {W T R} (svc : Services W) (P : TraceEntry → Prop)
    (fn : T → Promise W R) batches : ∀ first,
  (∀ ms err, P {| te_call := CSetTimeout ms; te_error := err |}) →
  (∀ x, footprint P (fn x)) →
  footprint P (runBatches svc fn first batches).
Proof.
  induction batches as [|b batches IH]; intros first Hd Hfn; cbn [runBatches].
  - apply footprint_resolve.
  - apply footprint_await.
    { apply footprint_if; [apply footprint_resolve | by apply footprint_delay]. }
    intros _. apply footprint_await.
    { apply footprint_allSettled. apply Forall_forall. intros p Hp.
      apply list_elem_of_In, in_map_iff in Hp as (x & <- & _). apply Hfn. }
    intros rs. apply footprint_await; [by apply IH|]. intros rest.
    apply footprint_resolve.
Qed.

Lemma footprint_processInBatches {W T R} (svc : Services W) (P : TraceEntry → Prop)
    (fn : T → Promise W R) items batchSize :
  0 < batchSize →
  (∀ ms err, P {| te_call := CSetTimeout ms; te_error := err |}) →
  (∀ x, footprint P (fn x)) →
  footprint P (processInBatches svc items batchSize fn).
Proof.
  intros Hbs Hd Hfn s. rewrite processInBatches_runBatches by done.
  by apply footprint_runBatches.
Qed.

Lemma footprint_fulfilled_only {W A} P (p : Promise W A) :
  footprint P p → (∀ s e s', p s ≠ Some (Rejected e, s')) →
  ∀ s, ∃ a s' tr, p s = Some (Fulfilled a, s') ∧ trace s' = trace s ++ tr ∧ Forall P tr.
Proof.
  intros Hp Hnr s. destruct (Hp s) as ([a|e] & s' & tr & Hrun & Htr & HP).
  - by exists a, s', tr.
  - by apply Hnr in Hrun.
Qed.

(** ** Footprints of the engine *)

Ltac footprint_step :=
  first
    [ apply footprint_resolve
    | apply footprint_reject
    | apply footprint_runStep
    | apply footprint_invoke; intros; reflexivity
    | apply footprint_processInBatches;
        [apply CONCURRENCY_pos | intros; reflexivity | intros ?]
    | apply footprint_if
    | apply footprint_await; [|intros ?]
    | apply footprint_tryCatch; [|intros ?] ].

Ltac footprint_auto := repeat footprint_step.

(** The calendar side never touches the ledger. *)
Lemma syncDirection_footprint {W} (svc : Services W) evs records src tgt prefix :
  footprint (λ t, noLedgerRead t ∧ noLedgerWrite t)
            (syncDirection svc evs records src tgt prefix).
Proof.
  unfold syncDirection, createOne, updateOne, createEvent, updateEvent.
  repeat first
    [ apply footprint_resolve
    | apply footprint_invoke; intros; split; reflexivity
    | apply footprint_processInBatches;
        [apply CONCURRENCY_pos | intros; split; reflexivity | intros ?]
    | apply footprint_await; [|intros ?] ].
Qed.

Lemma detectAndDeleteOrphans_footprint {W} (svc : Services W) evsA evsB records a b :
  footprint (λ t, noLedgerRead t ∧ noLedgerWrite t)
            (detectAndDeleteOrphans svc evsA evsB records a b).
Proof.
  unfold detectAndDeleteOrphans, deleteOne, deleteEvent.
  repeat first
    [ apply footprint_resolve
    | apply footprint_reject
    | apply footprint_invoke; intros; split; reflexivity
    | apply footprint_processInBatches;
        [apply CONCURRENCY_pos | intros; split; reflexivity | intros ?]
    | apply footprint_await; [|intros ?]
    | apply footprint_tryCatch; [|intros ?]
    | match goal with |- footprint _ (if ?d then _ else _) => destruct d end ].
Qed.

Lemma footprint_weaken {W A} (P Q : TraceEntry → Prop) (p : Promise W A) :
  (∀ t, P t → Q t) → footprint P p → footprint Q p.
Proof.
  intros HPQ Hp s. destruct (Hp s) as (r & s' & tr & Hrun & Htr & HP).
  exists r, s', tr. split; [done|]. split; [done|]. by eapply Forall_impl.
Qed.

Lemma batchInsert_footprint {W} (svc : Services W) sid records :
  footprint noLedgerRead (batchInsertSyncedEvents svc sid records).
Proof.
  unfold batchInsertSyncedEvents. destruct records as [|r records]; [footprint_auto|].
  intros s. rewrite invoke_unfold. eexists _, _, [_].
  split; [reflexivity|]. split; [reflexivity|]. by repeat constructor.
Qed.

Lemma batchUpdate_footprint {W} (svc : Services W) sid updates :
  footprint noLedgerRead (batchUpdateSyncedEvents svc sid updates).
Proof.
  unfold batchUpdateSyncedEvents. destruct updates as [|u updates]; [footprint_auto|].
  intros s. cbn zeta. rewrite invoke_unfold. eexists _, _, [_].
  split; [reflexivity|]. split; [reflexivity|]. by repeat constructor.
Qed.

Lemma batchWrite_footprint {W} (svc : Services W) sid result :
  footprint noLedgerRead (batchWrite svc sid result).
Proof.
  unfold batchWrite. apply footprint_await; [apply batchInsert_footprint|].
  intros _. apply batchUpdate_footprint.
Qed.

Lemma deleteOrphanRows_footprint {W} (svc : Services W) sid orph :
  footprint noLedgerRead (deleteOrphanRows svc sid orph).
Proof.
  unfold deleteOrphanRows, getSheetId, batchDeleteSyncedEventRows.
  apply footprint_await; [footprint_auto|]. intros sheetId.
  destruct (map del_rowId (pendingDeletes orph)); footprint_auto.
Qed.

Lemma sendTelegramError_footprint {W} (svc : Services W) bot chat msg :
  footprint noLedgerRead (sendTelegramError svc bot chat msg).
Proof. unfold sendTelegramError. footprint_auto. Qed.

Lemma sendTelegramError_fulfils {W} (svc : Services W) bot chat msg s :
  ∃ s' tr, sendTelegramError svc bot chat msg s = Some (Fulfilled tt, s')
           ∧ trace s' = trace s ++ tr ∧ Forall noLedgerRead tr.
Proof.
  unfold sendTelegramError, tryCatch. rewrite await_unfold, invoke_unfold.
  destruct (telegram_post svc bot chat msg (world s)) as [[ok|e] w']; cbn [fst snd].
  - eexists _, [_]. split; [reflexivity|]. split; [reflexivity|]. by repeat constructor.
  - eexists _, [_]. split; [reflexivity|]. split; [reflexivity|]. by repeat constructor.
Qed.

Lemma notifyErrors_footprint {W} (svc : Services W) bot chat ab ba orph :
  footprint noLedgerRead (notifyErrors svc bot chat ab ba orph).
Proof.
  unfold notifyErrors. apply footprint_if; [|footprint_auto].
  apply footprint_runStep, sendTelegramError_footprint.
Qed.

Lemma notifyFailure_footprint {W} (svc : Services W) env e :
  footprint noLedgerRead (notifyFailure svc env e).
Proof.
  unfold notifyFailure. apply footprint_await; [|intros; footprint_auto].
  apply footprint_if; [|footprint_auto].
  apply footprint_runStep, sendTelegramError_footprint.
Qed.

Lemma notifyFailure_rejects {W} (svc : Services W) env e s :
  ∃ s' tr, notifyFailure svc env e s = Some (Rejected e, s')
           ∧ trace s' = trace s ++ tr ∧ Forall noLedgerRead tr.
Proof.
  unfold notifyFailure. rewrite await_unfold.
  destruct (negb _ && negb _).
  - destruct (sendTelegramError_fulfils svc (default "" (TELEGRAM_BOT_TOKEN env))
                (default "" (TELEGRAM_CHAT_ID env))
                (failureMessage (workflowID env) e) s) as (s' & tr & Hrun & Htr & HP).
    unfold runStep. rewrite Hrun. by exists s', tr.
  - exists s, []. by rewrite app_nil_r.
Qed.

(** ** The stages of a pass *)

Lemma await_fulfilled {W A B} (p : Promise W A) (k : A → Promise W B) s b s' :
  await p k s = Some (Fulfilled b, s') →
  ∃ a s1, p s = Some (Fulfilled a, s1) ∧ k a s1 = Some (Fulfilled b, s').
Proof.
  rewrite await_unfold. destruct (p s) as [[[a|e] s1]|]; [|done|done].
  intros H. by exists a, s1.
Qed.

Lemma reconcile_footprint {W} (svc : Services W) env evsA evsB records :
  footprint noLedgerRead (reconcile svc env evsA evsB records).
Proof.
  unfold reconcile.
  apply footprint_await.
  { eapply footprint_weaken; [|apply syncDirection_footprint]. by intros t [? _]. }
  intros ab. apply footprint_await; [apply batchWrite_footprint|]. intros _.
  apply footprint_await.
  { eapply footprint_weaken; [|apply syncDirection_footprint]. by intros t [? _]. }
  intros ba. apply footprint_await; [apply batchWrite_footprint|]. intros _.
  apply footprint_await.
  { eapply footprint_weaken; [|apply detectAndDeleteOrphans_footprint].
    by intros t [? _]. }
  intros orph. apply footprint_await; [apply deleteOrphanRows_footprint|]. intros _.
  apply footprint_await; [apply footprint_resolve|]. intros _.
  apply footprint_await; [apply notifyErrors_footprint|]. intros _.
  apply footprint_resolve.
Qed.

(** A fulfilled [reconcile] went through every step, and the three
    consumers of the ledger were given the one snapshot [records]. *)
Lemma reconcile_stages {W} (svc : Services W) env evsA evsB records s out s' :
  reconcile svc env evsA evsB records s = Some (Fulfilled out, s') →
  let sid := default "" (SPREADSHEET_ID env) in
  let a := default "" (CALENDAR_A_ID env) in
  let b := default "" (CALENDAR_B_ID env) in
  ∃ ab s3 s4 ba s5 s6 orph s7 s8,
    syncDirection svc evsA records a b (default "[A]" (CALENDAR_A_PREFIX env)) s
      = Some (Fulfilled ab, s3)
    ∧ batchWrite svc sid ab s3 = Some (Fulfilled tt, s4)
    ∧ syncDirection svc evsB records b a (default "[B]" (CALENDAR_B_PREFIX env)) s4
      = Some (Fulfilled ba, s5)
    ∧ batchWrite svc sid ba s5 = Some (Fulfilled tt, s6)
    ∧ detectAndDeleteOrphans svc evsA evsB records a b s6 = Some (Fulfilled orph, s7)
    ∧ deleteOrphanRows svc sid orph s7 = Some (Fulfilled tt, s8)
    ∧ notifyErrors svc (default "" (TELEGRAM_BOT_TOKEN env))
        (default "" (TELEGRAM_CHAT_ID env)) (stats ab) (stats ba) orph s8
      = Some (Fulfilled tt, s')
    ∧ out = {| aToBStats := stats ab; bToAStats := stats ba;
               deletionStats := (orphans_deleted orph, orphans_errors orph);
               out_eventsA := length evsA; out_eventsB := length evsB;
               sheetRecords := length records |}.
Proof.
  unfold reconcile, runStep. intros H. cbn zeta.
  apply await_fulfilled in H as (ab & s3 & H3 & H).
  apply await_fulfilled in H as ([] & s4 & H4 & H).
  apply await_fulfilled in H as (ba & s5 & H5 & H).
  apply await_fulfilled in H as ([] & s6 & H6 & H).
  apply await_fulfilled in H as (orph & s7 & H7 & H).
  apply await_fulfilled in H as ([] & s8 & H8 & H).
  apply await_fulfilled in H as (? & ? & [= <- <-] & H).
  apply await_fulfilled in H as ([] & s9 & H9 & [= <- <-]).
  by exists ab, s3, s4, ba, s5, s6, orph, s7, s8.
Qed.

Lemma fetch_both {W} (svc : Services W) a b maxEvents daysAhead s :
  let ra := events_list svc a maxEvents daysAhead (world s) in
  let rb := events_list svc b maxEvents daysAhead (snd ra) in
  allSettled2 (runStep "fetch-calendar-a-events"
                 (fetchCalendarEvents svc a maxEvents daysAhead))
              (runStep "fetch-calendar-b-events"
                 (fetchCalendarEvents svc b maxEvents daysAhead)) s
  = Some (Fulfilled (fst ra, fst rb),
          {| world := snd rb;
             trace := trace s ++
               [{| te_call := CEventsList a maxEvents daysAhead;
                   te_error := match fst ra with
                               | Rejected e => Some e | Fulfilled _ => None end |};
                {| te_call := CEventsList b maxEvents daysAhead;
                   te_error := match fst rb with
                               | Rejected e => Some e | Fulfilled _ => None end |}] |}).
Proof.
  cbn zeta. unfold allSettled2, runStep, fetchCalendarEvents, fetchEvents.
  rewrite await_unfold. unfold settle at 1. rewrite invoke_unfold.
  rewrite await_unfold. unfold settle at 1. rewrite invoke_unfold. cbn.
  by rewrite <- app_assoc.
Qed.

Lemma loadSyncedEvents_unfold {W} (svc : Services W) sid s :
  let r := values_get svc sid (world s) in
  loadSyncedEvents svc sid s =
  Some (match fst r with
        | Fulfilled rows => Fulfilled (parseRows rows)
        | Rejected e => Rejected e
        end,
        {| world := snd r;
           trace := trace s ++
             [{| te_call := CValuesGet sid;
                 te_error := match fst r with
                             | Rejected e => Some e | Fulfilled _ => None end |}] |}).
Proof.
  cbn zeta. unfold loadSyncedEvents. rewrite await_unfold, invoke_unfold.
  by destruct (fst (values_get svc sid (world s))).
Qed.

Lemma callsWhere_noLedgerRead tr :
  Forall noLedgerRead tr → callsWhere isLedgerRead tr = [].
Proof. apply callsWhere_none. Qed.

(** The run of the [try] block up to the snapshot. *)
Lemma passBody_unfold {W} (svc : Services W) env s :
  let sid := default "" (SPREADSHEET_ID env) in
  let a := default "" (CALENDAR_A_ID env) in
  let b := default "" (CALENDAR_B_ID env) in
  let maxEvents := default 2500 (MAX_EVENTS env) in
  let daysAhead := default 180 (DAYS_AHEAD env) in
  ∃ fa fb s1 rl s2 t1 t2 t3,
    allSettled2 (runStep "fetch-calendar-a-events"
                   (fetchCalendarEvents svc a maxEvents daysAhead))
                (runStep "fetch-calendar-b-events"
                   (fetchCalendarEvents svc b maxEvents daysAhead)) s
      = Some (Fulfilled (fa, fb), s1)
    ∧ fa = fst (events_list svc a maxEvents daysAhead (world s))
    ∧ fb = fst (events_list svc b maxEvents daysAhead
                  (snd (events_list svc a maxEvents daysAhead (world s))))
    ∧ loadSheetRecords svc sid s1 = Some (rl, s2)
    ∧ trace s2 = trace s ++ [t1; t2; t3]
    ∧ te_call t1 = CEventsList a maxEvents daysAhead
    ∧ te_call t2 = CEventsList b maxEvents daysAhead
    ∧ te_call t3 = CValuesGet sid
    ∧ passBody svc env s =
      match rl with
      | Fulfilled records =>
          reconcile svc env (valueOrEmpty fa) (valueOrEmpty fb) records s2
      | Rejected e => Some (Rejected e, s2)
      end.
Proof.
  cbn zeta. eexists _, _, _, _, _, _, _, _.
  split; [apply fetch_both|]. cbn zeta.
  split; [reflexivity|]. split; [reflexivity|].
  split; [unfold loadSheetRecords; apply loadSyncedEvents_unfold|].
  cbn [trace world fst snd].
  split; [by rewrite <- app_assoc|].
  split; [reflexivity|]. split; [reflexivity|]. split; [reflexivity|].
  unfold passBody. rewrite await_unfold, fetch_both. cbn zeta.
  unfold runStep at 1. unfold loadSheetRecords.
  rewrite await_unfold, loadSyncedEvents_unfold. cbn zeta. cbn [fst snd world trace].
  by destruct (fst (values_get svc _ _)).
Qed.

(** A fulfilled pass: the fetches, the one load, and the steps of
    [reconcile] over the snapshot that load returned. *)
Lemma pass_stages {W} (svc : Services W) env s out s' :
  syncGoogleCalendarsWorkflow svc env s = Some (Fulfilled out, s') →
  let sid := default "" (SPREADSHEET_ID env) in
  let a := default "" (CALENDAR_A_ID env) in
  let b := default "" (CALENDAR_B_ID env) in
  let maxEvents := default 2500 (MAX_EVENTS env) in
  let daysAhead := default 180 (DAYS_AHEAD env) in
  ∃ fa fb s1 records s2,
    allSettled2 (runStep "fetch-calendar-a-events"
                   (fetchCalendarEvents svc a maxEvents daysAhead))
                (runStep "fetch-calendar-b-events"
                   (fetchCalendarEvents svc b maxEvents daysAhead)) s
      = Some (Fulfilled (fa, fb), s1)
    ∧ fa = fst (events_list svc a maxEvents daysAhead (world s))
    ∧ fb = fst (events_list svc b maxEvents daysAhead
                  (snd (events_list svc a maxEvents daysAhead (world s))))
    ∧ loadSheetRecords svc sid s1 = Some (Fulfilled records, s2)
    ∧ reconcile svc env (valueOrEmpty fa) (valueOrEmpty fb) records s2
      = Some (Fulfilled out, s').
Proof.
  intros Hrun. cbn zeta.
  destruct (passBody_unfold svc env s)
    as (fa & fb & s1 & rl & s2 & t1 & t2 & t3 & Hf & Hfa & Hfb & Hl & _ & _ & _ & _ & Hp).
  unfold syncGoogleCalendarsWorkflow, tryCatch in Hrun. rewrite Hp in Hrun.
  destruct rl as [records|e].
  - exists fa, fb, s1, records, s2. repeat split; try done.
    destruct (reconcile svc env _ _ records s2) as [[[o|e] s3]|]; [done| |done].
    destruct (notifyFailure_rejects svc env e s3) as (s4 & tr & Hn & _).
    by rewrite Hn in Hrun.
  - destruct (notifyFailure_rejects svc env e s2) as (s4 & tr & Hn & _).
    by rewrite Hn in Hrun.
Qed.

(** C4 (amended): within one pass the batched orchestrator loads the
    ledger exactly once, and both directions and the Orphan Detector run
    against that snapshot. Every run of the workflow settles with exactly
    one read of the ledger rows in its trace, whatever fails along the way;
    the steps that
    follow the load ([reconcile]) issue no such read; and in a fulfilled
    pass the A→B syncer, the B→A syncer and the Orphan Detector are all run
    on the snapshot [records] which that one load returned, the B→A syncer
    and the Orphan Detector after the ledger was written to. *)
Theorem pass_loads_ledger_once {W} (svc : Services W) (env : Env) (s : State W) :
  let sid := default "" (SPREADSHEET_ID env) in
  let a := default "" (CALENDAR_A_ID env) in
  let b := default "" (CALENDAR_B_ID env) in
  (∃ r s' tr,
      syncGoogleCalendarsWorkflow svc env s = Some (r, s')
      ∧ trace s' = trace s ++ tr
      ∧ length (callsWhere isLedgerRead tr) = 1)
  ∧ (∀ evsA evsB records, footprint noLedgerRead (reconcile svc env evsA evsB records))
  ∧ (∀ out s',
       syncGoogleCalendarsWorkflow svc env s = Some (Fulfilled out, s') →
       ∃ evsA evsB s1 records s2 ab s3 s4 ba s5 s6 orph s7,
         loadSheetRecords svc sid s1 = Some (Fulfilled records, s2)
         ∧ syncDirection svc evsA records a b (default "[A]" (CALENDAR_A_PREFIX env)) s2
           = Some (Fulfilled ab, s3)
         ∧ batchWrite svc sid ab s3 = Some (Fulfilled tt, s4)
         ∧ syncDirection svc evsB records b a (default "[B]" (CALENDAR_B_PREFIX env)) s4
           = Some (Fulfilled ba, s5)
         ∧ batchWrite svc sid ba s5 = Some (Fulfilled tt, s6)
         ∧ detectAndDeleteOrphans svc evsA evsB records a b s6
           = Some (Fulfilled orph, s7)
         ∧ sheetRecords out = length records).
Proof.
  cbn zeta. split; [|split].
  - destruct (passBody_unfold svc env s)
      as (fa & fb & s1 & rl & s2 & t1 & t2 & t3 & _ & _ & _ & _ & Htr & H1 & H2 & H3 & Hp).
    assert (Hpre : callsWhere isLedgerRead [t1; t2; t3] = [t3]).
    { unfold callsWhere. rewrite !filter_cons, filter_nil, H1, H2, H3. cbn.
      repeat case_decide; done. }
    unfold syncGoogleCalendarsWorkflow, tryCatch. rewrite Hp.
    destruct rl as [records|e].
    + destruct (reconcile_footprint svc env (valueOrEmpty fa) (valueOrEmpty fb) records s2)
        as ([o|e] & s3 & tr & Hrun & Htr3 & HP); rewrite Hrun.
      * exists (Fulfilled o), s3, ([t1; t2; t3] ++ tr).
        split; [done|]. split; [by rewrite Htr3, Htr, <- app_assoc|].
        by rewrite callsWhere_app, Hpre, callsWhere_noLedgerRead.
      * destruct (notifyFailure_rejects svc env e s3) as (s4 & tr4 & Hn & Htr4 & HP4).
        exists (Rejected e), s4, ([t1; t2; t3] ++ tr ++ tr4).
        split; [done|]. split; [by rewrite Htr4, Htr3, Htr, <- !app_assoc|].
        by rewrite !callsWhere_app, Hpre, !callsWhere_noLedgerRead.
    + destruct (notifyFailure_rejects svc env e s2) as (s4 & tr4 & Hn & Htr4 & HP4).
      exists (Rejected e), s4, ([t1; t2; t3] ++ tr4).
      split; [done|]. split; [by rewrite Htr4, Htr, <- !app_assoc|].
      by rewrite !callsWhere_app, Hpre, !callsWhere_noLedgerRead.
  - intros. apply reconcile_footprint.
  - intros out s' Hrun.
    destruct (pass_stages svc env s out s' Hrun)
      as (fa & fb & s1 & records & s2 & _ & _ & _ & Hl & Hrec).
    destruct (reconcile_stages svc env _ _ records s2 out s' Hrec)
      as (ab & s3 & s4 & ba & s5 & s6 & orph & s7 & s8 & H3 & H4 & H5 & H6 & H7 & _ & _ & ->).
    by exists (valueOrEmpty fa), (valueOrEmpty fb), s1, records, s2,
              ab, s3, s4, ba, s5, s6, orph, s7.
Qed.

(** ** A failed fetch *)

Lemma deleteOrphanRows_fulfilled {W} (svc : Services W) sid orph s s' :
  deleteOrphanRows svc sid orph s = Some (Fulfilled tt, s') →
  ∃ sheetId tr,
    trace s' = trace s ++ tr
    ∧ map te_call tr =
        CSpreadsheetsGet sid ::
        match map del_rowId (pendingDeletes orph) with
        | [] => []
        | rowIds =>
            [CSpreadsheetsBatchUpdate sid
               (map (deleteRowRequest sheetId) (sortDesc rowIds))]
        end.
Proof.
  unfold deleteOrphanRows, getSheetId. intros H.
  apply await_fulfilled in H as (sheetId & s1 & H1 & H2).
  apply await_fulfilled in H1 as (sheets & s0 & H0 & [= <- <-]).
  rewrite invoke_unfold in H0. injection H0 as Hs <-.
  exists (default 0 (snd <$> find (λ s, String.eqb (fst s) SHEET_NAME) sheets)).
  unfold batchDeleteSyncedEventRows in H2.
  destruct (map del_rowId (pendingDeletes orph)) as [|x rowIds].
  - injection H2 as <-. eexists [_]. cbn. done.
  - rewrite invoke_unfold in H2. injection H2 as _ <-. cbn [trace].
    eexists [_; _]. rewrite <- app_assoc. cbn. done.
Qed.

Lemma orphanSpec_empty_A evsB a b (r : SyncedEventRecord) :
  primary_calendar r = a → orphanSpec [] evsB a b r.
Proof. intros Ha. left. split; [done|]. cbn. apply not_elem_of_nil. Qed.

Lemma orphanSpec_empty_B evsA a b (r : SyncedEventRecord) :
  primary_calendar r = b → orphanSpec evsA [] a b r.
Proof. intros Hb. right. split; [done|]. cbn. apply not_elem_of_nil. Qed.



Lemma pass_loads_ledger_once_witness :
  ∃ out s',
    syncGoogleCalendarsWorkflow (gservices noFaults) exampleEnv (startOf freshWorld)
      = Some (Fulfilled out, s')
    ∧ length (callsWhere isLedgerRead (trace s')) = 1.
Proof.
  destruct (pass_loads_ledger_once (gservices noFaults) exampleEnv (startOf freshWorld))
    as ((r & s' & tr & Hrun & Htr & Hone) & _ & _).
  destruct r as [out|e].
  - exists out, s'. split; [exact Hrun|]. rewrite Htr. exact Hone.
  - exfalso. vm_compute in Hrun. discriminate Hrun.
Defined.

(** C4, as stated, fails on the earlier orchestrator that the repository
    keeps under [google-calendar-sync/src]: its workflow loads the ledger
    in step 2, again before the B to A direction ("reload-synced-records")
    and again before the orphan detection
    ("reload-synced-records-for-orphans"). On the fresh-create scenario the
    pass reads the ledger three times, and the orphan detection sees the
    record that the A to B direction wrote, which the first load did not
    hold. *)
Lemma legacy_pass_reloads_ledger :
  parseRows (sheetRows freshWorld) = []
  ∧ ∃ out s',
      Legacy.syncGoogleCalendarsWorkflow (gservices noFaults) exampleEnv
        (startOf freshWorld)
      = Some (Fulfilled out, s')
      ∧ map te_call (callsWhere isLedgerRead (trace s'))
        = [CValuesGet "ledger"; CValuesGet "ledger"; CValuesGet "ledger"]
      ∧ created (aToBStats out) = 1
      ∧ sheetRecords out = 1.
Proof.
  split; [reflexivity|].
  eexists _, _. split; [vm_compute; reflexivity|].
  repeat split; vm_compute; reflexivity.
Qed.


(** * Idempotence of a pass *)

(** ** Structural deletes in descending order *)

Lemma removeRowsFrom_app o D l1 l2 :
  removeRowsFrom o D (l1 ++ l2)
  = removeRowsFrom o D l1 ++ removeRowsFrom (o + length l1) D l2.
Proof.
  revert o. induction l1 as [|x l1 IH]; intros o; cbn.
  - by rewrite Nat.add_0_r.
  - rewrite IH, Nat.add_succ_r. by case_decide.
Qed.

Lemma removeRowsFrom_kept o D l :
  (∀ d, d ∈ D → d < o) → removeRowsFrom o D l = l.
Proof.
  revert o. induction l as [|x l IH]; intros o HD; cbn; [done|].
  case_decide as Ho; [apply HD in Ho; lia|].
  rewrite IH; [done|]. intros d Hd. apply HD in Hd. lia.
Qed.

Lemma removeRowsFrom_ext o D D' l :
  (∀ i, o ≤ i < o + length l → (i ∈ D ↔ i ∈ D')) →
  removeRowsFrom o D l = removeRowsFrom o D' l.
Proof.
  revert o. induction l as [|x l IH]; intros o H; cbn; [done|].
  rewrite (IH (S o)); [|intros i Hi; apply H; cbn; lia].
  assert (Ho : o ∈ D ↔ o ∈ D') by (apply H; cbn; lia).
  repeat case_decide; tauto || done.
Qed.

Lemma removeRowsFrom_sub o D l x : x ∈ removeRowsFrom o D l → x ∈ l.
Proof.
  revert o. induction l as [|y l IH]; intros o; cbn; [done|].
  case_decide; rewrite ?elem_of_cons; intros Hx.
  - right. by eapply IH.
  - destruct Hx as [->|Hx]; [by left | right; by eapply IH].
Qed.

Lemma removeRowsFrom_elem o D l x :
  x ∈ removeRowsFrom o D l → ∃ i, l !! i = Some x ∧ o + i ∉ D.
Proof.
  revert o. induction l as [|y l IH]; intros o; cbn; [by intros ?%elem_of_nil|].
  case_decide as Ho.
  - intros Hx. destruct (IH _ Hx) as (i & Hi & Hn). exists (S i).
    split; [done|]. by rewrite Nat.add_succ_r.
  - intros [->|Hx]%elem_of_cons.
    + exists 0. by rewrite Nat.add_0_r.
    + destruct (IH _ Hx) as (i & Hi & Hn). exists (S i).
      split; [done|]. by rewrite Nat.add_succ_r.
Qed.

Lemma applyDelete_step sheetId d ds (S : list (list string)) :
  1 ≤ d → (∀ d', d' ∈ ds → d' < d) →
  removeRowsFrom 1 ds (applyDelete S (deleteRowRequest sheetId d))
  = removeRowsFrom 1 (d :: ds) S.
Proof.
  intros Hd Hds. unfold applyDelete, deleteRowRequest. cbn [dd_startIndex dd_endIndex].
  assert (Hd2 : drop d S = drop 1 (drop (d - 1) S)).
  { rewrite drop_drop. f_equal. lia. }
  rewrite Hd2.
  transitivity (removeRowsFrom 1 (d :: ds) (take (d - 1) S ++ drop (d - 1) S));
    [|by rewrite take_drop].
  rewrite !removeRowsFrom_app. f_equal.
  - apply removeRowsFrom_ext. intros i Hi. rewrite elem_of_cons.
    rewrite length_take in Hi. split; [by right|]. intros [->|?]; [lia|done].
  - destruct (drop (d - 1) S) as [|x rest] eqn:Hdrop; [done|].
    assert (Hlen : length (take (d - 1) S) = d - 1).
    { apply length_take_le. apply (f_equal length) in Hdrop.
      rewrite length_drop in Hdrop. cbn in Hdrop. lia. }
    rewrite Hlen. replace (1 + (d - 1)) with d by lia.
    cbn [drop removeRowsFrom].
    case_decide as Hd'; [|exfalso; apply Hd'; left].
    rewrite !removeRowsFrom_kept; [done| |].
    + intros d' [->|Hd'']%elem_of_cons; [lia|]. apply Hds in Hd''. lia.
    + intros d' Hd''. apply Hds in Hd''. lia.
Qed.

Lemma removeRowsFrom_nil o l : removeRowsFrom o [] l = l.
Proof. apply removeRowsFrom_kept. by intros d ?%elem_of_nil. Qed.

(** Deleting rows in strictly descending order, one request after the
    other, removes exactly the rows asked for. *)
Lemma applyDelete_descending sheetId ds : ∀ (S : list (list string)),
  StronglySorted (λ a b, b < a) ds → Forall (λ d, 1 ≤ d) ds →
  foldl applyDelete S (map (deleteRowRequest sheetId) ds) = removeRowsFrom 1 ds S.
Proof.
  induction ds as [|d ds IH]; intros S Hs Hpos; cbn [map foldl].
  - by rewrite removeRowsFrom_nil.
  - apply StronglySorted_inv in Hs as [Hs Hd]. apply Forall_cons in Hpos as [Hd1 Hpos].
    rewrite IH by done. apply applyDelete_step; [done|].
    rewrite Forall_forall in Hd. done.
Qed.

(** ** Row updates *)

Lemma applyUpdate_length rows data : length (foldl applyUpdate rows data) = length rows.
Proof.
  revert rows. induction data as [|u data IH]; intros rows; cbn; [done|].
  rewrite IH. unfold applyUpdate. apply length_insert.
Qed.

Lemma applyUpdate_untouched rows data j :
  (∀ u, u ∈ data → fst u - 1 ≠ j) → foldl applyUpdate rows data !! j = rows !! j.
Proof.
  revert rows. induction data as [|u data IH]; intros rows Hu; cbn; [done|].
  rewrite IH by (intros u' Hu'; apply Hu; by right).
  unfold applyUpdate. apply list_lookup_insert_ne. apply Hu. left.
Qed.

(** The row found at [j] after the updates satisfies whatever the row that
    was there and every update aimed at [j] satisfy. *)
Lemma applyUpdate_lookup (P : list string → Prop) data : ∀ rows j row,
  foldl applyUpdate rows data !! j = Some row →
  (∀ row0, rows !! j = Some row0 → P row0) →
  (∀ u, u ∈ data → fst u - 1 = j → P (snd u)) →
  P row.
Proof.
  induction data as [|u data IH]; intros rows j row Hrow H0 Hu; cbn in Hrow; [by apply H0|].
  eapply IH; [exact Hrow| |intros u' Hu'; apply Hu; by right].
  intros row0. unfold applyUpdate. rewrite list_lookup_insert.
  case_decide as Hj; [|apply H0].
  destruct Hj as [Hj Hlt]. intros [= <-]. apply Hu; [left|done].
Qed.

(** When an update is aimed at [j], the row found there is one of them. *)
Lemma applyUpdate_lookup_touched (P : list string → Prop) data : ∀ rows j row,
  foldl applyUpdate rows data !! j = Some row →
  (∃ u, u ∈ data ∧ fst u - 1 = j) →
  (∀ u, u ∈ data → fst u - 1 = j → P (snd u)) →
  P row.
Proof.
  induction data as [|u data IH] using rev_ind; intros rows j row Hrow Hex Hu.
  { destruct Hex as (u & Hin & _). by apply elem_of_nil in Hin. }
  rewrite foldl_app in Hrow.
  change (foldl applyUpdate (foldl applyUpdate rows data) [u])
    with (<[fst u - 1 := snd u]> (foldl applyUpdate rows data)) in Hrow.
  rewrite list_lookup_insert in Hrow. case_decide as Hj.
  - injection Hrow as <-. apply Hu; [|by destruct Hj]. apply elem_of_app. right. left.
  - eapply IH; [exact Hrow| |intros u' Hu'; apply Hu; apply elem_of_app; by left].
    destruct Hex as (u' & [Hin|Hin%list_elem_of_singleton]%elem_of_app & Hj'); [by eauto|].
    subst u'. exfalso. apply Hj. split; [done|].
    apply lookup_lt_Some in Hrow. by rewrite Hj'.
Qed.

Lemma applyUpdate_app rows extra data :
  (∀ u, u ∈ data → fst u - 1 < length rows) →
  foldl applyUpdate (rows ++ extra) data = foldl applyUpdate rows data ++ extra.
Proof.
  revert rows. induction data as [|u data IH]; intros rows Hu; cbn; [done|].
  unfold applyUpdate at 2 4. rewrite insert_app_l by (apply Hu; left).
  apply IH. intros u' Hu'. rewrite length_insert. apply Hu. by right.
Qed.

Lemma applyUpdate_cons h rows data :
  (∀ u, u ∈ data → 2 ≤ fst u) →
  foldl applyUpdate (h :: rows) data
  = h :: foldl applyUpdate rows (map (λ u, (fst u - 1, snd u)) data).
Proof.
  revert rows. induction data as [|u data IH]; intros rows Hu; cbn; [done|].
  assert (H2 : 2 ≤ fst u) by (apply Hu; left).
  unfold applyUpdate at 2 4. cbn [fst snd].
  destruct (fst u - 1) as [|n] eqn:Hn; [lia|]. cbn.
  rewrite Nat.sub_0_r. apply IH. intros u' Hu'. apply Hu. by right.
Qed.

(** ** Rows and records *)

Lemma recordsFrom_nil o : recordsFrom o [] = [].
Proof. reflexivity. Qed.

Lemma recordsFrom_app o l1 l2 :
  recordsFrom o (l1 ++ l2) = recordsFrom o l1 ++ recordsFrom (o + length l1) l2.
Proof.
  unfold recordsFrom. rewrite imap_app, filter_app. f_equal. f_equal.
  apply imap_ext. intros i x _. cbn. f_equal. lia.
Qed.

Lemma recordsFrom_cons o x l :
  recordsFrom o (x :: l) =
  (if decide (rowTracked x) then [parseRow o x] else []) ++ recordsFrom (S o) l.
Proof.
  unfold recordsFrom. rewrite imap_cons, filter_cons, Nat.add_0_r.
  assert (Hext : imap ((λ i, parseRow (o + i)) ∘ S) l = imap (λ i, parseRow (S o + i)) l).
  { apply imap_ext. intros i y _. cbn. f_equal. lia. }
  rewrite Hext. unfold rowTracked.
  change (primary_calendar (parseRow o x)) with (cell x 0).
  by repeat case_decide.
Qed.

Lemma parseRows_cons h rows : parseRows (h :: rows) = recordsFrom 0 rows.
Proof.
  unfold parseRows, recordsFrom. cbn [length drop].
  destruct rows as [|x rows]; [done|]. cbn [Nat.leb]. done.
Qed.

Lemma recordsFrom_elem o rows r :
  r ∈ recordsFrom o rows ↔
  ∃ i row, rows !! i = Some row ∧ r = parseRow (o + i) row ∧ rowTracked row.
Proof.
  unfold recordsFrom. rewrite list_elem_of_filter. split.
  - intros [Hnb Hr]. apply list_elem_of_lookup in Hr as [i Hi].
    rewrite list_lookup_imap in Hi.
    destruct (rows !! i) as [row|] eqn:Hrow; [|done]. injection Hi as <-.
    by exists i, row.
  - intros (i & row & Hrow & -> & Hnb). split; [done|].
    apply list_elem_of_lookup. exists i. by rewrite list_lookup_imap, Hrow.
Qed.

Lemma parseRow_key i row :
  recordKey (primary_event_id (parseRow i row)) (primary_calendar (parseRow i row))
  = rowKey row.
Proof. reflexivity. Qed.

(** The record map finds the last tracked row with the key. *)
Lemma recordMap_last_row o rows1 x rows2 :
  rowTracked x →
  (∀ x2, x2 ∈ rows2 → rowTracked x2 → rowKey x2 ≠ rowKey x) →
  buildRecordMap (recordsFrom o (rows1 ++ x :: rows2)) !! rowKey x
  = Some (parseRow (o + length rows1) x).
Proof.
  intros Hx H2. rewrite recordsFrom_app, recordsFrom_cons.
  case_decide; [|done]. cbn [app].
  remember (recordsFrom o rows1) as l1.
  remember (recordsFrom (S (o + length rows1)) rows2) as l2 eqn:Hl2.
  assert (Hl2' : ∀ r, r ∈ l2 →
            recordKey (primary_event_id r) (primary_calendar r) ≠ rowKey x).
  { intros r Hr. subst l2. apply recordsFrom_elem in Hr as (i & row & Hrow & -> & Hnb).
    rewrite parseRow_key. apply H2; [|done]. by eapply list_elem_of_lookup_2. }
  clear Hl2 H2. induction l2 as [|r l2 IH] using rev_ind.
  - change (l1 ++ [parseRow (o + length rows1) x])
      with (l1 ++ [parseRow (o + length rows1) x]).
    rewrite buildRecordMap_snoc, parseRow_key. apply lookup_insert_eq.
  - rewrite app_comm_cons, app_assoc, buildRecordMap_snoc.
    rewrite lookup_insert_ne; [apply IH|].
    + intros r' Hr'. apply Hl2'. apply elem_of_app. by left.
    + apply Hl2'. apply elem_of_app. right. left.
Qed.

(** Conversely, the record found is the last tracked row with the key. *)
Lemma recordMap_lookup_row rows : ∀ o k r,
  buildRecordMap (recordsFrom o rows) !! k = Some r →
  ∃ i row, rows !! i = Some row ∧ r = parseRow (o + i) row ∧ rowTracked row
           ∧ rowKey row = k
           ∧ ∀ j row2, i < j → rows !! j = Some row2 → rowTracked row2 → rowKey row2 ≠ k.
Proof.
  induction rows as [|x rows IH] using rev_ind; intros o k r Hr; [done|].
  rewrite recordsFrom_app, recordsFrom_cons, recordsFrom_nil, app_nil_r in Hr.
  assert (Hold : buildRecordMap (recordsFrom o rows) !! k = Some r →
    ¬ (rowTracked x ∧ rowKey x = k) →
    ∃ i row, (rows ++ [x]) !! i = Some row ∧ r = parseRow (o + i) row ∧ rowTracked row
      ∧ rowKey row = k
      ∧ ∀ j row2, i < j → (rows ++ [x]) !! j = Some row2 → rowTracked row2 →
                  rowKey row2 ≠ k).
  { intros Hr' Hx. destruct (IH o k r Hr') as (i & row & Hrow & -> & Hnb & Hk & Hlast).
    exists i, row. split; [by apply lookup_app_l_Some|]. repeat split; try done.
    intros j row2 Hij Hj Hnb2. apply lookup_app_Some in Hj as [Hj|[Hlen Hj]].
    - by eapply Hlast.
    - apply list_lookup_singleton_Some in Hj as [_ <-]. intros Hk2. by apply Hx. }
  case_decide as Hx.
  - rewrite buildRecordMap_snoc, parseRow_key, lookup_insert in Hr.
    case_decide as Hk.
    + injection Hr as <-. exists (length rows), x.
      split; [by rewrite lookup_app_r, Nat.sub_diag|]. repeat split; try done.
      intros j row2 Hij Hj. apply lookup_lt_Some in Hj. rewrite length_app in Hj.
      cbn in Hj. lia.
    + apply Hold; [done|]. by intros [_ ?].
  - rewrite app_nil_r in Hr. apply Hold; [done|]. by intros [? _].
Qed.

Lemma recordMap_lookup_none o rows k :
  buildRecordMap (recordsFrom o rows) !! k = None →
  ∀ row, row ∈ rows → rowTracked row → rowKey row ≠ k.
Proof.
  intros Hnone row Hrow Hnb. rewrite buildRecordMap_lookup_None in Hnone.
  apply list_elem_of_lookup in Hrow as [i Hi].
  rewrite <- (parseRow_key (o + i) row). apply Hnone.
  apply recordsFrom_elem. by exists i, row.
Qed.

(** ** Invariants through the promise combinators *)

Lemma preserves_resolve {W A} (I : W → Prop) (a : A) : preserves I (resolve a).
Proof. intros s r s' HI [= <- <-]. done. Qed.

Lemma preserves_reject {W A} (I : W → Prop) e : preserves (A:=A) I (reject e).
Proof. intros s r s' HI [= <- <-]. done. Qed.

Lemma preserves_await {W A B} (I : W → Prop) (p : Promise W A) (k : A → Promise W B) :
  preserves I p → (∀ a, preserves I (k a)) → preserves I (await p k).
Proof.
  intros Hp Hk s r s' HI. rewrite await_unfold.
  destruct (p s) as [[[a|e] s1]|] eqn:Hps; [| |done].
  - apply (Hk a s1). by eapply Hp.
  - intros [= <- <-]. by eapply Hp.
Qed.

Lemma preserves_tryCatch {W A} (I : W → Prop) (p : Promise W A) h :
  preserves I p → (∀ e, preserves I (h e)) → preserves I (tryCatch p h).
Proof.
  intros Hp Hh s r s' HI. unfold tryCatch.
  destruct (p s) as [[[a|e] s1]|] eqn:Hps; [| |done].
  - intros [= <- <-]. by eapply Hp.
  - apply (Hh e s1). by eapply Hp.
Qed.

Lemma preserves_settle {W A} (I : W → Prop) (p : Promise W A) :
  preserves I p → preserves I (settle p).
Proof.
  intros Hp s r s' HI. unfold settle.
  destruct (p s) as [[r1 s1]|] eqn:Hps; [|done]. intros [= <- <-]. by eapply Hp.
Qed.

Lemma preserves_invoke {W A} (I : W → Prop) c (h : W → Settled A * W) :
  (∀ w, I w → I (snd (h w))) → preserves I (invoke c h).
Proof. intros Hh s r s' HI. rewrite invoke_unfold. intros [= <- <-]. by apply Hh. Qed.

Lemma preserves_allSettled {W A} (I : W → Prop) (ps : list (Promise W A)) :
  Forall (preserves I) ps → preserves I (allSettled ps).
Proof.
  induction 1 as [|p ps Hp Hps IH]; cbn [allSettled].
  - apply preserves_resolve.
  - apply preserves_await; [by apply preserves_settle|]. intros r.
    apply preserves_await; [done|]. intros rs. apply preserves_resolve.
Qed.

Lemma preserves_runBatches {W T R} (svc : Services W) (I : W → Prop)
    (fn : T → Promise W R) batches : ∀ first,
  (∀ ms w, I w → I (set_timeout svc ms w)) →
  (∀ x, x ∈ concat batches → preserves I (fn x)) →
  preserves I (runBatches svc fn first batches).
Proof.
  induction batches as [|b batches IH]; intros first Hd Hfn; cbn [runBatches].
  - apply preserves_resolve.
  - apply preserves_await.
    { destruct first; [apply preserves_resolve|].
      apply preserves_invoke. intros w Hw. by apply Hd. }
    intros _. apply preserves_await.
    { apply preserves_allSettled. apply Forall_forall. intros p Hp.
      apply list_elem_of_In, in_map_iff in Hp as (x & <- & Hx). apply Hfn.
      cbn. apply elem_of_app. left. by apply list_elem_of_In. }
    intros rs. apply preserves_await; [|intros; apply preserves_resolve].
    apply IH; [done|]. intros x Hx. apply Hfn. cbn. apply elem_of_app. by right.
Qed.

Lemma preserves_processInBatches {W T R} (svc : Services W) (I : W → Prop)
    (fn : T → Promise W R) items batchSize :
  0 < batchSize →
  (∀ ms w, I w → I (set_timeout svc ms w)) →
  (∀ x, x ∈ items → preserves I (fn x)) →
  preserves I (processInBatches svc items batchSize fn).
Proof.
  intros Hbs Hd Hfn s r s' HI. rewrite processInBatches_runBatches by done.
  apply preserves_runBatches; try done.
  intros x Hx. apply Hfn. by rewrite chunks_concat in Hx.
Qed.

(** ** Invariants through the calendar stages *)

Lemma syncDirection_preserves {W} (svc : Services W) (I : W → Prop)
    evs records src tgt prefix :
  (∀ ms w, I w → I (set_timeout svc ms w)) →
  (∀ e w, I w →
     I (snd (events_insert svc tgt (buildSyncedEventBody e prefix src) w))) →
  (∀ e eid w, I w →
     I (snd (events_update svc tgt eid (buildSyncedEventBody e prefix src) w))) →
  preserves I (syncDirection svc evs records src tgt prefix).
Proof.
  intros Hd Hi Hu. unfold syncDirection.
  apply preserves_await.
  { apply preserves_processInBatches; [apply CONCURRENCY_pos|done|].
    intros e _. unfold createOne, createEvent.
    apply preserves_await; [|intros; apply preserves_resolve].
    apply preserves_invoke. intros w Hw. by apply Hi. }
  intros rsC. apply preserves_await; [|intros; apply preserves_resolve].
  apply preserves_processInBatches; [apply CONCURRENCY_pos|done|].
  intros item _. unfold updateOne, updateEvent.
  apply preserves_await; [|intros; apply preserves_resolve].
  apply preserves_invoke. intros w Hw. by apply Hu.
Qed.

Lemma detectAndDeleteOrphans_preserves {W} (svc : Services W) (I : W → Prop)
    evsA evsB records a b :
  (∀ ms w, I w → I (set_timeout svc ms w)) →
  (∀ r w, r ∈ findOrphans evsA evsB records a b → I w →
     I (snd (events_delete svc (secondary_calendar r) (secondary_event_id r) w))) →
  preserves I (detectAndDeleteOrphans svc evsA evsB records a b).
Proof.
  intros Hd Hdel. unfold detectAndDeleteOrphans.
  apply preserves_await; [|intros; apply preserves_resolve].
  apply preserves_processInBatches; [apply CONCURRENCY_pos|done|].
  intros r Hr. unfold deleteOne, deleteEvent.
  apply preserves_await; [|intros; apply preserves_resolve].
  apply preserves_tryCatch.
  - apply preserves_invoke. intros w Hw. by apply Hdel.
  - intros e. destruct (decide (err_code e = Some 410));
      [apply preserves_resolve|apply preserves_reject].
Qed.

(** ** The calendars of the model *)

Lemma calendarOf_setCalendar c c' evs w :
  calendarOf (setCalendar c evs w) c' = if decide (c = c') then evs else calendarOf w c'.
Proof.
  unfold calendarOf, setCalendar; cbn. destruct (decide (c = c')) as [->|Hne].
  - by rewrite lookup_insert_eq.
  - by rewrite lookup_insert_ne.
Qed.

Lemma string_app_assoc (x y z : string) : (x +:+ y) +:+ z = x +:+ (y +:+ z).
Proof.
  induction x as [|c x IH]; [done|].
  change (String c ((x +:+ y) +:+ z) = String c (x +:+ (y +:+ z))). by f_equal.
Qed.

Lemma join_snoc sep parts x : ∃ a, Js.join sep (parts ++ [x]) = a +:+ x.
Proof.
  unfold Js.join. induction parts as [|y parts [a IH]].
  - by exists "".
  - exists (y +:+ sep +:+ a).
    change (String.concat sep ((y :: parts) ++ [x]))
      with (String.concat sep (y :: (parts ++ [x]))).
    destruct (parts ++ [x]) as [|z rest] eqn:Heq.
    { by destruct parts. }
    change (String.concat sep (y :: z :: rest))
      with (y +:+ sep +:+ String.concat sep (z :: rest)).
    rewrite IH. symmetry. etrans; [apply string_app_assoc|].
    f_equal. apply string_app_assoc.
Qed.

Lemma isSyncedCopy_body eventId e prefix src :
  isSyncedCopy (eventOfBody eventId (buildSyncedEventBody e prefix src)) = true.
Proof.
  unfold isSyncedCopy, eventOfBody, buildSyncedEventBody, buildSyncedDescription.
  cbn [description body_description default]. cbv zeta. unfold id at 1.
  match goal with
  | |- Js.includes (Js.join ?sep (?parts ++ [?x])) _ = true =>
      destruct (join_snoc sep parts x) as [a ->]
  end.
  apply includes_app_r.
  apply (includes_middle (String (ascii_of_nat 10) EmptyString) SYNC_TAG).
Qed.

Lemma replaceEvent_ids eventId body evs :
  map ev_id (replaceEvent eventId body evs) = map ev_id evs.
Proof.
  unfold replaceEvent. rewrite map_map. apply map_ext. intros y.
  unfold hasId. destruct (String.eqb (ev_id y) eventId) eqn:Hy; [|done].
  apply String.eqb_eq in Hy. by cbn.
Qed.

Lemma calendarInvariant_timeout faults orphans w0 rows ms w :
  calendarInvariant orphans w0 rows w →
  calendarInvariant orphans w0 rows (set_timeout (gservices faults) ms w).
Proof. intros (H1 & H2 & H3). split; [exact H1|split; [exact H2|exact H3]]. Qed.

Lemma calendarInvariant_insert faults orphans w0 rows tgt e prefix src w :
  calendarInvariant orphans w0 rows w →
  calendarInvariant orphans w0 rows
    (snd (events_insert (gservices faults) tgt (buildSyncedEventBody e prefix src) w)).
Proof.
  intros (H1 & H2 & H3). cbn [events_insert gservices].
  destruct (faults _); cbn [snd]; [done|].
  split; [done|split].
  - intros c x. rewrite calendarOf_setCalendar.
    destruct (decide (tgt = c)) as [<-|]; [|apply H2].
    rewrite elem_of_app, list_elem_of_singleton. intros [Hx| ->]; [by apply H2|].
    left. apply isSyncedCopy_body.
  - intros c i Hi. destruct (H3 c i Hi) as [Hin|Ho]; [|by right]. left.
    rewrite calendarOf_setCalendar. destruct (decide (tgt = c)) as [<-|]; [|done].
    rewrite map_app, elem_of_app. by left.
Qed.

Lemma calendarInvariant_update faults orphans w0 rows tgt eventId e prefix src w :
  calendarInvariant orphans w0 rows w →
  calendarInvariant orphans w0 rows
    (snd (events_update (gservices faults) tgt eventId
            (buildSyncedEventBody e prefix src) w)).
Proof.
  intros (H1 & H2 & H3). cbn [events_update gservices].
  destruct (faults _); cbn [snd]; [done|].
  destruct (existsb _ _); cbn [snd]; [|done].
  split; [done|split].
  - intros c x. rewrite calendarOf_setCalendar.
    destruct (decide (tgt = c)) as [<-|]; [|apply H2].
    unfold replaceEvent. intros Hx. apply list_elem_of_In, in_map_iff in Hx as (y & <- & Hy).
    destruct (hasId eventId y); [left; apply isSyncedCopy_body|].
    apply H2. by apply list_elem_of_In.
  - intros c i Hi. destruct (H3 c i Hi) as [Hin|Ho]; [|by right]. left.
    rewrite calendarOf_setCalendar. destruct (decide (tgt = c)) as [<-|]; [|done].
    by rewrite replaceEvent_ids.
Qed.

Lemma calendarInvariant_delete faults orphans w0 rows r w :
  r ∈ orphans →
  calendarInvariant orphans w0 rows w →
  calendarInvariant orphans w0 rows
    (snd (events_delete (gservices faults) (secondary_calendar r)
            (secondary_event_id r) w)).
Proof.
  intros Hr (H1 & H2 & H3). cbn [events_delete gservices].
  destruct (faults _); cbn [snd]; [done|].
  destruct (existsb _ _); cbn [snd]; [|done].
  split; [done|split].
  - intros c x. rewrite calendarOf_setCalendar.
    destruct (decide (secondary_calendar r = c)) as [<-|]; [|apply H2].
    unfold removeEvent. intros Hx. apply list_elem_of_filter in Hx as [_ Hx]. by apply H2.
  - intros c i Hi. destruct (H3 c i Hi) as [Hin|Ho]; [|by right].
    rewrite calendarOf_setCalendar.
    destruct (decide (secondary_calendar r = c)) as [<-|]; [|by left].
    destruct (decide (i = secondary_event_id r)) as [->|Hne].
    { right. by exists r. }
    left. apply list_elem_of_In, in_map_iff in Hin as (y & <- & Hy).
    apply list_elem_of_In, in_map. apply list_elem_of_In. unfold removeEvent.
    apply list_elem_of_filter. split; [|by apply list_elem_of_In].
    unfold hasId. by apply String.eqb_neq.
Qed.

Lemma calendarInvariant_rows orphans w0 rows rows' w :
  calendarInvariant orphans w0 rows w →
  calendarInvariant orphans w0 rows' (setRows rows' w).
Proof. intros (H1 & H2 & H3). split; [done|split; [exact H2|exact H3]]. Qed.

Lemma calendarInvariant_setRows orphans w0 rows
    (f : list (list string) → list (list string)) w :
  calendarInvariant orphans w0 rows w →
  calendarInvariant orphans w0 (f rows) (setRows (f (sheetRows w)) w).
Proof. intros (<- & H2 & H3). split; [done|split; [exact H2|exact H3]]. Qed.

Lemma calendarInvariant_start orphans w0 :
  calendarInvariant orphans w0 (sheetRows w0) w0.
Proof. split; [done|split]; intros c x Hx; [by right|by left]. Qed.

Lemma syncDirection_calendarInvariant faults orphans w0 rows evs records src tgt prefix :
  preserves (calendarInvariant orphans w0 rows)
            (syncDirection (gservices faults) evs records src tgt prefix).
Proof.
  apply syncDirection_preserves.
  - intros. by apply calendarInvariant_timeout.
  - intros. by apply calendarInvariant_insert.
  - intros. by apply calendarInvariant_update.
Qed.

Lemma detectAndDeleteOrphans_calendarInvariant faults w0 rows evsA evsB records a b :
  preserves (calendarInvariant (findOrphans evsA evsB records a b) w0 rows)
            (detectAndDeleteOrphans (gservices faults) evsA evsB records a b).
Proof.
  apply detectAndDeleteOrphans_preserves.
  - intros. by apply calendarInvariant_timeout.
  - intros. by apply calendarInvariant_delete.
Qed.

(** ** The stages of a pass over the model *)

Lemma passBody_model faults env s :
  faults (CValuesGet (default "" (SPREADSHEET_ID env))) = None →
  passBody (gservices faults) env s =
  reconcile (gservices faults) env
    (fetched faults env (default "" (CALENDAR_A_ID env)) (world s))
    (fetched faults env (default "" (CALENDAR_B_ID env)) (world s))
    (parseRows (sheetRows (world s))) (afterLoad faults env s).
Proof.
  intros Hget. unfold passBody. rewrite await_unfold, fetch_both.
  rewrite await_unfold. unfold runStep, loadSheetRecords.
  rewrite loadSyncedEvents_unfold.
  unfold fetched, afterLoad, readEntry.
  cbn [events_list values_get gservices world trace fst snd]. rewrite Hget.
  cbn [fst snd].
  destruct (faults (CEventsList (default "" (CALENDAR_A_ID env)) _ _));
    destruct (faults (CEventsList (default "" (CALENDAR_B_ID env)) _ _));
    cbn [fst snd]; rewrite <- (assoc_L (++)); reflexivity.
Qed.

Lemma workflow_fulfilled {W} (svc : Services W) env s out s' :
  syncGoogleCalendarsWorkflow svc env s = Some (Fulfilled out, s') ↔
  passBody svc env s = Some (Fulfilled out, s').
Proof.
  unfold syncGoogleCalendarsWorkflow, tryCatch.
  destruct (passBody svc env s) as [[[a|e] s1]|]; [done| |done].
  destruct (notifyFailure_rejects svc env e s1) as (s2 & tr & -> & _). done.
Qed.

Lemma pass_model faults env s out s' :
  syncGoogleCalendarsWorkflow (gservices faults) env s = Some (Fulfilled out, s') →
  faults (CValuesGet (default "" (SPREADSHEET_ID env))) = None
  ∧ reconcile (gservices faults) env
      (fetched faults env (default "" (CALENDAR_A_ID env)) (world s))
      (fetched faults env (default "" (CALENDAR_B_ID env)) (world s))
      (parseRows (sheetRows (world s))) (afterLoad faults env s)
    = Some (Fulfilled out, s').
Proof.
  intros Hrun.
  assert (Hget : faults (CValuesGet (default "" (SPREADSHEET_ID env))) = None).
  { apply pass_stages in Hrun as (fa & fb & s1 & records & s2 & _ & _ & _ & Hload & _).
    unfold loadSheetRecords in Hload. rewrite loadSyncedEvents_unfold in Hload.
    cbn [values_get gservices] in Hload.
    destruct (faults (CValuesGet _)); [|done]. cbn in Hload. congruence. }
  split; [done|]. apply workflow_fulfilled in Hrun. by rewrite passBody_model in Hrun.
Qed.

(** The two batch-write steps append the pending rows and rewrite the
    rows of the pending updates; the calendars stay as they are. *)
Lemma batchWrite_calendarInvariant faults sid res s s' orphans w0 rows :
  batchWrite (gservices faults) sid res s = Some (Fulfilled tt, s') →
  calendarInvariant orphans w0 rows (world s) →
  ∃ now1 now2,
    calendarInvariant orphans w0
      (foldl applyUpdate (rows ++ map (insertRow now1) (pendingInserts res))
         (map (λ u, (upd_rowId u, updateRow now2 u)) (pendingUpdates res)))
      (world s').
Proof.
  unfold batchWrite. intros Hrun Hinv.
  apply await_fulfilled in Hrun as ([] & s1 & Hins & Hupd).
  exists (timestamp (world s)), (timestamp (world s1)).
  assert (Hinv1 : calendarInvariant orphans w0
            (rows ++ map (insertRow (timestamp (world s))) (pendingInserts res))
            (world s1)).
  { unfold batchInsertSyncedEvents in Hins.
    destruct (pendingInserts res) as [|i l].
    - injection Hins as <-. cbn. by rewrite app_nil_r.
    - rewrite invoke_unfold in Hins. cbn [values_append gservices date_now] in Hins.
      destruct (faults _); [done|]. injection Hins as <-.
      exact (calendarInvariant_setRows _ _ _
               (λ r, r ++ map (insertRow (timestamp (world s))) (i :: l)) _ Hinv). }
  unfold batchUpdateSyncedEvents in Hupd.
  destruct (pendingUpdates res) as [|u l].
  - injection Hupd as <-. done.
  - rewrite invoke_unfold in Hupd. cbn [values_batchUpdate gservices date_now] in Hupd.
    destruct (faults _); [done|]. injection Hupd as <-.
    exact (calendarInvariant_setRows _ _ _
             (λ r, foldl applyUpdate r
                     (map (λ u0, (upd_rowId u0, updateRow (timestamp (world s1)) u0))
                          (u :: l))) _ Hinv1).
Qed.

(** The delete step takes the orphan rows out, highest row first. *)
Lemma deleteOrphanRows_calendarInvariant faults sid orph s s' orphans w0 rows :
  deleteOrphanRows (gservices faults) sid orph s = Some (Fulfilled tt, s') →
  calendarInvariant orphans w0 rows (world s) →
  ∃ sheetId,
    calendarInvariant orphans w0
      (foldl applyDelete rows
         (map (deleteRowRequest sheetId) (sortDesc (map del_rowId (pendingDeletes orph)))))
      (world s').
Proof.
  unfold deleteOrphanRows. intros Hrun Hinv.
  apply await_fulfilled in Hrun as (sheetId & s1 & Hget & Hdel).
  exists sheetId.
  assert (Hinv1 : calendarInvariant orphans w0 rows (world s1)).
  { unfold getSheetId in Hget.
    apply await_fulfilled in Hget as (sheets & s0 & Hget & Hres).
    injection Hres as _ <-.
    rewrite invoke_unfold in Hget. cbn [spreadsheets_get gservices] in Hget.
    destruct (faults _); [done|]. injection Hget as _ <-. done. }
  unfold batchDeleteSyncedEventRows in Hdel.
  destruct (map del_rowId (pendingDeletes orph)) as [|d l].
  - injection Hdel as <-. done.
  - rewrite invoke_unfold in Hdel. cbn [spreadsheets_batchUpdate gservices] in Hdel.
    destruct (faults _); [done|]. injection Hdel as <-.
    exact (calendarInvariant_setRows _ _ _
             (λ r, foldl applyDelete r
                     (map (deleteRowRequest sheetId) (sortDesc (d :: l)))) _ Hinv1).
Qed.

(** ** The sheet after a pass, row by row *)

Lemma sorted_strict (l : list nat) :
  StronglySorted (λ a b, b ≤ a) l → NoDup l → StronglySorted (λ a b, b < a) l.
Proof.
  induction 1 as [|x l Hl IH Hx]; intros Hnd; [constructor|].
  apply NoDup_cons in Hnd as [Hxl Hnd]. constructor; [by apply IH|].
  apply Forall_forall. intros y Hy.
  assert (y ≤ x) by (by eapply Forall_forall in Hx).
  assert (y ≠ x) by (by intros ->). lia.
Qed.

Lemma removeRowsFrom_header D h rows :
  1 ∉ D → removeRowsFrom 1 D (h :: rows) = h :: removeRowsFrom 2 D rows.
Proof. intros H1. cbn. by destruct (decide (1 ∈ D)). Qed.

Lemma sheetAfter_rows h rows0 insAB updAB insBA updBA sheetId dels :
  (∀ u, u ∈ updAB ++ updBA → 2 ≤ fst u ≤ S (length rows0)) →
  NoDup dels → (∀ d, d ∈ dels → 2 ≤ d) →
  sheetAfter (h :: rows0) insAB updAB insBA updBA sheetId dels
  = h :: rowsAfter rows0 (updAB ++ updBA) (insAB ++ insBA) dels.
Proof.
  intros Hupd Hnd Hd. unfold sheetAfter, rowsAfter.
  assert (HAB : ∀ u, u ∈ updAB → 2 ≤ fst u ≤ S (length rows0)).
  { intros u Hu. apply Hupd, elem_of_app. by left. }
  assert (HBA : ∀ u, u ∈ updBA → 2 ≤ fst u ≤ S (length rows0)).
  { intros u Hu. apply Hupd, elem_of_app. by right. }
  rewrite (applyUpdate_app (h :: rows0) insAB updAB).
  2:{ intros u Hu. apply HAB in Hu. cbn [length]. lia. }
  rewrite <- (assoc_L (++)).
  rewrite (applyUpdate_app (foldl applyUpdate (h :: rows0) updAB) (insAB ++ insBA) updBA).
  2:{ intros u Hu. apply HBA in Hu. rewrite applyUpdate_length. cbn [length]. lia. }
  rewrite <- foldl_app, applyUpdate_cons.
  2:{ intros u Hu. by apply Hupd. }
  rewrite <- app_comm_cons, applyDelete_descending.
  - rewrite removeRowsFrom_header.
    2:{ rewrite sortDesc_perm. intros H1. apply Hd in H1. lia. }
    f_equal. apply removeRowsFrom_ext. intros i _. by rewrite sortDesc_perm.
  - apply sorted_strict; [apply sortDesc_sorted|]. by rewrite sortDesc_perm.
  - apply Forall_forall. intros d Hdd. rewrite sortDesc_perm in Hdd.
    apply Hd in Hdd. lia.
Qed.

Lemma applyUpdate_origin data : ∀ rows j row,
  foldl applyUpdate rows data !! j = Some row →
  (rows !! j = Some row ∧ ∀ u, u ∈ data → fst u - 1 ≠ j)
  ∨ (∃ u, u ∈ data ∧ fst u - 1 = j ∧ row = snd u).
Proof.
  induction data as [|u data IH]; intros rows j row Hrow; cbn in Hrow.
  - left. split; [done|]. intros u Hu. by apply elem_of_nil in Hu.
  - destruct (IH _ _ _ Hrow) as [[Hj Hno]|(u' & Hu' & Htgt & ->)].
    + unfold applyUpdate in Hj. destruct (decide (fst u - 1 = j)) as [Heq|Hne].
      * right. exists u. split; [by left|]. split; [done|].
        rewrite <- Heq in Hj. apply list_lookup_insert_Some in Hj.
        destruct Hj as [(_ & -> & _)|[? _]]; done.
      * left. rewrite list_lookup_insert_ne in Hj by done. split; [done|].
        intros u0 Hu0. apply elem_of_cons in Hu0 as [->|Hu0]; [done|by apply Hno].
    + right. exists u'. split; [by right|done].
Qed.

Lemma recordMap_removed_lookup o o' D X1 x X2 :
  rowTracked x → o' + length X1 ∉ D →
  (∀ x2, x2 ∈ X2 → rowTracked x2 → rowKey x2 ≠ rowKey x) →
  ∃ n, buildRecordMap (recordsFrom o (removeRowsFrom o' D (X1 ++ x :: X2))) !! rowKey x
       = Some (parseRow n x).
Proof.
  intros Hx Hpos Hlater. rewrite removeRowsFrom_app. cbn [removeRowsFrom].
  destruct (decide (o' + length X1 ∈ D)); [done|].
  eexists. apply recordMap_last_row; [done|].
  intros x2 Hx2. apply Hlater. by eapply removeRowsFrom_sub.
Qed.

(** ** Records and their rows *)

Lemma recordsFrom_rec_id o rows r r' :
  r ∈ recordsFrom o rows → r' ∈ recordsFrom o rows → rec_id r = rec_id r' → r = r'.
Proof.
  intros (i & row & Hi & -> & _)%recordsFrom_elem (i' & row' & Hi' & -> & _)%recordsFrom_elem.
  cbn. intros Hid. assert (i = i') as <- by lia. congruence.
Qed.

Lemma recordsFrom_rec_id_bounds rows r :
  r ∈ recordsFrom 0 rows → 2 ≤ rec_id r ≤ S (length rows).
Proof.
  intros (i & row & Hi & -> & _)%recordsFrom_elem. apply lookup_lt_Some in Hi. cbn. lia.
Qed.

Lemma recordsFrom_row rows r :
  r ∈ recordsFrom 0 rows →
  ∃ row, rows !! (rec_id r - 2) = Some row ∧ r = parseRow (rec_id r - 2) row
         ∧ rowTracked row.
Proof.
  intros (i & row & Hi & -> & Ht)%recordsFrom_elem. exists row. cbn.
  replace (i + 2 - 2) with i by lia. done.
Qed.

Lemma recordsFrom_NoDup rows : ∀ o, NoDup (map rec_id (recordsFrom o rows)).
Proof.
  induction rows as [|x rows IH]; intros o.
  - rewrite recordsFrom_nil. constructor.
  - rewrite recordsFrom_cons, map_app. apply NoDup_app. split; [|split; [|apply IH]].
    + destruct (decide (rowTracked x)); cbn; [apply NoDup_singleton|constructor].
    + intros i Hi Hi'. destruct (decide (rowTracked x)); cbn in Hi; [|by apply elem_of_nil in Hi].
      apply list_elem_of_singleton in Hi as ->.
      apply list_elem_of_In, in_map_iff in Hi' as (r' & Hr & Hin).
      apply list_elem_of_In, recordsFrom_elem in Hin as (j & row & _ & -> & _).
      cbn in Hr. lia.
Qed.

Lemma NoDup_map_filter {A B} (f : A → B) (P : A → Prop) `{∀ x, Decision (P x)} l :
  NoDup (map f l) → NoDup (map f (filter P l)).
Proof.
  induction l as [|x l IH]; [done|]. cbn [map]. intros [Hx Hl]%NoDup_cons.
  rewrite filter_cons. destruct (decide (P x)); cbn [map]; [|by apply IH].
  apply NoDup_cons. split; [|by apply IH]. intros Hin. apply Hx.
  apply list_elem_of_In, in_map_iff in Hin as (y & <- & Hy).
  apply list_elem_of_In, list_elem_of_filter in Hy as [_ Hy].
  apply list_elem_of_In, in_map. by apply list_elem_of_In.
Qed.

Lemma map_split_inv {A B} (f : A → B) l : ∀ k1 y k2,
  map f l = k1 ++ y :: k2 →
  ∃ l1 x l2, l = l1 ++ x :: l2 ∧ map f l1 = k1 ∧ f x = y ∧ map f l2 = k2.
Proof.
  induction l as [|x l IH]; intros [|z k1] y k2 Heq; cbn in Heq; try done.
  - injection Heq as <- <-. by exists [], x, l.
  - injection Heq as <- Heq. destruct (IH _ _ _ Heq) as (l1 & x' & l2 & -> & <- & <- & <-).
    by exists (x :: l1), x', l2.
Qed.

(** ** What the analysis of the first pass says *)

Lemma toUpdate_lookup evs records src tgt e r :
  (e, r) ∈ toUpdate (analyzeEvents evs records src tgt) →
  e ∈ evs ∧ r ∈ records
  ∧ buildRecordMap records !! recordKey (ev_id e) src = Some r
  ∧ recordKey (primary_event_id r) (primary_calendar r) = recordKey (ev_id e) src.
Proof.
  rewrite analyzeEvents_by_key. intros [He Hc]%elem_of_toUpdate_analysisBy.
  unfold classifyByKey in Hc. apply classifyWith_Update in Hc as (_ & _ & _ & Hl & _).
  destruct (buildRecordMap_lookup_Some _ _ _ Hl) as [Hr Hk]. done.
Qed.

Lemma toCreate_lookup evs records src tgt e :
  e ∈ toCreate (analyzeEvents evs records src tgt) →
  e ∈ evs ∧ isSyncedCopy e = false
  ∧ buildRecordMap records !! recordKey (ev_id e) src = None.
Proof.
  rewrite analyzeEvents_by_key. intros [He Hc]%elem_of_toCreate_analysisBy.
  unfold classifyByKey in Hc. apply classifyWith_Create in Hc as (_ & ? & _ & ?). done.
Qed.

Lemma toCreate_NoDup evs records src tgt :
  NoDup (map ev_id evs) → NoDup (map ev_id (toCreate (analyzeEvents evs records src tgt))).
Proof. rewrite analyzeEvents_by_key. cbn. apply NoDup_map_filter. Qed.

Lemma classified evs records src tgt e :
  e ∈ evs → ev_id e ≠ "" → isSyncedCopy e = false →
  isTargetCalendarInAttendees e tgt = false →
  match buildRecordMap records !! recordKey (ev_id e) src with
  | None => e ∈ toCreate (analyzeEvents evs records src tgt)
  | Some r =>
      event_signature r = computeSignature e
      ∨ (e, r) ∈ toUpdate (analyzeEvents evs records src tgt)
  end.
Proof.
  intros He Hid Hcopy Hatt. rewrite analyzeEvents_by_key.
  assert (Hc : classifyByKey records src tgt e =
               match buildRecordMap records !! recordKey (ev_id e) src with
               | None => Create
               | Some r => if String.eqb (event_signature r) (computeSignature e)
                           then Unchanged else Update r
               end).
  { unfold classifyByKey, classifyWith. apply String.eqb_neq in Hid.
    by rewrite Hid, Hcopy, Hatt. }
  destruct (buildRecordMap records !! recordKey (ev_id e) src) as [r|].
  - destruct (String.eqb (event_signature r) (computeSignature e)) eqn:Hsig.
    + left. by apply String.eqb_eq.
    + right. by apply elem_of_toUpdate_analysisBy.
  - by apply elem_of_toCreate_analysisBy.
Qed.

(** ** A quiet classification *)

Lemma quiet_class records src tgt e :
  (ev_id e ≠ "" → isSyncedCopy e = false → isTargetCalendarInAttendees e tgt = false →
   ∃ r, buildRecordMap records !! recordKey (ev_id e) src = Some r
        ∧ event_signature r = computeSignature e) →
  isCreate (classifyByKey records src tgt e) = false
  ∧ updateOf e (classifyByKey records src tgt e) = None.
Proof.
  intros Hl. unfold classifyByKey, classifyWith.
  destruct (String.eqb (ev_id e) "") eqn:Hid; [done|].
  destruct (isSyncedCopy e); [done|].
  destruct (isTargetCalendarInAttendees e tgt); [done|]. cbn [orb].
  apply String.eqb_neq in Hid. destruct (Hl Hid eq_refl eq_refl) as (r & -> & ->).
  by rewrite String.eqb_refl.
Qed.

Lemma quiet_analysis c evs :
  (∀ e, e ∈ evs → isCreate (c e) = false ∧ updateOf e (c e) = None) →
  toCreate (analysisBy c evs) = [] ∧ toUpdate (analysisBy c evs) = [].
Proof.
  intros Hq. unfold analysisBy; cbn [toCreate toUpdate].
  induction evs as [|e evs IH]; [done|].
  destruct IH as [IH1 IH2]; [intros e' He'; apply Hq; by right|].
  destruct (Hq e) as [H1 H2]; [by left|]. split.
  - rewrite filter_cons. by destruct (decide (isCreate (c e) = true)); [congruence|].
  - cbn [omap list_omap]. by rewrite H2.
Qed.

(** ** The ledger after a pass without errors

    [rows0] are the data rows the pass loaded, [crAB] and [crBA] the
    events it created with their copies; both directions were analysed
    against the records of [rows0]. *)

Section AfterPass.

Context (a b : string) (evsA evsB : list GoogleCalendarEvent).
Context (rows0 : list (list string)).
Context (crAB crBA : list (GoogleCalendarEvent * GoogleCalendarEvent)).
Context (n1 n2 n3 n4 : string).

Local Abbreviation recs := (recordsFrom 0 rows0).
Local Abbreviation orphans := (findOrphans evsA evsB recs a b).
Local Abbreviation data :=
  (map (updatedRow n2) (toUpdate (analyzeEvents evsA recs a b))
   ++ map (updatedRow n4) (toUpdate (analyzeEvents evsB recs b a))).
Local Abbreviation ins := (map (createdRow n1 a b) crAB ++ map (createdRow n3 b a) crBA).
Local Abbreviation Urows := (foldl applyUpdate rows0 (map (λ u, (fst u - 1, snd u)) data)).
Local Abbreviation rows1 := (rowsAfter rows0 data ins (map rec_id orphans)).
Local Abbreviation dir src tgt evs :=
  ((src = a ∧ tgt = b ∧ evs = evsA) ∨ (src = b ∧ tgt = a ∧ evs = evsB)).

Hypothesis Hab : a ≠ b.
Hypothesis Ha : a ≠ "".
Hypothesis Hb : b ≠ "".
Hypothesis HndA : NoDup (map ev_id evsA).
Hypothesis HndB : NoDup (map ev_id evsB).
Hypothesis HcfA : ∀ e, e ∈ evsA → colonFree (ev_id e) = true.
Hypothesis HcfB : ∀ e, e ∈ evsB → colonFree (ev_id e) = true.
Hypothesis Hcfr : ∀ r, r ∈ recs → colonFree (primary_event_id r) = true.
Hypothesis HcrAB : map fst crAB = toCreate (analyzeEvents evsA recs a b).
Hypothesis HcrBA : map fst crBA = toCreate (analyzeEvents evsB recs b a).

Lemma dir_colonFree src tgt evs e :
  dir src tgt evs → e ∈ evs → colonFree (ev_id e) = true.
Proof. intros [(_ & _ & ->)|(_ & _ & ->)]; auto. Qed.

Lemma dir_NoDup src tgt evs : dir src tgt evs → NoDup (map ev_id evs).
Proof. intros [(_ & _ & ->)|(_ & _ & ->)]; auto. Qed.

Lemma dir_nonempty src tgt evs : dir src tgt evs → src ≠ "".
Proof. intros [(-> & _)|(-> & _)]; auto. Qed.

Lemma dir_same src tgt evs src' tgt' evs' :
  dir src tgt evs → dir src' tgt' evs' → src = src' → tgt = tgt' ∧ evs = evs'.
Proof.
  intros [(-> & -> & ->)|(-> & -> & ->)] [(-> & -> & ->)|(-> & -> & ->)] Heq;
    try done; by destruct Hab.
Qed.

Lemma dir_not_orphan src tgt evs e r :
  dir src tgt evs → e ∈ evs → r ∈ recs →
  recordKey (primary_event_id r) (primary_calendar r) = recordKey (ev_id e) src →
  r ∉ orphans.
Proof.
  intros Hd He Hr Hk Ho.
  apply recordKey_inj in Hk as [Hid Hcal];
    [|by apply Hcfr|exact (dir_colonFree _ _ _ _ Hd He)].
  rewrite findOrphans_spec in Ho. apply list_elem_of_filter in Ho as [Ho _].
  assert (Hin : primary_event_id r ∈ map ev_id evs).
  { rewrite Hid. apply list_elem_of_In, in_map. by apply list_elem_of_In. }
  destruct Hd as [(-> & -> & ->)|(-> & -> & ->)], Ho as [[Hc Hn]|[Hc Hn]];
    try done; rewrite Hcal in Hc; by destruct Hab.
Qed.

Lemma data_origin u :
  u ∈ map (λ u, (fst u - 1, snd u)) data →
  ∃ n src tgt evs e r,
    dir src tgt evs ∧ (e, r) ∈ toUpdate (analyzeEvents evs recs src tgt)
    ∧ u = (rec_id r - 1, updateRow n (pendingUpdateOf e r)).
Proof.
  intros (u0 & <- & Hu0)%list_elem_of_In%in_map_iff.
  apply list_elem_of_In, elem_of_app in Hu0 as [Hu0|Hu0];
    apply list_elem_of_In, in_map_iff in Hu0 as ([e r] & <- & Hp);
    apply list_elem_of_In in Hp.
  - exists n2, a, b, evsA, e, r. split; [by left|done].
  - exists n4, b, a, evsB, e, r. split; [by right|done].
Qed.

Lemma data_complete src tgt evs e r :
  dir src tgt evs → (e, r) ∈ toUpdate (analyzeEvents evs recs src tgt) →
  ∃ n, (rec_id r - 1, updateRow n (pendingUpdateOf e r))
       ∈ map (λ u, (fst u - 1, snd u)) data.
Proof.
  intros [(-> & -> & ->)|(-> & -> & ->)] Hp; [exists n2|exists n4];
    apply list_elem_of_In, in_map_iff;
    [exists (updatedRow n2 (e, r))|exists (updatedRow n4 (e, r))];
    (split; [done|]); apply list_elem_of_In, elem_of_app; [left|right];
    apply list_elem_of_In, in_map; by apply list_elem_of_In.
Qed.

Lemma Urows_length : length Urows = length rows0.
Proof. apply applyUpdate_length. Qed.

(** A row is as it was loaded, or as the update of its record wrote it. *)
Lemma Urows_row i row :
  Urows !! i = Some row →
  ∃ row0, rows0 !! i = Some row0
    ∧ ((row = row0
        ∧ ∀ src tgt evs e r, dir src tgt evs →
            (e, r) ∈ toUpdate (analyzeEvents evs recs src tgt) → rec_id r ≠ i + 2)
       ∨ (∃ n src tgt evs e,
            dir src tgt evs
            ∧ (e, parseRow i row0) ∈ toUpdate (analyzeEvents evs recs src tgt)
            ∧ row = updateRow n (pendingUpdateOf e (parseRow i row0)))).
Proof.
  intros Hrow.
  assert (is_Some (rows0 !! i)) as [row0 Hrow0].
  { apply lookup_lt_is_Some. rewrite <- Urows_length. by eapply lookup_lt_Some. }
  exists row0. split; [done|].
  destruct (applyUpdate_origin _ _ _ _ Hrow) as [[Hi Hno]|(u & Hu & Htgt & ->)].
  - left. split; [congruence|]. intros src tgt evs e r Hd Hp Hid.
    destruct (data_complete _ _ _ _ _ Hd Hp) as [n Hin].
    apply Hno in Hin. cbn in Hin. lia.
  - right. destruct (data_origin _ Hu) as (n & src & tgt & evs & e & r & Hd & Hp & ->).
    cbn in Htgt. apply toUpdate_lookup in Hp as Hr. destruct Hr as (_ & Hr & _).
    pose proof (recordsFrom_rec_id_bounds _ _ Hr) as Hb2.
    destruct (recordsFrom_row _ _ Hr) as (row' & Hrow' & Her & _).
    replace (rec_id r - 2) with i in * by lia.
    assert (row' = row0) as -> by congruence. rewrite Her in Hp.
    exists n, src, tgt, evs, e. rewrite <- Her. rewrite <- Her in Hp. done.
Qed.

Lemma Urows_keys i row row0 :
  Urows !! i = Some row → rows0 !! i = Some row0 →
  cell row 0 = cell row0 0 ∧ cell row 1 = cell row0 1.
Proof.
  intros Hrow Hrow0. destruct (Urows_row _ _ Hrow) as (row0' & Hrow0' & Hcase).
  assert (row0' = row0) as -> by congruence.
  destruct Hcase as [[-> _]|(n & src & tgt & evs & e & _ & _ & ->)]; done.
Qed.

(** The row of the record of a source event carries the event's
    signature after the pass. *)
Lemma Urows_signature src tgt evs e i row0 row :
  dir src tgt evs → e ∈ evs →
  rows0 !! i = Some row0 → rowKey row0 = recordKey (ev_id e) src →
  (event_signature (parseRow i row0) = computeSignature e
   ∨ (e, parseRow i row0) ∈ toUpdate (analyzeEvents evs recs src tgt)) →
  Urows !! i = Some row →
  cell row 7 = computeSignature e.
Proof.
  intros Hd He Hrow0 Hk Hsig Hrow.
  destruct (Urows_row _ _ Hrow) as (row0' & Hrow0' & Hcase).
  assert (row0' = row0) as -> by congruence.
  destruct Hcase as [[-> Hno]|(n & src' & tgt' & evs' & e' & Hd' & Hp & ->)].
  - destruct Hsig as [Hsig|Hp]; [done|]. by destruct (Hno _ _ _ _ _ Hd Hp).
  - destruct (toUpdate_lookup _ _ _ _ _ _ Hp) as (He' & Hr & _ & Hk').
    rewrite parseRow_key, Hk in Hk'. symmetry in Hk'.
    apply recordKey_inj in Hk' as [Hid Hsrc];
      [|exact (dir_colonFree _ _ _ _ Hd' He')|exact (dir_colonFree _ _ _ _ Hd He)].
    destruct (dir_same _ _ _ _ _ _ Hd' Hd Hsrc) as [_ ->].
    assert (e' = e) as ->; [|done].
    eapply NoDup_map_inj_on; [by eapply dir_NoDup|done..].
Qed.

Lemma ins_origin x :
  x ∈ ins →
  ∃ n src tgt evs p,
    dir src tgt evs ∧ fst p ∈ toCreate (analyzeEvents evs recs src tgt)
    ∧ x = createdRow n src tgt p.
Proof.
  intros [Hx|Hx]%elem_of_app;
    apply list_elem_of_In, in_map_iff in Hx as (p & <- & Hp).
  - exists n1, a, b, evsA, p. split; [by left|]. split; [|done].
    rewrite <- HcrAB. by apply list_elem_of_In, in_map.
  - exists n3, b, a, evsB, p. split; [by right|]. split; [|done].
    rewrite <- HcrBA. by apply list_elem_of_In, in_map.
Qed.

Lemma orphan_ids_bound d : d ∈ map rec_id orphans → 2 ≤ d ≤ S (length rows0).
Proof.
  intros (r & <- & Hr)%list_elem_of_In%in_map_iff. apply recordsFrom_rec_id_bounds.
  rewrite findOrphans_spec in Hr. by apply list_elem_of_In, list_elem_of_filter in Hr as [_ Hr].
Qed.

Lemma orphan_row i row0 :
  rows0 !! i = Some row0 → rowTracked row0 →
  i + 2 ∈ map rec_id orphans ↔ parseRow i row0 ∈ orphans.
Proof.
  intros Hrow0 Ht. split.
  - intros (r & Hid & Hr)%list_elem_of_In%in_map_iff. apply list_elem_of_In in Hr.
    assert (r = parseRow i row0) as <-; [|done].
    apply (recordsFrom_rec_id 0 rows0); [| |done].
    + rewrite findOrphans_spec in Hr. by apply list_elem_of_filter in Hr as [_ Hr].
    + apply recordsFrom_elem. by exists i, row0.
  - intros Hr. apply list_elem_of_In, in_map_iff. exists (parseRow i row0).
    split; [done|by apply list_elem_of_In].
Qed.

(** An event whose record the first pass found is found again, with the
    event's signature. *)
Lemma tracked_lookup src tgt evs e r :
  dir src tgt evs → e ∈ evs →
  buildRecordMap recs !! recordKey (ev_id e) src = Some r →
  (event_signature r = computeSignature e
   ∨ (e, r) ∈ toUpdate (analyzeEvents evs recs src tgt)) →
  ∃ r2, buildRecordMap (recordsFrom 0 rows1) !! recordKey (ev_id e) src = Some r2
        ∧ event_signature r2 = computeSignature e.
Proof.
  intros Hd He Hl Hsig.
  destruct (recordMap_lookup_row _ _ _ _ Hl)
    as (i & row0 & Hrow0 & -> & Ht0 & Hk0 & Hlater).
  change (0 + i) with i in *.
  assert (is_Some (Urows !! i)) as [row Hrow].
  { apply lookup_lt_is_Some. rewrite Urows_length. by eapply lookup_lt_Some. }
  destruct (Urows_keys _ _ _ Hrow Hrow0) as [Hc0 Hc1].
  assert (Ht : rowTracked row) by (unfold rowTracked; by rewrite Hc0).
  assert (Hk : rowKey row = recordKey (ev_id e) src).
  { unfold rowKey. rewrite Hc0, Hc1. exact Hk0. }
  pose proof (Urows_signature _ _ _ _ _ _ _ Hd He Hrow0 Hk0 Hsig Hrow) as Hs.
  assert (Hi : i < length Urows) by (by eapply lookup_lt_Some).
  destruct (recordMap_removed_lookup 0 2 (map rec_id orphans)
              (take i Urows) row (drop (S i) Urows ++ ins)) as [n Hn]; [done| |  |].
  - rewrite length_take, Nat.min_l by lia. rewrite Nat.add_comm.
    rewrite (orphan_row _ _ Hrow0 Ht0).
    apply (dir_not_orphan _ _ _ _ _ Hd He).
    + apply recordsFrom_elem. by exists i, row0.
    + by rewrite parseRow_key.
  - intros x2 [Hx2|Hx2]%elem_of_app Ht2 Hk2.
    + apply list_elem_of_lookup in Hx2 as [j Hj]. rewrite lookup_drop in Hj.
      assert (is_Some (rows0 !! (S i + j))) as [row0j Hrow0j].
      { apply lookup_lt_is_Some. rewrite <- Urows_length. by eapply lookup_lt_Some. }
      destruct (Urows_keys _ _ _ Hj Hrow0j) as [Hj0 Hj1].
      apply (Hlater (S i + j) row0j); [lia|done| |].
      * unfold rowTracked. by rewrite <- Hj0.
      * unfold rowKey. rewrite <- Hj0, <- Hj1. fold (rowKey x2). by rewrite Hk2.
    + destruct (ins_origin _ Hx2) as (n & src' & tgt' & evs' & p & Hd' & Hp & ->).
      apply toCreate_lookup in Hp as (_ & _ & Hnone).
      change (rowKey (createdRow n src' tgt' p)) with (recordKey (ev_id (fst p)) src') in Hk2.
      rewrite Hk2, Hk in Hnone. congruence.
  - exists (parseRow n row). split; [|exact Hs].
    rewrite <- Hk. unfold rowsAfter.
    rewrite <- (take_drop_middle Urows i row Hrow) at 1.
    rewrite <- (assoc_L (++)). exact Hn.
Qed.

(** An event the first pass created a copy of is found in the row
    appended for it. *)
Lemma created_lookup_at src tgt evs n cr J1 J2 e :
  dir src tgt evs →
  map fst cr = toCreate (analyzeEvents evs recs src tgt) →
  ins = J1 ++ map (createdRow n src tgt) cr ++ J2 →
  (∀ x2 e', x2 ∈ J2 → e' ∈ evs → rowKey x2 ≠ recordKey (ev_id e') src) →
  e ∈ toCreate (analyzeEvents evs recs src tgt) →
  ∃ r2, buildRecordMap (recordsFrom 0 rows1) !! recordKey (ev_id e) src = Some r2
        ∧ event_signature r2 = computeSignature e.
Proof.
  intros Hd Hcr Hins HJ2 He.
  pose proof (toCreate_NoDup evs recs src tgt (dir_NoDup _ _ _ Hd)) as Hnd.
  assert (Hsub : ∀ e', e' ∈ toCreate (analyzeEvents evs recs src tgt) → e' ∈ evs).
  { intros e' He'. by apply toCreate_lookup in He' as (? & _). }
  apply list_elem_of_split in He as Hsplit. destruct Hsplit as (l1 & l2 & Hsplit).
  rewrite Hsplit in Hcr, Hnd, Hsub.
  destruct (map_split_inv _ _ _ _ _ Hcr) as (c1 & p & c2 & -> & Hc1 & Hp & Hc2).
  set (x := createdRow n src tgt p).
  assert (HX : Urows ++ ins
               = (Urows ++ J1 ++ map (createdRow n src tgt) c1)
                 ++ x :: (map (createdRow n src tgt) c2 ++ J2)).
  { rewrite Hins, (map_app (createdRow n src tgt) c1 (p :: c2)).
    cbn [map]. by rewrite <- !(assoc_L (++)). }
  destruct (recordMap_removed_lookup 0 2 (map rec_id orphans)
              (Urows ++ J1 ++ map (createdRow n src tgt) c1) x
              (map (createdRow n src tgt) c2 ++ J2)) as [n' Hn].
  - unfold rowTracked. exact (dir_nonempty _ _ _ Hd).
  - intros Hin. apply orphan_ids_bound in Hin.
    rewrite length_app, Urows_length in Hin. lia.
  - intros x2 [Hx2|Hx2]%elem_of_app _ Hk2.
    + apply list_elem_of_In, in_map_iff in Hx2 as (p2 & <- & Hp2).
      change (recordKey (ev_id (fst p2)) src = recordKey (ev_id (fst p)) src) in Hk2.
      assert (Hin2 : fst p2 ∈ l2).
      { rewrite <- Hc2. by apply list_elem_of_In, in_map. }
      apply recordKey_inj in Hk2 as [Hid _].
      * rewrite map_app in Hnd. apply NoDup_app in Hnd as (_ & _ & Hnd).
        cbn [map] in Hnd. apply NoDup_cons in Hnd as [Hnd _]. apply Hnd.
        rewrite <- Hp, <- Hid. apply list_elem_of_In, in_map. by apply list_elem_of_In.
      * apply (dir_colonFree _ _ _ _ Hd), Hsub, elem_of_app. right. by right.
      * apply (dir_colonFree _ _ _ _ Hd), Hsub, elem_of_app. right. rewrite Hp. by left.
    + apply (HJ2 x2 e); [done| |by rewrite Hk2, <- Hp].
      apply Hsub, elem_of_app. right. by left.
  - exists (parseRow n' x). split; [|by rewrite <- Hp].
    unfold rowsAfter. rewrite HX, <- Hp. exact Hn.
Qed.

Lemma created_lookup src tgt evs e :
  dir src tgt evs → e ∈ toCreate (analyzeEvents evs recs src tgt) →
  ∃ r2, buildRecordMap (recordsFrom 0 rows1) !! recordKey (ev_id e) src = Some r2
        ∧ event_signature r2 = computeSignature e.
Proof.
  intros Hd He. destruct Hd as [(-> & -> & ->)|(-> & -> & ->)].
  - apply (created_lookup_at a b evsA n1 crAB [] (map (createdRow n3 b a) crBA));
      [by left|done|done| |done].
    intros x2 e' (p & <- & Hp)%list_elem_of_In%in_map_iff He' Hk.
    change (recordKey (ev_id (fst p)) b = recordKey (ev_id e') a) in Hk.
    apply recordKey_inj in Hk as [_ Hk]; [by destruct Hab| |by apply HcfA].
    apply HcfB. assert (fst p ∈ toCreate (analyzeEvents evsB recs b a)) as Hin.
    { rewrite <- HcrBA. by apply list_elem_of_In, in_map. }
    by apply toCreate_lookup in Hin as (? & _).
  - apply (created_lookup_at b a evsB n3 crBA (map (createdRow n1 a b) crAB) []);
      [by right|done|by rewrite app_nil_r| |done].
    intros x2 e' Hx2. by apply elem_of_nil in Hx2.
Qed.

(** The second analysis finds, for every event the first one classified,
    a record with the event's signature. *)
Lemma second_lookup src tgt evs e :
  dir src tgt evs → e ∈ evs →
  ev_id e ≠ "" → isSyncedCopy e = false → isTargetCalendarInAttendees e tgt = false →
  ∃ r2, buildRecordMap (recordsFrom 0 rows1) !! recordKey (ev_id e) src = Some r2
        ∧ event_signature r2 = computeSignature e.
Proof.
  intros Hd He Hid Hcopy Hatt.
  pose proof (classified evs recs src tgt e He Hid Hcopy Hatt) as Hc.
  destruct (buildRecordMap recs !! recordKey (ev_id e) src) as [r|] eqn:Hl.
  - by eapply tracked_lookup.
  - by eapply created_lookup.
Qed.

(** Every record of the second pass tracks the primary of a record the
    first pass kept, or an event the first pass created a copy of. *)
Lemma second_records r2 :
  r2 ∈ recordsFrom 0 rows1 →
  (∃ r1, r1 ∈ recs ∧ (r1 ∉ orphans)
         ∧ primary_calendar r2 = primary_calendar r1
         ∧ primary_event_id r2 = primary_event_id r1)
  ∨ (∃ src tgt evs e,
       dir src tgt evs ∧ e ∈ toCreate (analyzeEvents evs recs src tgt)
       ∧ primary_calendar r2 = src ∧ primary_event_id r2 = ev_id e).
Proof.
  intros (j & x & Hx & -> & Ht)%recordsFrom_elem.
  apply list_elem_of_lookup_2 in Hx. unfold rowsAfter in Hx.
  apply removeRowsFrom_elem in Hx as (i & Hi & Hkeep).
  apply lookup_app_Some in Hi as [Hi|[_ Hi]].
  - left. assert (is_Some (rows0 !! i)) as [row0 Hrow0].
    { apply lookup_lt_is_Some. rewrite <- Urows_length. by eapply lookup_lt_Some. }
    destruct (Urows_keys _ _ _ Hi Hrow0) as [Hc0 Hc1].
    assert (Ht0 : rowTracked row0) by (unfold rowTracked; by rewrite <- Hc0).
    exists (parseRow i row0). split; [apply recordsFrom_elem; by exists i, row0|].
    split; [|done]. rewrite <- (orphan_row _ _ Hrow0 Ht0). by rewrite Nat.add_comm.
  - right. apply list_elem_of_lookup_2, ins_origin in Hi
      as (n & src & tgt & evs & p & Hd & Hp & ->).
    by exists src, tgt, evs, (fst p).
Qed.

End AfterPass.

(** ** A pass without errors *)

Lemma all_fulfilled {T R} (Rel : T → TraceEntry → Settled R → Prop) (proj : R → T)
    items ts rs :
  (∀ x t v, Rel x t (Fulfilled v) → proj v = x) →
  Forall3 Rel items ts rs → rejectedCount rs = 0 →
  map proj (fulfilledValues rs) = items.
Proof.
  intros Hproj. induction 1 as [|x t r items ts rs Hr _ IH]; [done|].
  rewrite fulfilledValues_cons, rejectedCount_cons. destruct r as [v|e]; [|done].
  intros H0. cbn [map]. f_equal; [by eapply Hproj|by apply IH].
Qed.

Lemma syncDirection_clean {W} (svc : Services W) evs records src tgt prefix s res s' :
  syncDirection svc evs records src tgt prefix s = Some (Fulfilled res, s') →
  errors (stats res) = 0 →
  ∃ cr,
    map fst cr = toCreate (analyzeEvents evs records src tgt)
    ∧ pendingInserts res = map (λ p, pendingInsertOf src tgt (fst p) (snd p)) cr
    ∧ pendingUpdates res
      = map (λ p, pendingUpdateOf (fst p) (snd p))
            (toUpdate (analyzeEvents evs records src tgt)).
Proof.
  intros Hrun Herr.
  destruct (syncDirection_run svc evs records src tgt prefix s)
    as (rsC & rsU & s1 & s'' & trC & trU & _ & _ & HC & _ & _ & HU & Hrun').
  rewrite Hrun' in Hrun. injection Hrun as <- <-. cbn in Herr.
  exists (fulfilledValues rsC). split; [|split; [done|]].
  - apply (all_fulfilled _ fst _ _ _ (λ x t v H, proj1 (proj2 H)) HC). lia.
  - assert (Hall : fulfilledValues rsU = toUpdate (analyzeEvents evs records src tgt)).
    { rewrite <- (map_id (fulfilledValues rsU)).
      apply (all_fulfilled _ id _ _ _ (λ x t v H, proj1 (proj2 H)) HU). lia. }
    cbn [pendingUpdates]. by rewrite Hall.
Qed.

Lemma detectAndDeleteOrphans_clean {W} (svc : Services W) evsA evsB records a b s res s' :
  detectAndDeleteOrphans svc evsA evsB records a b s = Some (Fulfilled res, s') →
  orphans_errors res = 0 →
  map del_rowId (pendingDeletes res) = map rec_id (findOrphans evsA evsB records a b).
Proof.
  intros Hrun Herr.
  destruct (detectAndDeleteOrphans_run svc evsA evsB records a b s)
    as (rs & s'' & tr & _ & _ & HD & Hrun').
  rewrite Hrun' in Hrun. injection Hrun as <- <-. cbn in Herr.
  assert (Hall : fulfilledValues rs = findOrphans evsA evsB records a b).
  { rewrite <- (map_id (fulfilledValues rs)).
    apply (all_fulfilled _ id _ _ _ (λ x t v H, proj1 (proj2 H)) HD Herr). }
  cbn [pendingDeletes]. rewrite map_map, Hall. done.
Qed.

(** The world after steps 3 to 10 of a pass without errors. *)
Lemma reconcile_effect faults env evsA evsB records s out s' :
  let a := default "" (CALENDAR_A_ID env) in
  let b := default "" (CALENDAR_B_ID env) in
  reconcile (gservices faults) env evsA evsB records s = Some (Fulfilled out, s') →
  errors (aToBStats out) = 0 → errors (bToAStats out) = 0 →
  snd (deletionStats out) = 0 →
  ∃ crAB crBA n1 n2 n3 n4 sheetId,
    map fst crAB = toCreate (analyzeEvents evsA records a b)
    ∧ map fst crBA = toCreate (analyzeEvents evsB records b a)
    ∧ calendarInvariant (findOrphans evsA evsB records a b) (world s)
        (sheetAfter (sheetRows (world s))
           (map (createdRow n1 a b) crAB)
           (map (updatedRow n2) (toUpdate (analyzeEvents evsA records a b)))
           (map (createdRow n3 b a) crBA)
           (map (updatedRow n4) (toUpdate (analyzeEvents evsB records b a)))
           sheetId (map rec_id (findOrphans evsA evsB records a b)))
        (world s').
Proof.
  intros a b Hrun HeAB HeBA HeD.
  apply reconcile_stages in Hrun
    as (ab & s3 & s4 & ba & s5 & s6 & orph & s7 & s8
        & HAB & HwAB & HBA & HwBA & HO & HwO & Hn & ->).
  cbn in HeAB, HeBA, HeD. fold a b in HAB, HBA, HO.
  destruct (syncDirection_clean _ _ _ _ _ _ _ _ _ HAB HeAB) as (crAB & HcrAB & HiAB & HuAB).
  destruct (syncDirection_clean _ _ _ _ _ _ _ _ _ HBA HeBA) as (crBA & HcrBA & HiBA & HuBA).
  pose proof (detectAndDeleteOrphans_clean _ _ _ _ _ _ _ _ _ HO HeD) as HdO.
  set (orphans := findOrphans evsA evsB records a b) in *.
  pose proof (calendarInvariant_start orphans (world s)) as H2.
  pose proof (syncDirection_calendarInvariant faults orphans (world s) _ _ _ _ _ _
                _ _ _ H2 HAB) as H3.
  destruct (batchWrite_calendarInvariant _ _ _ _ _ _ _ _ HwAB H3) as (n1 & n2 & H4).
  pose proof (syncDirection_calendarInvariant faults orphans (world s) _ _ _ _ _ _
                _ _ _ H4 HBA) as H5.
  destruct (batchWrite_calendarInvariant _ _ _ _ _ _ _ _ HwBA H5) as (n3 & n4 & H6).
  pose proof (detectAndDeleteOrphans_calendarInvariant faults (world s) _ _ _ _ _ _
                _ _ _ H6 HO) as H7.
  destruct (deleteOrphanRows_calendarInvariant _ _ _ _ _ _ _ _ HwO H7) as (sheetId & H8).
  assert (s' = s8) as ->.
  { unfold notifyErrors in Hn. rewrite HeAB, HeBA, HeD in Hn. cbn in Hn.
    by injection Hn as ->. }
  exists crAB, crBA, n1, n2, n3, n4, sheetId. split; [done|]. split; [done|].
  rewrite HiAB, HuAB, HiBA, HuBA, HdO, !map_map in H8. exact H8.
Qed.

(** ** A pass with nothing to do *)

Lemma syncDirection_quiet {W} (svc : Services W) evs records src tgt prefix s :
  toCreate (analyzeEvents evs records src tgt) = [] →
  toUpdate (analyzeEvents evs records src tgt) = [] →
  syncDirection svc evs records src tgt prefix s
  = Some (Fulfilled {| stats := zeroStats; pendingInserts := []; pendingUpdates := [] |}, s).
Proof. intros HC HU. unfold syncDirection. rewrite HC, HU. reflexivity. Qed.

Lemma detectAndDeleteOrphans_quiet {W} (svc : Services W) evsA evsB records a b s :
  findOrphans evsA evsB records a b = [] →
  detectAndDeleteOrphans svc evsA evsB records a b s
  = Some (Fulfilled {| orphans_deleted := 0; orphans_errors := 0; pendingDeletes := [] |}, s).
Proof. intros HO. unfold detectAndDeleteOrphans. rewrite HO. reflexivity. Qed.

(** With nothing to create, update or delete, steps 3 to 10 make one
    request, the lookup of the sheet id, and leave the world as it is. *)
Lemma reconcile_quiet faults env evsA evsB records s :
  let a := default "" (CALENDAR_A_ID env) in
  let b := default "" (CALENDAR_B_ID env) in
  let sid := default "" (SPREADSHEET_ID env) in
  toCreate (analyzeEvents evsA records a b) = [] →
  toUpdate (analyzeEvents evsA records a b) = [] →
  toCreate (analyzeEvents evsB records b a) = [] →
  toUpdate (analyzeEvents evsB records b a) = [] →
  findOrphans evsA evsB records a b = [] →
  faults (CSpreadsheetsGet sid) = None →
  reconcile (gservices faults) env evsA evsB records s
  = Some (Fulfilled {| aToBStats := zeroStats; bToAStats := zeroStats;
                       deletionStats := (0, 0);
                       out_eventsA := length evsA; out_eventsB := length evsB;
                       sheetRecords := length records |},
          {| world := world s;
             trace := trace s ++ [readEntry faults (CSpreadsheetsGet sid)] |}).
Proof.
  intros a b sid HcA HuA HcB HuB HO Hget.
  assert (Hw : ∀ s0 : State GWorld,
             batchWrite (gservices faults) sid
               {| stats := zeroStats; pendingInserts := []; pendingUpdates := [] |} s0
             = Some (Fulfilled tt, s0)) by done.
  unfold reconcile, runStep. cbv zeta. fold a b sid. clearbody a b sid.
  rewrite await_unfold. rewrite (syncDirection_quiet _ _ _ _ _ _ _ HcA HuA).
  rewrite await_unfold. rewrite Hw.
  rewrite await_unfold. rewrite (syncDirection_quiet _ _ _ _ _ _ _ HcB HuB).
  rewrite await_unfold. rewrite Hw.
  rewrite await_unfold. rewrite (detectAndDeleteOrphans_quiet _ _ _ _ _ _ _ HO).
  rewrite await_unfold. unfold deleteOrphanRows, getSheetId.
  rewrite !await_unfold. rewrite invoke_unfold.
  cbn [spreadsheets_get gservices]. rewrite Hget.
  unfold readEntry. rewrite Hget. reflexivity.
Qed.

Lemma deleteOrphanRows_sheet_get faults sid orph s s' :
  deleteOrphanRows (gservices faults) sid orph s = Some (Fulfilled tt, s') →
  faults (CSpreadsheetsGet sid) = None.
Proof.
  unfold deleteOrphanRows, getSheetId. intros Hrun.
  apply await_fulfilled in Hrun as (sheetId & s1 & Hget & _).
  apply await_fulfilled in Hget as (sheets & s0 & Hget & _).
  rewrite invoke_unfold in Hget. cbn [spreadsheets_get gservices] in Hget.
  by destruct (faults _).
Qed.

Lemma reconcile_sheet_get faults env evsA evsB records s out s' :
  reconcile (gservices faults) env evsA evsB records s = Some (Fulfilled out, s') →
  faults (CSpreadsheetsGet (default "" (SPREADSHEET_ID env))) = None.
Proof.
  intros Hrun. apply reconcile_stages in Hrun
    as (ab & s3 & s4 & ba & s5 & s6 & orph & s7 & s8 & _ & _ & _ & _ & _ & HwO & _).
  by eapply deleteOrphanRows_sheet_get.
Qed.

(** ** The fetched events *)

Lemma fetched_cases faults env c w :
  fetched faults env c w = [] ∨ ∀ w', fetched faults env c w' = calendarOf w' c.
Proof.
  unfold fetched. cbn [events_list gservices].
  destruct (faults _); [by left|by right].
Qed.

Lemma fetched_elem faults env c w x :
  x ∈ fetched faults env c w → ∀ w', fetched faults env c w' = calendarOf w' c.
Proof.
  intros Hx. destruct (fetched_cases faults env c w) as [Hnil|Hall]; [|done].
  rewrite Hnil in Hx. by apply elem_of_nil in Hx.
Qed.

Lemma filter_none {A} (P : A → Prop) `{∀ x, Decision (P x)} (l : list A) :
  (∀ x, x ∈ l → ¬ P x) → filter P l = [].
Proof.
  induction l as [|x l IH]; intros Hl; [done|]. rewrite filter_cons.
  destruct (decide (P x)) as [HP|_]; [by destruct (Hl x); [left|]|].
  apply IH. intros y Hy. apply Hl. by right.
Qed.

(** ** The calendars the second pass fetches *)

Section SecondPass.

Context (faults : Call → option JsError) (env : Env) (a b : string) (w0 w1 : GWorld).
Context (orphans : list SyncedEventRecord).

Hypothesis Hwf : wellFormed a b w0.
Hypothesis Horphans : ∀ r, r ∈ orphans → r ∈ parseRows (sheetRows w0).
Hypothesis Hcopies : copiesOrOriginals w0 w1.
Hypothesis Hids : idsKept orphans w0 w1.

(** An event without the marker was there before the first pass. *)
Lemma fetched_original c e :
  e ∈ fetched faults env c w1 → isSyncedCopy e = false → e ∈ fetched faults env c w0.
Proof.
  intros He Hcopy. pose proof (fetched_elem _ _ _ _ _ He) as Hall.
  rewrite Hall in He |- *. destruct (Hcopies c e He) as [Ht|Ho]; [congruence|done].
Qed.

(** An original is still there after the first pass. *)
Lemma fetched_again c e :
  e ∈ fetched faults env c w0 → isSyncedCopy e = false →
  ev_id e ∈ map ev_id (fetched faults env c w1).
Proof.
  intros He Hcopy. pose proof (fetched_elem _ _ _ _ _ He) as Hall.
  rewrite Hall in He |- *.
  destruct (Hids c (ev_id e)) as [Hin|(r & Hr & Hc & Hid)]; [|done|].
  { apply list_elem_of_In, in_map. by apply list_elem_of_In. }
  pose proof (wf_secondaries _ _ _ Hwf) as Hsec.
  rewrite Forall_forall in Hsec. specialize (Hsec r (Horphans r Hr)).
  rewrite Forall_forall in Hsec. rewrite Hc in Hsec.
  specialize (Hsec e He (eq_sym Hid)). congruence.
Qed.

(** The primary of a record that was on its calendar is still there. *)
Lemma primary_again r :
  r ∈ parseRows (sheetRows w0) →
  primary_event_id r ∈ map ev_id (fetched faults env (primary_calendar r) w0) →
  primary_event_id r ∈ map ev_id (fetched faults env (primary_calendar r) w1).
Proof.
  intros Hr (e & Hid & He)%list_elem_of_In%in_map_iff. apply list_elem_of_In in He.
  rewrite <- Hid. apply fetched_again; [done|].
  pose proof (wf_primaries _ _ _ Hwf) as Hprim.
  rewrite Forall_forall in Hprim. specialize (Hprim r Hr).
  rewrite Forall_forall in Hprim. apply Hprim; [|done].
  by rewrite <- (fetched_elem _ _ _ _ _ He w0).
Qed.

End SecondPass.

(** ** The analysis of the second pass *)

Lemma fetched_NoDup faults env c w :
  NoDup (map ev_id (calendarOf w c)) → NoDup (map ev_id (fetched faults env c w)).
Proof.
  intros Hnd. destruct (fetched_cases faults env c w) as [->|Hall].
  - constructor.
  - by rewrite Hall.
Qed.

Lemma fetched_colonFree faults env c w e :
  Forall (λ e, colonFree (ev_id e) = true) (calendarOf w c) →
  e ∈ fetched faults env c w → colonFree (ev_id e) = true.
Proof.
  intros Hcf He. rewrite (fetched_elem _ _ _ _ _ He) in He.
  rewrite Forall_forall in Hcf. by apply Hcf.
Qed.

(** After a pass without errors over a well-formed world, neither
    direction has an event to create or update, and no record is an
    orphan. *)
Lemma second_analysis faults env w0 w1 h rows0 crAB crBA n1 n2 n3 n4 :
  let a := default "" (CALENDAR_A_ID env) in
  let b := default "" (CALENDAR_B_ID env) in
  let evsA := fetched faults env a w0 in
  let evsB := fetched faults env b w0 in
  let recs := recordsFrom 0 rows0 in
  let orphans := findOrphans evsA evsB recs a b in
  let recs2 :=
    recordsFrom 0
      (rowsAfter rows0
         (map (updatedRow n2) (toUpdate (analyzeEvents evsA recs a b))
          ++ map (updatedRow n4) (toUpdate (analyzeEvents evsB recs b a)))
         (map (createdRow n1 a b) crAB ++ map (createdRow n3 b a) crBA)
         (map rec_id orphans)) in
  let evsA2 := fetched faults env a w1 in
  let evsB2 := fetched faults env b w1 in
  wellFormed a b w0 →
  sheetRows w0 = h :: rows0 →
  map fst crAB = toCreate (analyzeEvents evsA recs a b) →
  map fst crBA = toCreate (analyzeEvents evsB recs b a) →
  copiesOrOriginals w0 w1 → idsKept orphans w0 w1 →
  toCreate (analyzeEvents evsA2 recs2 a b) = []
  ∧ toUpdate (analyzeEvents evsA2 recs2 a b) = []
  ∧ toCreate (analyzeEvents evsB2 recs2 b a) = []
  ∧ toUpdate (analyzeEvents evsB2 recs2 b a) = []
  ∧ findOrphans evsA2 evsB2 recs2 a b = [].
Proof.
  intros a b evsA evsB recs orphans recs2 evsA2 evsB2 Hwf Hsheet HcrAB HcrBA Hcopies Hids.
  assert (Hrecs : parseRows (sheetRows w0) = recs).
  { rewrite Hsheet. apply parseRows_cons. }
  pose proof (wf_distinct _ _ _ Hwf) as Hab.
  pose proof (wf_calendar_a _ _ _ Hwf) as Ha.
  pose proof (wf_calendar_b _ _ _ Hwf) as Hb.
  pose proof (fetched_NoDup faults env a w0 (wf_unique_a _ _ _ Hwf)) as HndA.
  pose proof (fetched_NoDup faults env b w0 (wf_unique_b _ _ _ Hwf)) as HndB.
  pose proof (λ e, fetched_colonFree faults env a w0 e (wf_ids_a _ _ _ Hwf)) as HcfA.
  pose proof (λ e, fetched_colonFree faults env b w0 e (wf_ids_b _ _ _ Hwf)) as HcfB.
  assert (Hcfr : ∀ r, r ∈ recs → colonFree (primary_event_id r) = true).
  { pose proof (wf_record_ids _ _ _ Hwf) as Hcf. rewrite Hrecs, Forall_forall in Hcf.
    exact Hcf. }
  assert (Horph : ∀ r, r ∈ orphans → r ∈ parseRows (sheetRows w0)).
  { intros r Hr. rewrite Hrecs. unfold orphans in Hr. rewrite findOrphans_spec in Hr.
    by apply list_elem_of_filter in Hr as [_ Hr]. }
  pose proof (second_lookup a b evsA evsB rows0 crAB crBA n1 n2 n3 n4
                Hab Ha Hb HndA HndB HcfA HcfB Hcfr HcrAB HcrBA) as Hlookup.
  pose proof (second_records a b evsA evsB rows0 crAB crBA n1 n2 n3 n4 HcrAB HcrBA)
    as Hrecords.
  fold recs orphans recs2 in Hlookup, Hrecords.
  assert (HqA : toCreate (analyzeEvents evsA2 recs2 a b) = []
                ∧ toUpdate (analyzeEvents evsA2 recs2 a b) = []).
  { rewrite analyzeEvents_by_key. apply quiet_analysis. intros e He.
    apply quiet_class. intros Hid Hcopy Hatt.
    apply (Hlookup a b evsA e); [by left| |done..].
    by apply (fetched_original faults env w0 w1 Hcopies). }
  assert (HqB : toCreate (analyzeEvents evsB2 recs2 b a) = []
                ∧ toUpdate (analyzeEvents evsB2 recs2 b a) = []).
  { rewrite analyzeEvents_by_key. apply quiet_analysis. intros e He.
    apply quiet_class. intros Hid Hcopy Hatt.
    apply (Hlookup b a evsB e); [by right| |done..].
    by apply (fetched_original faults env w0 w1 Hcopies). }
  destruct HqA as [? ?], HqB as [? ?]. do 4 (split; [done|]).
  rewrite findOrphans_spec. apply filter_none. intros r2 Hr2 Ho.
  assert (Hkept : ∀ c r1, r1 ∈ recs → primary_calendar r1 = c →
            primary_event_id r1 ∈ map ev_id (fetched faults env c w0) →
            primary_event_id r1 ∈ map ev_id (fetched faults env c w1)).
  { intros c r1 Hr1 <-. apply (primary_again faults env a b w0 w1 orphans); try done.
    by rewrite Hrecs. }
  assert (Hcreated : ∀ c e, e ∈ fetched faults env c w0 → isSyncedCopy e = false →
            ev_id e ∈ map ev_id (fetched faults env c w1)).
  { intros c e. by apply (fetched_again faults env a b w0 w1 orphans). }
  destruct (Hrecords r2 Hr2)
    as [(r1 & Hr1 & Hno & Hpc & Hpid)|(src & tgt & evs & e & Hd & He & Hpc & Hpid)].
  - assert (Hnot : ¬ orphanSpec evsA evsB a b r1).
    { intros Hsp. apply Hno. unfold orphans. rewrite findOrphans_spec.
      by apply list_elem_of_filter. }
    unfold orphanSpec in Ho, Hnot. rewrite Hpc, Hpid in Ho.
    destruct Ho as [[Hc Hn]|[Hc Hn]]; apply Hn, Hkept; try done.
    + destruct (decide (primary_event_id r1 ∈ map ev_id evsA)); [done|].
      destruct Hnot. by left.
    + destruct (decide (primary_event_id r1 ∈ map ev_id evsB)); [done|].
      destruct Hnot. by right.
  - apply toCreate_lookup in He as (He & Hcopy & _).
    unfold orphanSpec in Ho. rewrite Hpc, Hpid in Ho.
    destruct Ho as [[Hc Hn]|[Hc Hn]]; apply Hn, Hcreated; try done;
      destruct Hd as [(-> & _ & ->)|(-> & _ & ->)]; try done; by destruct Hab.
Qed.

(** ** Idempotence of a pass *)




(** ** Why the conditions

    Each of the following worlds misses one condition of [wellFormed]; the
    first pass completes without errors, and the second pass is not
    quiet. *)

(** Without the header row, [loadSyncedEvents] takes the first appended
    row for the header: the event is created again. *)
Lemma headerless_sheet_second_pass_creates :
  ∃ out1 s1 out2 s2,
    syncGoogleCalendarsWorkflow (gservices noFaults) exampleEnv (startOf bareWorld)
      = Some (Fulfilled out1, s1)
    ∧ errors (aToBStats out1) = 0 ∧ errors (bToAStats out1) = 0
    ∧ snd (deletionStats out1) = 0
    ∧ syncGoogleCalendarsWorkflow (gservices noFaults) exampleEnv (startOf (world s1))
      = Some (Fulfilled out2, s2)
    ∧ created (aToBStats out2) = 1.
Proof.
  eexists _, _, _, _. split; [vm_compute; reflexivity|].
  do 3 (split; [reflexivity|]).
  split; [vm_compute; reflexivity|]. reflexivity.
Qed.

(** An event without the marker that the ledger tracks as the copy of a
    vanished primary is copied and then deleted by the first pass; the
    second pass deletes the copy. *)
Lemma unmarked_copy_second_pass_deletes :
  ∃ out1 s1 out2 s2,
    syncGoogleCalendarsWorkflow (gservices noFaults) exampleEnv
      (startOf unmarkedCopyWorld)
      = Some (Fulfilled out1, s1)
    ∧ errors (aToBStats out1) = 0 ∧ errors (bToAStats out1) = 0
    ∧ snd (deletionStats out1) = 0
    ∧ syncGoogleCalendarsWorkflow (gservices noFaults) exampleEnv (startOf (world s1))
      = Some (Fulfilled out2, s2)
    ∧ deletionStats out2 = (1, 0).
Proof.
  eexists _, _, _, _. split; [vm_compute; reflexivity|].
  do 3 (split; [reflexivity|]).
  split; [vm_compute; reflexivity|]. reflexivity.
Qed.

(** Two events with one id share the record key: the second pass finds
    the row of the one for the other, and updates. *)
Lemma duplicate_ids_second_pass_updates :
  ∃ out1 s1 out2 s2,
    syncGoogleCalendarsWorkflow (gservices noFaults) exampleEnv (startOf twinsWorld)
      = Some (Fulfilled out1, s1)
    ∧ errors (aToBStats out1) = 0 ∧ errors (bToAStats out1) = 0
    ∧ snd (deletionStats out1) = 0
    ∧ syncGoogleCalendarsWorkflow (gservices noFaults) exampleEnv (startOf (world s1))
      = Some (Fulfilled out2, s2)
    ∧ updated (aToBStats out2) = 1.
Proof.
  eexists _, _, _, _. split; [vm_compute; reflexivity|].
  do 3 (split; [reflexivity|]).
  split; [vm_compute; reflexivity|]. reflexivity.
Qed.


(** * More of the engine

    Properties of the functions around the ones above: the event
    utilities, the calendar and ledger helpers, the alerts, the earlier
    orchestrator and the helpers of the integration test. *)

(** ** Strings *)

Lemma string_length_app (x y : string) :
  String.length (x +:+ y) = String.length x + String.length y.
Proof.
  induction x as [|c x IH]; [done|].
  change (S (String.length (x +:+ y)) = S (String.length x + String.length y)).
  by rewrite IH.
Qed.

Lemma string_app_inj_r (x y b : string) : x +:+ b = y +:+ b → x = y.
Proof.
  revert y. induction x as [|c x IH]; intros [|d y] Heq.
  - done.
  - apply (f_equal String.length) in Heq.
    change (String.length b = S (String.length (y +:+ b))) in Heq.
    rewrite string_length_app in Heq. lia.
  - apply (f_equal String.length) in Heq.
    change (S (String.length (x +:+ b)) = String.length b) in Heq.
    rewrite string_length_app in Heq. lia.
  - change (String c (x +:+ b) = String d (y +:+ b)) in Heq.
    injection Heq as -> Heq. f_equal. by apply IH.
Qed.

Lemma string_app_inj_l (a x y : string) : a +:+ x = a +:+ y → x = y.
Proof. apply String.app_inj. Qed.

(** ** The marker of a copy *)

Lemma buildSyncedDescription_includes_tag e prefix src :
  Js.includes (buildSyncedDescription e prefix src) SYNC_TAG = true.
Proof.
  unfold buildSyncedDescription. cbv zeta.
  match goal with
  | |- Js.includes (Js.join ?sep (?parts ++ [?x])) _ = true =>
      destruct (join_snoc sep parts x) as [a ->]
  end.
  apply includes_app_r.
  apply (includes_middle (String (ascii_of_nat 10) EmptyString) SYNC_TAG).
Qed.

(** X1. A copy is never synced back. Whatever the source event, prefix
    and source calendar, an event whose description is the one
    [buildSyncedEventBody] writes is recognised by [isSyncedCopy], and the
    analysis of any event list against any ledger puts it neither in
    [toCreate] nor in [toUpdate]. *)
Theorem synced_copy_is_never_synced_back (e ev : GoogleCalendarEvent)
    (prefix src : string) :
  description ev = Some (body_description (buildSyncedEventBody e prefix src)) →
  isSyncedCopy ev = true
  ∧ ∀ events records source target,
      (ev ∉ toCreate (analyzeEvents events records source target))
      ∧ ∀ r, (ev, r) ∉ toUpdate (analyzeEvents events records source target).
Proof.
  intros Hd.
  assert (Hcopy : isSyncedCopy ev = true).
  { unfold isSyncedCopy. rewrite Hd. apply buildSyncedDescription_includes_tag. }
  split; [done|]. intros events records source target. split.
  - intros (_ & Hno & _)%toCreate_lookup. congruence.
  - intros r. rewrite analyzeEvents_by_key. intros [_ Hc]%elem_of_toUpdate_analysisBy.
    unfold classifyByKey in Hc. apply classifyWith_Update in Hc as (_ & Hno & _).
    congruence.
Qed.

Lemma synced_copy_is_never_synced_back_witness :
  isSyncedCopy (copyOf "y1" standup "[A]" "A") = true
  ∧ toCreate (analyzeEvents [copyOf "y1" standup "[A]" "A"] [] "B" "A") = [].
Proof.
  destruct (synced_copy_is_never_synced_back standup (copyOf "y1" standup "[A]" "A")
              "[A]" "A" eq_refl) as [Hcopy Hnever].
  split; [exact Hcopy|]. reflexivity.
Defined.

(** ** Datetime normalization *)

(** X2. [normalizeDateTime] is idempotent, keeps the date string that the
    ledger stores, and returns its argument as it is unless the time zone
    is the empty string, which it drops. *)
Theorem normalizeDateTime_idempotent (dt : option EventDateTime) :
  normalizeDateTime (normalizeDateTime dt) = normalizeDateTime dt
  ∧ getDateString (normalizeDateTime dt) = getDateString dt
  ∧ (normalizeDateTime dt = None ↔ dt = None)
  ∧ (normalizeDateTime dt = dt
     ∨ ∃ t, dt = Some (DateTime t (Some ""))
            ∧ normalizeDateTime dt = Some (DateTime t None)).
Proof.
  destruct dt as [[t [z|]|d]|]; cbn; try by (repeat split; auto; try done).
  destruct z as [|c z]; cbn.
  - repeat split; try done. right. by exists t.
  - repeat split; try done. by left.
Qed.

(** ** What a signature tells apart *)

Lemma string_app_nil_r (x : string) : x +:+ "" = x.
Proof.
  induction x as [|c x IH]; [done|].
  change (String c (x +:+ "") = String c x). by rewrite IH.
Qed.

Lemma computeSignature_join e : computeSignature e = Js.join "|" (signatureFields e).
Proof. reflexivity. Qed.

(** A joined list reads [p ++ x ++ s] around any one of its elements. *)
Lemma join_middle sep l1 l2 :
  ∃ p s, ∀ x, Js.join sep (l1 ++ x :: l2) = p +:+ x +:+ s.
Proof.
  unfold Js.join. induction l1 as [|a l1 (p & s & IH)].
  - destruct l2 as [|b l2].
    + exists "", "". intros x. cbn. by rewrite string_app_nil_r.
    + exists "", (sep +:+ String.concat sep (b :: l2)). intros x. reflexivity.
  - exists (a +:+ sep +:+ p), s. intros x.
    change (String.concat sep ((a :: l1) ++ x :: l2))
      with (String.concat sep (a :: (l1 ++ x :: l2))).
    destruct (l1 ++ x :: l2) as [|z rest] eqn:Heq.
    { by destruct l1. }
    change (String.concat sep (a :: z :: rest))
      with (a +:+ sep +:+ String.concat sep (z :: rest)).
    rewrite <- Heq, IH. symmetry. etrans; [apply string_app_assoc|].
    f_equal. apply string_app_assoc.
Qed.

(** X3. A change of one signature field is always detected: when two
    events agree on six of the seven values that [computeSignature] joins
    (title, start, end, location, busy/free flag, conference link and
    description, an absent string counting as the empty one), their
    signatures are equal exactly when the seventh value is equal too. *)
Theorem computeSignature_detects_field_change (e1 e2 : GoogleCalendarEvent)
    (before : list string) (x y : string) (after : list string) :
  signatureFields e1 = before ++ x :: after →
  signatureFields e2 = before ++ y :: after →
  (computeSignature e1 = computeSignature e2 ↔ x = y).
Proof.
  intros H1 H2. rewrite !computeSignature_join, H1, H2.
  destruct (join_middle "|" before after) as (p & s & Hj). rewrite !Hj.
  split; [|by intros ->].
  intros Heq. apply string_app_inj_l in Heq. by apply string_app_inj_r in Heq.
Qed.

Lemma computeSignature_detects_field_change_witness :
  computeSignature (titled "e1" "one") ≠ computeSignature (titled "e1" "two").
Proof.
  intros Heq.
  apply (computeSignature_detects_field_change (titled "e1" "one") (titled "e1" "two")
           [] "one" "two" ["undefined"; "undefined"; ""; ""; ""; ""]
           eq_refl eq_refl) in Heq.
  discriminate Heq.
Defined.

(** X4. A signature does not determine the event. An absent title and an
    empty one give the same signature, and so do a conference link that
    ends in [|] and the same link with the [|] moved to the front of the
    description: such an edit is not seen as a change. *)
Theorem computeSignature_is_not_injective (e : GoogleCalendarEvent) (link text : string) :
  let withFields t h d :=
    {| ev_id := ev_id e; summary := t; start := start e; end_ := end_ e;
       location := location e; description := d; attendees := attendees e;
       hangoutLink := h; transparency := transparency e; status := status e;
       recurringEventId := recurringEventId e |} in
  computeSignature (withFields None (hangoutLink e) (description e))
    = computeSignature (withFields (Some "") (hangoutLink e) (description e))
  ∧ computeSignature (withFields (summary e) (Some (link +:+ "|")) (Some text))
    = computeSignature (withFields (summary e) (Some link) (Some ("|" +:+ text)))
  ∧ withFields (summary e) (Some (link +:+ "|")) (Some text)
    ≠ withFields (summary e) (Some link) (Some ("|" +:+ text)).
Proof.
  intros withFields. split; [reflexivity|]. split.
  - unfold computeSignature, withFields; cbn [summary start end_ location transparency
      hangoutLink description default from_option id].
    do 5 f_equal. unfold id. rewrite string_app_assoc. reflexivity.
  - unfold withFields. intros Heq. injection Heq as Heq _.
    apply (f_equal String.length) in Heq. rewrite string_length_app in Heq.
    cbn in Heq. lia.
Qed.

(** ** The body of a copy *)

(** X5. The location of a copy. The request body never carries an empty
    location; a non-empty location of the source event is taken as it is;
    without one the joined room names are used when the event has resource
    attendees and the names are not empty, and no location is set
    otherwise. The title always starts with the prefix, and the busy/free
    flag defaults to [opaque]. *)
Theorem buildSyncedEventBody_location (e : GoogleCalendarEvent) (prefix src : string) :
  let body := buildSyncedEventBody e prefix src in
  let rooms := filter (λ a, isRoom a = true) (default [] (attendees e)) in
  body_location body ≠ Some ""
  ∧ (Js.truthy (location e) = true → body_location body = location e)
  ∧ (Js.truthy (location e) = false → rooms = [] → body_location body = None)
  ∧ (Js.truthy (location e) = false → rooms ≠ [] →
     Js.join ", " (map roomLabel rooms) ≠ "" →
     body_location body = Some (Js.join ", " (map roomLabel rooms)))
  ∧ String.prefix (prefix +:+ " ") (body_summary body) = true
  ∧ (transparency e = None → body_transparency body = "opaque").
Proof.
  intros body rooms. unfold body, buildSyncedEventBody. cbv zeta. fold rooms.
  cbn [body_location body_summary body_transparency].
  assert (Hne : ∀ x : option string, (if Js.truthy x then x else None) ≠ Some "").
  { intros [[|c x]|]; cbn; congruence. }
  split; [apply Hne|]. split; [|split; [|split; [|split]]].
  - intros Ht. rewrite Ht. by rewrite Ht.
  - intros Hf Hr. rewrite Hf, Hr. reflexivity.
  - intros Hf Hr Hj. rewrite Hf. destruct rooms as [|r rs] eqn:Hrooms; [done|].
    assert (Htr : Js.truthy (Some (Js.join ", " (map roomLabel (r :: rs)))) = true).
    { cbn [Js.truthy]. apply negb_true_iff. by apply String.eqb_neq. }
    rewrite Htr. by rewrite Htr.
  - etrans; [|apply (prefix_app (prefix +:+ " ") (default "" (summary e)))].
    f_equal. symmetry. apply string_app_assoc.
  - intros ->. reflexivity.
Qed.

(** ** The analysis, event by event *)

Lemma classifyWith_Ignored lookup tgt e :
  classifyWith lookup tgt e = Ignored ↔ ev_id e = "".
Proof.
  unfold classifyWith. destruct (String.eqb (ev_id e) "") eqn:Hid.
  - apply String.eqb_eq in Hid. done.
  - apply String.eqb_neq in Hid.
    destruct (isSyncedCopy e || isTargetCalendarInAttendees e tgt); [done|].
    destruct (lookup (ev_id e)) as [r|]; [|done].
    by destruct (String.eqb (event_signature r) (computeSignature e)).
Qed.

(** X6. Every event with an id is accounted for exactly once: the events
    to create, the events to update, the unchanged ones and the skipped
    duplicates add up to the number of source events whose id is not
    empty. *)
Theorem analyzeEvents_accounts_for_every_event
    (events : list GoogleCalendarEvent) (records : list SyncedEventRecord)
    (src tgt : string) :
  let a := analyzeEvents events records src tgt in
  length (toCreate a) + length (toUpdate a) + unchanged a + skippedDuplicate a
  = length (filter (λ e, ev_id e ≠ "") events).
Proof.
  cbv zeta. rewrite analyzeEvents_by_key.
  induction events as [|e events IH]; [done|].
  rewrite analysisBy_cons, filter_cons. cbv zeta.
  pose proof (classifyWith_Ignored
                (λ eventId, buildRecordMap records !! recordKey eventId src) tgt e) as Hi.
  fold (classifyByKey records src tgt e) in Hi.
  destruct (classifyByKey records src tgt e) eqn:Hc;
    destruct (decide (ev_id e ≠ "")) as [Hid|Hid];
    cbn [toCreate toUpdate unchanged skippedDuplicate length];
    try (exfalso; apply Hid; intros Hid'; apply Hi in Hid'; discriminate);
    try (exfalso; apply Hid, Hi; reflexivity);
    try lia.
Qed.

(** X7. The analysis goes through the events in order and one by one: the
    analysis of two lists put end to end is the two analyses put end to
    end (lists appended, counts added), the events to create come in the
    order of the source list, and so do the events to update. *)
Theorem analyzeEvents_app (events1 events2 : list GoogleCalendarEvent)
    (records : list SyncedEventRecord) (src tgt : string) :
  let a1 := analyzeEvents events1 records src tgt in
  let a2 := analyzeEvents events2 records src tgt in
  let a := analyzeEvents (events1 ++ events2) records src tgt in
  toCreate a = toCreate a1 ++ toCreate a2
  ∧ toUpdate a = toUpdate a1 ++ toUpdate a2
  ∧ unchanged a = unchanged a1 + unchanged a2
  ∧ skippedDuplicate a = skippedDuplicate a1 + skippedDuplicate a2
  ∧ toCreate a `sublist_of` events1 ++ events2
  ∧ map fst (toUpdate a) `sublist_of` events1 ++ events2.
Proof.
  cbv zeta.
  assert (Happ : analyzeEvents (events1 ++ events2) records src tgt =
            {| toCreate := toCreate (analyzeEvents events1 records src tgt)
                           ++ toCreate (analyzeEvents events2 records src tgt);
               toUpdate := toUpdate (analyzeEvents events1 records src tgt)
                           ++ toUpdate (analyzeEvents events2 records src tgt);
               unchanged := unchanged (analyzeEvents events1 records src tgt)
                            + unchanged (analyzeEvents events2 records src tgt);
               skippedDuplicate :=
                 skippedDuplicate (analyzeEvents events1 records src tgt)
                 + skippedDuplicate (analyzeEvents events2 records src tgt) |}).
  { unfold analyzeEvents at 1. rewrite foldl_app.
    fold (analyzeEvents events1 records src tgt). rewrite analyzeOne_foldl. cbv zeta.
    rewrite (analyzeEvents_by_key events2). reflexivity. }
  assert (Hsub : toCreate (analyzeEvents (events1 ++ events2) records src tgt)
                   `sublist_of` events1 ++ events2
                 ∧ map fst (toUpdate (analyzeEvents (events1 ++ events2) records src tgt))
                   `sublist_of` events1 ++ events2).
  { rewrite analyzeEvents_by_key. cbn [toCreate toUpdate analysisBy].
    split; [apply sublist_filter|].
    generalize (events1 ++ events2). intros evs.
    induction evs as [|e evs IH]; [done|]. cbn [omap list_omap].
    destruct (updateOf e (classifyByKey records src tgt e)) as [[e' r]|] eqn:Hu.
    - destruct (classifyByKey records src tgt e); try discriminate.
      injection Hu as <- _. cbn [map fst]. by apply sublist_skip.
    - by apply sublist_cons. }
  destruct Hsub as [Hs1 Hs2]. do 4 (split; [by rewrite Happ|]). done.
Qed.

(** ** The record map *)

(** X8. In the record map a later record replaces an earlier one with
    the same key: the record found under the key of [r] is [r] itself when
    no record after it shares the key; a record that is found comes from
    the ledger and has the key it was looked up by; and nothing is found
    exactly when no record has the key. *)
Theorem buildRecordMap_last_wins (earlier later : list SyncedEventRecord)
    (r : SyncedEventRecord) :
  (∀ r', r' ∈ later →
     recordKey (primary_event_id r') (primary_calendar r')
     ≠ recordKey (primary_event_id r) (primary_calendar r)) →
  buildRecordMap (earlier ++ r :: later)
    !! recordKey (primary_event_id r) (primary_calendar r) = Some r
  ∧ (∀ key found,
       buildRecordMap (earlier ++ r :: later) !! key = Some found →
       found ∈ earlier ++ r :: later
       ∧ recordKey (primary_event_id found) (primary_calendar found) = key)
  ∧ (∀ key,
       buildRecordMap (earlier ++ r :: later) !! key = None ↔
       ∀ r', r' ∈ earlier ++ r :: later →
             recordKey (primary_event_id r') (primary_calendar r') ≠ key).
Proof.
  intros Hlater. split; [|split].
  - induction later as [|x later IH] using rev_ind.
    + change (earlier ++ [r]) with (earlier ++ [r]).
      rewrite buildRecordMap_snoc. by rewrite lookup_insert_eq.
    + rewrite app_comm_cons, (assoc_L (++)), buildRecordMap_snoc.
      rewrite lookup_insert_ne.
      * apply IH. intros r' Hr'. apply Hlater, elem_of_app. by left.
      * apply Hlater, elem_of_app. right. by left.
  - intros key found. apply buildRecordMap_lookup_Some.
  - intros key. apply buildRecordMap_lookup_None.
Qed.

Lemma buildRecordMap_last_wins_witness :
  buildRecordMap [blankRecord 2 "A" "e1" "old"; blankRecord 3 "A" "e1" "new"]
    !! recordKey "e1" "A" = Some (blankRecord 3 "A" "e1" "new").
Proof.
  apply (buildRecordMap_last_wins [blankRecord 2 "A" "e1" "old"] []
           (blankRecord 3 "A" "e1" "new")).
  intros r' Hr'. by apply elem_of_nil in Hr'.
Defined.

(** ** Loading the ledger *)

Lemma recordsFrom_sorted rows : ∀ o, StronglySorted lt (map rec_id (recordsFrom o rows)).
Proof.
  induction rows as [|x rows IH]; intros o.
  - rewrite recordsFrom_nil. constructor.
  - rewrite recordsFrom_cons. destruct (decide (rowTracked x)) as [Hx|Hx]; [|apply IH].
    cbn [app map]. constructor; [apply IH|].
    apply Forall_forall. intros i (r & <- & Hr)%list_elem_of_In%in_map_iff.
    apply list_elem_of_In, recordsFrom_elem in Hr as (j & row & _ & -> & _).
    cbn. lia.
Qed.

(** X9. The records that [loadSyncedEvents] makes of the rows carry their
    sheet row number. A sheet that is empty or holds the header only gives
    no record; every record has a non-empty primary calendar and a row
    number between 2 and the number of rows, and the row with that number
    (index [rec_id - 1]) is the row it was read from; the records come in
    ascending row order, no two with the same number; and every row after
    the header whose first cell is not empty gives a record. *)
Theorem loadSyncedEvents_row_numbers (rows : list (list string)) :
  (length rows ≤ 1 → parseRows rows = [])
  ∧ (∀ r, r ∈ parseRows rows →
       2 ≤ rec_id r ≤ length rows
       ∧ primary_calendar r ≠ ""
       ∧ ∃ row, rows !! (rec_id r - 1) = Some row ∧ r = parseRow (rec_id r - 2) row)
  ∧ StronglySorted lt (map rec_id (parseRows rows))
  ∧ (∀ i row, rows !! S i = Some row → cell row 0 ≠ "" →
       parseRow i row ∈ parseRows rows ∧ rec_id (parseRow i row) = S (S i)).
Proof.
  destruct rows as [|h data].
  { split; [done|]. split; [|split; [constructor|done]].
    intros r Hr. by apply elem_of_nil in Hr. }
  rewrite parseRows_cons. split; [|split; [|split]].
  - cbn [length]. intros Hlen. destruct data; [apply recordsFrom_nil|cbn in Hlen; lia].
  - intros r Hr. pose proof (recordsFrom_rec_id_bounds _ _ Hr) as Hb.
    destruct (recordsFrom_row _ _ Hr) as (row & Hrow & Her & Ht).
    cbn [length]. split; [lia|]. split.
    + rewrite Her. exact Ht.
    + exists row. split; [|done].
      replace (rec_id r - 1) with (S (rec_id r - 2)) by lia. exact Hrow.
  - apply recordsFrom_sorted.
  - intros i row Hrow Ht. cbn in Hrow. split.
    + apply recordsFrom_elem. by exists i, row.
    + cbn. lia.
Qed.

(** ** Calendar and alert helpers *)

(** X10. [deleteEvent] sends one delete request and treats 410 Gone as
    success: it fulfils when the request succeeds or is refused with code
    410, and rejects with the error of the request, unchanged, whenever it
    is refused with another code or none. *)
Theorem deleteEvent_treats_gone_as_success {W} (svc : Services W)
    (calendarId eventId : string) (s : State W) :
  ∃ r s' err,
    deleteEvent svc calendarId eventId s = Some (r, s')
    ∧ world s' = snd (events_delete svc calendarId eventId (world s))
    ∧ trace s' = trace s ++ [{| te_call := CEventsDelete calendarId eventId;
                                te_error := err |}]
    ∧ match fst (events_delete svc calendarId eventId (world s)) with
      | Fulfilled _ => err = None ∧ r = Fulfilled tt
      | Rejected e =>
          err = Some e
          ∧ (err_code e = Some 410 → r = Fulfilled tt)
          ∧ (err_code e ≠ Some 410 → r = Rejected e)
      end.
Proof.
  rewrite deleteEvent_unfold. cbv zeta.
  eexists _, _, _. split; [reflexivity|]. split; [reflexivity|]. split; [reflexivity|].
  destruct (fst (events_delete svc calendarId eventId (world s))) as [u|e]; [done|].
  split; [done|]. unfold accepted. cbn [te_error].
  case_bool_decide; split; intros; congruence.
Qed.

Lemma sendTelegramError_run {W} (svc : Services W) botToken chatId message s :
  ∃ s' err,
    sendTelegramError svc botToken chatId message s = Some (Fulfilled tt, s')
    ∧ trace s' = trace s ++ [{| te_call := CTelegram botToken chatId message;
                                te_error := err |}].
Proof.
  unfold sendTelegramError, tryCatch. rewrite await_unfold, invoke_unfold.
  destruct (telegram_post svc botToken chatId message (world s)) as [[ok|e] w'];
    cbn [fst snd]; eexists _, _; split; reflexivity.
Qed.

(** X11. [sendTelegramError] never throws: it posts the message once
    and fulfils, whether the post succeeds, is answered with an error
    status, or fails. *)
Theorem sendTelegramError_never_throws {W} (svc : Services W)
    (botToken chatId message : string) (s : State W) :
  ∃ s' err,
    sendTelegramError svc botToken chatId message s = Some (Fulfilled tt, s')
    ∧ trace s' = trace s ++ [{| te_call := CTelegram botToken chatId message;
                                te_error := err |}].
Proof. apply sendTelegramError_run. Qed.

(** X12. The error summary of step 10 is sent exactly when there is an
    error to report and the alert is configured: with no error, or without
    a bot token or a chat id, [notifyErrors] does nothing at all; otherwise
    it posts the summary once; it fulfils either way. *)
Theorem notifyErrors_only_on_errors {W} (svc : Services W)
    (botToken chatId : string) (ab ba : SyncStats) (orph : OrphanDetectionResult)
    (s : State W) :
  let total := errors ab + errors ba + orphans_errors orph in
  (total = 0 ∨ botToken = "" ∨ chatId = "" →
   notifyErrors svc botToken chatId ab ba orph s = Some (Fulfilled tt, s))
  ∧ (0 < total → botToken ≠ "" → chatId ≠ "" →
     ∃ s' err,
       notifyErrors svc botToken chatId ab ba orph s = Some (Fulfilled tt, s')
       ∧ trace s' = trace s ++
           [{| te_call :=
                 CTelegram botToken chatId
                   (errorsSummaryMessage ab ba
                      (orphans_deleted orph, orphans_errors orph) total);
               te_error := err |}]).
Proof.
  intros total. unfold notifyErrors. fold total. split.
  - intros [H0|[Hb|Hc]].
    + rewrite H0. reflexivity.
    + rewrite Hb. cbn. by rewrite andb_false_r.
    + rewrite Hc. cbn. by rewrite andb_false_r.
  - intros Hpos Hb Hc.
    assert (Nat.ltb 0 total = true) as -> by (by apply Nat.ltb_lt).
    apply String.eqb_neq in Hb, Hc. rewrite Hb, Hc. cbn [negb andb]. unfold runStep.
    apply sendTelegramError_run.
Qed.

(** ** What makes a pass fail *)

Lemma notifyFailure_run {W} (svc : Services W) env e s :
  let bot := default "" (TELEGRAM_BOT_TOKEN env) in
  let chat := default "" (TELEGRAM_CHAT_ID env) in
  ∃ s', notifyFailure svc env e s = Some (Rejected e, s')
    ∧ (bot ≠ "" → chat ≠ "" →
       ∃ err, trace s' = trace s ++
                [{| te_call := CTelegram bot chat (failureMessage (workflowID env) e);
                    te_error := err |}])
    ∧ (bot = "" ∨ chat = "" → s' = s).
Proof.
  intros bot chat. unfold notifyFailure. fold bot chat. rewrite await_unfold.
  destruct (String.eqb_spec bot "") as [Hb|Hb]; cbn [negb andb].
  { exists s. split; [done|]. split; [done|done]. }
  destruct (String.eqb_spec chat "") as [Hc|Hc]; cbn [negb andb].
  { exists s. split; [done|]. split; [done|done]. }
  destruct (sendTelegramError_run svc bot chat (failureMessage (workflowID env) e) s)
    as (s' & err & Hrun & Htr).
  unfold runStep. rewrite Hrun. exists s'. split; [done|]. split.
  - intros _ _. by exists err.
  - intros [?|?]; done.
Qed.

(** X13. The workflow neither swallows an error nor makes one up. A pass
    whose [try] block fulfils is fulfilled with the same output and state;
    one whose [try] block rejects is rejected with the very same error,
    after one alert with the workflow id and the error message when the bot
    token and the chat id are set, and after nothing when one is missing. *)
Theorem workflow_rethrows_after_alert {W} (svc : Services W) (env : Env)
    (s : State W) :
  let bot := default "" (TELEGRAM_BOT_TOKEN env) in
  let chat := default "" (TELEGRAM_CHAT_ID env) in
  match passBody svc env s with
  | Some (Fulfilled out, s1) =>
      syncGoogleCalendarsWorkflow svc env s = Some (Fulfilled out, s1)
  | Some (Rejected e, s1) =>
      ∃ s', syncGoogleCalendarsWorkflow svc env s = Some (Rejected e, s')
        ∧ (bot ≠ "" → chat ≠ "" →
           ∃ err, trace s' = trace s1 ++
                    [{| te_call :=
                          CTelegram bot chat (failureMessage (workflowID env) e);
                        te_error := err |}])
        ∧ (bot = "" ∨ chat = "" → s' = s1)
  | None => syncGoogleCalendarsWorkflow svc env s = None
  end.
Proof.
  intros bot chat. unfold syncGoogleCalendarsWorkflow, tryCatch.
  destruct (passBody svc env s) as [[[out|e] s1]|]; [done| |done].
  apply notifyFailure_run.
Qed.

Lemma alwaysFulfils_resolve {W A} (a : A) : alwaysFulfils (W:=W) (resolve a).
Proof. intros s. by exists a, s. Qed.

Lemma alwaysFulfils_await {W A B} (p : Promise W A) (k : A → Promise W B) :
  alwaysFulfils p → (∀ a, alwaysFulfils (k a)) → alwaysFulfils (await p k).
Proof.
  intros Hp Hk s. destruct (Hp s) as (a & s1 & Hps). destruct (Hk a s1) as (b & s2 & Hks).
  exists b, s2. by rewrite await_unfold, Hps.
Qed.

Lemma alwaysFulfils_invoke {W A} c (h : W → Settled A * W) :
  (∀ w, isFulfilled (fst (h w)) = true) → alwaysFulfils (invoke c h).
Proof.
  intros Hh s. rewrite invoke_unfold. specialize (Hh (world s)).
  destruct (fst (h (world s))) as [a|e] eqn:Hr; [|done]. by eexists _, _.
Qed.

Lemma syncDirection_alwaysFulfils {W} (svc : Services W) evs records src tgt prefix :
  alwaysFulfils (syncDirection svc evs records src tgt prefix).
Proof.
  intros s. destruct (syncDirection_run svc evs records src tgt prefix s)
    as (rsC & rsU & s1 & s' & trC & trU & _ & _ & _ & _ & _ & _ & Hrun).
  by eexists _, _.
Qed.

Lemma detectAndDeleteOrphans_alwaysFulfils {W} (svc : Services W) evsA evsB records a b :
  alwaysFulfils (detectAndDeleteOrphans svc evsA evsB records a b).
Proof.
  intros s. destruct (detectAndDeleteOrphans_run svc evsA evsB records a b s)
    as (rs & s' & tr & _ & _ & _ & Hrun).
  by eexists _, _.
Qed.

Lemma notifyErrors_alwaysFulfils {W} (svc : Services W) bot chat ab ba orph :
  alwaysFulfils (notifyErrors svc bot chat ab ba orph).
Proof.
  intros s. unfold notifyErrors. destruct (_ && _ && _).
  - destruct (sendTelegramError_run svc bot chat
                (errorsSummaryMessage ab ba (orphans_deleted orph, orphans_errors orph)
                   (errors ab + errors ba + orphans_errors orph)) s)
      as (s' & err & Hrun & _).
    by exists tt, s'.
  - by exists tt, s.
Qed.

(** X14. Calendar failures never abort a pass. If the five ledger
    requests (read, append, multi-range update, sheet lookup, structural
    delete) cannot fail, the workflow fulfils from every state, whatever
    the calendar requests and the alert do: a failed fetch, create, update
    or delete is counted, not thrown. *)
Theorem calendar_failures_never_abort {W} (svc : Services W) (env : Env) (s : State W) :
  (∀ sid w, isFulfilled (fst (values_get svc sid w)) = true) →
  (∀ sid rows w, isFulfilled (fst (values_append svc sid rows w)) = true) →
  (∀ sid data w, isFulfilled (fst (values_batchUpdate svc sid data w)) = true) →
  (∀ sid w, isFulfilled (fst (spreadsheets_get svc sid w)) = true) →
  (∀ sid reqs w, isFulfilled (fst (spreadsheets_batchUpdate svc sid reqs w)) = true) →
  ∃ out s', syncGoogleCalendarsWorkflow svc env s = Some (Fulfilled out, s').
Proof.
  intros Hget Happ Hupd Hsg Hsb.
  assert (Hwrite : ∀ sid res, alwaysFulfils (batchWrite svc sid res)).
  { intros sid res. unfold batchWrite. apply alwaysFulfils_await.
    - unfold batchInsertSyncedEvents. destruct (pendingInserts res);
        [apply alwaysFulfils_resolve|].
      intros s0. apply alwaysFulfils_invoke. intros w. apply Happ.
    - intros _. unfold batchUpdateSyncedEvents. destruct (pendingUpdates res);
        [apply alwaysFulfils_resolve|].
      intros s0. apply alwaysFulfils_invoke. intros w. apply Hupd. }
  assert (Hrows : ∀ sid orph, alwaysFulfils (deleteOrphanRows svc sid orph)).
  { intros sid orph. unfold deleteOrphanRows, getSheetId.
    apply alwaysFulfils_await.
    - apply alwaysFulfils_await; [|intros; apply alwaysFulfils_resolve].
      apply alwaysFulfils_invoke. intros w. apply Hsg.
    - intros sheetId. unfold batchDeleteSyncedEventRows.
      destruct (map del_rowId (pendingDeletes orph)); [apply alwaysFulfils_resolve|].
      apply alwaysFulfils_invoke. intros w. apply Hsb. }
  assert (Hrec : ∀ evsA evsB records, alwaysFulfils (reconcile svc env evsA evsB records)).
  { intros evsA evsB records. unfold reconcile, runStep. cbv zeta.
    apply alwaysFulfils_await; [apply syncDirection_alwaysFulfils|]. intros ab.
    apply alwaysFulfils_await; [apply Hwrite|]. intros _.
    apply alwaysFulfils_await; [apply syncDirection_alwaysFulfils|]. intros ba.
    apply alwaysFulfils_await; [apply Hwrite|]. intros _.
    apply alwaysFulfils_await; [apply detectAndDeleteOrphans_alwaysFulfils|]. intros orph.
    apply alwaysFulfils_await; [apply Hrows|]. intros _.
    apply alwaysFulfils_await; [apply alwaysFulfils_resolve|]. intros _.
    apply alwaysFulfils_await; [apply notifyErrors_alwaysFulfils|]. intros _.
    apply alwaysFulfils_resolve. }
  destruct (passBody_unfold svc env s)
    as (fa & fb & s1 & rl & s2 & t1 & t2 & t3 & _ & _ & _ & Hload & _ & _ & _ & _ & Hbody).
  unfold loadSheetRecords in Hload. rewrite loadSyncedEvents_unfold in Hload.
  cbv zeta in Hload. injection Hload as Hrl _.
  specialize (Hget (default "" (SPREADSHEET_ID env)) (world s1)).
  destruct (fst (values_get svc (default "" (SPREADSHEET_ID env)) (world s1)))
    as [rows|e]; [|done].
  subst rl. destruct (Hrec (valueOrEmpty fa) (valueOrEmpty fb) (parseRows rows) s2)
    as (out & s' & Hout).
  exists out, s'. apply workflow_fulfilled. by rewrite Hbody.
Qed.

Lemma calendar_failures_never_abort_witness :
  ∃ out s',
    syncGoogleCalendarsWorkflow
      (gservices (λ c, match c with
                       | CEventsInsert _ _ | CEventsList "B" _ _ => Some notFound
                       | _ => None
                       end))
      exampleEnv (startOf freshWorld)
    = Some (Fulfilled out, s').
Proof.
  apply (calendar_failures_never_abort
           (gservices (λ c, match c with
                            | CEventsInsert _ _ | CEventsList "B" _ _ => Some notFound
                            | _ => None
                            end))
           exampleEnv (startOf freshWorld)); intros; reflexivity.
Defined.

(** X15. An unreadable ledger stops the pass before anything is changed.
    If the read of the ledger is answered with the error [e] in every
    state, the workflow is rejected with [e], and the requests it sent are
    the two fetches, the failed read and at most the alert: no event is
    created, updated or deleted and the ledger is not written. *)
Theorem unreadable_ledger_changes_nothing {W} (svc : Services W) (env : Env)
    (e : JsError) (s : State W) :
  (∀ w, fst (values_get svc (default "" (SPREADSHEET_ID env)) w) = Rejected e) →
  ∃ s' tr,
    syncGoogleCalendarsWorkflow svc env s = Some (Rejected e, s')
    ∧ trace s' = trace s ++ tr
    ∧ Forall (λ t, isMutation (te_call t) = false) tr
    ∧ length (callsWhere isLedgerRead tr) = 1
    ∧ length tr ≤ 4.
Proof.
  intros Hget.
  destruct (passBody_unfold svc env s)
    as (fa & fb & s1 & rl & s2 & t1 & t2 & t3 & _ & _ & _ & Hload & Htr
        & Ht1 & Ht2 & Ht3 & Hbody).
  unfold loadSheetRecords in Hload. rewrite loadSyncedEvents_unfold in Hload.
  cbv zeta in Hload. rewrite Hget in Hload. injection Hload as <- _.
  unfold syncGoogleCalendarsWorkflow, tryCatch. rewrite Hbody.
  destruct (notifyFailure_run svc env e s2) as (s' & Hrun & Hsent & Hsilent).
  cbv zeta in Hsent, Hsilent.
  destruct (decide (default "" (TELEGRAM_BOT_TOKEN env) = "")) as [Hb|Hb].
  { exists s', [t1; t2; t3]. rewrite (Hsilent (or_introl Hb)) in *.
    split; [done|]. split; [done|]. split.
    - repeat constructor; unfold isMutation; by rewrite ?Ht1, ?Ht2, ?Ht3.
    - unfold callsWhere. rewrite !filter_cons, filter_nil, Ht1, Ht2, Ht3. cbn.
      split; [done|lia]. }
  destruct (decide (default "" (TELEGRAM_CHAT_ID env) = "")) as [Hc|Hc].
  { exists s', [t1; t2; t3]. rewrite (Hsilent (or_intror Hc)) in *.
    split; [done|]. split; [done|]. split.
    - repeat constructor; unfold isMutation; by rewrite ?Ht1, ?Ht2, ?Ht3.
    - unfold callsWhere. rewrite !filter_cons, filter_nil, Ht1, Ht2, Ht3. cbn.
      split; [done|lia]. }
  destruct (Hsent Hb Hc) as (err & Htr').
  eexists s', [t1; t2; t3; _]. split; [done|].
  split; [by rewrite Htr', Htr, <- app_assoc|]. split.
  - repeat constructor; unfold isMutation; by rewrite ?Ht1, ?Ht2, ?Ht3.
  - unfold callsWhere. rewrite !filter_cons, filter_nil, Ht1, Ht2, Ht3. cbn.
    split; [done|lia].
Qed.

Lemma unreadable_ledger_changes_nothing_witness :
  ∃ s' tr,
    syncGoogleCalendarsWorkflow
      (gservices (λ c, match c with CValuesGet _ => Some notFound | _ => None end))
      exampleEnv (startOf freshWorld)
    = Some (Rejected notFound, s')
    ∧ trace s' = trace (startOf freshWorld) ++ tr
    ∧ Forall (λ t, isMutation (te_call t) = false) tr
    ∧ length (callsWhere isLedgerRead tr) = 1
    ∧ length tr ≤ 4.
Proof.
  apply (unreadable_ledger_changes_nothing
           (gservices (λ c, match c with CValuesGet _ => Some notFound | _ => None end))
           exampleEnv notFound (startOf freshWorld)).
  intros w. reflexivity.
Defined.

(** ** The update half of the Direction Syncer *)

(** X16. The update half of the Direction Syncer. With the items of
    [toUpdate] and the update requests of the run: one update is sent per
    item, in order, to the copy named in the ledger record and with the body
    built for the event; the pending ledger updates are those of the items
    whose request succeeded, in order; every create request precedes every
    update request; and every item of the analysis ends as exactly one of
    created, updated or error. *)
Theorem syncDirection_update_half {W} (svc : Services W)
    (sourceEvents : list GoogleCalendarEvent) (records : list SyncedEventRecord)
    (src tgt prefix : string) (s : State W) :
  let a := analyzeEvents sourceEvents records src tgt in
  ∃ res s' tr,
    syncDirection svc sourceEvents records src tgt prefix s = Some (Fulfilled res, s')
    ∧ trace s' = trace s ++ tr
    ∧ let updates := callsWhere isUpdate tr in
      map te_call updates
        = map (λ p, CEventsUpdate tgt (secondary_event_id (snd p))
                      (buildSyncedEventBody (fst p) prefix src)) (toUpdate a)
      ∧ pendingUpdates res
          = map (λ p, pendingUpdateOf (fst p) (snd p))
                (itemsWhere (λ t, negb (failed t)) (toUpdate a) updates)
      ∧ updated (stats res) = length (toUpdate a) - failures updates
      ∧ requests tr = callsWhere isInsert tr ++ updates
      ∧ created (stats res) + updated (stats res) + errors (stats res)
          = length (toCreate a) + length (toUpdate a)
      ∧ deleted (stats res) = 0.
Proof.
  cbn zeta.
  destruct (syncDirection_run svc sourceEvents records src tgt prefix s)
    as (rsC & rsU & s1 & s' & trC & trU & _ & HtC & HallC & _ & HtU & HallU & Hrun).
  set (a := analyzeEvents sourceEvents records src tgt) in *.
  eexists _, s', (trC ++ trU). split; [exact Hrun|].
  split; [by rewrite HtU, HtC, app_assoc|].
  cbn [stats pendingUpdates created updated errors deleted].
  destruct (phase_calls (RelCreate src tgt prefix) isInsert isUpdate
              (toCreate a) trC rsC) as [HiC HuC]; try done.
  { by intros []. } { by intros []. }
  { intros x t r [Hc _]. by rewrite Hc. }
  destruct (phase_calls (RelUpdate src tgt prefix) isUpdate isInsert
              (toUpdate a) trU rsU) as [HuU HiU]; try done.
  { by intros []. } { by intros []. }
  { intros x t r [Hc _]. by rewrite Hc. }
  rewrite !callsWhere_app, HiC, HiU, HuC, HuU, app_nil_r. cbn [app].
  destruct (Forall3_outcomes (RelCreate src tgt prefix) (λ t, negb (failed t)) fst
              (toCreate a) (requests trC) rsC) as (_ & _ & HlenC & _); [|done|].
  { intros x t [p|e] [_ Hr]; unfold failed.
    - destruct Hr as [Hp Herr]. by rewrite Herr.
    - by rewrite Hr. }
  destruct (Forall3_outcomes (RelUpdate src tgt prefix) (λ t, negb (failed t)) id
              (toUpdate a) (requests trU) rsU) as (Hv & HrejU & HlenU & _); [|done|].
  { intros x t [p|e] [_ Hr]; unfold failed.
    - destruct Hr as [Hp Herr]. by rewrite Herr.
    - by rewrite Hr. }
  rewrite failures_filter in HrejU. rewrite map_id in Hv.
  rewrite <- HrejU, <- Hv.
  split; [by eapply Forall3_calls; [|exact HallU]; intros x t r [Hc _]|].
  split; [done|]. split; [lia|]. split; [by rewrite requests_app|].
  split; [lia|done].
Qed.


(** * The earlier engine and the test helpers *)

(** ** Sequential loops *)

Lemma forEach_inv {W T S} (body : S → T → Promise W S)
    (Inv : S → list TraceEntry → list T → Prop) :
  (∀ acc tr done x s, Inv acc tr done →
     ∃ acc' s' tr', body acc x s = Some (Fulfilled acc', s')
       ∧ trace s' = trace s ++ tr' ∧ Inv acc' (tr ++ tr') (done ++ [x])) →
  ∀ items acc0 s, Inv acc0 [] [] →
    ∃ acc' s' tr, Legacy.forEach body items acc0 s = Some (Fulfilled acc', s')
      ∧ trace s' = trace s ++ tr ∧ Inv acc' tr items.
Proof.
  intros Hstep.
  assert (Hgen : ∀ items done acc tr0 s, Inv acc tr0 done →
            ∃ acc' s' tr, Legacy.forEach body items acc s = Some (Fulfilled acc', s')
              ∧ trace s' = trace s ++ tr ∧ Inv acc' (tr0 ++ tr) (done ++ items)).
  { induction items as [|x items IH]; intros done acc tr0 s HI.
    - exists acc, s, []. rewrite !app_nil_r. done.
    - destruct (Hstep acc tr0 done x s HI) as (acc1 & s1 & tr1 & Hb & Htr1 & HI1).
      destruct (IH (done ++ [x]) acc1 (tr0 ++ tr1) s1 HI1)
        as (acc' & s' & tr & Hf & Htr & HI').
      exists acc', s', (tr1 ++ tr). cbn [Legacy.forEach].
      rewrite await_unfold, Hb. split; [done|].
      split; [by rewrite Htr, Htr1, app_assoc|].
      by rewrite app_assoc, (cons_middle x done items), app_assoc. }
  intros items acc0 s HI. destruct (Hgen items [] acc0 [] s HI) as (acc' & s' & tr & H).
  exists acc', s', tr. done.
Qed.

(** ** One turn of each loop *)

Lemma createStep_run {W} (svc : Services W) sid src tgt prefix stats event s :
  let body := buildSyncedEventBody event prefix src in
  ∃ st' s' tr,
    Legacy.createStep svc sid src tgt prefix stats event s = Some (Fulfilled st', s')
    ∧ trace s' = trace s ++ tr
    ∧ ((∃ e, tr = [{| te_call := CEventsInsert tgt body; te_error := Some e |}]
             ∧ st' = incErrors stats)
       ∨ (∃ row e, tr = [{| te_call := CEventsInsert tgt body; te_error := None |};
                         {| te_call := CValuesAppend sid [row]; te_error := Some e |}]
                   ∧ st' = incErrors stats)
       ∨ (∃ row, tr = [{| te_call := CEventsInsert tgt body; te_error := None |};
                       {| te_call := CValuesAppend sid [row]; te_error := None |}]
                 ∧ st' = incCreated stats)).
Proof.
  cbn zeta. unfold Legacy.createStep, tryCatch, createEvent, Legacy.insertSyncedEvent.
  rewrite await_unfold, invoke_unfold.
  destruct (events_insert svc tgt (buildSyncedEventBody event prefix src) (world s))
    as [[c|e] w1]; cbn [fst snd].
  - rewrite await_unfold. cbn [world trace]. rewrite invoke_unfold. cbn [world trace].
    destruct (values_append svc sid _ w1) as [[[]|e] w2]; cbn [fst snd].
    + eexists _, _, _. split; [reflexivity|]. cbn [trace]. rewrite <- app_assoc.
      split; [reflexivity|]. right. right. by eexists.
    + eexists _, _, _. split; [reflexivity|]. cbn [trace]. rewrite <- app_assoc.
      split; [reflexivity|]. right. left. by eexists _, _.
  - eexists _, _, _. split; [reflexivity|]. split; [reflexivity|]. left. by eexists.
Qed.

Lemma legacy_load_unfold {W} (svc : Services W) sid s :
  loadSyncedEvents svc sid s =
  match values_get svc sid (world s) with
  | (Fulfilled rows, w') =>
      Some (Fulfilled (parseRows rows),
            {| world := w';
               trace := trace s ++ [{| te_call := CValuesGet sid; te_error := None |}] |})
  | (Rejected e, w') =>
      Some (Rejected e,
            {| world := w';
               trace := trace s ++ [{| te_call := CValuesGet sid; te_error := Some e |}] |})
  end.
Proof.
  rewrite loadSyncedEvents_unfold. cbv zeta.
  by destruct (values_get svc sid (world s)) as [[rows|e] w'].
Qed.

Lemma updateSyncedEvent_run {W} (svc : Services W) sid eid cal upd s :
  ∃ r s' tr,
    Legacy.updateSyncedEvent svc sid eid cal upd s = Some (r, s')
    ∧ trace s' = trace s ++ tr
    ∧ ((∃ e, tr = [{| te_call := CValuesGet sid; te_error := Some e |}]
             ∧ r = Rejected e)
       ∨ (tr = [{| te_call := CValuesGet sid; te_error := None |}] ∧ r = Fulfilled tt)
       ∨ (∃ id row e, tr = [{| te_call := CValuesGet sid; te_error := None |};
                            {| te_call := CValuesUpdate sid id row; te_error := Some e |}]
                      ∧ r = Rejected e)
       ∨ (∃ id row, tr = [{| te_call := CValuesGet sid; te_error := None |};
                          {| te_call := CValuesUpdate sid id row; te_error := None |}]
                    ∧ r = Fulfilled tt)).
Proof.
  unfold Legacy.updateSyncedEvent. rewrite await_unfold, legacy_load_unfold.
  destruct (values_get svc sid (world s)) as [[rows|e] w1].
  - destruct (Legacy.findRecord (parseRows rows) eid cal) as [record|].
    + rewrite invoke_unfold. cbn [world trace].
      destruct (values_update svc sid (rec_id record) _ w1) as [[[]|e] w2]; cbn [fst snd].
      * eexists _, _, _. split; [reflexivity|]. cbn [trace]. rewrite <- app_assoc.
        split; [reflexivity|]. do 3 right. by eexists _, _.
      * eexists _, _, _. split; [reflexivity|]. cbn [trace]. rewrite <- app_assoc.
        split; [reflexivity|]. do 2 right. left. by eexists _, _, _.
    + eexists _, _, _. split; [reflexivity|]. split; [reflexivity|]. right. by left.
  - eexists _, _, _. split; [reflexivity|]. split; [reflexivity|]. left. by eexists.
Qed.

Lemma deleteSyncedEvent_run {W} (svc : Services W) sid eid cal s :
  ∃ r s' tr,
    Legacy.deleteSyncedEvent svc sid eid cal s = Some (r, s')
    ∧ trace s' = trace s ++ tr
    ∧ ((∃ e, tr = [{| te_call := CValuesGet sid; te_error := Some e |}]
             ∧ r = Rejected e)
       ∨ (tr = [{| te_call := CValuesGet sid; te_error := None |}] ∧ r = Fulfilled tt)
       ∨ (∃ e, tr = [{| te_call := CValuesGet sid; te_error := None |};
                     {| te_call := CSpreadsheetsGet sid; te_error := Some e |}]
               ∧ r = Rejected e)
       ∨ (∃ reqs err, tr = [{| te_call := CValuesGet sid; te_error := None |};
                            {| te_call := CSpreadsheetsGet sid; te_error := None |};
                            {| te_call := CSpreadsheetsBatchUpdate sid reqs;
                               te_error := err |}]
                      ∧ r = match err with Some e => Rejected e | None => Fulfilled tt end)).
Proof.
  unfold Legacy.deleteSyncedEvent. rewrite await_unfold, legacy_load_unfold.
  destruct (values_get svc sid (world s)) as [[rows|e] w1].
  - destruct (Legacy.findRecord (parseRows rows) eid cal) as [record|].
    + rewrite await_unfold, invoke_unfold. cbn [world trace].
      destruct (spreadsheets_get svc sid w1) as [[sheets|e] w2]; cbn [fst snd].
      * rewrite invoke_unfold. cbn [world trace].
        destruct (spreadsheets_batchUpdate svc sid _ w2) as [[[]|e] w3]; cbn [fst snd].
        -- eexists _, _, _. split; [reflexivity|]. cbn [trace]. rewrite <- !app_assoc.
           split; [reflexivity|]. do 3 right. by eexists _, None.
        -- eexists _, _, _. split; [reflexivity|]. cbn [trace]. rewrite <- !app_assoc.
           split; [reflexivity|]. do 3 right. by eexists _, (Some e).
      * eexists _, _, _. split; [reflexivity|]. cbn [trace]. rewrite <- app_assoc.
        split; [reflexivity|]. do 2 right. left. by eexists.
    + eexists _, _, _. split; [reflexivity|]. split; [reflexivity|]. right. by left.
  - eexists _, _, _. split; [reflexivity|]. split; [reflexivity|]. left. by eexists.
Qed.

Lemma updateStep_run {W} (svc : Services W) sid src tgt prefix stats item s :
  let body := buildSyncedEventBody (fst item) prefix src in
  ∃ st' s' err rest,
    Legacy.updateStep svc sid src tgt prefix stats item s = Some (Fulfilled st', s')
    ∧ trace s' = trace s ++
        {| te_call := CEventsUpdate tgt (secondary_event_id (snd item)) body;
           te_error := err |} :: rest
    ∧ match err with
      | Some _ => rest = [] ∧ st' = incErrors stats
      | None =>
          (∃ e, rest = [{| te_call := CValuesGet sid; te_error := Some e |}]
                ∧ st' = incErrors stats)
          ∨ (rest = [{| te_call := CValuesGet sid; te_error := None |}]
             ∧ st' = incUpdated stats)
          ∨ (∃ id row e, rest = [{| te_call := CValuesGet sid; te_error := None |};
                                 {| te_call := CValuesUpdate sid id row;
                                    te_error := Some e |}]
                         ∧ st' = incErrors stats)
          ∨ (∃ id row, rest = [{| te_call := CValuesGet sid; te_error := None |};
                               {| te_call := CValuesUpdate sid id row;
                                  te_error := None |}]
                       ∧ st' = incUpdated stats)
      end.
Proof.
  cbn zeta. unfold Legacy.updateStep, tryCatch at 1, updateEvent.
  rewrite await_unfold, invoke_unfold.
  destruct (events_update svc tgt (secondary_event_id (snd item))
              (buildSyncedEventBody (fst item) prefix src) (world s))
    as [[c|e] w1]; cbn [fst snd].
  - unfold tryCatch. rewrite await_unfold.
    match goal with
    | |- context [Legacy.updateSyncedEvent svc sid ?eid ?cal ?upd ?s1] =>
        destruct (updateSyncedEvent_run svc sid eid cal upd s1)
          as (r & s' & tr & Hrun & Htr & Hshape); rewrite Hrun
    end.
    cbn [trace] in Htr.
    destruct Hshape as [(e & -> & ->)|[[-> ->]|[(id & row & e & -> & ->)
                        |(id & row & -> & ->)]]].
    + eexists _, _, None, _. split; [reflexivity|]. cbn [trace].
      rewrite Htr, <- app_assoc. split; [reflexivity|]. left. by eexists.
    + eexists _, _, None, _. split; [reflexivity|].
      rewrite Htr, <- app_assoc. split; [reflexivity|]. right. by left.
    + eexists _, _, None, _. split; [reflexivity|]. cbn [trace].
      rewrite Htr, <- app_assoc. split; [reflexivity|]. do 2 right. left.
      by eexists _, _, _.
    + eexists _, _, None, _. split; [reflexivity|].
      rewrite Htr, <- app_assoc. split; [reflexivity|]. do 3 right. by eexists _, _.
  - eexists _, _, (Some e), []. split; [reflexivity|]. split; [reflexivity|]. done.
Qed.

Lemma orphanStep_run {W} (svc : Services W) sid (idsA idsB : gset string) a b acc record s :
  ∃ acc' s' tr,
    Legacy.orphanStep svc sid idsA idsB a b acc record s = Some (Fulfilled acc', s')
    ∧ trace s' = trace s ++ tr
    ∧ if isOrphan idsA idsB a b record then
        ∃ err rest,
          let t := {| te_call := CEventsDelete (secondary_calendar record)
                                   (secondary_event_id record);
                      te_error := err |} in
          tr = t :: rest
          ∧ if accepted t then
              (∃ e, rest = [{| te_call := CValuesGet sid; te_error := Some e |}]
                    ∧ acc' = (fst acc, S (snd acc)))
              ∨ (rest = [{| te_call := CValuesGet sid; te_error := None |}]
                 ∧ acc' = (S (fst acc), snd acc))
              ∨ (∃ e, rest = [{| te_call := CValuesGet sid; te_error := None |};
                              {| te_call := CSpreadsheetsGet sid; te_error := Some e |}]
                      ∧ acc' = (fst acc, S (snd acc)))
              ∨ (∃ reqs err', rest = [{| te_call := CValuesGet sid; te_error := None |};
                                      {| te_call := CSpreadsheetsGet sid;
                                         te_error := None |};
                                      {| te_call := CSpreadsheetsBatchUpdate sid reqs;
                                         te_error := err' |}]
                              ∧ acc' = match err' with
                                       | Some _ => (fst acc, S (snd acc))
                                       | None => (S (fst acc), snd acc)
                                       end)
            else rest = [] ∧ acc' = (fst acc, S (snd acc))
      else tr = [] ∧ acc' = acc.
Proof.
  unfold Legacy.orphanStep. destruct (isOrphan idsA idsB a b record).
  2: { exists acc, s, []. rewrite app_nil_r. done. }
  unfold tryCatch. rewrite await_unfold, deleteEvent_unfold. cbv zeta.
  destruct (events_delete svc (secondary_calendar record) (secondary_event_id record)
              (world s)) as [[[]|e] w1]; cbn [fst snd].
  - rewrite await_unfold.
    match goal with
    | |- context [Legacy.deleteSyncedEvent svc sid ?eid ?cal ?s1] =>
        destruct (deleteSyncedEvent_run svc sid eid cal s1)
          as (r & s' & tr & Hrun & Htr & Hshape); rewrite Hrun
    end.
    cbn [trace] in Htr.
    destruct Hshape as [(e & -> & ->)|[[-> ->]|[(e & -> & ->)
                        |(reqs & err' & -> & ->)]]].
    + eexists _, _, _. split; [reflexivity|]. cbn [trace].
      rewrite Htr, <- app_assoc. split; [reflexivity|].
      eexists None, _. split; [reflexivity|]. cbn. left. by eexists.
    + eexists _, _, _. split; [reflexivity|].
      rewrite Htr, <- app_assoc. split; [reflexivity|].
      eexists None, _. split; [reflexivity|]. cbn. right. by left.
    + eexists _, _, _. split; [reflexivity|]. cbn [trace].
      rewrite Htr, <- app_assoc. split; [reflexivity|].
      eexists None, _. split; [reflexivity|]. cbn. do 2 right. left. by eexists.
    + destruct err' as [e|].
      * eexists _, _, _. split; [reflexivity|]. cbn [trace].
        rewrite Htr, <- app_assoc. split; [reflexivity|].
        eexists None, _. split; [reflexivity|]. cbn. do 3 right. by eexists _, (Some e).
      * eexists _, _, _. split; [reflexivity|].
        rewrite Htr, <- app_assoc. split; [reflexivity|].
        eexists None, _. split; [reflexivity|]. cbn. do 3 right. by eexists _, None.
  - destruct (accepted {| te_call := CEventsDelete (secondary_calendar record)
                                       (secondary_event_id record);
                          te_error := Some e |}) eqn:Hacc.
    + rewrite await_unfold.
      match goal with
      | |- context [Legacy.deleteSyncedEvent svc sid ?eid ?cal ?s1] =>
          destruct (deleteSyncedEvent_run svc sid eid cal s1)
            as (r & s' & tr & Hrun & Htr & Hshape); rewrite Hrun
      end.
      cbn [trace] in Htr.
      destruct Hshape as [(e' & -> & ->)|[[-> ->]|[(e' & -> & ->)
                          |(reqs & err' & -> & ->)]]].
      * eexists _, _, _. split; [reflexivity|]. cbn [trace].
        rewrite Htr, <- app_assoc. split; [reflexivity|].
        eexists (Some e), _. split; [reflexivity|]. cbv zeta. rewrite Hacc.
        left. by eexists.
      * eexists _, _, _. split; [reflexivity|].
        rewrite Htr, <- app_assoc. split; [reflexivity|].
        eexists (Some e), _. split; [reflexivity|]. cbv zeta. rewrite Hacc.
        right. by left.
      * eexists _, _, _. split; [reflexivity|]. cbn [trace].
        rewrite Htr, <- app_assoc. split; [reflexivity|].
        eexists (Some e), _. split; [reflexivity|]. cbv zeta. rewrite Hacc.
        do 2 right. left. by eexists.
      * destruct err' as [e'|].
        -- eexists _, _, _. split; [reflexivity|]. cbn [trace].
           rewrite Htr, <- app_assoc. split; [reflexivity|].
           eexists (Some e), _. split; [reflexivity|]. cbv zeta. rewrite Hacc.
           do 3 right. by eexists _, (Some e').
        -- eexists _, _, _. split; [reflexivity|].
           rewrite Htr, <- app_assoc. split; [reflexivity|].
           eexists (Some e), _. split; [reflexivity|]. cbv zeta. rewrite Hacc.
           do 3 right. by eexists _, None.
    + eexists _, _, _. split; [reflexivity|]. split; [reflexivity|].
      eexists (Some e), []. split; [reflexivity|]. cbv zeta. rewrite Hacc. done.
Qed.

(** ** The loops *)

Lemma succeeded_app P tr1 tr2 : succeeded P (tr1 ++ tr2) = succeeded P tr1 ++ succeeded P tr2.
Proof. apply filter_app. Qed.

Lemma rescanned_app tr1 tr2 : rescanned (tr1 ++ tr2) = rescanned tr1 ++ rescanned tr2.
Proof. apply filter_app. Qed.

Lemma failures_app tr1 tr2 : failures (tr1 ++ tr2) = failures tr1 + failures tr2.
Proof. unfold failures. by rewrite filter_app, length_app. Qed.

Ltac trace_facts :=
  unfold failures, callsWhere, succeeded, rescanned in *;
  repeat (cbn; case_decide); try done; cbn;
  first [lia | done | by repeat constructor | by f_equal].

Ltac split_traces :=
  rewrite ?callsWhere_app, ?succeeded_app, ?rescanned_app, ?failures_app,
          ?map_app, ?length_app, ?filter_app.

Lemma legacy_creates_run {W} (svc : Services W) sid src tgt prefix events s :
  ∃ st s' tr,
    Legacy.forEach (Legacy.createStep svc sid src tgt prefix) events zeroStats s
      = Some (Fulfilled st, s')
    ∧ trace s' = trace s ++ tr
    ∧ created st + errors st = length events
    ∧ updated st = 0 ∧ deleted st = 0
    ∧ map te_call (callsWhere isInsert tr)
        = map (λ e, CEventsInsert tgt (buildSyncedEventBody e prefix src)) events
    ∧ created st = length (succeeded isAppend tr)
    ∧ length (callsWhere isAppend tr) = length (succeeded isInsert tr)
    ∧ Forall (λ t, isInsert (te_call t) || isAppend (te_call t) = true) tr.
Proof.
  apply (forEach_inv (Legacy.createStep svc sid src tgt prefix)
           (λ st tr done,
              created st + errors st = length done
              ∧ updated st = 0 ∧ deleted st = 0
              ∧ map te_call (callsWhere isInsert tr)
                  = map (λ e, CEventsInsert tgt (buildSyncedEventBody e prefix src)) done
              ∧ created st = length (succeeded isAppend tr)
              ∧ length (callsWhere isAppend tr) = length (succeeded isInsert tr)
              ∧ Forall (λ t, isInsert (te_call t) || isAppend (te_call t) = true) tr)).
  2: { cbn. repeat split; done. }
  intros st tr done event s0 (Hn & Hu & Hd & Hc & Ha & Hi & Hall).
  destruct (createStep_run svc sid src tgt prefix st event s0)
    as (st' & s' & tr' & Hrun & Htr & Hshape).
  exists st', s', tr'. split; [done|]. split; [done|].
  cbv beta. split_traces. rewrite Forall_app, Hc.
  destruct Hshape as [(e & -> & ->)|[(row & e & -> & ->)|(row & -> & ->)]];
    split_and!; trace_facts.
Qed.

Lemma legacy_updates_run {W} (svc : Services W) sid src tgt prefix items st0 s :
  ∃ st s' tr,
    Legacy.forEach (Legacy.updateStep svc sid src tgt prefix) items st0 s
      = Some (Fulfilled st, s')
    ∧ trace s' = trace s ++ tr
    ∧ updated st + errors st = updated st0 + errors st0 + length items
    ∧ created st = created st0 ∧ deleted st = deleted st0
    ∧ map te_call (callsWhere isUpdate tr)
        = map (λ p, CEventsUpdate tgt (secondary_event_id (snd p))
                      (buildSyncedEventBody (fst p) prefix src)) items
    ∧ updated st + failures (callsWhere isLedgerRead tr)
        + failures (callsWhere isRowUpdate tr)
        = updated st0 + length (succeeded isUpdate tr)
    ∧ length (callsWhere isLedgerRead tr) = length (rescanned tr)
    ∧ Forall (λ t, isUpdate (te_call t) || isLedgerRead (te_call t)
                   || isRowUpdate (te_call t) = true) tr.
Proof.
  apply (forEach_inv (Legacy.updateStep svc sid src tgt prefix)
           (λ st tr done,
              updated st + errors st = updated st0 + errors st0 + length done
              ∧ created st = created st0 ∧ deleted st = deleted st0
              ∧ map te_call (callsWhere isUpdate tr)
                  = map (λ p, CEventsUpdate tgt (secondary_event_id (snd p))
                                (buildSyncedEventBody (fst p) prefix src)) done
              ∧ updated st + failures (callsWhere isLedgerRead tr)
                  + failures (callsWhere isRowUpdate tr)
                  = updated st0 + length (succeeded isUpdate tr)
              ∧ length (callsWhere isLedgerRead tr) = length (rescanned tr)
              ∧ Forall (λ t, isUpdate (te_call t) || isLedgerRead (te_call t)
                             || isRowUpdate (te_call t) = true) tr)).
  2: { cbn. repeat split; try done; lia. }
  intros st tr done item s0 (Hn & Hc & Hd & Hu & Ha & Hr & Hall).
  destruct (updateStep_run svc sid src tgt prefix st item s0)
    as (st' & s' & err & rest & Hrun & Htr & Hshape).
  eexists st', s', _. split; [done|]. split; [done|].
  cbv beta. split_traces. rewrite Forall_app, Hu.
  destruct err as [e|].
  - destruct Hshape as [-> ->].
    split_and!; trace_facts.
  - destruct Hshape as [(e & -> & ->)|[[-> ->]|[(id & row & e & -> & ->)
                        |(id & row & -> & ->)]]];
      split_and!; trace_facts.
Qed.

Lemma filter_off {A} (P Q : A → Prop) `{∀ x, Decision (P x)} (l : list A) :
  Forall Q l → (∀ x, Q x → ¬ P x) → filter P l = [].
Proof.
  intros Hall HQ. apply filter_none. intros x Hx.
  apply HQ. by apply (proj1 (Forall_forall Q l) Hall).
Qed.

Ltac orphan_facts Hacc :=
  unfold failures, callsWhere, succeeded, rescanned in *;
  rewrite !filter_cons, ?filter_nil;
  cbn [te_call te_error isUpdate isDelete isLedgerRead isLedgerWrite isSheetLookup
       failed negb andb orb];
  rewrite ?Hacc; repeat (cbn; case_decide); try done; cbn; lia.

Lemma legacy_orphans_run {W} (svc : Services W) sid (idsA idsB : gset string) a b
    records s :
  let orphans := filter (λ r, isOrphan idsA idsB a b r = true) records in
  ∃ acc s' tr,
    Legacy.forEach (Legacy.orphanStep svc sid idsA idsB a b) records (0, 0) s
      = Some (Fulfilled acc, s')
    ∧ trace s' = trace s ++ tr
    ∧ fst acc + snd acc = length orphans
    ∧ map te_call (callsWhere isDelete tr)
        = map (λ r, CEventsDelete (secondary_calendar r) (secondary_event_id r)) orphans
    ∧ fst acc + failures (callsWhere isLedgerRead tr)
        + failures (callsWhere isLedgerWrite tr)
        + failures (callsWhere isSheetLookup tr)
        = length (rescanned tr)
    ∧ length (callsWhere isLedgerRead tr) = length (rescanned tr)
    ∧ Forall (λ t, isDelete (te_call t) || isLedgerRead (te_call t)
                   || isSheetLookup (te_call t)
                   || isLedgerWrite (te_call t) = true) tr.
Proof.
  cbn zeta.
  apply (forEach_inv (Legacy.orphanStep svc sid idsA idsB a b)
           (λ acc tr done,
              fst acc + snd acc
                = length (filter (λ r, isOrphan idsA idsB a b r = true) done)
              ∧ map te_call (callsWhere isDelete tr)
                  = map (λ r, CEventsDelete (secondary_calendar r) (secondary_event_id r))
                        (filter (λ r, isOrphan idsA idsB a b r = true) done)
              ∧ fst acc + failures (callsWhere isLedgerRead tr)
                  + failures (callsWhere isLedgerWrite tr)
                  + failures (callsWhere isSheetLookup tr)
                  = length (rescanned tr)
              ∧ length (callsWhere isLedgerRead tr) = length (rescanned tr)
              ∧ Forall (λ t, isDelete (te_call t) || isLedgerRead (te_call t)
                             || isSheetLookup (te_call t)
                             || isLedgerWrite (te_call t) = true) tr)).
  2: { cbn. split_and!; done. }
  intros acc tr done record s0 (Hn & Hd & Ha & Hr & Hall).
  destruct (orphanStep_run svc sid idsA idsB a b acc record s0)
    as (acc' & s' & tr' & Hrun & Htr & Hshape).
  exists acc', s', tr'. split; [done|]. split; [done|].
  cbv beta. rewrite (filter_app _ done [record]), filter_cons, filter_nil.
  destruct (isOrphan idsA idsB a b record) eqn:Horph.
  2: { destruct Hshape as [-> ->]. rewrite decide_False by done.
       rewrite !app_nil_r. done. }
  rewrite decide_True by done.
  destruct Hshape as (err & rest & -> & Hshape). cbv zeta in Hshape.
  split_traces. rewrite Forall_app, Hd.
  destruct (accepted _) eqn:Hacc.
  - destruct Hshape as [(e & -> & ->)|[[-> ->]|[(e & -> & ->)
                        |(reqs & err' & -> & ->)]]]; [| | |destruct err'].
    all: split_and!; [trace_facts|trace_facts|orphan_facts Hacc|orphan_facts Hacc
                     |done|by repeat constructor].
  - destruct Hshape as [-> ->].
    split_and!; [trace_facts|trace_facts|orphan_facts Hacc|orphan_facts Hacc
                |done|by repeat constructor].
Qed.

Lemma legacy_syncDirection_run {W} (svc : Services W) sid events records src tgt prefix s :
  let a := analyzeEvents events records src tgt in
  ∃ st s' tr,
    Legacy.syncDirection svc sid events records src tgt prefix s
      = Some (Fulfilled (st, a), s')
    ∧ trace s' = trace s ++ tr
    ∧ created st + updated st + errors st = length (toCreate a) + length (toUpdate a)
    ∧ deleted st = 0
    ∧ map te_call (callsWhere isInsert tr)
        = map (λ e, CEventsInsert tgt (buildSyncedEventBody e prefix src)) (toCreate a)
    ∧ map te_call (callsWhere isUpdate tr)
        = map (λ p, CEventsUpdate tgt (secondary_event_id (snd p))
                      (buildSyncedEventBody (fst p) prefix src)) (toUpdate a)
    ∧ length (callsWhere isAppend tr) = length (succeeded isInsert tr)
    ∧ created st = length (succeeded isAppend tr)
    ∧ updated st + failures (callsWhere isLedgerRead tr)
        + failures (callsWhere isRowUpdate tr)
        = length (succeeded isUpdate tr)
    ∧ callsWhere isDelete tr = []
    ∧ length (callsWhere isLedgerRead tr) = length (rescanned tr).
Proof.
  cbn zeta. set (a := analyzeEvents events records src tgt).
  destruct (legacy_creates_run svc sid src tgt prefix (toCreate a) s)
    as (st1 & s1 & tr1 & Hrun1 & Htr1 & Hn1 & Hu1 & Hd1 & Hi1 & Hc1 & Ha1 & Hall1).
  destruct (legacy_updates_run svc sid src tgt prefix (toUpdate a) st1 s1)
    as (st2 & s2 & tr2 & Hrun2 & Htr2 & Hn2 & Hc2 & Hd2 & Hu2 & Ha2 & Hr2 & Hall2).
  exists st2, s2, (tr1 ++ tr2).
  split.
  { unfold Legacy.syncDirection. fold a. cbv zeta.
    by rewrite await_unfold, Hrun1, await_unfold, Hrun2. }
  split; [by rewrite Htr2, Htr1, app_assoc|].
  assert (Hoff1 : ∀ P, (∀ c, isInsert c || isAppend c = true → P c = false) →
                       callsWhere P tr1 = []).
  { intros P HP. unfold callsWhere. eapply filter_off; [exact Hall1|].
    intros t Ht. cbv beta in Ht. rewrite (HP _ Ht). done. }
  assert (Hoff2 : ∀ P, (∀ c, isUpdate c || isLedgerRead c || isRowUpdate c = true →
                             P c = false) → callsWhere P tr2 = []).
  { intros P HP. unfold callsWhere. eapply filter_off; [exact Hall2|].
    intros t Ht. cbv beta in Ht. rewrite (HP _ Ht). done. }
  assert (Hs1 : succeeded isUpdate tr1 = []).
  { unfold succeeded. eapply filter_off; [exact Hall1|].
    intros t Ht. cbv beta in Ht. by destruct (te_call t). }
  assert (Hr1 : rescanned tr1 = []).
  { unfold rescanned. eapply filter_off; [exact Hall1|].
    intros t Ht. cbv beta in Ht. by destruct (te_call t). }
  assert (Hs2 : ∀ P, (∀ c, isUpdate c || isLedgerRead c || isRowUpdate c = true →
                           P c = false) → succeeded P tr2 = []).
  { intros P HP. unfold succeeded. eapply filter_off; [exact Hall2|].
    intros t Ht. cbv beta in Ht. rewrite (HP _ Ht). done. }
  split_traces.
  rewrite (Hoff1 isUpdate), (Hoff1 isLedgerRead), (Hoff1 isRowUpdate), (Hoff1 isDelete),
    (Hoff2 isInsert), (Hoff2 isAppend), (Hoff2 isDelete), Hs1, Hr1,
    (Hs2 isInsert), (Hs2 isAppend) by (by intros []).
  rewrite !app_nil_r. cbn [app length].
  change (failures []) with 0.
  rewrite Hi1, Hu2. split_and!; try done; try lia.
Qed.

(** X17. The earlier Direction Syncer never throws, and every item of the
    analysis ends as exactly one of created, updated or error. Each event
    of [toCreate] gets one create request and each item of [toUpdate] one
    update request, in order; a ledger row is appended for exactly the
    creates that succeeded; [created] counts the appends that succeeded,
    [updated] the successful updates whose re-scan and row rewrite did not
    fail. No copy is deleted: an event created on the target whose ledger
    insert failed stays there untracked. *)
Theorem legacy_syncDirection_accounts {W} (svc : Services W) (spreadsheetId : string)
    (sourceEvents : list GoogleCalendarEvent) (records : list SyncedEventRecord)
    (src tgt prefix : string) (s : State W) :
  let a := analyzeEvents sourceEvents records src tgt in
  ∃ st s' tr,
    Legacy.syncDirection svc spreadsheetId sourceEvents records src tgt prefix s
      = Some (Fulfilled (st, a), s')
    ∧ trace s' = trace s ++ tr
    ∧ created st + updated st + errors st = length (toCreate a) + length (toUpdate a)
    ∧ deleted st = 0
    ∧ map te_call (callsWhere isInsert tr)
        = map (λ e, CEventsInsert tgt (buildSyncedEventBody e prefix src)) (toCreate a)
    ∧ map te_call (callsWhere isUpdate tr)
        = map (λ p, CEventsUpdate tgt (secondary_event_id (snd p))
                      (buildSyncedEventBody (fst p) prefix src)) (toUpdate a)
    ∧ length (callsWhere isAppend tr) = length (succeeded isInsert tr)
    ∧ created st = length (succeeded isAppend tr)
    ∧ updated st + failures (callsWhere isLedgerRead tr)
        + failures (callsWhere isRowUpdate tr)
        = length (succeeded isUpdate tr)
    ∧ callsWhere isDelete tr = [].
Proof.
  cbn zeta.
  destruct (legacy_syncDirection_run svc spreadsheetId sourceEvents records src tgt
              prefix s)
    as (st & s' & tr & H1 & H2 & H3 & H4 & H5 & H6 & H7 & H8 & H9 & H10 & _).
  exists st, s', tr. done.
Qed.

Lemma legacy_detect_run {W} (svc : Services W) sid evsA evsB records a b s :
  let orphans := findOrphans evsA evsB records a b in
  ∃ acc s' tr,
    Legacy.detectAndDeleteOrphans svc sid evsA evsB records a b s
      = Some (Fulfilled acc, s')
    ∧ trace s' = trace s ++ tr
    ∧ fst acc + snd acc = length orphans
    ∧ map te_call (callsWhere isDelete tr)
        = map (λ r, CEventsDelete (secondary_calendar r) (secondary_event_id r)) orphans
    ∧ fst acc + failures (callsWhere isLedgerRead tr)
        + failures (callsWhere isLedgerWrite tr)
        + failures (callsWhere isSheetLookup tr)
        = length (rescanned tr)
    ∧ length (callsWhere isLedgerRead tr) = length (rescanned tr)
    ∧ Forall (λ t, isDelete (te_call t) || isLedgerRead (te_call t)
                   || isSheetLookup (te_call t)
                   || isLedgerWrite (te_call t) = true) tr.
Proof.
  apply (legacy_orphans_run svc sid (list_to_set (map ev_id evsA))
           (list_to_set (map ev_id evsB)) a b records s).
Qed.

(** X18. The earlier Orphan Detector never throws. It sends one delete
    request per orphan of the records, in order, to the copy named in the
    record, and none for a record that is not an orphan; every orphan ends
    as exactly one of deleted or error; [deleted] counts the deletes that
    were accepted (also with 410 Gone) and whose ledger steps (re-scan,
    sheet lookup, row removal) did not fail; it creates and updates no
    event. *)
Theorem legacy_orphans_account {W} (svc : Services W) (spreadsheetId : string)
    (evsA evsB : list GoogleCalendarEvent) (records : list SyncedEventRecord)
    (a b : string) (s : State W) :
  let orphans := findOrphans evsA evsB records a b in
  ∃ acc s' tr,
    Legacy.detectAndDeleteOrphans svc spreadsheetId evsA evsB records a b s
      = Some (Fulfilled acc, s')
    ∧ trace s' = trace s ++ tr
    ∧ fst acc + snd acc = length orphans
    ∧ map te_call (callsWhere isDelete tr)
        = map (λ r, CEventsDelete (secondary_calendar r) (secondary_event_id r)) orphans
    ∧ fst acc + failures (callsWhere isLedgerRead tr)
        + failures (callsWhere isLedgerWrite tr)
        + failures (callsWhere isSheetLookup tr)
        = length (filter (λ t, accepted t = true) (callsWhere isDelete tr))
    ∧ callsWhere isInsert tr = [] ∧ callsWhere isUpdate tr = [].
Proof.
  cbn zeta.
  destruct (legacy_detect_run svc spreadsheetId evsA evsB records a b s)
    as (acc & s' & tr & Hrun & Htr & Hn & Hd & Ha & _ & Hall).
  exists acc, s', tr. split_and!; try done.
  - rewrite Ha. unfold rescanned, callsWhere. rewrite list_filter_filter. f_equal.
    clear -Hall. induction Hall as [|t tr Ht Hall IH]; [done|].
    rewrite !filter_cons, IH.
    destruct (te_call t) eqn:Hc; cbn in Ht; try done;
      destruct (accepted t); cbn; repeat case_decide; try done;
      exfalso; intuition discriminate.
  - unfold callsWhere. eapply filter_off; [exact Hall|].
    intros t Ht. cbv beta in Ht. by destruct (te_call t).
  - unfold callsWhere. eapply filter_off; [exact Hall|].
    intros t Ht. cbv beta in Ht. by destruct (te_call t).
Qed.

(** ** The earlier pass *)

Lemma legacy_load_run {W} (svc : Services W) sid s :
  ∃ r s' err,
    loadSheetRecords svc sid s = Some (r, s')
    ∧ trace s' = trace s ++ [{| te_call := CValuesGet sid; te_error := err |}].
Proof.
  unfold loadSheetRecords. rewrite legacy_load_unfold.
  destruct (values_get svc sid (world s)) as [[rows|e] w']; by eexists _, _, _.
Qed.

(** X19. The earlier engine scans the whole ledger again after every
    update of a copy that succeeded and every delete of a copy that was
    accepted: a pass that completes has read the ledger three times for its
    three snapshots and once more for each of those requests. *)
Theorem legacy_pass_rescans {W} (svc : Services W) (env : Env) (s s' : State W)
    (out : SyncOutput) :
  Legacy.syncGoogleCalendarsWorkflow svc env s = Some (Fulfilled out, s') →
  ∃ tr, trace s' = trace s ++ tr
    ∧ length (callsWhere isLedgerRead tr) = 3 + length (rescanned tr).
Proof.
  unfold Legacy.syncGoogleCalendarsWorkflow, tryCatch. intros Hwf.
  destruct (Legacy.passBody svc env s) as [[[out1|e] s1]|] eqn:Hbody; [| |done].
  2: { destruct (notifyFailure_rejects svc env e s1) as (s2 & tr & Hrej & _).
       by rewrite Hrej in Hwf. }
  injection Hwf as -> ->. revert Hbody.
  unfold Legacy.passBody. cbv zeta. rewrite await_unfold, fetch_both. cbv zeta.
  set (s0 := {| world := _; trace := _ |}).
  set (evsA := valueOrEmpty _). set (evsB := valueOrEmpty _).
  unfold runStep. rewrite await_unfold.
  destruct (legacy_load_run svc (default "" (SPREADSHEET_ID env)) s0)
    as (r1 & s1 & err1 & Hl1 & Ht1). rewrite Hl1.
  destruct r1 as [records1|e]; [|done].
  rewrite await_unfold.
  destruct (legacy_syncDirection_run svc (default "" (SPREADSHEET_ID env)) evsA records1
              (default "" (CALENDAR_A_ID env)) (default "" (CALENDAR_B_ID env))
              (default "[A]" (CALENDAR_A_PREFIX env)) s1)
    as (stAB & s2 & trAB & HrunAB & HtAB & _ & _ & _ & _ & _ & _ & _ & _ & HrAB).
  rewrite HrunAB. rewrite await_unfold.
  destruct (legacy_load_run svc (default "" (SPREADSHEET_ID env)) s2)
    as (r2 & s3 & err2 & Hl2 & Ht2). rewrite Hl2.
  destruct r2 as [records2|e]; [|done].
  rewrite await_unfold.
  destruct (legacy_syncDirection_run svc (default "" (SPREADSHEET_ID env)) evsB records2
              (default "" (CALENDAR_B_ID env)) (default "" (CALENDAR_A_ID env))
              (default "[B]" (CALENDAR_B_PREFIX env)) s3)
    as (stBA & s4 & trBA & HrunBA & HtBA & _ & _ & _ & _ & _ & _ & _ & _ & HrBA).
  rewrite HrunBA. rewrite await_unfold.
  destruct (legacy_load_run svc (default "" (SPREADSHEET_ID env)) s4)
    as (r3 & s5 & err3 & Hl3 & Ht3). rewrite Hl3.
  destruct r3 as [records3|e]; [|done].
  rewrite await_unfold.
  destruct (legacy_detect_run svc (default "" (SPREADSHEET_ID env)) evsA evsB records3
              (default "" (CALENDAR_A_ID env)) (default "" (CALENDAR_B_ID env)) s5)
    as (acc & s6 & trD & HrunD & HtD & _ & _ & _ & HrD & _).
  rewrite HrunD. rewrite await_unfold. cbn [resolve].
  intros Hres. injection Hres as _ <-.
  eexists. split.
  { rewrite HtD, Ht3, HtBA, Ht2, HtAB, Ht1. subst s0. cbn [trace].
    rewrite <- !app_assoc. reflexivity. }
  split_traces. rewrite HrAB, HrBA, HrD.
  unfold callsWhere, rescanned. rewrite !filter_cons, !filter_nil.
  cbn [te_call isLedgerRead isUpdate isDelete andb orb].
  repeat case_decide; try done. cbn [length app]. lia.
Qed.

Lemma legacy_pass_rescans_witness :
  ∃ out s' tr,
    Legacy.syncGoogleCalendarsWorkflow (gservices noFaults) exampleEnv (startOf busyWorld)
      = Some (Fulfilled out, s')
    ∧ trace s' = trace (startOf busyWorld) ++ tr
    ∧ length (callsWhere isLedgerRead tr) = 3 + length (rescanned tr).
Proof.
  destruct (Legacy.syncGoogleCalendarsWorkflow (gservices noFaults) exampleEnv
              (startOf busyWorld)) as [[[out|e] s']|] eqn:Hrun.
  - destruct (legacy_pass_rescans _ _ _ _ _ Hrun) as (tr & Htr & Hn).
    exists out, s', tr. split; [reflexivity|]. split; [exact Htr|exact Hn].
  - exfalso. vm_compute in Hrun. discriminate Hrun.
  - exfalso. vm_compute in Hrun. discriminate Hrun.
Defined.

(** ** Rows written and read back *)

Lemma findRecord_Some records eid cal r :
  Legacy.findRecord records eid cal = Some r →
  hasKey eid cal r
  ∧ ∃ l1 l2, records = l1 ++ r :: l2 ∧ ∀ y, y ∈ l1 → ¬ hasKey eid cal y.
Proof.
  unfold Legacy.findRecord, hasKey. induction records as [|x l IH]; [done|]. cbn [find].
  destruct (String.eqb_spec (primary_event_id x) eid) as [He|He];
    destruct (String.eqb_spec (primary_calendar x) cal) as [Hc|Hc]; cbn [andb].
  1: { intros [= <-]. split; [done|]. exists [], l. split; [done|].
       intros y Hy. by apply elem_of_nil in Hy. }
  all: intros Hf; destruct (IH Hf) as (Hk & l1 & l2 & -> & Hl1); split; [done|];
    exists (x :: l1), l2; (split; [done|]);
    intros y [->|Hy]%elem_of_cons; [tauto|by apply Hl1].
Qed.

Lemma findRecord_None records eid cal :
  Legacy.findRecord records eid cal = None ↔ ∀ y, y ∈ records → ¬ hasKey eid cal y.
Proof.
  unfold Legacy.findRecord, hasKey. induction records as [|x l IH].
  { split; [|done]. intros _ y Hy. by apply elem_of_nil in Hy. }
  cbn [find].
  destruct (String.eqb_spec (primary_event_id x) eid) as [He|He];
    destruct (String.eqb_spec (primary_calendar x) cal) as [Hc|Hc]; cbn [andb].
  1: { split; [done|]. intros H. destruct (H x); [by left|done]. }
  all: rewrite IH; split;
    [intros H y [->|Hy]%elem_of_cons; [tauto|by apply H]
    |intros H y Hy; apply H; by right].
Qed.

Lemma findRecord_first rows eid cal r :
  Legacy.findRecord (parseRows rows) eid cal = Some r →
  r ∈ parseRows rows ∧ hasKey eid cal r
  ∧ ∀ r', r' ∈ parseRows rows → hasKey eid cal r' → rec_id r ≤ rec_id r'.
Proof.
  intros Hf. destruct (findRecord_Some _ _ _ _ Hf) as (Hk & l1 & l2 & Heq & Hl1).
  split; [rewrite Heq; apply elem_of_app; right; by left|]. split; [done|].
  intros r' Hr' Hk'. rewrite Heq in Hr'.
  apply elem_of_app in Hr' as [Hr'|Hr']; [by destruct (Hl1 r')|].
  apply elem_of_cons in Hr' as [->|Hr']; [done|].
  assert (Hs : StronglySorted lt (map rec_id (parseRows rows))).
  { destruct rows as [|h data]; [constructor|].
    rewrite parseRows_cons. apply recordsFrom_sorted. }
  rewrite Heq, map_app in Hs. apply StronglySorted_app_1_r in Hs.
  cbn [map] in Hs. apply StronglySorted_inv in Hs as [_ Hall].
  rewrite Forall_forall in Hall.
  assert (rec_id r < rec_id r'); [|lia].
  apply Hall. apply list_elem_of_fmap. by exists r'.
Qed.

(** X20. A row appended by [insertSyncedEvent] is read back by
    [loadSyncedEvents] as one more record, after the others: it carries the
    fields of the inserted record, the row number of the new last row and
    the time of the insert in its three time stamps. Two cases lose the
    record: on a sheet without any row the appended row takes the place of
    the header, and a record with an empty primary calendar is filtered
    out. *)
Theorem inserted_row_is_loaded_back (rows : list (list string)) (now : string)
    (record : PendingSheetInsert) :
  (rows ≠ [] → ins_primary_calendar record ≠ "" →
     parseRows (rows ++ [insertRow now record])
     = parseRows rows ++
       [{| rec_id := length rows + 1;
           primary_calendar := ins_primary_calendar record;
           primary_event_id := ins_primary_event_id record;
           secondary_calendar := ins_secondary_calendar record;
           secondary_event_id := ins_secondary_event_id record;
           event_summary := ins_event_summary record;
           event_start := ins_event_start record;
           event_end := ins_event_end record;
           event_signature := ins_event_signature record;
           created_at := now; last_updated := now; last_checked := now |}])
  ∧ (rows = [] → parseRows (rows ++ [insertRow now record]) = [])
  ∧ (ins_primary_calendar record = "" →
     parseRows (rows ++ [insertRow now record]) = parseRows rows).
Proof.
  split; [|split].
  - intros Hne Hcal. destruct rows as [|h data]; [done|].
    rewrite <- app_comm_cons, !parseRows_cons, recordsFrom_app. f_equal.
    rewrite recordsFrom_cons, recordsFrom_nil, app_nil_r.
    rewrite decide_True by (unfold rowTracked, cell; cbn; exact Hcal).
    unfold parseRow, cell. cbn. do 2 f_equal. lia.
  - by intros ->.
  - intros Hcal. destruct rows as [|h data]; [done|].
    rewrite <- app_comm_cons, !parseRows_cons, recordsFrom_app.
    rewrite recordsFrom_cons, recordsFrom_nil, app_nil_r.
    rewrite decide_False by (unfold rowTracked, cell; cbn; intros Hn; by apply Hn).
    by rewrite app_nil_r.
Qed.

(** X21. [updateSyncedEvent] scans the ledger and rewrites the first row
    with the given key. Without such a row it fulfils after the scan alone
    and writes nothing. With one, it sends one row update to that row's
    number; the new row keeps the four ids and the creation time of the
    record, carries the new summary, start, end and signature, and the
    time of the update as last update and last check; a later row with the
    same key is left as it is. *)
Theorem legacy_update_rewrites_first_match {W} (svc : Services W)
    (spreadsheetId primaryEventId primaryCalendar : string)
    (updates : Legacy.SheetUpdates) (s : State W) (rows : list (list string)) (w1 : W) :
  values_get svc spreadsheetId (world s) = (Fulfilled rows, w1) →
  let scan := {| te_call := CValuesGet spreadsheetId; te_error := None |} in
  match Legacy.findRecord (parseRows rows) primaryEventId primaryCalendar with
  | None =>
      Legacy.updateSyncedEvent svc spreadsheetId primaryEventId primaryCalendar updates s
      = Some (Fulfilled tt, {| world := w1; trace := trace s ++ [scan] |})
  | Some record =>
      record ∈ parseRows rows
      ∧ hasKey primaryEventId primaryCalendar record
      ∧ (∀ r', r' ∈ parseRows rows → hasKey primaryEventId primaryCalendar r' →
           rec_id record ≤ rec_id r')
      ∧ ∃ row r s',
          Legacy.updateSyncedEvent svc spreadsheetId primaryEventId primaryCalendar
            updates s = Some (r, s')
          ∧ (r, world s') = values_update svc spreadsheetId (rec_id record) row w1
          ∧ map te_call (trace s')
              = map te_call (trace s)
                ++ [CValuesGet spreadsheetId;
                    CValuesUpdate spreadsheetId (rec_id record) row]
          ∧ parseRow (rec_id record - 2) row
              = {| rec_id := rec_id record;
                   primary_calendar := primary_calendar record;
                   primary_event_id := primary_event_id record;
                   secondary_calendar := secondary_calendar record;
                   secondary_event_id := secondary_event_id record;
                   event_summary := Legacy.new_event_summary updates;
                   event_start := Legacy.new_event_start updates;
                   event_end := Legacy.new_event_end updates;
                   event_signature := Legacy.new_event_signature updates;
                   created_at := created_at record;
                   last_updated := date_now svc w1;
                   last_checked := date_now svc w1 |}
  end.
Proof.
  intros Hget scan. unfold Legacy.updateSyncedEvent.
  rewrite await_unfold, legacy_load_unfold, Hget.
  destruct (Legacy.findRecord (parseRows rows) primaryEventId primaryCalendar)
    as [record|] eqn:Hf; [|done].
  destruct (findRecord_first _ _ _ _ Hf) as (Hin & Hk & Hmin).
  split; [done|]. split; [done|]. split; [done|].
  rewrite invoke_unfold. cbn [world trace].
  eexists _, _, _. split; [reflexivity|]. cbn [world trace].
  split; [symmetry; apply surjective_pairing|].
  split; [by rewrite !map_app, <- app_assoc|].
  destruct rows as [|h data]; [by apply elem_of_nil in Hin|].
  rewrite parseRows_cons in Hin.
  pose proof (recordsFrom_rec_id_bounds _ _ Hin) as Hb.
  unfold parseRow, cell. cbn. f_equal. lia.
Qed.

Lemma legacy_update_rewrites_first_match_witness :
  let updates :=
    {| Legacy.new_event_signature := "sig"; Legacy.new_event_summary := "Retro";
       Legacy.new_event_start := "2026-03-03"; Legacy.new_event_end := "2026-03-04" |} in
  values_get (gservices noFaults) "ledger" (world (startOf syncedWorld))
    = (Fulfilled (sheetRows syncedWorld), syncedWorld)
  ∧ ∃ record row r s',
      Legacy.findRecord (parseRows (sheetRows syncedWorld)) "e1" "A" = Some record
      ∧ Legacy.updateSyncedEvent (gservices noFaults) "ledger" "e1" "A" updates
          (startOf syncedWorld) = Some (r, s')
      ∧ map te_call (trace s')
          = map te_call (trace (startOf syncedWorld))
            ++ [CValuesGet "ledger"; CValuesUpdate "ledger" (rec_id record) row]
      ∧ event_summary (parseRow (rec_id record - 2) row) = "Retro".
Proof.
  intros updates. split; [reflexivity|].
  pose proof (legacy_update_rewrites_first_match (gservices noFaults) "ledger" "e1" "A"
                updates (startOf syncedWorld) (sheetRows syncedWorld) syncedWorld
                eq_refl) as H.
  cbv zeta in H.
  destruct (Legacy.findRecord (parseRows (sheetRows syncedWorld)) "e1" "A")
    as [record|] eqn:Hf; [|vm_compute in Hf; discriminate Hf].
  destruct H as (_ & _ & _ & row & r & s' & Hrun & _ & Htr & Hrow).
  exists record, row, r, s'. split; [reflexivity|]. split; [exact Hrun|].
  split; [exact Htr|]. rewrite Hrow. reflexivity.
Defined.

Lemma recordsFrom_shift rows : ∀ o,
  recordsFrom o rows = map (renumbered (o + 2)) (recordsFrom (S o) rows).
Proof.
  induction rows as [|x rows IH]; intros o; [done|].
  rewrite !recordsFrom_cons, map_app. f_equal.
  - destruct (decide (rowTracked x)); [|done]. cbn [map]. f_equal.
    unfold renumbered, parseRow. cbn [rec_id].
    assert (Nat.ltb (o + 2) (S o + 2) = true) as -> by (apply Nat.ltb_lt; lia).
    f_equal. lia.
  - rewrite (IH (S o)). apply map_ext_in.
    intros r Hr. apply list_elem_of_In, recordsFrom_elem in Hr as (i & row & _ & -> & _).
    unfold renumbered, parseRow. cbn [rec_id].
    assert (Nat.ltb (S o + 2) (S (S o) + i + 2) = true) as -> by (apply Nat.ltb_lt; lia).
    assert (Nat.ltb (o + 2) (S (S o) + i + 2) = true) as -> by (apply Nat.ltb_lt; lia).
    done.
Qed.

Lemma filter_all {A} (P : A → Prop) `{∀ x, Decision (P x)} (l : list A) :
  (∀ x, x ∈ l → P x) → filter P l = l.
Proof.
  induction l as [|x l IH]; intros Hl; [done|]. rewrite filter_cons.
  rewrite decide_True by (apply Hl; by left). f_equal. apply IH.
  intros y Hy. apply Hl. by right.
Qed.

Lemma parseRows_applyDelete rows r sheetId :
  r ∈ parseRows rows →
  parseRows (applyDelete rows (deleteRowRequest sheetId (rec_id r)))
  = map (renumbered (rec_id r)) (filter (λ x, rec_id x ≠ rec_id r) (parseRows rows)).
Proof.
  destruct rows as [|h data]; [by intros ?%elem_of_nil|].
  rewrite parseRows_cons. intros Hr.
  apply recordsFrom_elem in Hr as (i & row & Hi & -> & Ht).
  unfold applyDelete, deleteRowRequest. cbn [dd_startIndex dd_endIndex parseRow rec_id].
  replace (0 + i + 2 - 1) with (S i) by lia. replace (0 + i + 2) with (S (S i)) by lia.
  change (take (S i) (h :: data)) with (h :: take i data).
  change (drop (S (S i)) (h :: data)) with (drop (S i) data).
  rewrite <- app_comm_cons, parseRows_cons.
  pose proof (lookup_lt_Some _ _ _ Hi) as Hlen.
  rewrite <- (take_drop_middle data i row Hi) at 3.
  rewrite !recordsFrom_app, recordsFrom_cons, decide_True by done.
  rewrite length_take, Nat.min_l by lia. cbn [Nat.add].
  rewrite !filter_app, !map_app. f_equal; [|rewrite filter_cons, decide_False; [|cbn; lia]].
  - rewrite filter_all.
    2: { intros r Hr. apply recordsFrom_elem in Hr as (j & row' & Hj & -> & _).
         apply lookup_lt_Some in Hj. rewrite length_take in Hj. cbn. lia. }
    symmetry. etrans; [|apply map_id]. apply map_ext_in.
    intros r Hr. apply list_elem_of_In, recordsFrom_elem in Hr as (j & row' & Hj & -> & _).
    apply lookup_lt_Some in Hj. rewrite length_take in Hj.
    unfold renumbered. cbn [parseRow rec_id].
    assert (Nat.ltb (S (S i)) (0 + j + 2) = false) as -> by (apply Nat.ltb_ge; lia).
    done.
  - rewrite filter_nil. cbn [app]. rewrite filter_all.
    2: { intros r Hr. apply recordsFrom_elem in Hr as (j & row' & Hj & -> & _). cbn. lia. }
    rewrite (recordsFrom_shift _ i). replace (i + 2) with (S (S i)) by lia. done.
Qed.

(** X22. [deleteSyncedEvent] scans the ledger and removes the first row
    with the given key. Without such a row it fulfils after the scan alone
    and removes nothing. With one, it looks the sheet id up (0 when no
    sheet has the ledger's name) and sends one structural delete of that
    row alone. Once the rows of that range are removed, a new scan gives
    the other records in their order, the ones below the removed row with
    their row number lowered by one. *)
Theorem legacy_delete_removes_first_match {W} (svc : Services W)
    (spreadsheetId primaryEventId primaryCalendar : string)
    (s : State W) (rows : list (list string)) (w1 : W) :
  values_get svc spreadsheetId (world s) = (Fulfilled rows, w1) →
  let scan := {| te_call := CValuesGet spreadsheetId; te_error := None |} in
  match Legacy.findRecord (parseRows rows) primaryEventId primaryCalendar with
  | None =>
      Legacy.deleteSyncedEvent svc spreadsheetId primaryEventId primaryCalendar s
      = Some (Fulfilled tt, {| world := w1; trace := trace s ++ [scan] |})
  | Some record =>
      record ∈ parseRows rows
      ∧ hasKey primaryEventId primaryCalendar record
      ∧ (∀ r', r' ∈ parseRows rows → hasKey primaryEventId primaryCalendar r' →
           rec_id record ≤ rec_id r')
      ∧ ∀ sheets w2, spreadsheets_get svc spreadsheetId w1 = (Fulfilled sheets, w2) →
          let sheetId :=
            default 0 (snd <$> find (λ sh, String.eqb (fst sh) SHEET_NAME) sheets) in
          let request := deleteRowRequest sheetId (rec_id record) in
          ∃ r s',
            Legacy.deleteSyncedEvent svc spreadsheetId primaryEventId primaryCalendar s
              = Some (r, s')
            ∧ (r, world s') = spreadsheets_batchUpdate svc spreadsheetId [request] w2
            ∧ map te_call (trace s')
                = map te_call (trace s)
                  ++ [CValuesGet spreadsheetId; CSpreadsheetsGet spreadsheetId;
                      CSpreadsheetsBatchUpdate spreadsheetId [request]]
            ∧ dd_endIndex request = S (dd_startIndex request)
            ∧ parseRows (applyDelete rows request)
                = map (renumbered (rec_id record))
                      (filter (λ x, rec_id x ≠ rec_id record) (parseRows rows))
  end.
Proof.
  intros Hget scan. unfold Legacy.deleteSyncedEvent.
  rewrite await_unfold, legacy_load_unfold, Hget.
  destruct (Legacy.findRecord (parseRows rows) primaryEventId primaryCalendar)
    as [record|] eqn:Hf; [|done].
  destruct (findRecord_first _ _ _ _ Hf) as (Hin & Hk & Hmin).
  split; [done|]. split; [done|]. split; [done|].
  intros sheets w2 Hsheets.
  rewrite await_unfold, invoke_unfold. cbn [world trace]. rewrite Hsheets. cbn [fst snd].
  rewrite invoke_unfold. cbn [world trace].
  eexists _, _. split; [reflexivity|]. cbn [world trace].
  split; [symmetry; apply surjective_pairing|].
  split; [by rewrite !map_app, <- !app_assoc|].
  split.
  - destruct rows as [|h data]; [by apply elem_of_nil in Hin|].
    rewrite parseRows_cons in Hin.
    pose proof (recordsFrom_rec_id_bounds _ _ Hin). cbn. lia.
  - by apply parseRows_applyDelete.
Qed.

Lemma legacy_delete_removes_first_match_witness :
  values_get (gservices noFaults) "ledger" (world (startOf busyWorld))
    = (Fulfilled (sheetRows busyWorld), busyWorld)
  ∧ ∃ record r s',
      Legacy.findRecord (parseRows (sheetRows busyWorld)) "e3" "A" = Some record
      ∧ rec_id record = 6
      ∧ Legacy.deleteSyncedEvent (gservices noFaults) "ledger" "e3" "A" (startOf busyWorld)
          = Some (r, s')
      ∧ map rec_id (parseRows (sheetRows (world s'))) = [2; 4; 5; 6; 7].
Proof.
  split; [reflexivity|].
  pose proof (legacy_delete_removes_first_match (gservices noFaults) "ledger" "e3" "A"
                (startOf busyWorld) (sheetRows busyWorld) busyWorld eq_refl) as H.
  cbv zeta in H.
  destruct (Legacy.findRecord (parseRows (sheetRows busyWorld)) "e3" "A")
    as [record|] eqn:Hf; [|vm_compute in Hf; discriminate Hf].
  destruct H as (_ & _ & _ & H).
  destruct (H [(SHEET_NAME, 0)] busyWorld eq_refl) as (r & s' & Hrun & Hw & _ & _ & Hrows).
  assert (Hid : rec_id record = 6).
  { vm_compute in Hf. injection Hf as <-. reflexivity. }
  exists record, r, s'. split; [reflexivity|]. split; [exact Hid|].
  split; [exact Hrun|].
  rewrite Hid in Hw. apply (f_equal snd) in Hw. cbn [snd] in Hw.
  rewrite Hw. vm_compute. reflexivity.
Defined.

(** ** Test helpers *)

Lemma foldl_countResult results : ∀ acc,
  foldl TestHelpers.countResult acc results
  = (fst (fst acc) + withStatus TestHelpers.Pass results,
     snd (fst acc) + withStatus TestHelpers.Fail results,
     snd acc + withStatus TestHelpers.Skip results).
Proof.
  unfold withStatus.
  induction results as [|r results IH]; intros [[p f] k].
  - cbn. by rewrite !Nat.add_0_r.
  - cbn [foldl]. rewrite IH. rewrite !filter_cons.
    unfold TestHelpers.countResult. destruct (TestHelpers.test_status r);
      repeat case_decide; try done; cbn [fst snd length];
      repeat (f_equal; try lia).
Qed.

(** X23. [buildReport] counts every result once: [passed], [failed] and
    [skipped] are the numbers of results with that status, they add up to
    the number of results, the results are returned as given, and the
    counts of two lists of results add up to the counts of the lists put
    together. *)
Theorem buildReport_counts (results1 results2 : list TestHelpers.TestResult) :
  let report := TestHelpers.buildReport (results1 ++ results2) in
  let report1 := TestHelpers.buildReport results1 in
  let report2 := TestHelpers.buildReport results2 in
  TestHelpers.passed report1 = withStatus TestHelpers.Pass results1
  ∧ TestHelpers.failed report1 = withStatus TestHelpers.Fail results1
  ∧ TestHelpers.skipped report1 = withStatus TestHelpers.Skip results1
  ∧ TestHelpers.passed report1 + TestHelpers.failed report1 + TestHelpers.skipped report1
      = length results1
  ∧ TestHelpers.results report1 = results1
  ∧ TestHelpers.passed report = TestHelpers.passed report1 + TestHelpers.passed report2
  ∧ TestHelpers.failed report = TestHelpers.failed report1 + TestHelpers.failed report2
  ∧ TestHelpers.skipped report
      = TestHelpers.skipped report1 + TestHelpers.skipped report2.
Proof.
  cbv zeta. unfold TestHelpers.buildReport. rewrite !foldl_countResult.
  cbn [TestHelpers.passed TestHelpers.failed TestHelpers.skipped TestHelpers.results
       fst snd Nat.add].
  unfold withStatus. rewrite !filter_app, !length_app.
  split_and!; try done.
  induction results1 as [|r rs IH]; [done|].
  rewrite !filter_cons. destruct (TestHelpers.test_status r);
    repeat case_decide; try done; cbn [length]; lia.
Qed.

(** X24. [cleanupTestEvents] is best effort: it never throws, whatever the
    calendar answers, and it sends one delete request per event id, in
    order, to the given calendar: a failed delete does not stop the ones
    after it. *)
Theorem cleanupTestEvents_never_throws {W} (svc : Services W) (calendarId : string)
    (eventIds : list string) (s : State W) :
  ∃ s' tr,
    TestHelpers.cleanupTestEvents svc calendarId eventIds s = Some (Fulfilled tt, s')
    ∧ trace s' = trace s ++ tr
    ∧ map te_call tr = map (CEventsDelete calendarId) eventIds.
Proof.
  revert s. induction eventIds as [|eventId rest IH]; intros s.
  - exists s, []. by rewrite app_nil_r.
  - cbn [TestHelpers.cleanupTestEvents]. rewrite await_unfold. unfold tryCatch.
    rewrite deleteEvent_unfold. cbv zeta.
    set (s1 := {| world := _; trace := _ |}).
    destruct (IH s1) as (s' & tr & Hrun & Htr & Hcalls).
    exists s', ({| te_call := CEventsDelete calendarId eventId;
                   te_error := match fst (events_delete svc calendarId eventId (world s))
                               with
                               | Rejected e => Some e
                               | Fulfilled _ => None
                               end |} :: tr).
    split.
    + destruct (fst (events_delete svc calendarId eventId (world s))) as [u|e];
        [exact Hrun|]. destruct (accepted _); exact Hrun.
    + split; [|by cbn; rewrite Hcalls].
      rewrite Htr. subst s1. cbn [trace]. by rewrite <- app_assoc.
Qed.

(** X25. The two ledger assertions of the test helpers answer the same
    question with opposite verdicts. On a ledger that can be read, both
    report under the given test name and never skip;
    [assertSheetRecordExists] passes exactly when some record has the
    given key, and [assertSheetRecordMissing] passes exactly when the
    other fails. When the ledger cannot be read, neither reports a
    failure: both throw the error of the read. *)
Theorem sheet_assertions_are_opposite {W} (svc : Services W)
    (spreadsheetId primaryEventId primaryCalendar name1 name2 : string) (s : State W) :
  match fst (values_get svc spreadsheetId (world s)) with
  | Fulfilled rows =>
      ∃ r1 r2 s',
        TestHelpers.assertSheetRecordExists svc spreadsheetId primaryEventId
          primaryCalendar name1 s = Some (Fulfilled r1, s')
        ∧ TestHelpers.assertSheetRecordMissing svc spreadsheetId primaryEventId
            primaryCalendar name2 s = Some (Fulfilled r2, s')
        ∧ (TestHelpers.test_status r1 = TestHelpers.Pass
           ↔ ∃ r, r ∈ parseRows rows ∧ hasKey primaryEventId primaryCalendar r)
        ∧ (TestHelpers.test_status r2 = TestHelpers.Pass
           ↔ TestHelpers.test_status r1 = TestHelpers.Fail)
        ∧ TestHelpers.test_status r1 ≠ TestHelpers.Skip
        ∧ TestHelpers.test_status r2 ≠ TestHelpers.Skip
        ∧ TestHelpers.test r1 = name1 ∧ TestHelpers.test r2 = name2
  | Rejected e =>
      ∃ s',
        TestHelpers.assertSheetRecordExists svc spreadsheetId primaryEventId
          primaryCalendar name1 s = Some (Rejected e, s')
        ∧ TestHelpers.assertSheetRecordMissing svc spreadsheetId primaryEventId
            primaryCalendar name2 s = Some (Rejected e, s')
  end.
Proof.
  unfold TestHelpers.assertSheetRecordExists, TestHelpers.assertSheetRecordMissing.
  rewrite !await_unfold, legacy_load_unfold.
  destruct (values_get svc spreadsheetId (world s)) as [[rows|e] w1]; cbn [fst].
  2: { by eexists. }
  destruct (Legacy.findRecord (parseRows rows) primaryEventId primaryCalendar)
    as [record|] eqn:Hf.
  - destruct (findRecord_first _ _ _ _ Hf) as (Hin & Hk & _).
    eexists _, _, _. split; [reflexivity|]. split; [reflexivity|].
    cbn. split_and!; try done. split; [|done]. intros _. by exists record.
  - eexists _, _, _. split; [reflexivity|]. split; [reflexivity|].
    cbn. split_and!; try done. split; [done|].
    intros (r & Hr & Hk). by destruct (proj1 (findRecord_None _ _ _) Hf r).
Qed.

(** ** The summary of a pass *)

Lemma acceptedDeletes_app tr1 tr2 :
  acceptedDeletes (tr1 ++ tr2) = acceptedDeletes tr1 ++ acceptedDeletes tr2.
Proof. apply filter_app. Qed.

Lemma refusedDeletes_app tr1 tr2 :
  refusedDeletes (tr1 ++ tr2) = refusedDeletes tr1 ++ refusedDeletes tr2.
Proof. apply filter_app. Qed.

Lemma failedCalls_app P tr1 tr2 :
  failedCalls P (tr1 ++ tr2) = failedCalls P tr1 ++ failedCalls P tr2.
Proof. apply filter_app. Qed.

Lemma Forall3_count {T R} (Rel : T → TraceEntry → Settled R → Prop)
    (P : Call → bool) (ok : TraceEntry → bool) items ts rs :
  (∀ x t r, Rel x t r →
     P (te_call t) = true
     ∧ ok t = match r with Fulfilled _ => true | Rejected _ => false end) →
  Forall3 Rel items ts rs →
  length (fulfilledValues rs) = length (filter (λ t, P (te_call t) && ok t = true) ts)
  ∧ rejectedCount rs = length (filter (λ t, P (te_call t) && negb (ok t) = true) ts)
  ∧ Forall (λ t, P (te_call t) = true) ts.
Proof.
  intros Hrel Hall. induction Hall as [|x t r items ts rs Hx Hall (IH1 & IH2 & IH3)].
  - done.
  - destruct (Hrel x t r Hx) as [HP Hok].
    rewrite fulfilledValues_cons, rejectedCount_cons, !filter_cons, HP, Hok.
    split_and!; [| |by constructor];
      destruct r; cbn; repeat case_decide; try done; cbn; lia.
Qed.

Lemma filter_requests (Q : TraceEntry → Prop) `{∀ t, Decision (Q t)} tr :
  (∀ t, Q t → isTimer (te_call t) = false) →
  filter Q tr = filter Q (requests tr).
Proof.
  intros HQ. unfold requests. rewrite list_filter_filter.
  apply list_filter_iff. intros t. split; [|tauto]. intros Ht. split; [done|]. by apply HQ.
Qed.

Lemma quiet_segment tr :
  Forall noCalendarWrite tr →
  succeeded isInsert tr = [] ∧ succeeded isUpdate tr = [] ∧ acceptedDeletes tr = []
  ∧ failedCalls isInsert tr = [] ∧ failedCalls isUpdate tr = [] ∧ refusedDeletes tr = [].
Proof.
  intros Hall. unfold succeeded, acceptedDeletes, failedCalls, refusedDeletes.
  split_and!; (eapply filter_off; [exact Hall|]); intros t Ht; unfold noCalendarWrite in Ht;
    destruct (te_call t); cbn in Ht |- *; done.
Qed.

(** The stats of a direction, read off its requests. *)
Lemma syncDirection_counts {W} (svc : Services W) evs records src tgt prefix s :
  ∃ res s' tr,
    syncDirection svc evs records src tgt prefix s = Some (Fulfilled res, s')
    ∧ trace s' = trace s ++ tr
    ∧ created (stats res) = length (succeeded isInsert tr)
    ∧ updated (stats res) = length (succeeded isUpdate tr)
    ∧ errors (stats res)
        = length (failedCalls isInsert tr) + length (failedCalls isUpdate tr)
    ∧ deleted (stats res) = 0
    ∧ acceptedDeletes tr = [] ∧ refusedDeletes tr = [].
Proof.
  destruct (syncDirection_run svc evs records src tgt prefix s)
    as (rsC & rsU & s1 & s' & trC & trU & _ & HtC & HallC & _ & HtU & HallU & Hrun).
  eexists _, s', (trC ++ trU). split; [exact Hrun|].
  split; [by rewrite HtU, HtC, app_assoc|].
  cbn [stats created updated errors deleted].
  destruct (Forall3_count (RelCreate src tgt prefix) isInsert (λ t, negb (failed t))
              _ _ _ ltac:(intros x t [p|e] [Hc Hr]; rewrite Hc; unfold failed;
                          [destruct Hr as [_ ->]|rewrite Hr]; done) HallC)
    as (HfC & HrC & HPC).
  destruct (Forall3_count (RelUpdate src tgt prefix) isUpdate (λ t, negb (failed t))
              _ _ _ ltac:(intros x t [p|e] [Hc Hr]; rewrite Hc; unfold failed;
                          [destruct Hr as [_ ->]|rewrite Hr]; done) HallU)
    as (HfU & HrU & HPU).
  assert (Hsub : ∀ (Q : TraceEntry → Prop) `{∀ t, Decision (Q t)} (P : Call → bool) tr,
             Forall (λ t, P (te_call t) = true) (requests tr) →
             (∀ t, Q t → isTimer (te_call t) = false ∧ P (te_call t) = false) →
             filter Q tr = []).
  { intros Q ? P tr HP HQ. rewrite filter_requests by (intros t Ht; by apply HQ).
    eapply filter_off; [exact HP|]. intros t Ht HQt. cbv beta in Ht.
    destruct (HQ t HQt) as [_ Hf]. congruence. }
  unfold succeeded, failedCalls, acceptedDeletes, refusedDeletes.
  rewrite !filter_app, !length_app.
  rewrite (Hsub (λ t, isUpdate (te_call t) && negb (failed t) = true) _ isInsert trC),
    (Hsub (λ t, isUpdate (te_call t) && failed t = true) _ isInsert trC),
    (Hsub (λ t, isDelete (te_call t) && accepted t = true) _ isInsert trC),
    (Hsub (λ t, isDelete (te_call t) && negb (accepted t) = true) _ isInsert trC),
    (Hsub (λ t, isInsert (te_call t) && negb (failed t) = true) _ isUpdate trU),
    (Hsub (λ t, isInsert (te_call t) && failed t = true) _ isUpdate trU),
    (Hsub (λ t, isDelete (te_call t) && accepted t = true) _ isUpdate trU),
    (Hsub (λ t, isDelete (te_call t) && negb (accepted t) = true) _ isUpdate trU);
    try done; try (intros t Ht; by destruct (te_call t)).
  rewrite (filter_requests (λ t, isInsert (te_call t) && negb (failed t) = true) trC),
    (filter_requests (λ t, isInsert (te_call t) && failed t = true) trC),
    (filter_requests (λ t, isUpdate (te_call t) && negb (failed t) = true) trU),
    (filter_requests (λ t, isUpdate (te_call t) && failed t = true) trU)
    by (intros t Ht; by destruct (te_call t)).
  rewrite HfC, HfU, HrC, HrU. cbn [length app]. rewrite !Nat.add_0_r.
  assert (Hneg : ∀ (P : Call → bool) (ts : list TraceEntry),
             filter (λ t, P (te_call t) && negb (negb (failed t)) = true) ts
             = filter (λ t, P (te_call t) && failed t = true) ts).
  { intros P ts. apply list_filter_iff. intros t. by rewrite negb_involutive. }
  rewrite !Hneg. done.
Qed.

Lemma detectAndDeleteOrphans_counts {W} (svc : Services W) evsA evsB records a b s :
  ∃ res s' tr,
    detectAndDeleteOrphans svc evsA evsB records a b s = Some (Fulfilled res, s')
    ∧ trace s' = trace s ++ tr
    ∧ orphans_deleted res = length (acceptedDeletes tr)
    ∧ orphans_errors res = length (refusedDeletes tr)
    ∧ succeeded isInsert tr = [] ∧ succeeded isUpdate tr = []
    ∧ failedCalls isInsert tr = [] ∧ failedCalls isUpdate tr = [].
Proof.
  destruct (detectAndDeleteOrphans_run svc evsA evsB records a b s)
    as (rs & s' & tr & _ & Htr & Hall & Hrun).
  eexists _, s', tr. split; [exact Hrun|]. split; [done|].
  cbn [orphans_deleted orphans_errors].
  destruct (Forall3_count RelDelete isDelete accepted _ _ _
              ltac:(intros x t [p|e] [Hc Hr]; rewrite Hc;
                    [destruct Hr as [_ ->]|destruct Hr as [_ ->]]; done) Hall)
    as (Hf & Hr & HP).
  unfold acceptedDeletes, refusedDeletes, succeeded, failedCalls.
  rewrite (filter_requests (λ t, isDelete (te_call t) && accepted t = true) tr),
    (filter_requests (λ t, isDelete (te_call t) && negb (accepted t) = true) tr),
    (filter_requests (λ t, isInsert (te_call t) && negb (failed t) = true) tr),
    (filter_requests (λ t, isUpdate (te_call t) && negb (failed t) = true) tr),
    (filter_requests (λ t, isInsert (te_call t) && failed t = true) tr),
    (filter_requests (λ t, isUpdate (te_call t) && failed t = true) tr)
    by (intros t Ht; by destruct (te_call t)).
  split; [done|]. split; [done|].
  split_and!; (eapply filter_off; [exact HP|]); intros t Ht; cbv beta in Ht;
    by destruct (te_call t).
Qed.

Lemma batchWrite_quiet {W} (svc : Services W) sid result :
  footprint noCalendarWrite (batchWrite svc sid result).
Proof.
  unfold batchWrite, batchInsertSyncedEvents, batchUpdateSyncedEvents.
  apply footprint_await.
  - destruct (pendingInserts result); [footprint_auto|].
    intros s. rewrite invoke_unfold. eexists _, _, [_].
    split; [reflexivity|]. split; [reflexivity|]. by repeat constructor.
  - intros _. destruct (pendingUpdates result); [footprint_auto|].
    intros s. cbn zeta. rewrite invoke_unfold. eexists _, _, [_].
    split; [reflexivity|]. split; [reflexivity|]. by repeat constructor.
Qed.

Lemma deleteOrphanRows_quiet {W} (svc : Services W) sid orph :
  footprint noCalendarWrite (deleteOrphanRows svc sid orph).
Proof.
  unfold deleteOrphanRows, getSheetId, batchDeleteSyncedEventRows.
  apply footprint_await; [footprint_auto|]. intros sheetId.
  destruct (map del_rowId (pendingDeletes orph)); footprint_auto.
Qed.

Lemma notifyErrors_quiet {W} (svc : Services W) bot chat ab ba orph :
  footprint noCalendarWrite (notifyErrors svc bot chat ab ba orph).
Proof.
  unfold notifyErrors, sendTelegramError. apply footprint_if; footprint_auto.
Qed.

Lemma footprint_run {W A} P (p : Promise W A) s r s' :
  footprint P p → p s = Some (r, s') → ∃ tr, trace s' = trace s ++ tr ∧ Forall P tr.
Proof.
  intros Hp Hrun. destruct (Hp s) as (r' & s1 & tr & Hrun' & Htr & HP).
  rewrite Hrun in Hrun'. injection Hrun' as _ <-. by exists tr.
Qed.

(** X26. The summary of a completed pass agrees with the requests it
    sent. The events counted as created (both directions together) are
    the create requests that succeeded, the ones counted as updated the
    update requests that succeeded, the orphans counted as deleted the
    delete requests that succeeded or were answered 410 Gone; the errors
    of the three stats together are the create and update requests that
    failed and the delete requests that were refused; neither direction
    reports a delete. *)
Theorem pass_summary_matches_requests {W} (svc : Services W) (env : Env)
    (s s' : State W) (out : SyncOutput) :
  syncGoogleCalendarsWorkflow svc env s = Some (Fulfilled out, s') →
  ∃ tr,
    trace s' = trace s ++ tr
    ∧ created (aToBStats out) + created (bToAStats out) = length (succeeded isInsert tr)
    ∧ updated (aToBStats out) + updated (bToAStats out) = length (succeeded isUpdate tr)
    ∧ fst (deletionStats out) = length (acceptedDeletes tr)
    ∧ errors (aToBStats out) + errors (bToAStats out) + snd (deletionStats out)
        = length (failedCalls isInsert tr) + length (failedCalls isUpdate tr)
          + length (refusedDeletes tr)
    ∧ deleted (aToBStats out) = 0 ∧ deleted (bToAStats out) = 0.
Proof.
  intros Hwf.
  destruct (passBody_unfold svc env s)
    as (fa & fb & s1 & rl & s2 & t1 & t2 & t3 & _ & _ & _ & _ & Htr0
        & Ht1 & Ht2 & Ht3 & _).
  destruct (pass_stages svc env s out s' Hwf)
    as (fa' & fb' & s1' & records & s2' & Hf & _ & _ & Hl & Hrec).
  destruct (passBody_unfold svc env s)
    as (fa0 & fb0 & s10 & rl0 & s20 & u1 & u2 & u3 & Hf0 & _ & _ & Hl0 & Htr
        & Hu1 & Hu2 & Hu3 & _).
  cbv zeta in Hf, Hl, Hf0, Hl0.
  rewrite Hf in Hf0. injection Hf0 as <- <- <-.
  rewrite Hl in Hl0. injection Hl0 as <- <-.
  clear fa fb s1 rl s2 t1 t2 t3 Htr0 Ht1 Ht2 Ht3.
  destruct (reconcile_stages svc env _ _ records s2' out s' Hrec)
    as (ab & s3 & s4 & ba & s5 & s6 & orph & s7 & s8
        & HAB & HW1 & HBA & HW2 & HD & HR & HN & ->).
  cbv zeta in HAB, HW1, HBA, HW2, HD, HR, HN.
  destruct (syncDirection_counts svc (valueOrEmpty fa') records
              (default "" (CALENDAR_A_ID env)) (default "" (CALENDAR_B_ID env))
              (default "[A]" (CALENDAR_A_PREFIX env)) s2')
    as (ab' & s3' & trAB & HAB' & HtAB & HcAB & HuAB & HeAB & HdAB & HaAB & HrAB).
  rewrite HAB in HAB'. injection HAB' as <- <-.
  destruct (footprint_run _ _ _ _ _ (batchWrite_quiet svc _ ab) HW1) as (trW1 & HtW1 & HqW1).
  destruct (syncDirection_counts svc (valueOrEmpty fb') records
              (default "" (CALENDAR_B_ID env)) (default "" (CALENDAR_A_ID env))
              (default "[B]" (CALENDAR_B_PREFIX env)) s4)
    as (ba' & s5' & trBA & HBA' & HtBA & HcBA & HuBA & HeBA & HdBA & HaBA & HrBA).
  rewrite HBA in HBA'. injection HBA' as <- <-.
  destruct (footprint_run _ _ _ _ _ (batchWrite_quiet svc _ ba) HW2) as (trW2 & HtW2 & HqW2).
  destruct (detectAndDeleteOrphans_counts svc (valueOrEmpty fa') (valueOrEmpty fb') records
              (default "" (CALENDAR_A_ID env)) (default "" (CALENDAR_B_ID env)) s6)
    as (orph' & s7' & trD & HD' & HtD & HdD & HeD & HciD & HcuD & HfiD & HfuD).
  rewrite HD in HD'. injection HD' as <- <-.
  destruct (footprint_run _ _ _ _ _ (deleteOrphanRows_quiet svc _ orph) HR)
    as (trR & HtR & HqR).
  destruct (footprint_run _ _ _ _ _ (notifyErrors_quiet svc _ _ _ _ orph) HN)
    as (trN & HtN & HqN).
  destruct (quiet_segment trW1 HqW1) as (Q11 & Q12 & Q13 & Q14 & Q15 & Q16).
  destruct (quiet_segment trW2 HqW2) as (Q21 & Q22 & Q23 & Q24 & Q25 & Q26).
  destruct (quiet_segment trR HqR) as (Q31 & Q32 & Q33 & Q34 & Q35 & Q36).
  destruct (quiet_segment trN HqN) as (Q41 & Q42 & Q43 & Q44 & Q45 & Q46).
  assert (Hq0 : Forall noCalendarWrite [u1; u2; u3]).
  { repeat constructor; unfold noCalendarWrite; by rewrite ?Hu1, ?Hu2, ?Hu3. }
  destruct (quiet_segment _ Hq0) as (Q01 & Q02 & Q03 & Q04 & Q05 & Q06).
  exists ([u1; u2; u3] ++ trAB ++ trW1 ++ trBA ++ trW2 ++ trD ++ trR ++ trN).
  split.
  { rewrite HtN, HtR, HtD, HtW2, HtBA, HtW1, HtAB, Htr. by rewrite <- !app_assoc. }
  rewrite !succeeded_app, !acceptedDeletes_app, !refusedDeletes_app, !failedCalls_app.
  rewrite Q01, Q02, Q03, Q04, Q05, Q06, Q11, Q12, Q13, Q14, Q15, Q16,
    Q21, Q22, Q23, Q24, Q25, Q26, Q31, Q32, Q33, Q34, Q35, Q36,
    Q41, Q42, Q43, Q44, Q45, Q46, HaAB, HrAB, HaBA, HrBA, HciD, HcuD, HfiD, HfuD.
  rewrite ?app_nil_r, ?app_nil_l, !length_app.
  cbn [aToBStats bToAStats deletionStats fst snd length app].
  split_and!; try done; lia.
Qed.

Lemma pass_summary_matches_requests_witness :
  ∃ out s' tr,
    syncGoogleCalendarsWorkflow (gservices noFaults) exampleEnv (startOf busyWorld)
      = Some (Fulfilled out, s')
    ∧ trace s' = trace (startOf busyWorld) ++ tr
    ∧ created (aToBStats out) + created (bToAStats out) = length (succeeded isInsert tr)
    ∧ fst (deletionStats out) = length (acceptedDeletes tr).
Proof.
  destruct (syncGoogleCalendarsWorkflow (gservices noFaults) exampleEnv
              (startOf busyWorld)) as [[[out|e] s']|] eqn:Hrun.
  - destruct (pass_summary_matches_requests _ _ _ _ _ Hrun)
      as (tr & Htr & Hc & _ & Hd & _).
    exists out, s', tr. split; [reflexivity|]. split; [exact Htr|].
    split; [exact Hc|exact Hd].
  - exfalso. vm_compute in Hrun. discriminate Hrun.
  - exfalso. vm_compute in Hrun. discriminate Hrun.
Defined.


(** * Spreadsheet initialisation *)

Lemma schema_bind_unfold {W A B} (p : Schema.Run W A) (k : A → Schema.Run W B) s :
  Schema.bind p k s =
  match p s with
  | (Fulfilled a, s') => k a s'
  | (Rejected e, s') => (Rejected e, s')
  end.
Proof. reflexivity. Qed.

Lemma schema_call_unfold {W A} r (h : W → Settled A * W) w log :
  Schema.call r h (w, log) = (fst (h w), (snd (h w), log ++ [r])).
Proof. unfold Schema.call. cbn [fst snd]. by destruct (h w). Qed.

(** On a spreadsheet that lists the ledger sheet and whose header row is
    in place, [initSchema] only reads. *)
Lemma initSchema_reads_only {W} (api : Schema.Api W) sid w log :
  (∀ w, snd (Schema.spreadsheets_get api sid w) = w) →
  (∀ w, snd (Schema.header_get api sid w) = w) →
  Schema.listed api sid w → Schema.headed api sid w →
  Schema.initSchema api sid (w, log)
  = (Fulfilled tt, (w, log ++ [Schema.RSpreadsheetsGet sid; Schema.RHeaderGet sid])).
Proof.
  intros Hg Hh (sheets & found & Hsheets & Hfound) (values & Hvalues & Hhead).
  unfold Schema.initSchema.
  rewrite schema_bind_unfold, schema_call_unfold, Hsheets, Hg.
  rewrite schema_bind_unfold, Hfound. cbn [Schema.ret].
  rewrite schema_bind_unfold, schema_call_unfold, Hvalues, Hh, Hhead. cbn [Schema.ret].
  by rewrite <- app_assoc.
Qed.

(** X27. [initSchema] is idempotent on a client that behaves: if the two
    reads change nothing, a successful rename or added sheet makes the
    ledger sheet listed, and a successful header write puts the header in
    place, then after a run that fulfils the ledger sheet is listed and its
    header row starts with the first header, and a second run sends the
    two reads only and leaves the spreadsheet as it is. The first run
    sends at most four requests. *)
Theorem initSchema_idempotent {W} (api : Schema.Api W) (spreadsheetId : string)
    (w w1 : W) (log log1 : list Schema.Request) :
  Schema.wellBehaved api spreadsheetId →
  Schema.initSchema api spreadsheetId (w, log) = (Fulfilled tt, (w1, log1)) →
  Schema.listed api spreadsheetId w1
  ∧ Schema.headed api spreadsheetId w1
  ∧ Schema.initSchema api spreadsheetId (w1, log1)
    = (Fulfilled tt,
       (w1, log1 ++ [Schema.RSpreadsheetsGet spreadsheetId;
                     Schema.RHeaderGet spreadsheetId]))
  ∧ ∃ sent, log1 = log ++ sent ∧ length sent ≤ 4.
Proof.
  intros [Hg Hh Hren Hadd Hhdr] Hrun.
  assert (Hfirst : Schema.listed api spreadsheetId w1 ∧ Schema.headed api spreadsheetId w1
                   ∧ ∃ sent, log1 = log ++ sent ∧ length sent ≤ 4).
  { revert Hrun. unfold Schema.initSchema.
    rewrite schema_bind_unfold, schema_call_unfold.
    destruct (Schema.spreadsheets_get api spreadsheetId w) as [[sheets|e] w0] eqn:Hsheets;
      cbn [fst snd]; [|done].
    assert (w0 = w) as -> by (by rewrite <- (Hg w), Hsheets).
    rewrite schema_bind_unfold.
    assert (Hstruct : ∀ w2 log2,
              Schema.listed api spreadsheetId w2 →
              (∃ sent, log2 = log ++ sent ∧ length sent ≤ 2) →
              Schema.bind (Schema.call (Schema.RHeaderGet spreadsheetId)
                             (Schema.header_get api spreadsheetId))
                (λ values, if Schema.headerPresent (Schema.firstOf values)
                           then Schema.ret tt
                           else Schema.call
                                  (Schema.RHeaderUpdate spreadsheetId [HEADERS])
                                  (Schema.header_update api spreadsheetId [HEADERS]))
                (w2, log2) = (Fulfilled tt, (w1, log1)) →
              Schema.listed api spreadsheetId w1 ∧ Schema.headed api spreadsheetId w1
              ∧ ∃ sent, log1 = log ++ sent ∧ length sent ≤ 4).
    { intros w2 log2 Hl (sent & -> & Hlen).
      rewrite schema_bind_unfold, schema_call_unfold.
      destruct (Schema.header_get api spreadsheetId w2) as [[values|e] w3] eqn:Hvalues;
        cbn [fst snd]; [|done].
      assert (w3 = w2) as -> by (by rewrite <- (Hh w2), Hvalues).
      destruct (Schema.headerPresent (Schema.firstOf values)) eqn:Hp.
      - intros [= <- <-]. split; [done|]. split.
        + exists values. by rewrite Hvalues.
        + exists (sent ++ [Schema.RHeaderGet spreadsheetId]).
          rewrite app_assoc, length_app. cbn. split; [done|lia].
      - rewrite schema_call_unfold.
        destruct (Schema.header_update api spreadsheetId [HEADERS] w2)
          as [[[]|e] w4] eqn:Hupd; cbn [fst snd]; [|done].
        intros [= <- <-]. destruct (Hhdr _ _ Hupd) as [Hhd Hkeep].
        split; [by apply Hkeep|]. split; [done|].
        exists (sent ++ [Schema.RHeaderGet spreadsheetId;
                         Schema.RHeaderUpdate spreadsheetId [HEADERS]]).
        rewrite <- !app_assoc, length_app. cbn. split; [done|lia]. }
    destruct (Schema.findLedger sheets) as [found|] eqn:Hfound.
    - cbn [Schema.ret]. apply Hstruct.
      + exists sheets, found. by rewrite Hsheets.
      + exists [Schema.RSpreadsheetsGet spreadsheetId]. cbn. split; [done|lia].
    - destruct (Schema.isDefaultSheet sheets).
      + rewrite schema_call_unfold.
        destruct (Schema.updateSheetProperties api spreadsheetId _ SHEET_NAME w)
          as [[[]|e] w2] eqn:Hr; cbn [fst snd]; [|done].
        apply Hstruct; [by eapply Hren|].
        eexists [_; _]. rewrite <- app_assoc. cbn. split; [done|lia].
      + rewrite schema_call_unfold.
        destruct (Schema.addSheet api spreadsheetId SHEET_NAME w)
          as [[[]|e] w2] eqn:Hr; cbn [fst snd]; [|done].
        apply Hstruct; [by eapply Hadd|].
        eexists [_; _]. rewrite <- app_assoc. cbn. split; [done|lia]. }
  destruct Hfirst as (Hl & Hhd & Hsent). split; [done|]. split; [done|].
  split; [by apply initSchema_reads_only|done].
Qed.

(** ** The workbook model behaves *)

Lemma findLedger_workbook (w : Schema.Workbook) :
  Schema.findLedger (Some (map Schema.sheetOf w))
  = Schema.sheetOf <$> find Schema.isLedger w.
Proof.
  unfold Schema.findLedger. induction w as [|t w IH]; [done|]. cbn [map find].
  unfold Schema.isLedger at 1.
  replace (bool_decide (Schema.sheetTitle (Schema.sheetOf t) = Some SHEET_NAME))
    with (String.eqb (Schema.tab_title t) SHEET_NAME).
  - destruct (String.eqb _ _); [done|exact IH].
  - cbn. destruct (String.eqb_spec (Schema.tab_title t) SHEET_NAME) as [->|Hne].
    + by rewrite bool_decide_eq_true_2.
    + rewrite bool_decide_eq_false_2; [done|]. by intros [= ?].
Qed.

Lemma workbook_listed sid (w : Schema.Workbook) :
  Schema.listed Schema.workbookApi sid w ↔ ∃ t, find Schema.isLedger w = Some t.
Proof.
  unfold Schema.listed. cbn [Schema.spreadsheets_get Schema.workbookApi fst]. split.
  - intros (sheets & found & [= <-] & Hf). rewrite findLedger_workbook in Hf.
    destruct (find Schema.isLedger w) as [t|]; [by exists t|done].
  - intros (t & Ht). exists (Some (map Schema.sheetOf w)), (Schema.sheetOf t).
    split; [done|]. by rewrite findLedger_workbook, Ht.
Qed.

Lemma find_isLedger_map (f : Schema.Tab → Schema.Tab) (w : Schema.Workbook) t :
  (∀ x, Schema.isLedger x = true → Schema.isLedger (f x) = true) →
  find Schema.isLedger w = Some t → ∃ t', find Schema.isLedger (map f w) = Some t'.
Proof.
  intros Hf. induction w as [|x w IH]; [done|]. cbn [map find].
  destruct (Schema.isLedger x) eqn:Hx.
  - intros _. rewrite (Hf x Hx). by eexists.
  - intros Ht. destruct (Schema.isLedger (f x)); [by eexists|by apply IH].
Qed.

Lemma workbookApi_wellBehaved sid : Schema.wellBehaved Schema.workbookApi sid.
Proof.
  split.
  - done.
  - intros w. cbn. by destruct (find Schema.isLedger w).
  - intros [i|] w w'; cbn; [|done].
    destruct (existsb _ w) eqn:Hex; cbn [andb]; [|done].
    destruct (negb _); [|done]. intros [= <-]. apply workbook_listed.
    apply existsb_exists in Hex as (t & Hin & Hid).
    clear -Hin Hid. induction w as [|x w IH]; [by destruct Hin|]. cbn [map find].
    destruct (Schema.isLedger (Schema.rename i SHEET_NAME x)) eqn:Hx; [by eexists|].
    destruct Hin as [->|Hin]; [|by apply IH].
    unfold Schema.rename in Hx. rewrite Hid in Hx. by cbn in Hx.
  - intros w w'. cbn. destruct (existsb _ w); [done|]. intros [= <-].
    apply workbook_listed.
    assert (Hnew : ∀ (l : Schema.Workbook) n,
              ∃ t, find Schema.isLedger
                     (l ++ [{| Schema.tab_title := SHEET_NAME; Schema.tab_id := n;
                               Schema.tab_rows := [] |}]) = Some t).
    { induction l as [|x l IH]; intros n; cbn [app find].
      - by eexists.
      - destruct (Schema.isLedger x); [by eexists|apply IH]. }
    apply Hnew.
  - intros w w'. cbn. destruct (find Schema.isLedger w) as [t|] eqn:Ht; [|done].
    intros [= <-]. split.
    + unfold Schema.headed. cbn [Schema.header_get Schema.workbookApi].
      assert (Hf : ∃ t', find Schema.isLedger (map (Schema.setHeader HEADERS) w) = Some t'
                         ∧ ∃ rest, Schema.tab_rows t' = HEADERS :: rest).
      { assert (Hsame : ∀ x, Schema.isLedger (Schema.setHeader HEADERS x)
                             = Schema.isLedger x).
        { intros x. unfold Schema.setHeader. by destruct (Schema.isLedger x) eqn:Hx. }
        clear -Ht Hsame. induction w as [|x w IH]; [done|]. cbn [map find] in *.
        rewrite Hsame. destruct (Schema.isLedger x) eqn:Hx; [|by apply IH].
        eexists. split; [done|]. unfold Schema.setHeader. rewrite Hx. by eexists. }
      destruct Hf as (t' & -> & rest & ->). by eexists.
    + intros _. apply workbook_listed.
      eapply find_isLedger_map; [|exact Ht].
      intros x Hx. unfold Schema.setHeader. by rewrite Hx.
Qed.

Lemma initSchema_idempotent_witness :
  ∃ w1 log1,
    Schema.initSchema Schema.workbookApi "ledger" (Schema.newWorkbook, [])
      = (Fulfilled tt, (w1, log1))
    ∧ map Schema.tab_title w1 = [SHEET_NAME]
    ∧ Schema.initSchema Schema.workbookApi "ledger" (w1, log1)
      = (Fulfilled tt,
         (w1, log1 ++ [Schema.RSpreadsheetsGet "ledger"; Schema.RHeaderGet "ledger"])).
Proof.
  eexists _, _. split; [vm_compute; reflexivity|]. split; [reflexivity|].
  apply (initSchema_idempotent Schema.workbookApi "ledger" Schema.newWorkbook _ [] _
           (workbookApi_wellBehaved "ledger")).
  vm_compute. reflexivity.
Defined.

(** X28. The initialisation workflow leaves a ledger in use alone. When
    the reads change nothing, the ledger sheet is listed and its header
    row is in place, [initDatabaseWorkflow] sends three reads and no other
    request, and reports success with the number of records the rows
    hold. It has no [catch]: when [initSchema] is refused, the workflow is
    rejected with that error, and the rows are not read. *)
Theorem initDatabaseWorkflow_reads_only {W} (api : Schema.Api W) (env : Env)
    (w : W) (log : list Schema.Request) :
  let sid := default "" (SPREADSHEET_ID env) in
  ((∀ w, snd (Schema.spreadsheets_get api sid w) = w) →
   (∀ w, snd (Schema.header_get api sid w) = w) →
   Schema.listed api sid w → Schema.headed api sid w →
   ∀ rows w', Schema.values_get api sid w = (Fulfilled rows, w') →
     Schema.initDatabaseWorkflow api env (w, log)
     = (Fulfilled {| Schema.success := true; Schema.message := "Schema initialized";
                     Schema.rowCount := length (parseRows rows) |},
        (w', log ++ [Schema.RSpreadsheetsGet sid; Schema.RHeaderGet sid;
                     Schema.RValuesGet sid])))
  ∧ (∀ e s', Schema.initSchema api sid (w, log) = (Rejected e, s') →
       Schema.initDatabaseWorkflow api env (w, log) = (Rejected e, s')).
Proof.
  intros sid. split.
  - intros Hg Hh Hl Hhd rows w' Hrows.
    unfold Schema.initDatabaseWorkflow, Schema.createSchema, Schema.verifySchema.
    fold sid. rewrite schema_bind_unfold, (initSchema_reads_only api sid w log Hg Hh Hl Hhd).
    rewrite !schema_bind_unfold, schema_call_unfold, Hrows. cbn [fst snd Schema.ret].
    by rewrite <- app_assoc.
  - intros e s' Hrej.
    unfold Schema.initDatabaseWorkflow, Schema.createSchema. fold sid.
    by rewrite schema_bind_unfold, Hrej.
Qed.

